(** * Multitrack audio visualizer: extraction, compositing, export

    A shallow embedding of the audio-to-pixel pipeline of the visualizer
    ([src/core/AudioTrack.ts], [src/rendering/WaveformRenderer.ts],
    [src/export/VideoExporter.ts], [cli/adapters/CLIAudioEngine.ts]) and the
    properties its specification states about it.

    Numbers.  A JavaScript [number] is modelled by a rational ([Q]);
    sample indices, which the code obtains with [Math.floor] and
    [Math.ceil], are integers ([Z]); array lengths and loop counters are
    [nat].  The arithmetic on sample values and on times is the exact one:
    its rounding, and the rounding of [Float32Array] stores, is not
    modelled.  The arithmetic on sample counts is rounded as the code
    rounds it: where a quotient or a product of integers becomes a sample
    index or a duration (the bucket bounds of the waveform extractor, the
    duration of a loaded file) every operation is followed by [round64],
    the rounding of IEEE 754 binary64.  The spectrum extractor needs [cos],
    [sin] and [sqrt]; it is stated over the real numbers, the rational
    samples being injected with [Q2R].

    Arrays.  A [Float32Array] is a [list]; [new Float32Array(n)] is
    [repeat 0 n]; a loop [for (i = 0; i < n; i++) a[i] = e] that fills a
    fresh array is [map (fun i => e) (seq 0 n)]. *)

From Stdlib Require Import ZArith QArith Qround Qabs Qminmax Qpower.
From Stdlib Require Import List Bool String Lia Lqa Reals Lra Psatz.
From Stdlib Require Import Ascii DecimalString.
From Stdlib Require SpecFloat.
From Equations Require Import Equations.
Import ListNotations.

Local Open Scope Q_scope.

(* ================================================================== *)
(** ** Track store *)
(* ================================================================== *)

(** The decoded audio handed over by the decoder (Web Audio [AudioBuffer],
    or the CLI's [CLIAudioBuffer]).  A buffer always has a first channel;
    [numberOfChannels] and [length] are derived as [loadTrack] derives them. *)
Record AudioBuffer : Type := mkAudioBuffer {
  duration : Q;
  sampleRate : Q;
  channel0 : list Q;
  otherChannels : list (list Q)
}.

Definition numberOfChannels (b : AudioBuffer) : nat :=
  S (List.length (otherChannels b)).

Definition bufferLength (b : AudioBuffer) : nat := List.length (channel0 b).

(** [getChannelData(1)], only called when [numberOfChannels > 1]. *)
Definition channel1 (b : AudioBuffer) : list Q := nth 0 (otherChannels b) [].

(** The visual attributes the pipeline reads; [id] and [name] play no role. *)
Record AudioTrack : Type := mkAudioTrack {
  buffer : AudioBuffer;
  color : string;
  opacity : Q
}.

(** The invariant of the data model: positive sample rate, all channels of
    one length, [duration = lengthInSamples / sampleRate]. *)
Definition wfBuffer (b : AudioBuffer) : Prop :=
  0 < sampleRate b /\
  duration b == inject_Z (Z.of_nat (bufferLength b)) / sampleRate b /\
  Forall (fun c => List.length c = bufferLength b) (otherChannels b).

(** Read of a typed array at an index the code has checked to be in range. *)
Definition sampleAt (a : list Q) (j : Z) : Q := nth (Z.to_nat j) a 0.

Definition ofNat (n : nat) : Q := inject_Z (Z.of_nat n).

(* ================================================================== *)
(** ** Doubles *)
(* ================================================================== *)

(** The nearest integer, a tie going to the even one. *)
Definition roundHalfEven (x : Q) : Z :=
  let f := Qfloor x in
  match Qcompare (x - inject_Z f) (1 # 2) with
  | Lt => f
  | Gt => (f + 1)%Z
  | Eq => if Z.even f then f else (f + 1)%Z
  end.

(** The exponent [e] of the last of the 53 significant bits of [x <> 0]:
    [2^52 <= |x| / 2^e < 2^53].  With [c = log2 |numerator| -
    log2 denominator] the magnitude [|x|] lies between [2^(c-1)] and
    [2^(c+1)], so [e] is [c - 53] or [c - 52]. *)
Definition ulpExponent (x : Q) : Z :=
  let e := (Z.log2 (Z.abs (Qnum x)) - Z.log2 (Zpos (Qden x)) - 53)%Z in
  if Qlt_le_dec (Qabs x / 2 ^ e) (2 ^ 53) then e else (e + 1)%Z.

(** The double nearest to [x] (round to nearest, ties to even): the result
    of a JavaScript [*] or [/] whose exact value is [x].  The exponent is
    not bounded: overflow to [Infinity] (from [2^1024] on) and the coarser
    grid of the subnormal numbers (below [2^-1022]) are not modelled; the
    quotients and products of sample counts are far from both. *)
Definition round64 (x : Q) : Q :=
  if Qeq_bool x 0 then 0
  else
    let e := ulpExponent x in
    inject_Z (roundHalfEven (x / 2 ^ e)) * 2 ^ e.

(** The same operations in the standard library's specification of
    IEEE 754 ([SpecFloat], precision 53, maximal exponent 1024), against
    which [round64] is compared below: the double of an integer, and the
    rational value of a finite double. *)
Definition binary64 (n : Z) : SpecFloat.spec_float :=
  SpecFloat.binary_normalize 53 1024 n 0 false.

Definition divide64 : SpecFloat.spec_float -> SpecFloat.spec_float
                      -> SpecFloat.spec_float :=
  SpecFloat.SFdiv 53 1024.

Definition multiply64 : SpecFloat.spec_float -> SpecFloat.spec_float
                        -> SpecFloat.spec_float :=
  SpecFloat.SFmul 53 1024.

Definition floatValue (x : SpecFloat.spec_float) : option Q :=
  match x with
  | SpecFloat.S754_zero _ => Some 0
  | SpecFloat.S754_finite s m e =>
      Some ((if s then - inject_Z (Zpos m) else inject_Z (Zpos m)) * 2 ^ e)
  | _ => None
  end.

Definition hasValue (x : SpecFloat.spec_float) (q : Q) : bool :=
  match floatValue x with
  | Some v => Qeq_bool v q
  | None => false
  end.

(* ================================================================== *)
(** ** Waveform extractor ([AudioTrack.getWaveformDataForTimeWindow]) *)
(* ================================================================== *)

(** Lines 84-96: the time window and its conversion to sample indices. *)
Definition waveformSampleWindow (t : AudioTrack)
    (currentTime windowDuration : Q) : Z * Z :=
  let channelData := channel0 (buffer t) in
  let sampleRate := sampleRate (buffer t) in
  let '(startTime, endTime) :=
    if Qlt_le_dec currentTime windowDuration
    then (0, Qmin windowDuration (duration (buffer t)))
    else (currentTime - windowDuration, currentTime) in
  let startSample := Qfloor (startTime * sampleRate) in
  let endSample :=
    Z.min (Qfloor (endTime * sampleRate)) (Z.of_nat (List.length channelData)) in
  (startSample, endSample).

(** Lines 112-120: the inner loop [for (j = start; j < end; j++)], [n] the
    number of iterations left, [max] the running peak. *)
Fixpoint peakLoop (channelData : list Q) (j : Z) (n : nat) (max : Q) : Q :=
  match n with
  | O => max
  | S n' =>
      let max' :=
        if (0 <=? j)%Z && (j <? Z.of_nat (List.length channelData))%Z then
          let abs := Qabs (sampleAt channelData j) in
          if Qlt_le_dec max abs then abs else max
        else max in
      peakLoop channelData (j + 1) n' max'
  end.

Definition bucketPeak (channelData : list Q) (start stop : Z) : Q :=
  peakLoop channelData start (Z.to_nat (stop - start)) 0.

(** Bounds of bucket [i], lines 108-109:
    [startSample + Math.floor(i * samplesPerPixel)] and
    [Math.min(startSample + Math.floor((i + 1) * samplesPerPixel),
    endSample)].  The products are doubles; [i + 1] and the sums of
    integers are exact. *)
Definition bucketStart (startSample : Z) (samplesPerPixel : Q) (i : nat) : Z :=
  startSample + Qfloor (round64 (ofNat i * samplesPerPixel)).

Definition bucketEnd (startSample endSample : Z) (samplesPerPixel : Q)
    (i : nat) : Z :=
  Z.min (startSample + Qfloor (round64 ((ofNat i + 1) * samplesPerPixel)))
        endSample.

(** Lines 105-123: the downsampling loop, [samplesPerPixel] being the
    double [totalSamples / targetWidth]. *)
Definition downsample (channelData : list Q) (startSample endSample : Z)
    (targetWidth : nat) : list Q :=
  let totalSamples := (endSample - startSample)%Z in
  let samplesPerPixel := round64 (inject_Z totalSamples / ofNat targetWidth) in
  map (fun i =>
         bucketPeak channelData
           (bucketStart startSample samplesPerPixel i)
           (bucketEnd startSample endSample samplesPerPixel i))
      (seq 0 targetWidth).

(** ** Smoothing filter ([AudioTrack.applySmoothingFilter]) *)

(** The offsets [j = -halfWindow .. halfWindow] of the inner loop. *)
Definition windowOffsets (halfWindow : nat) : list Z :=
  map (fun d => (Z.of_nat d - Z.of_nat halfWindow)%Z)
      (seq 0 (2 * halfWindow + 1)).

(** Lines 148-158: [sum] and [count] over the in-bounds neighbours of [i]. *)
Definition windowSumCount (original : list Q) (halfWindow : nat) (i : nat)
    : Q * nat :=
  fold_left
    (fun (acc : Q * nat) (j : Z) =>
       let index := (Z.of_nat i + j)%Z in
       if (0 <=? index)%Z && (index <? Z.of_nat (List.length original))%Z
       then (fst acc + sampleAt original index, S (snd acc))
       else acc)
    (windowOffsets halfWindow) (0, O).

Definition applySmoothingFilter (waveform : list Q) (level : nat) : list Q :=
  let windowSize := (1 + level * 2)%nat in
  let halfWindow := (windowSize / 2)%nat in
  let original := waveform in
  map (fun i =>
         let '(sum, count) := windowSumCount original halfWindow i in
         if (0 <? count)%nat then sum / ofNat count else nth i original 0)
      (seq 0 (List.length waveform)).

Definition getWaveformDataForTimeWindow (t : AudioTrack)
    (currentTime windowDuration : Q) (targetWidth smoothingLevel : nat)
    : list Q :=
  let channelData := channel0 (buffer t) in
  let '(startSample, endSample) :=
    waveformSampleWindow t currentTime windowDuration in
  let totalSamples := (endSample - startSample)%Z in
  if (totalSamples <=? 0)%Z then repeat 0 targetWidth
  else
    let waveform := downsample channelData startSample endSample targetWidth in
    if (0 <? smoothingLevel)%nat
    then applySmoothingFilter waveform smoothingLevel
    else waveform.

(** The helper of the test-suite ([AudioTrack.test.ts], [calculateVariance]). *)
Definition sumQ (data : list Q) : Q := fold_left Qplus data 0.

Definition calculateVariance (data : list Q) : Q :=
  let n := ofNat (List.length data) in
  let mean := sumQ data / n in
  fold_left (fun sum v => sum + (v - mean) * (v - mean)) data 0 / n.

(* ================================================================== *)
(** ** Spectrum extractor ([AudioTrack.getFrequencySpectrumForTimeWindow]) *)
(* ================================================================== *)

(** Lines 183-193: the same window computation, written out a second time
    in the source. *)
Definition spectrumSampleWindow (t : AudioTrack)
    (currentTime windowDuration : Q) : Z * Z :=
  let channelData := channel0 (buffer t) in
  let sampleRate := sampleRate (buffer t) in
  let '(startTime, endTime) :=
    if Qlt_le_dec currentTime windowDuration
    then (0, Qmin windowDuration (duration (buffer t)))
    else (currentTime - windowDuration, currentTime) in
  let startSample := Qfloor (startTime * sampleRate) in
  let endSample :=
    Z.min (Qfloor (endTime * sampleRate)) (Z.of_nat (List.length channelData)) in
  (startSample, endSample).

Section Spectrum.
Local Open Scope R_scope.

(** Lines 244-250: [even[i] = input[2i]], [odd[i] = input[2i+1]]. *)
Definition evenSamples (input : list R) : list R :=
  map (fun i => nth (i * 2) input 0) (seq 0 (List.length input / 2)).

Definition oddSamples (input : list R) : list R :=
  map (fun i => nth (i * 2 + 1) input 0) (seq 0 (List.length input / 2)).

(** Lines 255-272: the combination loop.  The output holds the interleaved
    pairs (real, imaginary); iteration [k] writes the pairs of index [k] and
    [k + N/2].  For even [N] and halves of [N] cells these are all [2N]
    cells of the output, and this is the source's loop.  For odd [N] the
    source loops up to the fraction [N / 2], reads past the end of the
    halves and stores [NaN]; the reals have no [NaN], and [butterfly] is
    not the source's loop there. *)
Definition butterfly (N : nat) (evenFFT oddFFT : list R) : list R :=
  let half := (N / 2)%nat in
  let tReal (k : nat) :=
    let angle := (-2 * PI * INR k) / INR N in
    cos angle * nth (k * 2) oddFFT 0 - sin angle * nth (k * 2 + 1) oddFFT 0 in
  let tImag (k : nat) :=
    let angle := (-2 * PI * INR k) / INR N in
    sin angle * nth (k * 2) oddFFT 0 + cos angle * nth (k * 2 + 1) oddFFT 0 in
  flat_map (fun k => [nth (k * 2) evenFFT 0 + tReal k;
                      nth (k * 2 + 1) evenFFT 0 + tImag k]) (seq 0 half)
  ++
  flat_map (fun k => [nth (k * 2) evenFFT 0 - tReal k;
                      nth (k * 2 + 1) evenFFT 0 - tImag k]) (seq 0 half).

(** Lines 237-275: the recursive transform; it terminates because each
    half is shorter than an input of two or more samples.  It is the
    source's [fft] on the inputs whose length is a power of two, the only
    ones the recursion then meets; on the other lengths the source returns
    cells that are [NaN], which [fft] here does not.  The statements about
    the values of a spectrum are made for FFT sizes that are powers of
    two. *)
Equations? fft (input : list R) : list R by wf (List.length input) lt :=
  fft input with le_lt_dec (List.length input) 1 := {
    | left _ => [nth 0 input 0; 0]
    | right _ =>
        butterfly (List.length input)
          (fft (evenSamples input)) (fft (oddSamples input)) }.
Proof.
  - unfold evenSamples. rewrite length_map, length_seq.
    apply Nat.div_lt; lia.
  - unfold oddSamples. rewrite length_map, length_seq.
    apply Nat.div_lt; lia.
Qed.

(** Line 214: the window function. *)
Definition hann (fftSize i : nat) : R :=
  0.5 * (1 - cos ((2 * PI * INR i) / (INR fftSize - 1))).

(** Lines 202-210: nearest-index resampling of the window.  The source
    guards the upper bound of [sampleIndex] only; the index is never
    negative when the sample rate is not (the window starts at sample 0 or
    later).  At the FFT sizes that are powers of two the quotient
    [totalSamples / fftSize] and its products with [i] are doubles already
    ([power_of_two_quotient_exact] below), so no [round64] is written. *)
Definition resampleWindow (channelData : list Q) (startSample endSample : Z)
    (fftSize : nat) : list R :=
  let totalSamples := (endSample - startSample)%Z in
  let samplesPerPixel := (inject_Z totalSamples / ofNat fftSize)%Q in
  map (fun i =>
         let sampleIndex :=
           (startSample + Qfloor (ofNat i * samplesPerPixel))%Z in
         if (sampleIndex <? Z.of_nat (List.length channelData))%Z
         then Q2R (sampleAt channelData sampleIndex)
         else 0)
      (seq 0 fftSize).

(** Lines 213-216. *)
Definition applyHann (audioWindow : list R) (fftSize : nat) : list R :=
  map (fun i => nth i audioWindow 0 * hann fftSize i) (seq 0 fftSize).

(** Lines 222-227. *)
Definition magnitudeSpectrum (spectrum : list R) (fftSize : nat) : list R :=
  map (fun i =>
         let real := nth (i * 2) spectrum 0 in
         let imag := nth (i * 2 + 1) spectrum 0 in
         sqrt (real * real + imag * imag))
      (seq 0 (fftSize / 2)).

Definition getFrequencySpectrumForTimeWindow (t : AudioTrack)
    (currentTime windowDuration : Q) (fftSize : nat) : list R :=
  let channelData := channel0 (buffer t) in
  let '(startSample, endSample) :=
    spectrumSampleWindow t currentTime windowDuration in
  let totalSamples := (endSample - startSample)%Z in
  if (totalSamples <? Z.of_nat fftSize)%Z then repeat 0 (fftSize / 2)
  else
    let audioWindow :=
      resampleWindow channelData startSample endSample fftSize in
    let audioWindow := applyHann audioWindow fftSize in
    let spectrum := fft audioWindow in
    magnitudeSpectrum spectrum fftSize.

End Spectrum.

(* ================================================================== *)
(** ** Compositor ([WaveformRenderer]) *)
(* ================================================================== *)

Inductive LayoutMode : Type :=
  | Overlay | OverlayAdditive | Stacked | SpectrumOverlay | SpectrumStacked.

Inductive AmplitudeMode : Type := Individual | Normalized.

(** [RenderContext]: the pixel size of the surface. *)
Record RenderContext : Type := mkRenderContext {
  width : nat;
  height : nat
}.

Definition centerY (rc : RenderContext) : Q := ofNat (height rc) / 2.

Definition heightPercentToPixels (rc : RenderContext) (percent : Q) : Q :=
  (percent / 100) * ofNat (height rc).

Definition forExport : RenderContext := mkRenderContext 1920 1080.

(** One vertical path segment, [moveTo(x, yFrom); lineTo(x, yTo)].  The
    surface is modelled by the list of segments stroked on it, in order. *)
Record Stroke : Type := mkStroke {
  strokeX : nat;
  yFrom : Q;
  yTo : Q
}.

Definition isNormalized (m : AmplitudeMode) : bool :=
  match m with Normalized => true | Individual => false end.

(** Lines 170-173 and 264-267, the same statement in both renderers:
    [if (amplitudeMode === 'normalized' && globalMaxAmplitude > 0)
       amplitude = amplitude / globalMaxAmplitude]. *)
Definition normalizeAmplitude (amplitudeMode : AmplitudeMode)
    (globalMaxAmplitude amplitude : Q) : Q :=
  if isNormalized amplitudeMode
  then (if Qlt_le_dec 0 globalMaxAmplitude
        then amplitude / globalMaxAmplitude else amplitude)
  else amplitude.

Section Renderer.
Variable rc : RenderContext.

(** Lines 99-121. *)
Definition calculateGlobalMaxAmplitude (tracks : list AudioTrack)
    (currentTime windowDuration : Q) : Q :=
  let globalMax :=
    fold_left
      (fun globalMax track =>
         let waveformData :=
           getWaveformDataForTimeWindow track currentTime windowDuration
             (width rc) 0 in
         fold_left
           (fun globalMax v => if Qlt_le_dec globalMax v then v else globalMax)
           waveformData globalMax)
      tracks 0 in
  if Qlt_le_dec 0 globalMax then globalMax else 1.

(** Lines 126-183. *)
Definition renderTrackRealtimeWithAmplitude (track : AudioTrack)
    (currentTime centerY maxAmplitude : Q) (amplitudeMode : AmplitudeMode)
    (globalMaxAmplitude : Q) (smoothingLevel : nat) (windowDuration : Q)
    : list Stroke :=
  let waveformData :=
    getWaveformDataForTimeWindow track currentTime windowDuration
      (width rc) smoothingLevel in
  let maxX : Z :=
    if Qlt_le_dec currentTime windowDuration
    then Qfloor ((currentTime / windowDuration) * ofNat (width rc))
    else Z.of_nat (width rc) in
  map (fun x =>
         let amplitude := nth x waveformData 0 in
         let amplitude :=
           normalizeAmplitude amplitudeMode globalMaxAmplitude amplitude in
         let y := amplitude * maxAmplitude in
         mkStroke x (centerY - y) (centerY + y))
      (seq 0 (Z.to_nat (Z.min maxX (Z.of_nat (List.length waveformData))))).

(** Lines 188-220. *)
Definition renderTracksStacked (tracks : list AudioTrack) (currentTime : Q)
    (amplitudeMode : AmplitudeMode) (globalMaxAmplitude heightPercent : Q)
    (smoothingLevel : nat) (windowDuration : Q) : list Stroke :=
  let numTracks := List.length tracks in
  let trackHeight := ofNat (height rc) / ofNat numTracks in
  flat_map
    (fun '(index, track) =>
       let centerY := (ofNat index + (1 # 2)) * trackHeight in
       let maxAmplitude := heightPercentToPixels rc heightPercent / 2 in
       renderTrackRealtimeWithAmplitude track currentTime centerY maxAmplitude
         amplitudeMode globalMaxAmplitude smoothingLevel windowDuration)
    (combine (seq 0 numTracks) tracks).

(** Lines 260-270: the amplitudes of all tracks at column [x]. *)
Definition columnAmplitudes (waveformDataArray : list (list Q))
    (amplitudeMode : AmplitudeMode) (globalMaxAmplitude : Q) (x : nat)
    : list Q :=
  map (fun waveformData =>
         let amplitude := nth x waveformData 0 in
         normalizeAmplitude amplitudeMode globalMaxAmplitude amplitude)
      waveformDataArray.

(** Lines 273-279. *)
Definition columnScaleFactor (amplitudes : list Q) : Q :=
  let totalAmplitude := fold_left Qplus amplitudes 0 in
  if Qlt_le_dec 1 totalAmplitude then 1 / totalAmplitude else 1.

(** Lines 282-303: the upper half, stacked upward from [currentY]. *)
Fixpoint stackUpward (x : nat) (maxAmplitude scaleFactor : Q)
    (amplitudes : list Q) (currentY : Q) : list Stroke :=
  match amplitudes with
  | [] => []
  | a :: rest =>
      let scaledAmplitude := a * scaleFactor in
      let segmentHeight := scaledAmplitude * maxAmplitude in
      if Qlt_le_dec (1 # 2) segmentHeight then
        let yStart := currentY in
        let yEnd := currentY - segmentHeight in
        mkStroke x yStart yEnd
          :: stackUpward x maxAmplitude scaleFactor rest yEnd
      else stackUpward x maxAmplitude scaleFactor rest currentY
  end.

(** Lines 306-327: the lower half, stacked downward. *)
Fixpoint stackDownward (x : nat) (maxAmplitude scaleFactor : Q)
    (amplitudes : list Q) (currentY : Q) : list Stroke :=
  match amplitudes with
  | [] => []
  | a :: rest =>
      let scaledAmplitude := a * scaleFactor in
      let segmentHeight := scaledAmplitude * maxAmplitude in
      if Qlt_le_dec (1 # 2) segmentHeight then
        let yStart := currentY in
        let yEnd := currentY + segmentHeight in
        mkStroke x yStart yEnd
          :: stackDownward x maxAmplitude scaleFactor rest yEnd
      else stackDownward x maxAmplitude scaleFactor rest currentY
  end.

(** Lines 225-329. *)
Definition renderTracksAdditive (tracks : list AudioTrack)
    (currentTime centerY maxAmplitude : Q) (amplitudeMode : AmplitudeMode)
    (globalMaxAmplitude : Q) (smoothingLevel : nat) (windowDuration : Q)
    : list Stroke :=
  let waveformDataArray :=
    map (fun track =>
           getWaveformDataForTimeWindow track currentTime windowDuration
             (width rc) smoothingLevel)
        tracks in
  let maxX : Z :=
    if Qlt_le_dec currentTime windowDuration
    then Qfloor ((currentTime / windowDuration) * ofNat (width rc))
    else Z.of_nat (width rc) in
  flat_map
    (fun x =>
       let amplitudes :=
         columnAmplitudes waveformDataArray amplitudeMode
           globalMaxAmplitude x in
       let scaleFactor := columnScaleFactor amplitudes in
       stackUpward x maxAmplitude scaleFactor amplitudes centerY
       ++ stackDownward x maxAmplitude scaleFactor amplitudes centerY)
    (seq 0 (Z.to_nat (Z.min maxX (Z.of_nat (width rc))))).

(** Lines 20-94, restricted to the waveform strokes: the spectrum layouts
    draw bars, not waveform strokes, and the empty state and the time label
    are text.  The parameter [duration] of the source is not used by it. *)
Definition render (tracks : list AudioTrack) (currentTime : Q)
    (layout : LayoutMode) (amplitudeMode : AmplitudeMode)
    (heightPercent : Q) (smoothingLevel : nat) (windowDuration : Q)
    : list Stroke :=
  match tracks with
  | [] => []
  | _ :: _ =>
      let globalMaxAmplitude :=
        if isNormalized amplitudeMode
        then calculateGlobalMaxAmplitude tracks currentTime windowDuration
        else 1 in
      match layout with
      | Stacked =>
          renderTracksStacked tracks currentTime amplitudeMode
            globalMaxAmplitude heightPercent smoothingLevel windowDuration
      | OverlayAdditive =>
          renderTracksAdditive tracks currentTime (centerY rc)
            (heightPercentToPixels rc heightPercent) amplitudeMode
            globalMaxAmplitude smoothingLevel windowDuration
      | SpectrumOverlay | SpectrumStacked => []
      | Overlay =>
          flat_map
            (fun track =>
               renderTrackRealtimeWithAmplitude track currentTime
                 (centerY rc) (heightPercentToPixels rc heightPercent)
                 amplitudeMode globalMaxAmplitude smoothingLevel
                 windowDuration)
            tracks
      end
  end.

End Renderer.

(* ================================================================== *)
(** ** Spectrum bars ([WaveformRenderer.renderTrackSpectrum]) *)
(* ================================================================== *)

(** One bar, [moveTo(x, baseY); lineTo(x, baseY - barHeight)].  The bar
    heights go through [Math.log10], so the bars are over the reals. *)
Record Bar : Type := mkBar {
  barX : R;
  barFrom : R;
  barTo : R
}.

(** [Math.log10], for the positive arguments it is called with. *)
Definition log10 (x : R) : R := (ln x / ln 10)%R.

Section SpectrumBars.
Local Open Scope R_scope.
Variable rc : RenderContext.

(** Lines 372-408. *)
Definition renderTrackSpectrum (track : AudioTrack) (currentTime : Q)
    (baseY : R) (heightPercent windowDuration : Q) : list Bar :=
  let spectrumData :=
    getFrequencySpectrumForTimeWindow track currentTime windowDuration 2048 in
  let numBins := List.length spectrumData in
  let barWidth := INR (width rc) / INR numBins in
  let maxBarHeight := Q2R (heightPercentToPixels rc heightPercent) in
  map (fun i =>
         let magnitude := nth i spectrumData 0 in
         let barHeight := log10 (1 + magnitude * 100) * maxBarHeight in
         let x := INR i * barWidth in
         mkBar x baseY (baseY - barHeight))
      (seq 0 numBins).

(** Lines 334-347. *)
Definition renderTracksSpectrumOverlay (tracks : list AudioTrack)
    (currentTime heightPercent windowDuration : Q) : list Bar :=
  let baseY := INR (height rc) in
  flat_map
    (fun track =>
       renderTrackSpectrum track currentTime baseY heightPercent
         windowDuration)
    tracks.

(** Lines 352-367. *)
Definition renderTracksSpectrumStacked (tracks : list AudioTrack)
    (currentTime heightPercent windowDuration : Q) : list Bar :=
  let numTracks := List.length tracks in
  let trackHeight := INR (height rc) / INR numTracks in
  flat_map
    (fun '(index, track) =>
       let baseY := (INR index + 1) * trackHeight in
       renderTrackSpectrum track currentTime baseY heightPercent
         windowDuration)
    (combine (seq 0 numTracks) tracks).

End SpectrumBars.

(* ================================================================== *)
(** ** Offline frame driver ([VideoExporter.captureFrames]) *)
(* ================================================================== *)

(** What the loop does to its collaborators, in order. *)
Inductive ExportEvent : Type :=
  | EvRender (time : Q)
  | EvCapture
  | EvProgress (progress : Q).

Section FrameDriver.
(** The export surface and the still image taken from it. *)
Variables Canvas DataURL : Type.
(** [exportRenderer.render(tracks, time, ...)], all arguments but the time
    fixed during one export. *)
Variable renderAt : Canvas -> Q -> Canvas.
Variable captureFrameAsDataURL : Canvas -> DataURL.

Record ExportState : Type := mkExportState {
  canvas : Canvas;
  frames : list DataURL;
  events : list ExportEvent
}.

(** Lines 175-198: one iteration of the loop. *)
Definition captureStep (fps : Q) (totalFrames : Z) (st : ExportState)
    (i : nat) : ExportState :=
  let time := ofNat i / fps in
  let canvas' := renderAt (canvas st) time in
  let dataURL := captureFrameAsDataURL canvas' in
  let progress :=
    if (i mod 10 =? 0)%nat
    then [EvProgress (ofNat i / inject_Z totalFrames)] else [] in
  mkExportState canvas' (frames st ++ [dataURL])
    (events st ++ [EvRender time; EvCapture] ++ progress).


End FrameDriver.

(* ================================================================== *)
(** ** Byte buffers (Node [Buffer], [DataView] over an [ArrayBuffer]) *)
(* ================================================================== *)

(** A byte is an integer in [[0, 255]] and a buffer the list of its bytes.
    Both kinds of buffer are allocated zero-filled and then written in
    place at explicit offsets.  A failed write throws: [None].  The limit
    the platform puts on the size of an allocation is not modelled. *)

Definition alloc (size : nat) : list Z := repeat 0%Z size.

(** The bytes [bytes] stored from [offset] on; they must fit. *)
Definition writeAt (buffer : list Z) (offset : nat) (bytes : list Z)
    : option (list Z) :=
  if (offset + List.length bytes <=? List.length buffer)%nat
  then Some (firstn offset buffer ++ bytes
             ++ skipn (offset + List.length bytes) buffer)
  else None.

(** Byte [k] of the little-endian two's-complement form of [v]. *)
Definition bytesLE (width : nat) (v : Z) : list Z :=
  map (fun k => Z.land (Z.shiftr v (8 * Z.of_nat k)) 255) (seq 0 width).

Definition charCodes (s : string) : list Z :=
  map (fun c => Z.of_nat (Ascii.nat_of_ascii c)) (list_ascii_of_string s).

(** [Math.round]: the nearest integer, a half going up. *)
Definition Math_round (x : Q) : Z := Qfloor (x + (1 # 2)).

(** The conversion of a number to an integer that a store into a typed
    array or through a [DataView] performs: the fraction is dropped. *)
Definition truncate (x : Q) : Z :=
  if Qlt_le_dec x 0 then Qceiling x else Qfloor x.

Definition bind {A B : Type} (m : option A) (f : A -> option B) : option B :=
  match m with
  | Some a => f a
  | None => None
  end.

Notation "x <- m ;; k" := (bind m (fun x => k))
  (at level 61, m at next level, right associativity).

(** The methods of a Node [Buffer] that [encodeWAV] calls.  The integer
    writers throw when the value is outside the range of the field. *)
Module NodeBuffer.

Definition write (buffer : list Z) (s : string) (offset : nat)
    : option (list Z) :=
  if (offset <=? List.length buffer)%nat
  then writeAt buffer offset
         (firstn (List.length buffer - offset) (charCodes s))
  else None.

Definition writeUInt32LE (buffer : list Z) (value : Q) (offset : nat)
    : option (list Z) :=
  if Qlt_le_dec value 0 then None
  else if Qlt_le_dec 4294967295 value then None
  else writeAt buffer offset (bytesLE 4 (truncate value)).

Definition writeUInt16LE (buffer : list Z) (value : Q) (offset : nat)
    : option (list Z) :=
  if Qlt_le_dec value 0 then None
  else if Qlt_le_dec 65535 value then None
  else writeAt buffer offset (bytesLE 2 (truncate value)).

Definition writeInt16LE (buffer : list Z) (value : Q) (offset : nat)
    : option (list Z) :=
  if Qlt_le_dec value (-32768) then None
  else if Qlt_le_dec 32767 value then None
  else writeAt buffer offset (bytesLE 2 (truncate value)).

End NodeBuffer.

(** The setters of a [DataView], all called with [littleEndian = true].
    They reduce the integer modulo the width of the field and throw only
    when the field does not fit into the buffer. *)
Module DataView.

Definition setUint8 (view : list Z) (byteOffset : nat) (value : Q)
    : option (list Z) :=
  writeAt view byteOffset (bytesLE 1 (truncate value)).

Definition setUint16 (view : list Z) (byteOffset : nat) (value : Q)
    : option (list Z) :=
  writeAt view byteOffset (bytesLE 2 (truncate value)).

Definition setInt16 (view : list Z) (byteOffset : nat) (value : Q)
    : option (list Z) :=
  writeAt view byteOffset (bytesLE 2 (truncate value)).

Definition setUint32 (view : list Z) (byteOffset : nat) (value : Q)
    : option (list Z) :=
  writeAt view byteOffset (bytesLE 4 (truncate value)).

End DataView.

(* ================================================================== *)
(** ** WAV writer of the exporter ([VideoExporter.audioBufferToWav]) *)
(* ================================================================== *)

(** Lines 248-252. *)
Definition writeString (view : list Z) (offset : nat) (s : string)
    : option (list Z) :=
  fold_left
    (fun st i =>
       view <- st ;;
       DataView.setUint8 view (offset + i) (inject_Z (nth i (charCodes s) 0%Z)))
    (seq 0 (String.length s)) (Some view).

(** Lines 277-279: one sample of one channel.  A channel shorter than the
    buffer reads as [undefined], which ends up as the integer 0. *)
Definition writeSample (channels : list (list Q)) (i : nat)
    (st : option (list Z * nat)) (channel : nat) : option (list Z * nat) :=
  st' <- st ;;
  let '(view, offset) := st' in
  let sample := Qmax (-1) (Qmin 1 (nth i (nth channel channels []) 0)) in
  view <- DataView.setInt16 view offset
            (if Qlt_le_dec sample 0 then sample * 32768
             else sample * 32767) ;;
  Some (view, (offset + 2)%nat).

(** Lines 241-284. *)
Definition audioBufferToWav (buffer : AudioBuffer) : option (list Z) :=
  let numberOfChannels := numberOfChannels buffer in
  let length := (bufferLength buffer * numberOfChannels * 2)%nat in
  let view := alloc (44 + length) in
  view <- writeString view 0 "RIFF" ;;
  view <- DataView.setUint32 view 4 (36 + ofNat length) ;;
  view <- writeString view 8 "WAVE" ;;
  view <- writeString view 12 "fmt " ;;
  view <- DataView.setUint32 view 16 16 ;;
  view <- DataView.setUint16 view 20 1 ;;
  view <- DataView.setUint16 view 22 (ofNat numberOfChannels) ;;
  view <- DataView.setUint32 view 24 (sampleRate buffer) ;;
  view <- DataView.setUint32 view 28
            (sampleRate buffer * ofNat numberOfChannels * 2) ;;
  view <- DataView.setUint16 view 32 (ofNat numberOfChannels * 2) ;;
  view <- DataView.setUint16 view 34 16 ;;
  view <- writeString view 36 "data" ;;
  view <- DataView.setUint32 view 40 (ofNat length) ;;
  let channels := channel0 buffer :: otherChannels buffer in
  st <- fold_left
          (fun st i =>
             fold_left (writeSample channels i) (seq 0 numberOfChannels) st)
          (seq 0 (bufferLength buffer)) (Some (view, 44%nat)) ;;
  Some (fst st).

(* ================================================================== *)
(** ** Time labels *)
(* ================================================================== *)

(** [n.toString()] for an integer [n]. *)
Definition toString (n : Z) : string :=
  NilZero.string_of_int (Z.to_int n).

Fixpoint padding (n : nat) (c : Ascii.ascii) : string :=
  match n with
  | O => EmptyString
  | S k => String c (padding k c)
  end.

(** [s.padStart(targetLength, c)] for a one-character pad string. *)
Definition padStart (s : string) (targetLength : nat) (c : Ascii.ascii)
    : string :=
  (padding (targetLength - String.length s) c ++ s)%string.

(** The remainder operator [a % b], which has the sign of [a]. *)
Definition remainder (a b : Q) : Q := a - b * inject_Z (truncate (a / b)).

(** The conversions and formatters of [TimeSync]. *)
Module TimeSync.

Definition timeToPixel (currentTime duration canvasWidth : Q) : Q :=
  if Qeq_bool duration 0 then 0
  else (currentTime / duration) * canvasWidth.

Definition pixelToTime (pixel canvasWidth duration : Q) : Q :=
  if Qeq_bool canvasWidth 0 then 0
  else (pixel / canvasWidth) * duration.

(** Every rational is finite, so [!isFinite(seconds)] is never true. *)
Definition formatTime (seconds : Q) : string :=
  if Qlt_le_dec seconds 0 then "00:00"%string
  else
    let mins := Qfloor (seconds / 60) in
    let secs := Qfloor (remainder seconds 60) in
    (padStart (toString mins) 2 "0"%char ++ ":"
     ++ padStart (toString secs) 2 "0"%char)%string.

Definition clampTime (time duration : Q) : Q :=
  Qmax 0 (Qmin time duration).

End TimeSync.

(* ================================================================== *)
(** ** Audio mixer ([CLIAudioEngine.mixTracks]) *)
(* ================================================================== *)

Module CLIAudioEngine.

(** Lines 96-101: [Math.max] over the durations. *)
Definition getDuration (tracks : list AudioTrack) : Q :=
  match tracks with
  | [] => 0
  | t :: rest =>
      fold_left (fun m t' => Qmax m (duration (buffer t'))) rest
        (duration (buffer t))
  end.

(** Lines 122-134: one track added into the two accumulators.  The loop
    reads both channels up to [trackSamples], the length of channel 0; the
    reads are in range when all channels have that length. *)
Definition addTrack (numSamples : nat) (acc : list Q * list Q)
    (track : AudioTrack) : list Q * list Q :=
  let trackSamples := bufferLength (buffer track) in
  let numChannels := numberOfChannels (buffer track) in
  let channel0 := channel0 (buffer track) in
  let channel1 :=
    if (1 <? numChannels)%nat then channel1 (buffer track) else channel0 in
  let gain := opacity track in
  let mixInto (out chan : list Q) :=
    map (fun i =>
           if (i <? trackSamples)%nat
           then nth i out 0 + nth i chan 0 * gain
           else nth i out 0)
        (seq 0 numSamples) in
  (mixInto (fst acc) channel0, mixInto (snd acc) channel1).

(** Lines 117-135: the accumulators after all tracks. *)
Definition accumulate (tracks : list AudioTrack) (numSamples : nat)
    : list Q * list Q :=
  fold_left (addTrack numSamples) tracks
    (repeat 0 numSamples, repeat 0 numSamples).

(** Lines 138-141. *)
Definition peakAmplitude (left right : list Q) (numSamples : nat) : Q :=
  fold_left
    (fun maxAmplitude i =>
       Qmax (Qmax maxAmplitude (Qabs (nth i left 0))) (Qabs (nth i right 0)))
    (seq 0 numSamples) 0.

Record Mix : Type := mkMix {
  left : list Q;
  right : list Q;
  mixSampleRate : Q
}.

(** Lines 107-153.  [None] stands for the two ways the method throws: no
    tracks, or a negative length given to [new Float32Array]. *)
Definition mixTracks (tracks : list AudioTrack) : option Mix :=
  match tracks with
  | [] => None
  | first :: _ =>
      let duration := getDuration tracks in
      let sampleRate := sampleRate (buffer first) in
      let numSamples := Qceiling (duration * sampleRate) in
      if (numSamples <? 0)%Z then None
      else
        let n := Z.to_nat numSamples in
        let '(left, right) := accumulate tracks n in
        let maxAmplitude := peakAmplitude left right n in
        if Qlt_le_dec 1 maxAmplitude then
          let normalizeGain := 1 / maxAmplitude in
          Some (mkMix (map (fun v => v * normalizeGain) left)
                      (map (fun v => v * normalizeGain) right)
                      sampleRate)
        else Some (mkMix left right sampleRate)
  end.

(** Lines 190-197: one stereo frame.  A right channel shorter than the left
    one reads as [undefined], which is written as the integer 0. *)
Definition writeFrame (mixed : Mix) (st : option (list Z * nat)) (i : nat)
    : option (list Z * nat) :=
  st' <- st ;;
  let '(buffer, offset) := st' in
  let leftSample := Qmax (-1) (Qmin 1 (nth i (left mixed) 0)) * 32767 in
  let rightSample := Qmax (-1) (Qmin 1 (nth i (right mixed) 0)) * 32767 in
  buffer <- NodeBuffer.writeInt16LE buffer
              (inject_Z (Math_round leftSample)) offset ;;
  let offset := (offset + 2)%nat in
  buffer <- NodeBuffer.writeInt16LE buffer
              (inject_Z (Math_round rightSample)) offset ;;
  let offset := (offset + 2)%nat in
  Some (buffer, offset).

(** Lines 158-200. *)
Definition encodeWAV (mixed : Mix) : option (list Z) :=
  let numChannels := 2%nat in
  let bitsPerSample := 16%nat in
  let bytesPerSample := (bitsPerSample / 8)%nat in
  let blockAlign := (numChannels * bytesPerSample)%nat in
  let numSamples := List.length (left mixed) in
  let dataSize := (numSamples * blockAlign)%nat in
  let fileSize := (44 + dataSize)%nat in
  let buffer := alloc fileSize in
  let offset := 0%nat in
  buffer <- NodeBuffer.write buffer "RIFF" offset ;;
  let offset := (offset + 4)%nat in
  buffer <- NodeBuffer.writeUInt32LE buffer (ofNat fileSize - 8) offset ;;
  let offset := (offset + 4)%nat in
  buffer <- NodeBuffer.write buffer "WAVE" offset ;;
  let offset := (offset + 4)%nat in
  buffer <- NodeBuffer.write buffer "fmt " offset ;;
  let offset := (offset + 4)%nat in
  buffer <- NodeBuffer.writeUInt32LE buffer 16 offset ;;
  let offset := (offset + 4)%nat in
  buffer <- NodeBuffer.writeUInt16LE buffer 1 offset ;;
  let offset := (offset + 2)%nat in
  buffer <- NodeBuffer.writeUInt16LE buffer (ofNat numChannels) offset ;;
  let offset := (offset + 2)%nat in
  buffer <- NodeBuffer.writeUInt32LE buffer (mixSampleRate mixed) offset ;;
  let offset := (offset + 4)%nat in
  buffer <- NodeBuffer.writeUInt32LE buffer
              (mixSampleRate mixed * ofNat blockAlign) offset ;;
  let offset := (offset + 4)%nat in
  buffer <- NodeBuffer.writeUInt16LE buffer (ofNat blockAlign) offset ;;
  let offset := (offset + 2)%nat in
  buffer <- NodeBuffer.writeUInt16LE buffer (ofNat bitsPerSample) offset ;;
  let offset := (offset + 2)%nat in
  buffer <- NodeBuffer.write buffer "data" offset ;;
  let offset := (offset + 4)%nat in
  buffer <- NodeBuffer.writeUInt32LE buffer (ofNat dataSize) offset ;;
  let offset := (offset + 4)%nat in
  st <- fold_left (writeFrame mixed) (seq 0 numSamples)
          (Some (buffer, offset)) ;;
  Some (fst st).

(** Lines 205-209. *)
Definition formatDuration (seconds : Q) : string :=
  let mins := Qfloor (seconds / 60) in
  let secs := Qfloor (remainder seconds 60) in
  (toString mins ++ ":" ++ padStart (toString secs) 2 "0"%char)%string.

(** What [wav-decoder] returns for a file: the rate and the channels. *)
Record WavData : Type := mkWavData {
  wavSampleRate : Q;
  channelData : list (list Q)
}.

(** Lines 18-68, from the decoded data on.  A file without a channel makes
    the read of [channelData[0].length] throw: [None].  The duration is the
    double [channelData[0].length / sampleRate].  The constructor of the
    track stores the opacity as it is given. *)
Definition loadTrack (audioData : WavData) (color : string) (opacity : Q)
    : option AudioTrack :=
  match channelData audioData with
  | [] => None
  | first :: others =>
      Some (mkAudioTrack
              (mkAudioBuffer
                 (round64
                    (ofNat (List.length first) / wavSampleRate audioData))
                 (wavSampleRate audioData) first others)
              color opacity)
  end.

(** One entry of the list [loadTracks] is given, the path replaced by what
    the decoder makes of the file. *)
Record AudioFile : Type := mkAudioFile {
  fileData : WavData;
  fileColor : string;
  fileOpacity : Q
}.

(** Lines 73-84: the tracks of an engine that had none, in file order; the
    first file that cannot be loaded makes the whole call throw. *)
Fixpoint loadTracks (files : list AudioFile) : option (list AudioTrack) :=
  match files with
  | [] => Some []
  | file :: rest =>
      track <- loadTrack (fileData file) (fileColor file)
                 (fileOpacity file) ;;
      tracks <- loadTracks rest ;;
      Some (track :: tracks)
  end.

End CLIAudioEngine.

(* ================================================================== *)
(** ** Reference definitions *)
(* ================================================================== *)

(** The notions the specification uses to state what the code above must
    do; the properties below compare the code with them. *)



(** The neighbours of position [i] of a buffer: the offsets of the window
    that fall inside the buffer. *)
Definition inBounds (original : list Q) (i : nat) (j : Z) : bool :=
  (0 <=? Z.of_nat i + j)%Z
  && (Z.of_nat i + j <? Z.of_nat (List.length original))%Z.

Definition neighbours (original : list Q) (halfWindow i : nat) : list Z :=
  filter (inBounds original i) (windowOffsets halfWindow).

(** Equality of two buffers, value by value. *)
Definition sameValues (l l' : list Q) : bool :=
  (List.length l =? List.length l')%nat
  && forallb (fun p => Qeq_bool (fst p) (snd p)) (combine l l').

(** The textbook discrete Fourier transform
    [X_k = sum_{n<N} x_n * exp(-2 pi i k n / N)] of a real signal, as its
    real and imaginary parts. *)
Fixpoint bigsum (f : nat -> R) (n : nat) : R :=
  match n with
  | O => 0%R
  | S n' => (bigsum f n' + f n')%R
  end.

Definition dftReal (x : list R) (k : nat) : R :=
  bigsum (fun n =>
            (nth n x 0 * cos (2 * PI * INR k * INR n / INR (List.length x)))%R)
         (List.length x).

Definition dftImag (x : list R) (k : nat) : R :=
  (- bigsum (fun n =>
               nth n x 0 * sin (2 * PI * INR k * INR n / INR (List.length x)))
            (List.length x))%R.

(** The length of a stroked segment and the height of a stack of them. *)
Definition segmentLength (s : Stroke) : Q := Qabs (yTo s - yFrom s).

Definition stackedHeight (strokes : list Stroke) : Q :=
  sumQ (map segmentLength strokes).

(** The number of leading columns revealed before the window is full. *)
Definition revealLimit (currentTime windowDuration : Q) (width : nat) : Z :=
  Qfloor ((currentTime / windowDuration) * ofNat width).






(** What one track adds to sample [i] of the left and of the right channel
    of the mix. *)
Definition leftTerm (i : nat) (t : AudioTrack) : Q :=
  if (i <? bufferLength (buffer t))%nat
  then nth i (channel0 (buffer t)) 0 * opacity t else 0.

Definition rightSource (b : AudioBuffer) : list Q :=
  if (1 <? numberOfChannels b)%nat then channel1 b else channel0 b.

Definition rightTerm (i : nat) (t : AudioTrack) : Q :=
  if (i <? bufferLength (buffer t))%nat
  then nth i (rightSource (buffer t)) 0 * opacity t else 0.

(* ================================================================== *)
(** ** Sample tracks *)
(* ================================================================== *)

(** A two-channel track of six samples at 4 Hz. *)
Definition demoTrack : AudioTrack :=
  mkAudioTrack
    (mkAudioBuffer (3 # 2) 4 [1; -3; 2; 5; -1; 0] [[0; 0; 0; 0; 0; 0]])
    "#ff0000" (7 # 10).

(** Fifteen samples at 15 Hz, one second: silence with a click on the last
    sample. *)
Definition clickTrack : AudioTrack :=
  mkAudioTrack (mkAudioBuffer 1 15 (repeat 0 14 ++ [1]) []) "#ffffff" 1.

(** One second at 44.1 kHz: silence with a click on the last of the 44100
    samples. *)
Definition lateClickSamples : list Q := repeat 0 (Z.to_nat 44099) ++ [1].

Definition lateClickTrack : AudioTrack :=
  mkAudioTrack (mkAudioBuffer 1 44100 lateClickSamples []) "#ffffff" 1.

(** A mono and a stereo track of one second at 4 Hz, loud enough together
    to need normalisation. *)
Definition monoTrack : AudioTrack :=
  mkAudioTrack (mkAudioBuffer 1 4 [1; -1; 1 # 2; 0] []) "#0000ff" 1.

Definition stereoTrack : AudioTrack :=
  mkAudioTrack
    (mkAudioBuffer 1 4 [1; 1 # 2; 0; 0] [[0; 1; -1; 0]]) "#ffff00" (1 # 2).

(** Twenty-nine samples rising from one end of the buffer to the other,
    with a dip next to each end; one second of audio at 29 Hz. *)
Definition rampSamples : list Q :=
  map (fun z => inject_Z z / 28)
    [4; 0; 2; 3; 4; 5; 6; 7; 8; 9; 10; 11; 12; 13; 14; 15; 16; 17; 18; 19;
     20; 21; 22; 23; 24; 25; 26; 28; 24]%Z.

Definition rampTrack : AudioTrack :=
  mkAudioTrack (mkAudioBuffer 1 29 rampSamples []) "#00ff00" 1.

(** Its waveform at one pixel per sample, unsmoothed and smoothed at
    level 1, as whole multiples of [1 / 84]. *)
Definition rampPeaks84 : list Z :=
  [12; 0; 6; 9; 12; 15; 18; 21; 24; 27; 30; 33; 36; 39; 42; 45; 48; 51; 54;
   57; 60; 63; 66; 69; 72; 75; 78; 84; 72]%Z.

Definition rampSmoothed84 : list Z :=
  [6; 6; 5; 9; 12; 15; 18; 21; 24; 27; 30; 33; 36; 39; 42; 45; 48; 51; 54;
   57; 60; 63; 66; 69; 72; 75; 79; 78; 78]%Z.

(* ================================================================== *)
(** ** Further methods of [AudioTrack] *)
(* ================================================================== *)

(** [computeWaveformData], lines 48-53: the inner loop over one block of
    samples; the source reads [channelData[j]] without a range check. *)
Fixpoint blockPeakLoop (channelData : list Q) (j n : nat) (max : Q) : Q :=
  match n with
  | O => max
  | S n' =>
      let abs := Qabs (nth j channelData 0) in
      let max' := if Qlt_le_dec max abs then abs else max in
      blockPeakLoop channelData (S j) n' max'
  end.

(** [computeWaveformData], lines 37-59 (deprecated): the array it stores in
    [this.waveformData]. *)
Definition computeWaveformData (t : AudioTrack) (targetWidth : nat) : list Q :=
  let channelData := channel0 (buffer t) in
  let samplesPerPixel := (List.length channelData / targetWidth)%nat in
  map (fun i =>
         let start := (i * samplesPerPixel)%nat in
         let stop :=
           Nat.min (start + samplesPerPixel) (List.length channelData) in
         blockPeakLoop channelData start (stop - start) 0)
      (seq 0 targetWidth).

(** [setOpacity], lines 281-283. *)
Definition setOpacity (t : AudioTrack) (opacity : Q) : AudioTrack :=
  mkAudioTrack (buffer t) (color t) (Qmax 0 (Qmin 1 opacity)).

(** [setColor], lines 277-279. *)
Definition setColor (t : AudioTrack) (color : string) : AudioTrack :=
  mkAudioTrack (buffer t) color (opacity t).

(** ** Progress of an export ([VideoExporter.export]) *)



(** ** Reading a byte buffer back *)

(** The little-endian unsigned integer of [width] bytes at [offset], and the
    signed 16-bit one. *)
Definition readUIntLE (bytes : list Z) (offset width : nat) : Z :=
  fold_right (fun b acc => (b + 256 * acc)%Z) 0%Z
    (firstn width (skipn offset bytes)).

Definition readInt16LE (bytes : list Z) (offset : nat) : Z :=
  let u := readUIntLE bytes offset 2 in
  if (u <? 32768)%Z then u else (u - 65536)%Z.

Definition isByte (b : Z) : Prop := (0 <= b < 256)%Z.

(** The 16-bit value [encodeWAV] stores for the sample [x] (lines 192-196)
    and the one [audioBufferToWav] stores (lines 277-278). *)
Definition cliSample (x : Q) : Z :=
  Math_round (Qmax (-1) (Qmin 1 x) * 32767).

Definition browserSample (x : Q) : Z :=
  let sample := Qmax (-1) (Qmin 1 x) in
  truncate (if Qlt_le_dec sample 0 then sample * 32768 else sample * 32767).

(** The 44 bytes in front of the samples of a 16-bit PCM file. *)
Definition wavHeader (riffSize channels rate byteRate blockAlign dataSize : Z)
    : list Z :=
  charCodes "RIFF" ++ bytesLE 4 riffSize ++ charCodes "WAVE"
  ++ charCodes "fmt " ++ bytesLE 4 16 ++ bytesLE 2 1 ++ bytesLE 2 channels
  ++ bytesLE 4 rate ++ bytesLE 4 byteRate ++ bytesLE 2 blockAlign
  ++ bytesLE 2 16 ++ charCodes "data" ++ bytesLE 4 dataSize.

(** A two-frame stereo mix at 44.1 kHz; one sample is out of range. *)
Definition demoMix : CLIAudioEngine.Mix :=
  CLIAudioEngine.mkMix [1; -1 # 2] [0; 3] 44100.

(** A run of segments drawn end to end from [y]: each one starts where the
    one before it ended. *)
Fixpoint chained (y : Q) (strokes : list Stroke) : Prop :=
  match strokes with
  | [] => True
  | s :: rest => yFrom s = y /\ chained (yTo s) rest
  end.

(** Two strokes of one column, mirror images about the line [centerY]. *)
Definition mirrored (centerY : Q) (u d : Stroke) : Prop :=
  strokeX u = strokeX d
  /\ yFrom u + yFrom d == 2 * centerY
  /\ yTo u + yTo d == 2 * centerY.

(** ** The time label of the compositor ([renderTimeIndicator]) *)

(** Lines 413-448: the text drawn and the point it is anchored at (right
    aligned, on its bottom line).  The position [x] of the play head is
    computed by the source but no longer drawn. *)
Definition renderTimeIndicator (rc : RenderContext)
    (currentTime windowDuration : Q) : string * (Q * Q) :=
  let mins := Qfloor (currentTime / 60) in
  let secs := Qfloor (remainder currentTime 60) in
  let timeStr :=
    (padStart (toString mins) 2 "0"%char ++ ":"
     ++ padStart (toString secs) 2 "0"%char)%string in
  (timeStr, (ofNat (width rc) - 10, ofNat (height rc) - 10)).

(* ================================================================== *)
(** ** Real-time frame driver ([RenderLoop]) *)
(* ================================================================== *)

Module RenderLoop.

(** The fields of the loop; the callback is represented by what it is
    called with, and [performance.now()] by the clock values passed in. *)
Record State : Type := mkState {
  isRunning : bool;
  lastFrameTime : Q;
  fps : nat;
  frameCount : nat;
  fpsUpdateTime : Q;
  targetFPS : Q;
  frameInterval : Q
}.

(** The field initialisers. *)
Definition initial : State := mkState false 0 0 0 0 60 (1000 / 60).

(** [loop], run at clock value [now]: the new state and, when a frame is
    rendered, the delta in seconds handed to the callback. *)
Definition loop (st : State) (now : Q) : State * option Q :=
  if negb (isRunning st) then (st, None)
  else
    let deltaTime := now - lastFrameTime st in
    if Qlt_le_dec deltaTime (frameInterval st) then (st, None)
    else
      let lastFrameTime' := now - remainder deltaTime (frameInterval st) in
      let frameCount' := S (frameCount st) in
      let st' :=
        if Qlt_le_dec (now - fpsUpdateTime st) 1000
        then mkState true lastFrameTime' (fps st) frameCount'
               (fpsUpdateTime st) (targetFPS st) (frameInterval st)
        else mkState true lastFrameTime' frameCount' 0 now
               (targetFPS st) (frameInterval st) in
      (st', Some (deltaTime / 1000)).

(** [start]: the clock is read twice for the two time stamps, then [loop]
    runs once, at [now3]. *)
Definition start (st : State) (now1 now2 now3 : Q) : State * option Q :=
  if isRunning st then (st, None)
  else
    loop (mkState true now1 (fps st) 0 now2 (targetFPS st)
            (frameInterval st)) now3.

Definition stop (st : State) : State :=
  mkState false (lastFrameTime st) (fps st) (frameCount st)
    (fpsUpdateTime st) (targetFPS st) (frameInterval st).

Definition setTargetFPS (st : State) (fps' : Q) : State :=
  let targetFPS := Qmax 15 (Qmin 60 fps') in
  mkState (isRunning st) (lastFrameTime st) (fps st) (frameCount st)
    (fpsUpdateTime st) targetFPS (1000 / targetFPS).

(** What can happen to a loop, and a run of such events with the deltas
    the callback receives. *)
Inductive Event : Type :=
  | Start (now1 now2 now3 : Q)
  | Stop
  | SetTargetFPS (fps' : Q)
  | Frame (now : Q).

Definition step (st : State) (e : Event) : State * option Q :=
  match e with
  | Start now1 now2 now3 => start st now1 now2 now3
  | Stop => (stop st, None)
  | SetTargetFPS fps' => (setTargetFPS st fps', None)
  | Frame now => loop st now
  end.

Fixpoint run (st : State) (events : list Event) : State * list Q :=
  match events with
  | [] => (st, [])
  | e :: rest =>
      let '(st', delta) := step st e in
      let '(st'', deltas) := run st' rest in
      (st'', match delta with Some d => d :: deltas | None => deltas end)
  end.

End RenderLoop.

(** Clock values that do not run backwards, starting at [t0]. *)
Fixpoint clockOrder (t0 : Q) (ticks : list Q) : Prop :=
  match ticks with
  | [] => True
  | t :: rest => t0 <= t /\ clockOrder t rest
  end.

(* ================================================================== *)
(** ** Playback transport ([AudioEngine]) *)
(* ================================================================== *)

Module AudioEngine.

(** The fields the transport reads and writes.  The audio graph (context,
    gain and source nodes) is represented by [hasContext] alone, and the
    context's clock, [audioContext.currentTime], by the value each method
    is given. *)
Record State : Type := mkState {
  hasContext : bool;
  tracks : list AudioTrack;
  isPlaying : bool;
  startTime : Q;
  pausedAt : Q
}.

(** Lines 269-274, the same code as in the CLI engine. *)
Definition getDuration (st : State) : Q :=
  match tracks st with
  | [] => 0
  | t :: rest =>
      fold_left (fun m t' => Qmax m (duration (buffer t'))) rest
        (duration (buffer t))
  end.

(** Lines 254-264. *)
Definition getCurrentTime (st : State) (clock : Q) : Q :=
  if negb (hasContext st) then 0
  else if isPlaying st then Qmin (clock - startTime st) (getDuration st)
  else pausedAt st.

(** Lines 110-178. *)
Definition play (st : State) (clock : Q) : State :=
  if negb (hasContext st) || (List.length (tracks st) =? 0)%nat then st
  else
    let offset := pausedAt st in
    mkState (hasContext st) (tracks st) true (clock - offset) (pausedAt st).

(** Lines 183-207. *)
Definition pause (st : State) (clock : Q) : State :=
  if negb (hasContext st) || negb (isPlaying st) then st
  else
    mkState (hasContext st) (tracks st) false (startTime st)
      (clock - startTime st).

(** Lines 212-249. *)
Definition seek (st : State) (time clock : Q) : State :=
  let wasPlaying := isPlaying st in
  let st :=
    if isPlaying st
    then mkState (hasContext st) (tracks st) false (startTime st)
           (pausedAt st)
    else st in
  let st :=
    mkState (hasContext st) (tracks st) (isPlaying st) (startTime st)
      (Qmax 0 (Qmin time (getDuration st))) in
  if wasPlaying then play st clock else st.

(** Lines 145-165: the [onended] handler of the source that is playing. *)
Definition onended (st : State) (clock : Q) : State :=
  if isPlaying st then
    let currentTime := getCurrentTime st clock in
    let duration := getDuration st in
    if Qlt_le_dec currentTime (duration - (1 # 10)) then st
    else mkState (hasContext st) (tracks st) false (startTime st) duration
  else st.

End AudioEngine.

(** A decoded file as the decoder delivers it: rate [r], at least one
    channel, all channels of one length. *)
Definition decodedAt (r : Q) (file : CLIAudioEngine.AudioFile) : Prop :=
  CLIAudioEngine.wavSampleRate (CLIAudioEngine.fileData file) == r
  /\ CLIAudioEngine.channelData (CLIAudioEngine.fileData file) <> []
  /\ Forall (fun c =>
               List.length c
               = List.length
                   (nth 0 (CLIAudioEngine.channelData
                             (CLIAudioEngine.fileData file)) []))
       (CLIAudioEngine.channelData (CLIAudioEngine.fileData file)).

(* ================================================================== *)
(** ** Coordinates ([RenderContext]) and colours ([ColorManager]) *)
(* ================================================================== *)

(** Lines 41-70 of [RenderContext].  On a surface of width or height 0 the
    two [fromPixels] conversions divide by zero, which gives an infinity or
    NaN in the source and 0 here; their properties are stated for surfaces
    of positive size. *)
Definition toPixelsX (rc : RenderContext) (normalizedX : Q) : Q :=
  normalizedX * ofNat (width rc).

Definition toPixelsY (rc : RenderContext) (normalizedY : Q) : Q :=
  normalizedY * ofNat (height rc).

Definition fromPixelsX (rc : RenderContext) (pixelX : Q) : Q :=
  pixelX / ofNat (width rc).

Definition fromPixelsY (rc : RenderContext) (pixelY : Q) : Q :=
  pixelY / ofNat (height rc).

(** The constructor sets [aspectRatio] to [16 / 9] for every size. *)
Definition aspectRatio (rc : RenderContext) : Q := 16 / 9.

Module ColorManager.

Definition defaultPalette : list string :=
  ["#FF6B6B"; "#4ECDC4"; "#45B7D1"; "#FFA07A"; "#98D8C8";
   "#F7DC6F"; "#BB8FCE"; "#F8B195"; "#85E085"; "#FF99CC"]%string.

(** [defaultPalette[index % length]] for an integer index: a negative
    remainder reads outside the array, which gives [undefined]. *)
Definition getColorForIndex (index : Z) : option string :=
  let i := Z.rem index (Z.of_nat (List.length defaultPalette)) in
  if (i <? 0)%Z then None else nth_error defaultPalette (Z.to_nat i).

(** The value of one character matched by [[a-f\d]] under the [i] flag. *)
Definition hexValue (c : ascii) : option nat :=
  let n := nat_of_ascii c in
  if ((48 <=? n) && (n <=? 57))%nat then Some (n - 48)%nat
  else if ((97 <=? n) && (n <=? 102))%nat then Some (n - 87)%nat
  else if ((65 <=? n) && (n <=? 70))%nat then Some (n - 55)%nat
  else None.

(** [parseInt(group, 16)] of a group of two such characters. *)
Definition hexPair (a b : ascii) : option nat :=
  match hexValue a, hexValue b with
  | Some x, Some y => Some (16 * x + y)%nat
  | _, _ => None
  end.

(** The match of the regular expression
    [/^#?([a-f\d]{2})([a-f\d]{2})([a-f\d]{2})$/i]: its three groups as
    numbers. *)
Definition matchHex (hex : string) : option (nat * nat * nat) :=
  let body :=
    match hex with
    | String "#"%char rest => rest
    | _ => hex
    end in
  match list_ascii_of_string body with
  | [a; b; c; d; e; f] =>
      match hexPair a b, hexPair c d, hexPair e f with
      | Some r, Some g, Some b' => Some (r, g, b')
      | _, _, _ => None
      end
  | _ => None
  end.

(** The four numbers [hexToRgba] puts into its result
    [rgba(r, g, b, alpha)]. *)
Record RGBA : Type := mkRGBA {
  red : nat;
  green : nat;
  blue : nat;
  alpha : Q
}.

Definition hexToRgba (hex : string) (alpha : Q) : RGBA :=
  match matchHex hex with
  | None => mkRGBA 255 255 255 alpha
  | Some (r, g, b) => mkRGBA r g b alpha
  end.

Definition isValidHex (hex : string) : bool :=
  match matchHex hex with
  | None => false
  | Some _ => true
  end.

End ColorManager.

(* ================================================================== *)
(** * Properties *)
(* ================================================================== *)

(** ** Doubles *)

Lemma two_neq_0 : ~ 2 == 0.
Proof. intro H. discriminate H. Qed.

Lemma pow2_pos (e : Z) : 0 < 2 ^ e.
Proof. apply Qpower_0_lt. reflexivity. Qed.

Lemma pow2_plus (a b : Z) : 2 ^ (a + b) == 2 ^ a * 2 ^ b.
Proof. apply Qpower_plus, two_neq_0. Qed.

Lemma pow2_minus (a b : Z) : 2 ^ (a - b) == 2 ^ a / 2 ^ b.
Proof. apply Qpower_minus, two_neq_0. Qed.

Lemma pow2_le (a b : Z) : (a <= b)%Z -> 2 ^ a <= 2 ^ b.
Proof. intros H. apply Qpower_le_compat_l; [exact H | discriminate]. Qed.

Lemma pow2_lt_inv (a b : Z) : 2 ^ a < 2 ^ b -> (a < b)%Z.
Proof. intros H. apply (Qpower_lt_compat_l_inv 2); [exact H | reflexivity]. Qed.

Lemma pow2_Z (n : Z) : (0 <= n)%Z -> inject_Z (2 ^ n) == 2 ^ n.
Proof. intros H. now rewrite Zpower_Qpower. Qed.

(** *** The nearest integer *)

Lemma roundHalfEven_floor (x : Q) :
  (Qfloor x <= roundHalfEven x <= Qfloor x + 1)%Z.
Proof.
  unfold roundHalfEven.
  destruct (Qcompare _ _); [destruct (Z.even _) | |]; lia.
Qed.

Lemma roundHalfEven_near (x : Q) :
  Qabs (inject_Z (roundHalfEven x) - x) <= 1 # 2.
Proof.
  pose proof (Qfloor_le x) as Hlo. pose proof (Qlt_floor x) as Hhi.
  rewrite inject_Z_plus in Hhi. change (inject_Z 1) with 1 in Hhi.
  apply Qabs_Qle_condition. unfold roundHalfEven.
  destruct (Qcompare_spec (x - inject_Z (Qfloor x)) (1 # 2)) as [He | Hl | Hg].
  - destruct (Z.even (Qfloor x)); rewrite ?inject_Z_plus;
      change (inject_Z 1) with 1; split; lra.
  - split; lra.
  - rewrite inject_Z_plus. change (inject_Z 1) with 1. split; lra.
Qed.

#[global] Instance roundHalfEven_comp : Proper (Qeq ==> eq) roundHalfEven.
Proof.
  intros x y H. unfold roundHalfEven. rewrite (Qfloor_comp _ _ H).
  assert (Hc : Qcompare (x - inject_Z (Qfloor y)) (1 # 2)
               = Qcompare (y - inject_Z (Qfloor y)) (1 # 2))
    by (apply Qcompare_comp; [now rewrite H | reflexivity]).
  now rewrite Hc.
Qed.

Lemma roundHalfEven_Z (n : Z) : roundHalfEven (inject_Z n) = n.
Proof.
  unfold roundHalfEven. rewrite Qfloor_Z.
  destruct (Qcompare_spec (inject_Z n - inject_Z n) (1 # 2)) as [He | Hl | Hg];
    [exfalso; lra | reflexivity | exfalso; lra].
Qed.

Lemma roundHalfEven_mono (x y : Q) :
  x <= y -> (roundHalfEven x <= roundHalfEven y)%Z.
Proof.
  intros Hxy. pose proof (Qfloor_resp_le _ _ Hxy) as Hf.
  destruct (Z.eq_dec (Qfloor x) (Qfloor y)) as [Heq | Hne].
  - unfold roundHalfEven. rewrite Heq.
    destruct (Qcompare_spec (x - inject_Z (Qfloor y)) (1 # 2));
      destruct (Qcompare_spec (y - inject_Z (Qfloor y)) (1 # 2));
      try destruct (Z.even (Qfloor y)); try lia; exfalso; lra.
  - pose proof (roundHalfEven_floor x). pose proof (roundHalfEven_floor y).
    lia.
Qed.

Lemma roundHalfEven_ge (x : Q) (n : Z) :
  inject_Z n <= x -> (n <= roundHalfEven x)%Z.
Proof.
  intros H. rewrite <- (roundHalfEven_Z n). now apply roundHalfEven_mono.
Qed.

Lemma roundHalfEven_le (x : Q) (n : Z) :
  x <= inject_Z n -> (roundHalfEven x <= n)%Z.
Proof.
  intros H. rewrite <- (roundHalfEven_Z n). now apply roundHalfEven_mono.
Qed.

(** *** The exponent *)

Lemma magnitude_bounds (x : Q) :
  0 < x ->
  let c := (Z.log2 (Qnum x) - Z.log2 (Zpos (Qden x)))%Z in
  2 ^ (c - 1) < x /\ x < 2 ^ (c + 1).
Proof.
  destruct x as [a b]. intros Hx c. cbn [Qnum Qden] in c.
  assert (Ha : (0 < a)%Z).
  { unfold Qlt in Hx. cbn in Hx. lia. }
  destruct (Z.log2_spec a Ha) as [Ha1 Ha2].
  destruct (Z.log2_spec (Zpos b) ltac:(lia)) as [Hb1 Hb2].
  pose proof (Z.log2_nonneg a) as Hla.
  pose proof (Z.log2_nonneg (Zpos b)) as Hlb.
  set (la := Z.log2 a) in *. set (lb := Z.log2 (Zpos b)) in *.
  assert (Hq : a # b == inject_Z a / inject_Z (Zpos b)) by apply Qmake_Qdiv.
  assert (Qa1 : 2 ^ la <= inject_Z a)
    by (rewrite <- pow2_Z by lia; now rewrite <- Zle_Qle).
  assert (Qa2 : inject_Z a < 2 ^ (la + 1))
    by (rewrite <- pow2_Z by lia; now rewrite <- Zlt_Qlt).
  assert (Qb1 : 2 ^ lb <= inject_Z (Zpos b))
    by (rewrite <- pow2_Z by lia; now rewrite <- Zle_Qle).
  assert (Qb2 : inject_Z (Zpos b) < 2 ^ (lb + 1))
    by (rewrite <- pow2_Z by lia; now rewrite <- Zlt_Qlt).
  pose proof (pow2_pos lb) as Plb. pose proof (pow2_pos (lb + 1)) as Plb1.
  pose proof (pow2_pos la) as Pla.
  assert (Hbpos : 0 < inject_Z (Zpos b)) by lra.
  rewrite Hq. unfold c. split.
  - replace (la - lb - 1)%Z with (la - (lb + 1))%Z by lia.
    rewrite pow2_minus.
    apply Qlt_shift_div_l; [exact Hbpos |].
    apply Qlt_le_trans with (2 ^ la / 2 ^ (lb + 1) * 2 ^ (lb + 1)).
    + apply Qmult_lt_l; [| exact Qb2].
      apply Qlt_shift_div_l; [exact Plb1 | lra].
    + assert (E : 2 ^ la / 2 ^ (lb + 1) * 2 ^ (lb + 1) == 2 ^ la)
        by (field; lra).
      rewrite E. exact Qa1.
  - replace (la - lb + 1)%Z with (la + 1 - lb)%Z by lia.
    rewrite pow2_minus.
    apply Qlt_shift_div_r; [exact Hbpos |].
    apply Qlt_le_trans with (2 ^ (la + 1) / 2 ^ lb * 2 ^ lb).
    + assert (E : 2 ^ (la + 1) / 2 ^ lb * 2 ^ lb == 2 ^ (la + 1))
        by (field; lra).
      rewrite E. exact Qa2.
    + apply Qmult_le_l; [| exact Qb1].
      apply Qlt_shift_div_l; [exact Plb | ].
      pose proof (pow2_pos (la + 1)). lra.
Qed.

Lemma ulpExponent_spec (x : Q) :
  0 < x ->
  2 ^ 52 <= x / 2 ^ ulpExponent x /\ x / 2 ^ ulpExponent x < 2 ^ 53.
Proof.
  intros Hx. destruct (magnitude_bounds x Hx) as [Hlo Hhi].
  assert (Habs : Z.abs (Qnum x) = Qnum x).
  { apply Z.abs_eq. destruct x as [a b]. unfold Qlt in Hx. cbn in *. lia. }
  assert (HabsQ : Qabs x = x).
  { destruct x as [a b]. cbn in Habs. unfold Qabs. now rewrite Habs. }
  unfold ulpExponent. rewrite HabsQ, Habs.
  set (c := (Z.log2 (Qnum x) - Z.log2 (Zpos (Qden x)))%Z) in *.
  replace (Z.log2 (Qnum x) - Z.log2 (Zpos (Qden x)) - 53)%Z
    with (c - 53)%Z by (unfold c; lia).
  pose proof (pow2_pos (c - 53)) as Pe.
  pose proof (pow2_pos (c - 53 + 1)) as Pe1.
  destruct (Qlt_le_dec (x / 2 ^ (c - 53)) (2 ^ 53)) as [Hsmall | Hbig].
  - split; [| exact Hsmall].
    apply Qle_shift_div_l; [exact Pe |].
    rewrite <- pow2_plus. replace (52 + (c - 53))%Z with (c - 1)%Z by lia.
    lra.
  - split.
    + apply Qle_shift_div_l; [exact Pe1 |].
      rewrite <- pow2_plus.
      replace (52 + (c - 53 + 1))%Z with (53 + (c - 53))%Z by lia.
      rewrite pow2_plus.
      apply Qmult_le_r with (z := / 2 ^ (c - 53));
        [now apply Qinv_lt_0_compat |].
      assert (E : 2 ^ 53 * 2 ^ (c - 53) * / 2 ^ (c - 53) == 2 ^ 53)
        by (field; lra).
      rewrite E. exact Hbig.
    + apply Qlt_shift_div_r; [exact Pe1 |].
      rewrite <- pow2_plus.
      replace (53 + (c - 53 + 1))%Z with (c + 1)%Z by lia.
      exact Hhi.
Qed.

Lemma ulpExponent_unique (x : Q) (e e' : Z) :
  2 ^ 52 <= x / 2 ^ e -> x / 2 ^ e' < 2 ^ 53 -> (e <= e')%Z.
Proof.
  intros He He'. pose proof (pow2_pos e) as Pe. pose proof (pow2_pos e') as Pe'.
  assert (H1 : 2 ^ 52 * 2 ^ e <= x).
  { apply Qmult_le_r with (z := / 2 ^ e); [now apply Qinv_lt_0_compat |].
    assert (E : 2 ^ 52 * 2 ^ e * / 2 ^ e == 2 ^ 52) by (field; lra).
    rewrite E. exact He. }
  assert (H2 : x < 2 ^ 53 * 2 ^ e').
  { apply Qmult_lt_r with (z := / 2 ^ e'); [now apply Qinv_lt_0_compat |].
    assert (E : 2 ^ 53 * 2 ^ e' * / 2 ^ e' == 2 ^ 53) by (field; lra).
    rewrite E. exact He'. }
  rewrite <- pow2_plus in H1, H2.
  assert (H3 : 2 ^ (52 + e) < 2 ^ (53 + e')) by lra.
  apply pow2_lt_inv in H3. lia.
Qed.

Lemma ulpExponent_mono (x y : Q) :
  0 < x -> x <= y -> (ulpExponent x <= ulpExponent y)%Z.
Proof.
  intros Hx Hxy.
  destruct (ulpExponent_spec x Hx) as [Hx1 _].
  destruct (ulpExponent_spec y ltac:(lra)) as [_ Hy2].
  apply (ulpExponent_unique x); [exact Hx1 |].
  eapply Qle_lt_trans; [| exact Hy2].
  apply Qmult_le_r; [apply Qinv_lt_0_compat, pow2_pos | exact Hxy].
Qed.

Lemma ulpExponent_comp_pos (x y : Q) :
  0 < x -> x == y -> ulpExponent x = ulpExponent y.
Proof.
  intros Hx Hxy.
  pose proof (ulpExponent_mono x y Hx ltac:(lra)).
  pose proof (ulpExponent_mono y x ltac:(lra) ltac:(lra)). lia.
Qed.

Lemma ulpExponent_abs (x : Q) : ulpExponent x = ulpExponent (Qabs x).
Proof.
  destruct x as [a b]. unfold ulpExponent, Qabs. cbn [Qnum Qden].
  now rewrite !Z.abs_idemp.
Qed.

Lemma ulpExponent_comp (x y : Q) :
  ~ x == 0 -> x == y -> ulpExponent x = ulpExponent y.
Proof.
  intros Hx Hxy. rewrite (ulpExponent_abs x), (ulpExponent_abs y).
  apply ulpExponent_comp_pos; [| now rewrite Hxy].
  pose proof (Qabs_nonneg x) as Hn. apply Qle_lteq in Hn.
  destruct Hn as [Hn | Hn]; [exact Hn |].
  exfalso. apply Hx. revert Hn. apply Qabs_case; intros; lra.
Qed.

(** *** Rounding to binary64 *)

Lemma round64_zero (x : Q) : x == 0 -> round64 x = 0.
Proof.
  intros H. unfold round64. apply Qeq_bool_iff in H. now rewrite H.
Qed.

Lemma round64_nonzero (x : Q) :
  ~ x == 0 ->
  round64 x
  = inject_Z (roundHalfEven (x / 2 ^ ulpExponent x)) * 2 ^ ulpExponent x.
Proof.
  intros H. unfold round64.
  destruct (Qeq_bool x 0) eqn:E; [| reflexivity].
  apply Qeq_bool_iff in E. contradiction.
Qed.

#[global] Instance round64_comp : Proper (Qeq ==> Qeq) round64.
Proof.
  intros x y H.
  destruct (Qeq_dec x 0) as [Hz | Hnz].
  - rewrite (round64_zero x Hz), (round64_zero y); [reflexivity |].
    now rewrite <- H.
  - rewrite (round64_nonzero x Hnz), (round64_nonzero y)
      by (now rewrite <- H).
    rewrite (ulpExponent_comp x y Hnz H).
    assert (E : x / 2 ^ ulpExponent y == y / 2 ^ ulpExponent y)
      by (now rewrite H).
    now rewrite E.
Qed.

Lemma round64_scaled (x : Q) :
  0 < x ->
  let e := ulpExponent x in
  let z := x / 2 ^ e in
  round64 x = inject_Z (roundHalfEven z) * 2 ^ e
  /\ 2 ^ 52 <= z /\ z < 2 ^ 53
  /\ (2 ^ 52 <= roundHalfEven z <= 2 ^ 53)%Z.
Proof.
  intros Hx e z. destruct (ulpExponent_spec x Hx) as [Hlo Hhi].
  fold e in Hlo, Hhi. fold z in Hlo, Hhi.
  split; [apply round64_nonzero; lra |]. split; [exact Hlo |].
  split; [exact Hhi |]. split.
  - apply roundHalfEven_ge. rewrite (pow2_Z 52) by lia. exact Hlo.
  - apply roundHalfEven_le. rewrite (pow2_Z 53) by lia. lra.
Qed.

Lemma round64_nonneg (x : Q) : 0 <= x -> 0 <= round64 x.
Proof.
  intros H. destruct (Qeq_dec x 0) as [Hz | Hnz].
  - rewrite (round64_zero x Hz). lra.
  - assert (Hx : 0 < x).
    { apply Qle_lteq in H. destruct H as [H | H]; [exact H |].
      exfalso. apply Hnz. now symmetry. }
    destruct (round64_scaled x Hx) as (-> & _ & _ & Hm & _).
    apply Qmult_le_0_compat; [| apply Qlt_le_weak, pow2_pos].
    change 0 with (inject_Z 0). rewrite <- Zle_Qle.
    pose proof (Z.pow_pos_nonneg 2 52). lia.
Qed.

(** The relative error of one rounding is at most [2^-53]. *)
Lemma round64_error (x : Q) :
  0 <= x -> Qabs (round64 x - x) <= x / 2 ^ 53.
Proof.
  intros H. destruct (Qeq_dec x 0) as [Hz | Hnz].
  - rewrite (round64_zero x Hz), Hz. apply Qle_bool_imp_le. reflexivity.
  - assert (Hx : 0 < x).
    { apply Qle_lteq in H. destruct H as [H | H]; [exact H |].
      exfalso. apply Hnz. now symmetry. }
    destruct (round64_scaled x Hx) as (-> & Hlo & _ & _).
    set (e := ulpExponent x) in *. set (z := x / 2 ^ e) in *.
    pose proof (pow2_pos e) as Pe.
    assert (Hxz : x == z * 2 ^ e) by (unfold z; field; lra).
    assert (E : inject_Z (roundHalfEven z) * 2 ^ e - x
                == (inject_Z (roundHalfEven z) - z) * 2 ^ e)
      by (rewrite Hxz at 1; ring).
    rewrite E, Qabs_Qmult, (Qabs_pos (2 ^ e)) by lra.
    pose proof (roundHalfEven_near z) as Hnear.
    apply Qle_trans with ((1 # 2) * 2 ^ e).
    + apply Qmult_le_compat_r; [exact Hnear | lra].
    + apply Qle_shift_div_l; [apply pow2_pos |].
      assert (P53 : 2 ^ 53 == 2 * 2 ^ 52) by reflexivity.
      rewrite P53, Hxz.
      assert (E2 : (1 # 2) * 2 ^ e * (2 * 2 ^ 52) == 2 ^ 52 * 2 ^ e) by ring.
      rewrite E2. apply Qmult_le_compat_r; lra.
Qed.

Lemma round64_mono (x y : Q) : 0 <= x -> x <= y -> round64 x <= round64 y.
Proof.
  intros H Hxy. destruct (Qeq_dec x 0) as [Hz | Hnz].
  - rewrite (round64_zero x Hz). apply round64_nonneg. lra.
  - assert (Hx : 0 < x).
    { apply Qle_lteq in H. destruct H as [H | H]; [exact H |].
      exfalso. apply Hnz. now symmetry. }
    assert (Hy : 0 < y) by lra.
    pose proof (ulpExponent_mono x y Hx Hxy) as He.
    destruct (round64_scaled x Hx) as (-> & _ & _ & _ & Hmx).
    destruct (round64_scaled y Hy) as (-> & _ & _ & Hmy & _).
    set (ex := ulpExponent x) in *. set (ey := ulpExponent y) in *.
    pose proof (pow2_pos ex) as Px. pose proof (pow2_pos ey) as Py.
    destruct (Z.eq_dec ex ey) as [Heq | Hne].
    + rewrite Heq in *. apply Qmult_le_compat_r; [| lra].
      rewrite <- Zle_Qle. apply roundHalfEven_mono.
      apply Qmult_le_compat_r; [exact Hxy |].
      apply Qlt_le_weak, Qinv_lt_0_compat, Py.
    + apply Qle_trans with (2 ^ 53 * 2 ^ ex).
      * apply Qmult_le_compat_r; [| lra].
        rewrite <- (pow2_Z 53) by lia. rewrite <- Zle_Qle. lia.
      * apply Qle_trans with (2 ^ 52 * 2 ^ ey).
        -- rewrite <- !pow2_plus. apply pow2_le. lia.
        -- apply Qmult_le_compat_r; [| lra].
           rewrite <- (pow2_Z 52) by lia. rewrite <- Zle_Qle. lia.
Qed.

(** Numbers with at most 53 significant bits are not changed. *)
Lemma round64_exact (m k : Z) :
  (0 <= m < 2 ^ 53)%Z ->
  round64 (inject_Z m * 2 ^ k) == inject_Z m * 2 ^ k.
Proof.
  intros [Hm0 Hm]. destruct (Z.eq_dec m 0) as [-> | Hnz].
  - rewrite round64_zero; [| ring]. ring.
  - pose proof (pow2_pos k) as Pk.
    assert (Hmq : 0 < inject_Z m)
      by (change 0 with (inject_Z 0); rewrite <- Zlt_Qlt; lia).
    assert (Hx : 0 < inject_Z m * 2 ^ k) by (apply Qmult_lt_0_compat; lra).
    destruct (round64_scaled _ Hx) as (-> & Hlo & _ & _).
    set (e := ulpExponent (inject_Z m * 2 ^ k)) in *.
    pose proof (pow2_pos e) as Pe.
    assert (Hz : inject_Z m * 2 ^ k / 2 ^ e == inject_Z m * 2 ^ (k - e))
      by (rewrite pow2_minus; field; lra).
    rewrite Hz in Hlo.
    assert (Hke : (e <= k)%Z).
    { assert (Hm53 : inject_Z m < 2 ^ 53)
        by (rewrite <- (pow2_Z 53) by lia; now rewrite <- Zlt_Qlt).
      pose proof (pow2_pos (k - e)) as Pke.
      assert (H1 : 2 ^ 52 < 2 ^ 53 * 2 ^ (k - e)).
      { eapply Qle_lt_trans; [exact Hlo |].
        apply Qmult_lt_compat_r; assumption. }
      rewrite <- pow2_plus in H1. apply pow2_lt_inv in H1. lia. }
    assert (Hint : inject_Z m * 2 ^ (k - e)
                   == inject_Z (m * 2 ^ (k - e)))
      by (rewrite inject_Z_mult, pow2_Z by lia; reflexivity).
    rewrite Hz, Hint, roundHalfEven_Z, <- Hint.
    rewrite pow2_minus. field. lra.
Qed.

Lemma round64_Z (n : Z) :
  (0 <= n < 2 ^ 53)%Z -> round64 (inject_Z n) == inject_Z n.
Proof.
  intros H. pose proof (round64_exact n 0 H) as E.
  assert (E1 : inject_Z n * 2 ^ 0 == inject_Z n) by (cbn; ring).
  now rewrite E1 in E.
Qed.

(** One rounding changes a number that is not negative by at most the
    fraction [2^-53] of it. *)
Lemma round64_lower (x : Q) :
  0 <= x -> x * (9007199254740991 # 9007199254740992) <= round64 x.
Proof.
  intros H. pose proof (round64_error x H) as He.
  apply Qabs_Qle_condition in He. destruct He as [He _].
  change (2 ^ 53) with 9007199254740992 in He.
  unfold Qdiv in He.
  change (/ 9007199254740992) with (1 # 9007199254740992) in He. lra.
Qed.

Lemma round64_upper (x : Q) :
  0 <= x -> round64 x <= x * (9007199254740993 # 9007199254740992).
Proof.
  intros H. pose proof (round64_error x H) as He.
  apply Qabs_Qle_condition in He. destruct He as [_ He].
  change (2 ^ 53) with 9007199254740992 in He.
  unfold Qdiv in He.
  change (/ 9007199254740992) with (1 # 9007199254740992) in He. lra.
Qed.

(** [round64] against the standard library's IEEE 754 operations, at the
    quotients and products the examples of this development go through:
    [totalSamples / targetWidth] and [i * samplesPerPixel] of the waveform
    extractor (44100 samples on 1300 columns, 15 on 11, 6 on 3), and
    [length / sampleRate] and [duration * sampleRate] of the CLI engine
    (7 samples at 48000 Hz). *)
Lemma round64_agrees_with_binary64 :
  hasValue (divide64 (binary64 44100) (binary64 1300))
           (round64 (44100 # 1300)) = true
  /\ hasValue (multiply64 (binary64 1300)
                 (divide64 (binary64 44100) (binary64 1300)))
              (round64 (1300 * round64 (44100 # 1300))) = true
  /\ hasValue (multiply64 (binary64 1299)
                 (divide64 (binary64 44100) (binary64 1300)))
              (round64 (1299 * round64 (44100 # 1300))) = true
  /\ hasValue (multiply64 (binary64 11)
                 (divide64 (binary64 15) (binary64 11)))
              (round64 (11 * round64 (15 # 11))) = true
  /\ hasValue (multiply64 (binary64 3)
                 (divide64 (binary64 6) (binary64 3)))
              (round64 (3 * round64 (6 # 3))) = true
  /\ hasValue (divide64 (binary64 7) (binary64 48000))
              (round64 (7 # 48000)) = true
  /\ hasValue (multiply64 (divide64 (binary64 7) (binary64 48000))
                 (binary64 48000))
              (round64 (round64 (7 # 48000) * 48000)) = true.
Proof. repeat split; vm_compute; reflexivity. Qed.

(** ** The adaptive window *)



Lemma spectrum_window_same t currentTime windowDuration :
  spectrumSampleWindow t currentTime windowDuration
  = waveformSampleWindow t currentTime windowDuration.
Proof. reflexivity. Qed.

(** ** Peak-hold downsampling *)

Lemma peakLoop_ge_init channelData n : forall j max,
  max <= peakLoop channelData j n max.
Proof.
  induction n as [| n IH]; intros j max; simpl; [lra |].
  destruct ((0 <=? j)%Z && (j <? Z.of_nat (List.length channelData))%Z).
  - destruct (Qlt_le_dec max (Qabs (sampleAt channelData j))) as [Hlt | Hle].
    + eapply Qle_trans; [| apply IH]. lra.
    + apply IH.
  - apply IH.
Qed.

Lemma peakLoop_upper channelData n : forall j max k,
  (j <= k < j + Z.of_nat n)%Z ->
  (0 <= k < Z.of_nat (List.length channelData))%Z ->
  Qabs (sampleAt channelData k) <= peakLoop channelData j n max.
Proof.
  induction n as [| n IH]; intros j max k Hk Hin; [lia |].
  cbn [peakLoop].
  destruct (Z.eq_dec k j) as [-> | Hne].
  - replace ((0 <=? j)%Z && (j <? Z.of_nat (List.length channelData))%Z)
      with true by (symmetry; apply andb_true_intro; split;
                    [apply Z.leb_le | apply Z.ltb_lt]; lia).
    destruct (Qlt_le_dec max (Qabs (sampleAt channelData j))) as [Hlt | Hle].
    + apply peakLoop_ge_init.
    + eapply Qle_trans; [exact Hle | apply peakLoop_ge_init].
  - apply IH; [lia | assumption].
Qed.

Lemma peakLoop_attained channelData n : forall j max,
  peakLoop channelData j n max = max
  \/ exists k, (j <= k < j + Z.of_nat n)%Z
       /\ (0 <= k < Z.of_nat (List.length channelData))%Z
       /\ peakLoop channelData j n max = Qabs (sampleAt channelData k).
Proof.
  induction n as [| n IH]; intros j max; [left; reflexivity |].
  cbn [peakLoop].
  destruct ((0 <=? j)%Z && (j <? Z.of_nat (List.length channelData))%Z) eqn:Hg.
  - apply andb_prop in Hg. destruct Hg as [H0 Hlen].
    apply Z.leb_le in H0. apply Z.ltb_lt in Hlen.
    destruct (Qlt_le_dec max (Qabs (sampleAt channelData j))) as [Hlt | Hle].
    + destruct (IH (j + 1)%Z (Qabs (sampleAt channelData j)))
        as [Heq | (k & Hk & Hin & Heq)].
      * right. exists j. repeat split; try lia. exact Heq.
      * right. exists k. repeat split; try lia. exact Heq.
    + destruct (IH (j + 1)%Z max) as [Heq | (k & Hk & Hin & Heq)].
      * left. exact Heq.
      * right. exists k. repeat split; try lia. exact Heq.
  - destruct (IH (j + 1)%Z max) as [Heq | (k & Hk & Hin & Heq)].
    + left. exact Heq.
    + right. exists k. repeat split; try lia. exact Heq.
Qed.

(** The peak of a bucket that lies inside the channel is the greatest
    absolute sample of the bucket, and [0] for an empty bucket. *)
Lemma bucketPeak_is_max channelData start stop :
  (0 <= start)%Z -> (stop <= Z.of_nat (List.length channelData))%Z ->
  (forall j, (start <= j < stop)%Z ->
     Qabs (sampleAt channelData j) <= bucketPeak channelData start stop)
  /\ ((start < stop)%Z ->
      exists j, (start <= j < stop)%Z
        /\ bucketPeak channelData start stop == Qabs (sampleAt channelData j))
  /\ ((stop <= start)%Z -> bucketPeak channelData start stop = 0).
Proof.
  intros Hstart Hstop. unfold bucketPeak. split; [| split].
  - intros j Hj. apply peakLoop_upper; lia.
  - intros Hne.
    destruct (peakLoop_attained channelData (Z.to_nat (stop - start)) start 0)
      as [Heq | (k & Hk & Hin & Heq)].
    + exists start. split; [lia |]. rewrite Heq.
      assert (Hup : Qabs (sampleAt channelData start)
                    <= peakLoop channelData start (Z.to_nat (stop - start)) 0)
        by (apply peakLoop_upper; lia).
      rewrite Heq in Hup.
      pose proof (Qabs_nonneg (sampleAt channelData start)). lra.
    + exists k. split; [lia |]. rewrite Heq. reflexivity.
  - intros Hempty. replace (Z.to_nat (stop - start)) with O by lia.
    reflexivity.
Qed.

Lemma ofNat_nonneg n : 0 <= ofNat n.
Proof.
  unfold ofNat. change 0 with (inject_Z 0). rewrite <- Zle_Qle. lia.
Qed.

Lemma ofNat_pos n : (0 < n)%nat -> 0 < ofNat n.
Proof.
  intros H. unfold ofNat. change 0 with (inject_Z 0). rewrite <- Zlt_Qlt. lia.
Qed.

Lemma ofNat_S n : ofNat (S n) == ofNat n + 1.
Proof.
  unfold ofNat. rewrite Nat2Z.inj_succ. unfold Z.succ.
  rewrite inject_Z_plus. reflexivity.
Qed.

Lemma Qfloor_nonneg q : 0 <= q -> (0 <= Qfloor q)%Z.
Proof.
  intros H. change 0%Z with (Qfloor 0). now apply Qfloor_resp_le.
Qed.

(** For a divisor that is a power of two the quotient of a sample count and
    its multiples are doubles already: nothing is rounded.  This is why the
    index computation of [resampleWindow], which the statements below use at
    FFT sizes that are powers of two, is written without [round64]. *)
Lemma power_of_two_quotient_exact (m i : nat) (totalSamples : Z) :
  (0 <= totalSamples < 2 ^ 53)%Z ->
  (Z.of_nat i * totalSamples < 2 ^ 53)%Z ->
  round64 (inject_Z totalSamples / ofNat (2 ^ m))
  == inject_Z totalSamples / ofNat (2 ^ m)
  /\ round64 (ofNat i * round64 (inject_Z totalSamples / ofNat (2 ^ m)))
     == ofNat i * (inject_Z totalSamples / ofNat (2 ^ m)).
Proof.
  intros Ht Hi.
  assert (Hpow : ofNat (2 ^ m) == 2 ^ Z.of_nat m).
  { unfold ofNat. rewrite Nat2Z.inj_pow. apply pow2_Z. lia. }
  pose proof (pow2_pos (Z.of_nat m)) as Ppos.
  assert (Hq : inject_Z totalSamples / ofNat (2 ^ m)
               == inject_Z totalSamples * 2 ^ (- Z.of_nat m)).
  { rewrite Hpow, Qpower_opp. reflexivity. }
  assert (E1 : round64 (inject_Z totalSamples / ofNat (2 ^ m))
               == inject_Z totalSamples / ofNat (2 ^ m))
    by (rewrite Hq; apply round64_exact; exact Ht).
  split; [exact E1 |].
  rewrite E1, Hq.
  assert (Hp : ofNat i * (inject_Z totalSamples * 2 ^ (- Z.of_nat m))
               == inject_Z (Z.of_nat i * totalSamples) * 2 ^ (- Z.of_nat m))
    by (unfold ofNat; rewrite inject_Z_mult; ring).
  rewrite Hp. apply round64_exact. nia.
Qed.

(** The window never starts before the first sample. *)
Lemma waveformSampleWindow_start_nonneg t currentTime windowDuration :
  0 <= sampleRate (buffer t) ->
  (0 <= fst (waveformSampleWindow t currentTime windowDuration))%Z.
Proof.
  intros Hsr. unfold waveformSampleWindow.
  destruct (Qlt_le_dec currentTime windowDuration) as [Hlt | Hle]; cbn [fst].
  - apply Qfloor_nonneg. lra.
  - apply Qfloor_nonneg. apply Qmult_le_0_compat; lra.
Qed.

Lemma waveformSampleWindow_end_le t currentTime windowDuration :
  (snd (waveformSampleWindow t currentTime windowDuration)
   <= Z.of_nat (List.length (channel0 (buffer t))))%Z.
Proof.
  unfold waveformSampleWindow.
  destruct (Qlt_le_dec currentTime windowDuration); cbn [snd]; lia.
Qed.

Section Buckets.
Variables (startSample endSample : Z) (targetWidth : nat).
Hypothesis Htotal : (0 < endSample - startSample)%Z.
Hypothesis Hwidth : (0 < targetWidth)%nat.

Let samplesPerPixel : Q :=
  round64 (inject_Z (endSample - startSample) / ofNat targetWidth).

Lemma samplesPerPixel_exact_pos :
  0 < inject_Z (endSample - startSample) / ofNat targetWidth.
Proof.
  apply Qlt_shift_div_l; [now apply ofNat_pos |].
  rewrite Qmult_0_l. change 0 with (inject_Z 0). rewrite <- Zlt_Qlt. lia.
Qed.

Lemma samplesPerPixel_nonneg : 0 <= samplesPerPixel.
Proof.
  unfold samplesPerPixel. apply round64_nonneg.
  apply Qlt_le_weak, samplesPerPixel_exact_pos.
Qed.

Lemma bucketStart_ge i :
  (startSample <= bucketStart startSample samplesPerPixel i)%Z.
Proof.
  unfold bucketStart.
  assert (0 <= Qfloor (round64 (ofNat i * samplesPerPixel)))%Z; [| lia].
  apply Qfloor_nonneg, round64_nonneg. apply Qmult_le_0_compat;
    [apply ofNat_nonneg | apply samplesPerPixel_nonneg].
Qed.

Lemma bucketEnd_le i :
  (bucketEnd startSample endSample samplesPerPixel i <= endSample)%Z.
Proof. unfold bucketEnd. lia. Qed.

(** A bucket ends where the next one starts, or at the end of the window. *)
Lemma bucketEnd_next i :
  bucketEnd startSample endSample samplesPerPixel i
  = Z.min (bucketStart startSample samplesPerPixel (S i)) endSample.
Proof.
  unfold bucketEnd, bucketStart.
  assert (Heq : Qfloor (round64 ((ofNat i + 1) * samplesPerPixel))
                = Qfloor (round64 (ofNat (S i) * samplesPerPixel))).
  { apply Qfloor_comp, round64_comp. rewrite ofNat_S. reflexivity. }
  now rewrite Heq.
Qed.

Lemma bucketStart_first :
  bucketStart startSample samplesPerPixel 0 = startSample.
Proof.
  unfold bucketStart.
  assert (Heq : Qfloor (round64 (ofNat 0 * samplesPerPixel)) = 0%Z).
  { rewrite round64_zero; [reflexivity |]. unfold ofNat. simpl. ring. }
  rewrite Heq. lia.
Qed.

(** The bucket starts do not decrease. *)
Lemma bucketStart_mono i j :
  (i <= j)%nat ->
  (bucketStart startSample samplesPerPixel i
   <= bucketStart startSample samplesPerPixel j)%Z.
Proof.
  intros Hij. unfold bucketStart.
  assert (Qfloor (round64 (ofNat i * samplesPerPixel))
          <= Qfloor (round64 (ofNat j * samplesPerPixel)))%Z; [| lia].
  pose proof samplesPerPixel_nonneg as Hs.
  apply Qfloor_resp_le, round64_mono.
  - apply Qmult_le_0_compat; [apply ofNat_nonneg | exact Hs].
  - apply Qmult_le_compat_r; [| exact Hs].
    unfold ofNat. rewrite <- Zle_Qle. lia.
Qed.

(** The two roundings lose less than one sample: the last bucket ends at
    the end of the window or one sample before it. *)
Lemma bucketStart_last :
  (endSample - startSample < 2 ^ 52)%Z ->
  (endSample - 1 <= bucketStart startSample samplesPerPixel targetWidth)%Z.
Proof.
  intros Hsmall. unfold bucketStart.
  set (total := inject_Z (endSample - startSample)).
  set (c := 9007199254740991 # 9007199254740992).
  pose proof (ofNat_pos targetWidth Hwidth) as Hw.
  pose proof samplesPerPixel_exact_pos as Hq. fold total in Hq.
  assert (Ht : 0 < total /\ total < 4503599627370496).
  { unfold total. split.
    - change 0 with (inject_Z 0). rewrite <- Zlt_Qlt. lia.
    - change 4503599627370496 with (inject_Z (2 ^ 52)).
      now rewrite <- Zlt_Qlt. }
  assert (H1 : total / ofNat targetWidth * c <= samplesPerPixel)
    by (apply round64_lower; lra).
  assert (H2 : total * c <= ofNat targetWidth * samplesPerPixel).
  { assert (E : total * c == ofNat targetWidth * (total / ofNat targetWidth * c))
      by (field; lra).
    rewrite E. apply Qmult_le_l; assumption. }
  assert (H3 : ofNat targetWidth * samplesPerPixel * c
               <= round64 (ofNat targetWidth * samplesPerPixel)).
  { apply round64_lower. apply Qmult_le_0_compat;
      [lra | apply samplesPerPixel_nonneg]. }
  assert (H4 : total * c * c <= ofNat targetWidth * samplesPerPixel * c)
    by (apply Qmult_le_compat_r; [exact H2 | unfold c; lra]).
  assert (H5 : inject_Z (endSample - startSample - 1)
               <= round64 (ofNat targetWidth * samplesPerPixel)).
  { unfold Z.sub at 1. rewrite inject_Z_plus. fold total.
    change (inject_Z (- (1))) with (- (1)).
    eapply Qle_trans; [| exact H3]. eapply Qle_trans; [| exact H4].
    unfold c. lra. }
  apply Qfloor_resp_le in H5. rewrite Qfloor_Z in H5. lia.
Qed.

(** Up to the start of bucket [n], and up to the end of the window, every
    sample lies in one of the buckets [0 .. n - 1]. *)
Lemma buckets_cover n j :
  (startSample <= j
   < Z.min (bucketStart startSample samplesPerPixel n) endSample)%Z ->
  exists i, (i < n)%nat
    /\ (bucketStart startSample samplesPerPixel i <= j
        < bucketEnd startSample endSample samplesPerPixel i)%Z.
Proof.
  induction n as [| n IH]; intros Hj.
  - rewrite bucketStart_first in Hj. lia.
  - destruct (Z_lt_le_dec j (bucketStart startSample samplesPerPixel n))
      as [Hlt | Hge].
    + destruct IH as (i & Hi & Hin); [lia |]. exists i. split; [lia | exact Hin].
    + exists n. split; [lia |]. rewrite bucketEnd_next. lia.
Qed.

End Buckets.

Lemma nth_map_seq {A : Type} (f : nat -> A) (n i : nat) (d : A) :
  (i < n)%nat -> nth i (map f (seq 0 n)) d = f i.
Proof.
  intros Hi.
  rewrite (nth_indep _ d (f 0%nat)) by (rewrite length_map, length_seq; lia).
  rewrite map_nth, seq_nth by lia. reflexivity.
Qed.

Lemma getWaveform_unsmoothed t currentTime windowDuration targetWidth :
  (0 < snd (waveformSampleWindow t currentTime windowDuration)
       - fst (waveformSampleWindow t currentTime windowDuration))%Z ->
  getWaveformDataForTimeWindow t currentTime windowDuration targetWidth 0
  = downsample (channel0 (buffer t))
      (fst (waveformSampleWindow t currentTime windowDuration))
      (snd (waveformSampleWindow t currentTime windowDuration)) targetWidth.
Proof.
  intros Htotal. unfold getWaveformDataForTimeWindow.
  destruct (waveformSampleWindow t currentTime windowDuration)
    as [startSample endSample].
  cbn [fst snd] in *.
  destruct (endSample - startSample <=? 0)%Z eqn:Hz.
  - apply Z.leb_le in Hz. lia.
  - reflexivity.
Qed.

Lemma getWaveform_smoothed t currentTime windowDuration targetWidth level :
  (0 < snd (waveformSampleWindow t currentTime windowDuration)
       - fst (waveformSampleWindow t currentTime windowDuration))%Z ->
  (0 < level)%nat ->
  getWaveformDataForTimeWindow t currentTime windowDuration targetWidth level
  = applySmoothingFilter
      (getWaveformDataForTimeWindow t currentTime windowDuration targetWidth 0)
      level.
Proof.
  intros Htotal Hlevel. unfold getWaveformDataForTimeWindow.
  destruct (waveformSampleWindow t currentTime windowDuration)
    as [startSample endSample].
  cbn [fst snd] in *.
  destruct (endSample - startSample <=? 0)%Z eqn:Hz.
  - apply Z.leb_le in Hz. lia.
  - destruct (0 <? level)%nat eqn:Hl; [reflexivity |].
    apply Nat.ltb_ge in Hl. lia.
Qed.

(** **** C2.  For a track with a positive sample rate, a non-degenerate
    window and a positive target width, the unsmoothed waveform has one
    value per bucket.  Bucket [i] is [[lo i, hi i)] with
    [lo i = startSample + floor(i * samplesPerPixel)] and
    [hi i = min(lo (i + 1), endSample)], quotient and products rounded to
    doubles as the code computes them: the buckets lie in the window,
    follow each other without a gap from [startSample] on, and reach the end
    of the window or stop one sample before it (for windows of fewer than
    [2^52] samples), so every sample of the window but possibly the last
    lies in a bucket.  Each value is the greatest absolute sample of
    channel 0 in its bucket (it bounds every sample of the bucket and is
    attained by one of them; it is 0 for a bucket without samples).  A
    positive smoothing level only post-processes this peak buffer.  No
    other channel, and no other attribute of the track than channel 0, the
    sample rate and the duration, is read. *)
Theorem peak_hold_downsampling (t : AudioTrack)
    (currentTime windowDuration : Q) (targetWidth : nat) :
  let startSample := fst (waveformSampleWindow t currentTime windowDuration) in
  let endSample := snd (waveformSampleWindow t currentTime windowDuration) in
  let samplesPerPixel :=
    round64 (inject_Z (endSample - startSample) / ofNat targetWidth) in
  let lo := bucketStart startSample samplesPerPixel in
  let hi := bucketEnd startSample endSample samplesPerPixel in
  let out :=
    getWaveformDataForTimeWindow t currentTime windowDuration targetWidth 0 in
  0 < sampleRate (buffer t) ->
  (0 < endSample - startSample)%Z ->
  (0 < targetWidth)%nat ->
  List.length out = targetWidth
  /\ lo 0%nat = startSample
  /\ (forall i, (i < targetWidth)%nat ->
        (startSample <= lo i)%Z /\ (hi i <= endSample)%Z
        /\ (lo i <= lo (S i))%Z
        /\ hi i = Z.min (lo (S i)) endSample
        /\ (forall j, (lo i <= j < hi i)%Z ->
              (0 <= j < Z.of_nat (List.length (channel0 (buffer t))))%Z
              /\ Qabs (sampleAt (channel0 (buffer t)) j) <= nth i out 0)
        /\ ((lo i < hi i)%Z ->
              exists j, (lo i <= j < hi i)%Z
                /\ nth i out 0 == Qabs (sampleAt (channel0 (buffer t)) j))
        /\ ((hi i <= lo i)%Z -> nth i out 0 = 0))
  /\ (forall j, (startSample <= j < Z.min (lo targetWidth) endSample)%Z ->
        exists i, (i < targetWidth)%nat /\ (lo i <= j < hi i)%Z
          /\ Qabs (sampleAt (channel0 (buffer t)) j) <= nth i out 0)
  /\ ((endSample - startSample < 2 ^ 52)%Z ->
        (endSample - 1 <= lo targetWidth)%Z)
  /\ (forall smoothingLevel,
        getWaveformDataForTimeWindow t currentTime windowDuration
          targetWidth smoothingLevel
        = if (0 <? smoothingLevel)%nat
          then applySmoothingFilter out smoothingLevel else out)
  /\ (forall t' smoothingLevel,
        channel0 (buffer t') = channel0 (buffer t) ->
        sampleRate (buffer t') = sampleRate (buffer t) ->
        duration (buffer t') = duration (buffer t) ->
        getWaveformDataForTimeWindow t' currentTime windowDuration
          targetWidth smoothingLevel
        = getWaveformDataForTimeWindow t currentTime windowDuration
            targetWidth smoothingLevel).
Proof.
  intros startSample endSample samplesPerPixel lo hi out Hsr Htotal Hwidth.
  assert (Hout : out = downsample (channel0 (buffer t)) startSample endSample
                         targetWidth)
    by (apply getWaveform_unsmoothed; exact Htotal).
  assert (Hs0 : (0 <= startSample)%Z)
    by (apply waveformSampleWindow_start_nonneg; lra).
  assert (Hend : (endSample <= Z.of_nat (List.length (channel0 (buffer t))))%Z)
    by apply waveformSampleWindow_end_le.
  assert (Hbucket : forall i, (i < targetWidth)%nat ->
            (startSample <= lo i)%Z /\ (hi i <= endSample)%Z
            /\ (forall j, (lo i <= j < hi i)%Z ->
                  (0 <= j < Z.of_nat (List.length (channel0 (buffer t))))%Z
                  /\ Qabs (sampleAt (channel0 (buffer t)) j) <= nth i out 0)
            /\ ((lo i < hi i)%Z ->
                  exists j, (lo i <= j < hi i)%Z
                    /\ nth i out 0 == Qabs (sampleAt (channel0 (buffer t)) j))
            /\ ((hi i <= lo i)%Z -> nth i out 0 = 0)).
  { intros i Hi.
    assert (Hlo : (startSample <= lo i)%Z)
      by (apply bucketStart_ge; assumption).
    assert (Hhi : (hi i <= endSample)%Z)
      by (apply bucketEnd_le; assumption).
    assert (Hnth : nth i out 0 = bucketPeak (channel0 (buffer t)) (lo i) (hi i)).
    { rewrite Hout. unfold downsample. now rewrite nth_map_seq. }
    destruct (bucketPeak_is_max (channel0 (buffer t)) (lo i) (hi i))
      as (Hub & Hatt & Hempty); [lia | lia |].
    rewrite Hnth. split; [exact Hlo |]. split; [exact Hhi |].
    split; [| split; [exact Hatt | exact Hempty]].
    intros j Hj. split; [lia | now apply Hub]. }
  split; [| split; [| split; [| split; [| split; [| split]]]]].
  - rewrite Hout. unfold downsample. now rewrite length_map, length_seq.
  - apply bucketStart_first; assumption.
  - intros i Hi. destruct (Hbucket i Hi) as (H1 & H2 & H3 & H4 & H5).
    split; [exact H1 |]. split; [exact H2 |].
    split; [apply bucketStart_mono; first [assumption | lia] |].
    split; [apply bucketEnd_next; assumption |].
    split; [exact H3 |]. split; [exact H4 | exact H5].
  - intros j Hj.
    destruct (buckets_cover startSample endSample targetWidth Htotal Hwidth
                targetWidth j Hj) as (i & Hi & Hin).
    exists i. split; [exact Hi |]. split; [exact Hin |].
    destruct (Hbucket i Hi) as (_ & _ & H3 & _). now apply H3.
  - apply bucketStart_last; assumption.
  - intros smoothingLevel.
    destruct (0 <? smoothingLevel)%nat eqn:Hl.
    + apply Nat.ltb_lt in Hl. now apply getWaveform_smoothed.
    + apply Nat.ltb_ge in Hl. now replace smoothingLevel with 0%nat by lia.
  - intros t' smoothingLevel Hc Hr Hd.
    unfold getWaveformDataForTimeWindow, waveformSampleWindow.
    rewrite Hc, Hr, Hd. reflexivity.
Qed.

Lemma peak_hold_downsampling_witness :
  List.length (getWaveformDataForTimeWindow demoTrack (1 # 2) 1 2 0) = 2%nat
  /\ nth 1 (getWaveformDataForTimeWindow demoTrack (1 # 2) 1 2 0) 0 = 5.
Proof.
  split.
  - exact (proj1 (peak_hold_downsampling demoTrack (1 # 2) 1 2
                    ltac:(reflexivity) ltac:(reflexivity) ltac:(lia))).
  - vm_compute. reflexivity.
Defined.

(** The last sample can be lost.  The window of the click track is its 15
    samples, extracted into 11 columns: the double [15 / 11] times 11 is
    the double just below 15, so the last bucket ends at sample 14, and
    sample 14, the click, lies in no bucket.  Every column is 0 although the
    window holds a sample of absolute value 1. *)
Lemma last_sample_dropped_small :
  wfBuffer (buffer clickTrack)
  /\ waveformSampleWindow clickTrack 1 1 = (0, 15)%Z
  /\ bucketStart 0 (round64 (inject_Z 15 / ofNat 11)) 11 = 14%Z
  /\ Qabs (sampleAt (channel0 (buffer clickTrack)) 14) = 1
  /\ getWaveformDataForTimeWindow clickTrack 1 1 11 0 = repeat 0 11
  /\ ~ (forall j,
          (fst (waveformSampleWindow clickTrack 1 1) <= j
           < snd (waveformSampleWindow clickTrack 1 1))%Z ->
          exists i, (i < 11)%nat
            /\ Qabs (sampleAt (channel0 (buffer clickTrack)) j)
               <= nth i (getWaveformDataForTimeWindow clickTrack 1 1 11 0) 0).
Proof.
  assert (Hout : getWaveformDataForTimeWindow clickTrack 1 1 11 0
                 = repeat 0 11) by (vm_compute; reflexivity).
  split; [unfold wfBuffer;
          split; [reflexivity | split; [reflexivity | constructor]] |].
  split; [reflexivity |]. split; [vm_compute; reflexivity |].
  split; [reflexivity |]. split; [exact Hout |].
  intros H. destruct (H 14%Z) as (i & Hi & Hle); [cbn; lia |].
  rewrite Hout in Hle.
  assert (Hz : nth i (repeat 0 11) 0 = 0)
    by (do 11 (destruct i as [| i]; [reflexivity |]); destruct i; reflexivity).
  rewrite Hz in Hle. revert Hle. apply Qlt_not_le. reflexivity.
Qed.

(** ** The smoothing filter *)

Lemma fold_left_Qplus (l : list Q) : forall a,
  fold_left Qplus l a == a + sumQ l.
Proof.
  unfold sumQ. induction l as [| x l IH]; intros a; simpl; [ring |].
  rewrite IH, (IH (0 + x)). ring.
Qed.

Lemma sumQ_cons x l : sumQ (x :: l) == x + sumQ l.
Proof. unfold sumQ at 1. simpl. rewrite fold_left_Qplus. ring. Qed.

Lemma sumQ_bounds (lo hi : Q) (l : list Q) :
  (forall v, In v l -> lo <= v <= hi) ->
  lo * ofNat (List.length l) <= sumQ l <= hi * ofNat (List.length l).
Proof.
  induction l as [| x l IH]; intros Hall.
  - unfold sumQ, ofNat. simpl. change (inject_Z 0) with 0. lra.
  - rewrite sumQ_cons. cbn [List.length]. rewrite ofNat_S.
    destruct (Hall x (or_introl eq_refl)) as [Hlo Hhi].
    destruct IH as [IHlo IHhi]; [intros v Hv; apply Hall; now right |].
    lra.
Qed.

Lemma sumQ_map_scale (c : Q) (l : list Q) :
  sumQ (map (fun a => a * c) l) == sumQ l * c.
Proof.
  induction l as [| a l IH]; [unfold sumQ; simpl; ring |].
  cbn [map]. rewrite !sumQ_cons, IH. ring.
Qed.

(** The offsets of the window are exactly [-halfWindow .. halfWindow]. *)
Lemma In_windowOffsets halfWindow j :
  In j (windowOffsets halfWindow)
  <-> (- Z.of_nat halfWindow <= j <= Z.of_nat halfWindow)%Z.
Proof.
  unfold windowOffsets. rewrite in_map_iff. split.
  - intros (d & <- & Hd). apply in_seq in Hd. lia.
  - intros Hj. exists (Z.to_nat (j + Z.of_nat halfWindow)). split; [lia |].
    apply in_seq. lia.
Qed.

Lemma halfWindow_level level : ((1 + level * 2) / 2 = level)%nat.
Proof.
  symmetry. apply (Nat.div_unique _ 2 level 1); lia.
Qed.

Lemma windowSumCount_fold original i offs : forall acc,
  let r :=
    fold_left
      (fun (acc : Q * nat) (j : Z) =>
         if inBounds original i j
         then (fst acc + sampleAt original (Z.of_nat i + j), S (snd acc))
         else acc)
      offs acc in
  fst r == fst acc
           + sumQ (map (fun j => sampleAt original (Z.of_nat i + j))
                       (filter (inBounds original i) offs))
  /\ snd r = (snd acc + List.length (filter (inBounds original i) offs))%nat.
Proof.
  induction offs as [| j offs IH]; intros acc r.
  - subst r. simpl. unfold sumQ. simpl. split; [ring | lia].
  - subst r. cbn [fold_left filter].
    destruct (inBounds original i j).
    + destruct (IH (fst acc + sampleAt original (Z.of_nat i + j),
                    S (snd acc))) as [Hs Hc].
      cbn zeta in Hs, Hc. cbn [fst snd] in Hs, Hc. rewrite Hs, Hc.
      cbn [map List.length]. rewrite sumQ_cons. split; [ring | lia].
    + apply IH.
Qed.

Lemma windowSumCount_spec original halfWindow i :
  fst (windowSumCount original halfWindow i)
  == sumQ (map (fun j => sampleAt original (Z.of_nat i + j))
               (neighbours original halfWindow i))
  /\ snd (windowSumCount original halfWindow i)
     = List.length (neighbours original halfWindow i).
Proof.
  unfold windowSumCount, neighbours.
  destruct (windowSumCount_fold original i (windowOffsets halfWindow) (0, O))
    as [Hs Hc].
  cbn zeta in Hs, Hc. cbn [fst snd] in Hs, Hc.
  split.
  - etransitivity; [exact Hs | ring].
  - etransitivity; [exact Hc | lia].
Qed.

(** Position [i] is its own neighbour, so the count is never zero. *)
Lemma neighbours_nonempty original halfWindow i :
  (i < List.length original)%nat ->
  (0 < List.length (neighbours original halfWindow i))%nat.
Proof.
  intros Hi.
  assert (Hin : In 0%Z (neighbours original halfWindow i)).
  { apply filter_In. split; [apply In_windowOffsets; lia |].
    unfold inBounds. apply andb_true_intro.
    split; [apply Z.leb_le | apply Z.ltb_lt]; lia. }
  destruct (neighbours original halfWindow i); [contradiction | simpl; lia].
Qed.

Lemma neighbours_spec original halfWindow i j :
  In j (neighbours original halfWindow i)
  <-> (- Z.of_nat halfWindow <= j <= Z.of_nat halfWindow)%Z
      /\ (0 <= Z.of_nat i + j < Z.of_nat (List.length original))%Z.
Proof.
  unfold neighbours. rewrite filter_In, In_windowOffsets. unfold inBounds.
  rewrite andb_true_iff, Z.leb_le, Z.ltb_lt. tauto.
Qed.

Lemma applySmoothingFilter_length waveform level :
  List.length (applySmoothingFilter waveform level) = List.length waveform.
Proof.
  unfold applySmoothingFilter. now rewrite length_map, length_seq.
Qed.

Lemma applySmoothingFilter_nth waveform level i :
  (i < List.length waveform)%nat ->
  nth i (applySmoothingFilter waveform level) 0
  == sumQ (map (fun j => sampleAt waveform (Z.of_nat i + j))
               (neighbours waveform level i))
     / ofNat (List.length (neighbours waveform level i)).
Proof.
  intros Hi. unfold applySmoothingFilter. rewrite nth_map_seq by exact Hi.
  rewrite halfWindow_level.
  destruct (windowSumCount_spec waveform level i) as [Hs Hc].
  destruct (windowSumCount waveform level i) as [sum count].
  cbn [fst snd] in Hs, Hc. subst count.
  pose proof (neighbours_nonempty waveform level i Hi) as Hpos.
  destruct (0 <? List.length (neighbours waveform level i))%nat eqn:Hz.
  - rewrite Hs. reflexivity.
  - apply Nat.ltb_ge in Hz. lia.
Qed.

(** A smoothed value lies between any two bounds of the input buffer. *)
Lemma applySmoothingFilter_bounds waveform level (lo hi : Q) i :
  (forall v, In v waveform -> lo <= v <= hi) ->
  (i < List.length waveform)%nat ->
  lo <= nth i (applySmoothingFilter waveform level) 0 <= hi.
Proof.
  intros Hall Hi. rewrite applySmoothingFilter_nth by exact Hi.
  set (nb := neighbours waveform level i).
  set (vals := map (fun j => sampleAt waveform (Z.of_nat i + j)) nb).
  assert (Hlen : List.length vals = List.length nb)
    by (unfold vals; now rewrite length_map).
  assert (Hpos : 0 < ofNat (List.length nb))
    by (apply ofNat_pos; now apply neighbours_nonempty).
  destruct (sumQ_bounds lo hi vals) as [Hlo Hhi].
  { intros v Hv. unfold vals in Hv. apply in_map_iff in Hv.
    destruct Hv as (j & <- & Hj). apply neighbours_spec in Hj.
    apply Hall. unfold sampleAt. apply nth_In. lia. }
  rewrite Hlen in Hlo, Hhi. split.
  - apply Qle_shift_div_l; [exact Hpos | exact Hlo].
  - apply Qle_shift_div_r; [exact Hpos | exact Hhi].
Qed.

Lemma NoDup_windowOffsets halfWindow : NoDup (windowOffsets halfWindow).
Proof.
  unfold windowOffsets. apply NoDup_map_NoDup_ForallPairs; [| apply seq_NoDup].
  intros a b _ _ Hab. lia.
Qed.

(** **** C3 (as amended).  The smoothing post-process is a centred moving
    average: the window has [1 + 2 * smoothingLevel] offsets, position [i]
    is replaced by the mean of the values at the offsets that fall inside
    the buffer (each counted once, never none), the length is kept, and a
    smoothed value stays between any bounds of the unsmoothed buffer.  The
    extractor applies it to the peak buffer when the level is positive. *)
Theorem smoothing_is_moving_average (waveform : list Q) (level : nat) :
  let out := applySmoothingFilter waveform level in
  List.length out = List.length waveform
  /\ List.length (windowOffsets ((1 + level * 2) / 2)) = (1 + 2 * level)%nat
  /\ (forall i, (i < List.length waveform)%nat ->
        let nb := neighbours waveform level i in
        (forall j, In j nb <->
           (- Z.of_nat level <= j <= Z.of_nat level)%Z
           /\ (0 <= Z.of_nat i + j < Z.of_nat (List.length waveform))%Z)
        /\ NoDup nb
        /\ (0 < List.length nb)%nat
        /\ nth i out 0
           == sumQ (map (fun j => sampleAt waveform (Z.of_nat i + j)) nb)
              / ofNat (List.length nb)
        /\ (forall lo hi, (forall v, In v waveform -> lo <= v <= hi) ->
              lo <= nth i out 0 <= hi))
  /\ (forall t currentTime windowDuration targetWidth,
        (0 < snd (waveformSampleWindow t currentTime windowDuration)
             - fst (waveformSampleWindow t currentTime windowDuration))%Z ->
        (0 < level)%nat ->
        getWaveformDataForTimeWindow t currentTime windowDuration
          targetWidth level
        = applySmoothingFilter
            (getWaveformDataForTimeWindow t currentTime windowDuration
               targetWidth 0) level).
Proof.
  intros out. split; [| split; [| split]].
  - apply applySmoothingFilter_length.
  - rewrite halfWindow_level. unfold windowOffsets.
    rewrite length_map, length_seq. lia.
  - intros i Hi nb. split; [| split; [| split; [| split]]].
    + intros j. apply neighbours_spec.
    + apply NoDup_filter, NoDup_windowOffsets.
    + now apply neighbours_nonempty.
    + now apply applySmoothingFilter_nth.
    + intros lo hi Hall. now apply applySmoothingFilter_bounds.
  - intros. now apply getWaveform_smoothed.
Qed.

Lemma smoothing_is_moving_average_witness :
  nth 1 (applySmoothingFilter [3; 5; 1; 2] 1) 0 == 3
  /\ 1 <= nth 1 (applySmoothingFilter [3; 5; 1; 2] 1) 0 <= 5.
Proof.
  destruct (smoothing_is_moving_average [3; 5; 1; 2] 1)
    as (_ & _ & Hpos & _).
  destruct (Hpos 1%nat ltac:(simpl; lia)) as (_ & _ & _ & Hmean & Hbounds).
  split.
  - rewrite Hmean. vm_compute. reflexivity.
  - apply Hbounds. intros v Hv. simpl in Hv.
    destruct Hv as [<- | [<- | [<- | [<- | []]]]]; split; discriminate.
Defined.

(** The variance only depends on the values, and scales quadratically. *)
Lemma sameValues_spec (l : list Q) : forall l',
  sameValues l l' = true -> Forall2 Qeq l l'.
Proof.
  unfold sameValues. induction l as [| x l IH]; intros [| y l'] H;
    try discriminate; [constructor |].
  apply andb_prop in H. destruct H as [Hlen Hall]. cbn in Hlen, Hall.
  apply andb_prop in Hall. destruct Hall as [Hxy Hall].
  constructor; [now apply Qeq_bool_eq |].
  apply IH. now rewrite Hlen, Hall.
Qed.

Lemma sumQ_Forall2 (l l' : list Q) : Forall2 Qeq l l' -> sumQ l == sumQ l'.
Proof.
  induction 1 as [| x y l l' Hxy _ IH]; [reflexivity |].
  now rewrite !sumQ_cons, Hxy, IH.
Qed.

Lemma sumQ_map_ext (f g : Q -> Q) (l : list Q) :
  (forall v, f v == g v) -> sumQ (map f l) == sumQ (map g l).
Proof.
  intros Hfg. induction l as [| x l IH]; [reflexivity |].
  cbn [map]. now rewrite !sumQ_cons, Hfg, IH.
Qed.

Lemma squares_fold (m : Q) (l : list Q) : forall a,
  fold_left (fun sum v => sum + (v - m) * (v - m)) l a
  == a + sumQ (map (fun v => (v - m) * (v - m)) l).
Proof.
  induction l as [| x l IH]; intros a; cbn [fold_left map].
  - unfold sumQ. simpl. ring.
  - rewrite IH, sumQ_cons. ring.
Qed.

Lemma calculateVariance_alt (l : list Q) :
  calculateVariance l
  == sumQ (map (fun v => (v - sumQ l / ofNat (List.length l))
                         * (v - sumQ l / ofNat (List.length l))) l)
     / ofNat (List.length l).
Proof.
  unfold calculateVariance. rewrite squares_fold. unfold Qdiv. ring.
Qed.

Lemma squares_Forall2 (m m' : Q) (l l' : list Q) :
  m == m' -> Forall2 Qeq l l' ->
  sumQ (map (fun v => (v - m) * (v - m)) l)
  == sumQ (map (fun v => (v - m') * (v - m')) l').
Proof.
  intros Hm. induction 1 as [| x y l l' Hxy _ IH]; [reflexivity |].
  cbn [map]. now rewrite !sumQ_cons, Hxy, Hm, IH.
Qed.

Lemma calculateVariance_compat (l l' : list Q) :
  Forall2 Qeq l l' -> calculateVariance l == calculateVariance l'.
Proof.
  intros H. rewrite !calculateVariance_alt.
  rewrite (Forall2_length H).
  assert (Hm : sumQ l / ofNat (List.length l')
               == sumQ l' / ofNat (List.length l'))
    by (now rewrite (sumQ_Forall2 l l' H)).
  now rewrite (squares_Forall2 _ _ l l' Hm H).
Qed.

Lemma calculateVariance_scale (c : Q) (l : list Q) :
  calculateVariance (map (fun v => v * c) l) == c * c * calculateVariance l.
Proof.
  rewrite !calculateVariance_alt. rewrite length_map, map_map.
  set (n := ofNat (List.length l)).
  rewrite (sumQ_map_ext
             (fun v => (v * c - sumQ (map (fun v => v * c) l) / n)
                       * (v * c - sumQ (map (fun v => v * c) l) / n))
             (fun v => ((v - sumQ l / n) * (v - sumQ l / n)) * (c * c))).
  - rewrite <- (map_map (fun v => (v - sumQ l / n) * (v - sumQ l / n))
                  (fun a => a * (c * c))), sumQ_map_scale.
    unfold Qdiv. ring.
  - intros v. rewrite sumQ_map_scale. unfold Qdiv. ring.
Qed.

(** **** C3, the statement refuted.  For the ramp track, whose 29 samples
    are extracted one per pixel, the variance of the waveform smoothed at
    level 1 exceeds the variance of the unsmoothed waveform (level 0): the
    variance neither stays below the unsmoothed one nor is non-increasing
    in the level. *)
Lemma smoothing_variance_counterexample :
  wfBuffer (buffer rampTrack)
  /\ ~ (calculateVariance (getWaveformDataForTimeWindow rampTrack 1 1 29 1)
        <= calculateVariance (getWaveformDataForTimeWindow rampTrack 1 1 29 0)).
Proof.
  split.
  - unfold wfBuffer. split; [reflexivity | split; [reflexivity | constructor]].
  - apply Qlt_not_le.
    assert (H0 : Forall2 Qeq
                   (getWaveformDataForTimeWindow rampTrack 1 1 29 0)
                   (map (fun v => v * (1 # 84)) (map inject_Z rampPeaks84)))
      by (apply sameValues_spec; reflexivity).
    assert (H1 : Forall2 Qeq
                   (getWaveformDataForTimeWindow rampTrack 1 1 29 1)
                   (map (fun v => v * (1 # 84)) (map inject_Z rampSmoothed84)))
      by (apply sameValues_spec; reflexivity).
    rewrite (calculateVariance_compat _ _ H0),
            (calculateVariance_compat _ _ H1), !calculateVariance_scale.
    assert (Hint : calculateVariance (map inject_Z rampPeaks84)
                   < calculateVariance (map inject_Z rampSmoothed84))
      by reflexivity.
    apply Qmult_lt_l; [reflexivity | exact Hint].
Qed.

(** ** Normalised amplitudes *)

Lemma bucketPeak_nonneg channelData start stop :
  0 <= bucketPeak channelData start stop.
Proof. unfold bucketPeak. apply peakLoop_ge_init. Qed.

Lemma In_map_seq {A : Type} (f : nat -> A) (n : nat) (v : A) :
  In v (map f (seq 0 n)) <-> exists i, (i < n)%nat /\ v = f i.
Proof.
  rewrite in_map_iff. split.
  - intros (i & <- & Hi). apply in_seq in Hi. exists i. split; [lia | easy].
  - intros (i & Hi & ->). exists i. split; [easy | apply in_seq; lia].
Qed.

(** Every value of the waveform buffer, smoothed or not, is non-negative
    and bounded by whatever bounds the unsmoothed buffer. *)
Lemma getWaveform_level_bounds t currentTime windowDuration targetWidth level
    (lo hi : Q) :
  (forall v,
     In v (getWaveformDataForTimeWindow t currentTime windowDuration
             targetWidth 0) -> lo <= v <= hi) ->
  forall v,
    In v (getWaveformDataForTimeWindow t currentTime windowDuration
            targetWidth level) -> lo <= v <= hi.
Proof.
  unfold getWaveformDataForTimeWindow.
  destruct (waveformSampleWindow t currentTime windowDuration)
    as [startSample endSample].
  destruct (endSample - startSample <=? 0)%Z; [easy |].
  change (0 <? 0)%nat with false. cbv iota.
  destruct (0 <? level)%nat; [| easy].
  intros Hall v Hv.
  destruct (In_nth _ _ 0 Hv) as (i & Hi & <-).
  rewrite applySmoothingFilter_length in Hi.
  now apply applySmoothingFilter_bounds.
Qed.

Lemma getWaveform_unsmoothed_nonneg t currentTime windowDuration targetWidth v :
  In v (getWaveformDataForTimeWindow t currentTime windowDuration
          targetWidth 0) -> 0 <= v.
Proof.
  unfold getWaveformDataForTimeWindow.
  destruct (waveformSampleWindow t currentTime windowDuration)
    as [startSample endSample].
  destruct (endSample - startSample <=? 0)%Z.
  - intros Hv. apply repeat_spec in Hv. subst v. lra.
  - change (0 <? 0)%nat with false. cbv iota. unfold downsample.
    intros Hv. apply In_map_seq in Hv. destruct Hv as (i & _ & ->).
    apply bucketPeak_nonneg.
Qed.

Lemma getWaveform_length t currentTime windowDuration targetWidth level :
  List.length
    (getWaveformDataForTimeWindow t currentTime windowDuration
       targetWidth level) = targetWidth.
Proof.
  unfold getWaveformDataForTimeWindow.
  destruct (waveformSampleWindow t currentTime windowDuration)
    as [startSample endSample].
  destruct (endSample - startSample <=? 0)%Z; [apply repeat_length |].
  destruct (0 <? level)%nat;
    [rewrite applySmoothingFilter_length |];
    unfold downsample; now rewrite length_map, length_seq.
Qed.

(** The running maximum of [calculateGlobalMaxAmplitude]. *)
Lemma runningMax_ge_init (l : list Q) : forall g,
  g <= fold_left (fun g v => if Qlt_le_dec g v then v else g) l g.
Proof.
  induction l as [| x l IH]; intros g; simpl; [lra |].
  destruct (Qlt_le_dec g x); [eapply Qle_trans; [| apply IH]; lra | apply IH].
Qed.

Lemma runningMax_upper (l : list Q) : forall g v,
  In v l -> v <= fold_left (fun g v => if Qlt_le_dec g v then v else g) l g.
Proof.
  induction l as [| x l IH]; intros g v Hv; [contradiction |].
  simpl. destruct Hv as [-> | Hv]; [| now apply IH].
  destruct (Qlt_le_dec g v) as [Hlt | Hle].
  - apply runningMax_ge_init.
  - eapply Qle_trans; [exact Hle | apply runningMax_ge_init].
Qed.

Section GlobalMax.
Variable rc : RenderContext.
Variables (currentTime windowDuration : Q).

Let trackMax (globalMax : Q) (track : AudioTrack) : Q :=
  fold_left (fun g v => if Qlt_le_dec g v then v else g)
    (getWaveformDataForTimeWindow track currentTime windowDuration
       (width rc) 0)
    globalMax.

Lemma tracksMax_ge_init (tracks : list AudioTrack) : forall g,
  g <= fold_left trackMax tracks g.
Proof.
  induction tracks as [| t tracks IH]; intros g; simpl; [lra |].
  eapply Qle_trans; [| apply IH]. apply runningMax_ge_init.
Qed.

Lemma tracksMax_upper (tracks : list AudioTrack) : forall g track v,
  In track tracks ->
  In v (getWaveformDataForTimeWindow track currentTime windowDuration
          (width rc) 0) ->
  v <= fold_left trackMax tracks g.
Proof.
  induction tracks as [| t tracks IH]; intros g track v Ht Hv; [contradiction |].
  simpl. destruct Ht as [-> | Ht].
  - eapply Qle_trans; [| apply tracksMax_ge_init].
    now apply runningMax_upper.
  - now apply (IH _ track).
Qed.

Lemma calculateGlobalMaxAmplitude_pos tracks :
  0 < calculateGlobalMaxAmplitude rc tracks currentTime windowDuration.
Proof.
  unfold calculateGlobalMaxAmplitude.
  match goal with |- context [Qlt_le_dec 0 ?g] => destruct (Qlt_le_dec 0 g) end;
    [assumption | reflexivity].
Qed.

(** No value of any track's buffer, at any smoothing level, exceeds the
    global maximum taken over the unsmoothed buffers. *)
Lemma calculateGlobalMaxAmplitude_upper tracks track level v :
  In track tracks ->
  In v (getWaveformDataForTimeWindow track currentTime windowDuration
          (width rc) level) ->
  0 <= v <= calculateGlobalMaxAmplitude rc tracks currentTime windowDuration.
Proof.
  intros Ht Hv.
  set (raw := fold_left trackMax tracks 0).
  assert (Hraw : 0 <= v <= raw).
  { apply (getWaveform_level_bounds track currentTime windowDuration
             (width rc) level 0 raw); [| exact Hv].
    intros u Hu. split.
    - now apply getWaveform_unsmoothed_nonneg in Hu.
    - unfold raw. now apply (tracksMax_upper tracks 0 track). }
  unfold calculateGlobalMaxAmplitude. fold trackMax. fold raw.
  destruct (Qlt_le_dec 0 raw); lra.
Qed.

End GlobalMax.

Lemma nth_In_or_default (l : list Q) (x : nat) :
  In (nth x l 0) l \/ nth x l 0 = 0.
Proof.
  destruct (Nat.lt_ge_cases x (List.length l)) as [Hlt | Hge].
  - left. now apply nth_In.
  - right. now apply nth_overflow.
Qed.

(** **** C10.  A smoothed value lies between any lower and upper bound of
    the input buffer, in particular between its minimum and its maximum, so
    smoothing never raises the peak.  In normalised mode the renderer
    divides the smoothed buffer of a track by the global maximum, which
    [calculateGlobalMaxAmplitude] takes over the unsmoothed buffers of all
    tracks: the normalised amplitude of every column is in [[0, 1]], and so
    every stroke of the track stays within [maxAmplitude] of its centre
    line. *)
Theorem smoothing_never_raises_peak :
  (forall (waveform : list Q) (level i : nat) (lo hi : Q),
      (1 <= level)%nat ->
      (forall v, In v waveform -> lo <= v <= hi) ->
      (i < List.length waveform)%nat ->
      lo <= nth i (applySmoothingFilter waveform level) 0 <= hi)
  /\ (forall (rc : RenderContext) (tracks : list AudioTrack)
        (track : AudioTrack) (currentTime windowDuration : Q)
        (smoothingLevel x : nat),
        In track tracks ->
        let globalMaxAmplitude :=
          calculateGlobalMaxAmplitude rc tracks currentTime windowDuration in
        let waveformData :=
          getWaveformDataForTimeWindow track currentTime windowDuration
            (width rc) smoothingLevel in
        0 <= normalizeAmplitude Normalized globalMaxAmplitude
               (nth x waveformData 0) <= 1)
  /\ (forall (rc : RenderContext) (tracks : list AudioTrack)
        (track : AudioTrack) (currentTime windowDuration : Q)
        (smoothingLevel : nat) (centerY maxAmplitude : Q) (s : Stroke),
        In track tracks ->
        0 <= maxAmplitude ->
        In s (renderTrackRealtimeWithAmplitude rc track currentTime centerY
                maxAmplitude Normalized
                (calculateGlobalMaxAmplitude rc tracks currentTime
                   windowDuration)
                smoothingLevel windowDuration) ->
        centerY - maxAmplitude <= yFrom s <= centerY
        /\ centerY <= yTo s <= centerY + maxAmplitude).
Proof.
  assert (Hnorm : forall rc tracks track currentTime windowDuration
                         smoothingLevel x,
             In track tracks ->
             0 <= normalizeAmplitude Normalized
                    (calculateGlobalMaxAmplitude rc tracks currentTime
                       windowDuration)
                    (nth x (getWaveformDataForTimeWindow track currentTime
                              windowDuration (width rc) smoothingLevel) 0)
               <= 1).
  { intros rc tracks track currentTime windowDuration level x Ht.
    pose proof (calculateGlobalMaxAmplitude_pos rc currentTime windowDuration
                  tracks) as Hpos.
    set (g := calculateGlobalMaxAmplitude rc tracks currentTime windowDuration)
      in *.
    set (w := getWaveformDataForTimeWindow track currentTime windowDuration
                (width rc) level).
    assert (Hv : 0 <= nth x w 0 <= g).
    { destruct (nth_In_or_default w x) as [Hin | ->]; [| lra].
      now apply (calculateGlobalMaxAmplitude_upper rc currentTime
                   windowDuration tracks track level). }
    unfold normalizeAmplitude. cbn [isNormalized].
    destruct (Qlt_le_dec 0 g) as [_ | Hle]; [| lra].
    split.
    - apply Qle_shift_div_l; [exact Hpos | lra].
    - apply Qle_shift_div_r; [exact Hpos | lra]. }
  split; [| split].
  - intros waveform level i lo hi _ Hall Hi.
    now apply applySmoothingFilter_bounds.
  - intros rc tracks track currentTime windowDuration level x Ht g w.
    now apply Hnorm.
  - intros rc tracks track currentTime windowDuration level centerY
      maxAmplitude s Ht Hmax Hs.
    unfold renderTrackRealtimeWithAmplitude in Hs.
    apply In_map_seq in Hs. destruct Hs as (x & _ & ->). cbn [yFrom yTo].
    pose proof (Hnorm rc tracks track currentTime windowDuration level x Ht)
      as [H0 H1].
    set (a := normalizeAmplitude _ _ _) in *.
    assert (0 <= a * maxAmplitude) by (apply Qmult_le_0_compat; lra).
    assert (a * maxAmplitude <= 1 * maxAmplitude)
      by (apply Qmult_le_compat_r; lra).
    lra.
Qed.

Lemma smoothing_never_raises_peak_witness :
  1 <= nth 1 (applySmoothingFilter [3; 5; 1; 2] 2) 0 <= 5
  /\ 0 <= normalizeAmplitude Normalized
            (calculateGlobalMaxAmplitude (mkRenderContext 2 10)
               [demoTrack; rampTrack] (1 # 2) 1)
            (nth 0 (getWaveformDataForTimeWindow demoTrack (1 # 2) 1 2 1) 0)
       <= 1.
Proof.
  destruct smoothing_never_raises_peak as (Hbounds & Hnorm & _).
  split.
  - apply Hbounds; [lia | | simpl; lia].
    intros v Hv. simpl in Hv.
    destruct Hv as [<- | [<- | [<- | [<- | []]]]]; split; discriminate.
  - apply (Hnorm (mkRenderContext 2 10) [demoTrack; rampTrack] demoTrack
             (1 # 2) 1 1%nat 0%nat).
    now left.
Defined.

(** ** The spectrum extractor *)

Section SpectrumProperties.
Local Open Scope R_scope.

Lemma fft_base input :
  (List.length input <= 1)%nat -> fft input = [nth 0 input 0; 0].
Proof.
  intros H. rewrite fft_equation_1.
  destruct (le_lt_dec (List.length input) 1); [reflexivity | lia].
Qed.

Lemma fft_step input :
  (1 < List.length input)%nat ->
  fft input
  = butterfly (List.length input) (fft (evenSamples input))
      (fft (oddSamples input)).
Proof.
  intros H. rewrite fft_equation_1.
  destruct (le_lt_dec (List.length input) 1); [lia | reflexivity].
Qed.

Lemma evenSamples_length input :
  List.length (evenSamples input) = (List.length input / 2)%nat.
Proof. unfold evenSamples. now rewrite length_map, length_seq. Qed.

Lemma oddSamples_length input :
  List.length (oddSamples input) = (List.length input / 2)%nat.
Proof. unfold oddSamples. now rewrite length_map, length_seq. Qed.

(** Reading an array of interleaved pairs. *)
Lemma interleave_length (a b : nat -> R) n :
  List.length (flat_map (fun k => [a k; b k]) (seq 0 n)) = (2 * n)%nat.
Proof.
  rewrite (flat_map_constant_length (c := 2%nat));
    [rewrite length_seq; lia | reflexivity].
Qed.

Lemma interleave_nth (a b : nat -> R) n : forall s k,
  (k < n)%nat ->
  nth (k * 2) (flat_map (fun k => [a k; b k]) (seq s n)) 0 = a (s + k)%nat
  /\ nth (k * 2 + 1) (flat_map (fun k => [a k; b k]) (seq s n)) 0
     = b (s + k)%nat.
Proof.
  induction n as [| n IH]; intros s k Hk; [lia |].
  cbn [seq flat_map app].
  destruct k as [| k].
  - simpl. rewrite Nat.add_0_r. split; reflexivity.
  - replace (S k * 2)%nat with (S (S (k * 2))) by lia.
    replace (S (S (k * 2)) + 1)%nat with (S (S (k * 2 + 1))) by lia.
    cbn [nth]. destruct (IH (S s) k ltac:(lia)) as [Ha Hb].
    rewrite Ha, Hb. replace (S s + k)%nat with (s + S k)%nat by lia.
    split; reflexivity.
Qed.

Lemma bigsum_ext (f g : nat -> R) n :
  (forall i, (i < n)%nat -> f i = g i) -> bigsum f n = bigsum g n.
Proof.
  induction n as [| n IH]; intros H; simpl; [reflexivity |].
  rewrite IH, H by (intros; try apply H; lia). reflexivity.
Qed.

Lemma bigsum_plus (f g : nat -> R) n :
  bigsum (fun i => f i + g i) n = bigsum f n + bigsum g n.
Proof. induction n as [| n IH]; simpl; [lra | rewrite IH; lra]. Qed.

Lemma bigsum_scal (c : R) (f : nat -> R) n :
  bigsum (fun i => c * f i) n = c * bigsum f n.
Proof. induction n as [| n IH]; simpl; [lra | rewrite IH; lra]. Qed.

(** A sum over [2 M] terms, split into the even and the odd terms. *)
Lemma bigsum_even_odd (f : nat -> R) M :
  bigsum f (2 * M)
  = bigsum (fun n => f (n * 2)%nat) M + bigsum (fun n => f (n * 2 + 1)%nat) M.
Proof.
  induction M as [| M IH]; [simpl; lra |].
  replace (2 * S M)%nat with (S (S (2 * M))) by lia.
  cbn [bigsum]. rewrite IH.
  replace (M * 2)%nat with (2 * M)%nat by lia.
  replace (2 * M + 1)%nat with (S (2 * M)) by lia. lra.
Qed.

Lemma INR_double n : INR (n * 2) = 2 * INR n.
Proof. rewrite mult_INR. simpl. lra. Qed.

Lemma INR_double_succ n : INR (n * 2 + 1) = 2 * INR n + 1.
Proof. rewrite plus_INR, mult_INR. simpl. lra. Qed.

Lemma INR_twice n : INR (2 * n) = 2 * INR n.
Proof. rewrite mult_INR. simpl. lra. Qed.

Section Radix2.
(** A signal of even length [2 M] and its two halves. *)
Variables (x : list R) (M : nat).
Hypothesis Hlen : List.length x = (2 * M)%nat.
Hypothesis HM : (0 < M)%nat.

Let theta (k n : nat) : R := 2 * PI * INR k * INR n / INR M.
Let beta (k : nat) : R := 2 * PI * INR k / INR (2 * M).

Lemma INR_M_neq : INR M <> 0.
Proof. apply not_0_INR. lia. Qed.

Lemma half_length : (List.length x / 2 = M)%nat.
Proof.
  rewrite Hlen. rewrite Nat.mul_comm. apply Nat.div_mul. discriminate.
Qed.

Lemma dftReal_even k :
  dftReal (evenSamples x) k
  = bigsum (fun n => nth (n * 2) x 0 * cos (theta k n)) M.
Proof.
  unfold dftReal. rewrite evenSamples_length, half_length.
  apply bigsum_ext. intros n Hn. unfold evenSamples.
  rewrite half_length, nth_map_seq by exact Hn. reflexivity.
Qed.

Lemma dftImag_even k :
  dftImag (evenSamples x) k
  = - bigsum (fun n => nth (n * 2) x 0 * sin (theta k n)) M.
Proof.
  unfold dftImag. rewrite evenSamples_length, half_length. f_equal.
  apply bigsum_ext. intros n Hn. unfold evenSamples.
  rewrite half_length, nth_map_seq by exact Hn. reflexivity.
Qed.

Lemma dftReal_odd k :
  dftReal (oddSamples x) k
  = bigsum (fun n => nth (n * 2 + 1) x 0 * cos (theta k n)) M.
Proof.
  unfold dftReal. rewrite oddSamples_length, half_length.
  apply bigsum_ext. intros n Hn. unfold oddSamples.
  rewrite half_length, nth_map_seq by exact Hn. reflexivity.
Qed.

Lemma dftImag_odd k :
  dftImag (oddSamples x) k
  = - bigsum (fun n => nth (n * 2 + 1) x 0 * sin (theta k n)) M.
Proof.
  unfold dftImag. rewrite oddSamples_length, half_length. f_equal.
  apply bigsum_ext. intros n Hn. unfold oddSamples.
  rewrite half_length, nth_map_seq by exact Hn. reflexivity.
Qed.

Lemma angle_even k n :
  2 * PI * INR k * INR (n * 2) / INR (2 * M) = theta k n.
Proof.
  unfold theta. rewrite INR_double, INR_twice. field. apply INR_M_neq.
Qed.

Lemma angle_odd k n :
  2 * PI * INR k * INR (n * 2 + 1) / INR (2 * M) = theta k n + beta k.
Proof.
  unfold theta, beta. rewrite INR_double_succ, INR_twice. field.
  apply INR_M_neq.
Qed.

(** The decimation-in-time identities. *)
Lemma dftReal_split k :
  dftReal x k
  = dftReal (evenSamples x) k
    + (cos (beta k) * dftReal (oddSamples x) k
       + sin (beta k) * dftImag (oddSamples x) k).
Proof.
  rewrite dftReal_even, dftReal_odd, dftImag_odd.
  unfold dftReal. rewrite Hlen, bigsum_even_odd. f_equal.
  - apply bigsum_ext. intros n _. now rewrite angle_even.
  - rewrite <- !bigsum_scal.
    replace (sin (beta k)
             * - bigsum (fun n => nth (n * 2 + 1) x 0 * sin (theta k n)) M)
      with (bigsum (fun n => - sin (beta k)
                             * (nth (n * 2 + 1) x 0 * sin (theta k n))) M)
      by (rewrite bigsum_scal; lra).
    rewrite <- bigsum_plus. apply bigsum_ext. intros n _.
    rewrite angle_odd, cos_plus. lra.
Qed.

Lemma dftImag_split k :
  dftImag x k
  = dftImag (evenSamples x) k
    + (cos (beta k) * dftImag (oddSamples x) k
       - sin (beta k) * dftReal (oddSamples x) k).
Proof.
  rewrite dftImag_even, dftReal_odd, dftImag_odd.
  unfold dftImag. rewrite Hlen, bigsum_even_odd.
  replace (bigsum (fun n => nth (n * 2) x 0
                     * sin (2 * PI * INR k * INR (n * 2) / INR (2 * M))) M)
    with (bigsum (fun n => nth (n * 2) x 0 * sin (theta k n)) M)
    by (apply bigsum_ext; intros n _; now rewrite angle_even).
  replace (bigsum (fun n => nth (n * 2 + 1) x 0
                     * sin (2 * PI * INR k * INR (n * 2 + 1) / INR (2 * M))) M)
    with (cos (beta k)
            * bigsum (fun n => nth (n * 2 + 1) x 0 * sin (theta k n)) M
          + sin (beta k)
            * bigsum (fun n => nth (n * 2 + 1) x 0 * cos (theta k n)) M);
    [lra |].
  rewrite <- !bigsum_scal, <- bigsum_plus. apply bigsum_ext. intros n _.
  rewrite angle_odd, sin_plus. lra.
Qed.

End Radix2.

(** The transform is periodic in the bin index. *)
Lemma dft_angle_shift (N k n : nat) :
  (0 < N)%nat ->
  2 * PI * INR (k + N) * INR n / INR N
  = 2 * PI * INR k * INR n / INR N + 2 * INR n * PI.
Proof.
  intros HN. rewrite plus_INR. field. apply not_0_INR. lia.
Qed.

Lemma dftReal_periodic x k :
  (0 < List.length x)%nat ->
  dftReal x (k + List.length x) = dftReal x k.
Proof.
  intros HN. unfold dftReal. apply bigsum_ext. intros n _.
  rewrite dft_angle_shift by exact HN. now rewrite cos_period.
Qed.

Lemma dftImag_periodic x k :
  (0 < List.length x)%nat ->
  dftImag x (k + List.length x) = dftImag x k.
Proof.
  intros HN. unfold dftImag. f_equal. apply bigsum_ext. intros n _.
  rewrite dft_angle_shift by exact HN. now rewrite sin_period.
Qed.

Lemma butterfly_length N evenFFT oddFFT :
  List.length (butterfly N evenFFT oddFFT) = (4 * (N / 2))%nat.
Proof.
  unfold butterfly. rewrite length_app, !interleave_length. lia.
Qed.

(** The four cells written by iteration [k] of the combination loop. *)
Lemma butterfly_nth N evenFFT oddFFT k :
  (k < N / 2)%nat ->
  let angle := (-2 * PI * INR k) / INR N in
  let tReal :=
    cos angle * nth (k * 2) oddFFT 0 - sin angle * nth (k * 2 + 1) oddFFT 0 in
  let tImag :=
    sin angle * nth (k * 2) oddFFT 0 + cos angle * nth (k * 2 + 1) oddFFT 0 in
  nth (k * 2) (butterfly N evenFFT oddFFT) 0 = nth (k * 2) evenFFT 0 + tReal
  /\ nth (k * 2 + 1) (butterfly N evenFFT oddFFT) 0
     = nth (k * 2 + 1) evenFFT 0 + tImag
  /\ nth ((k + N / 2) * 2) (butterfly N evenFFT oddFFT) 0
     = nth (k * 2) evenFFT 0 - tReal
  /\ nth ((k + N / 2) * 2 + 1) (butterfly N evenFFT oddFFT) 0
     = nth (k * 2 + 1) evenFFT 0 - tImag.
Proof.
  intros Hk angle tReal tImag. unfold butterfly.
  set (half := (N / 2)%nat) in *.
  match goal with
  | |- context [flat_map ?f (seq 0 half) ++ flat_map ?g (seq 0 half)] =>
      set (lo := flat_map f (seq 0 half));
      set (hi := flat_map g (seq 0 half))
  end.
  assert (Hlo : List.length lo = (2 * half)%nat)
    by (unfold lo; apply interleave_length).
  repeat split.
  - rewrite app_nth1 by lia. unfold lo.
    now rewrite (proj1 (interleave_nth _ _ half 0 k Hk)).
  - rewrite app_nth1 by lia. unfold lo.
    now rewrite (proj2 (interleave_nth _ _ half 0 k Hk)).
  - rewrite app_nth2 by lia.
    replace ((k + half) * 2 - List.length lo)%nat with (k * 2)%nat by lia.
    unfold hi. now rewrite (proj1 (interleave_nth _ _ half 0 k Hk)).
  - rewrite app_nth2 by lia.
    replace ((k + half) * 2 + 1 - List.length lo)%nat with (k * 2 + 1)%nat
      by lia.
    unfold hi. now rewrite (proj2 (interleave_nth _ _ half 0 k Hk)).
Qed.

Lemma twiddle_angle (M k : nat) :
  (0 < M)%nat ->
  (-2 * PI * INR k) / INR (2 * M) = - (2 * PI * INR k / INR (2 * M)).
Proof.
  intros HM. field. apply not_0_INR. lia.
Qed.

Lemma twiddle_shift (M k : nat) :
  (0 < M)%nat ->
  2 * PI * INR (k + M) / INR (2 * M) = 2 * PI * INR k / INR (2 * M) + PI.
Proof.
  intros HM. rewrite plus_INR, INR_twice. field. apply not_0_INR. lia.
Qed.

(** The recursive transform computes the discrete Fourier transform of any
    signal whose length is a power of two. *)
Lemma fft_is_dft (m : nat) : forall input,
  List.length input = (2 ^ m)%nat ->
  List.length (fft input) = (2 * 2 ^ m)%nat
  /\ forall k, (k < 2 ^ m)%nat ->
       nth (k * 2) (fft input) 0 = dftReal input k
       /\ nth (k * 2 + 1) (fft input) 0 = dftImag input k.
Proof.
  induction m as [| m IH]; intros input Hlen.
  - rewrite fft_base by (rewrite Hlen; simpl; lia).
    split; [reflexivity |].
    intros k Hk. simpl in Hk. assert (k = 0)%nat as -> by lia.
    unfold dftReal, dftImag. rewrite Hlen. simpl.
    replace (2 * PI * 0 * 0 / 1) with 0 by field.
    rewrite cos_0, sin_0. split; lra.
  - set (M := (2 ^ m)%nat).
    assert (HM : (0 < M)%nat)
      by (unfold M; apply Nat.neq_0_lt_0, Nat.pow_nonzero; discriminate).
    assert (Hlen2 : List.length input = (2 * M)%nat)
      by (rewrite Hlen; unfold M; simpl; lia).
    assert (Hhalf : (List.length input / 2 = M)%nat)
      by (now apply half_length).
    rewrite fft_step by lia.
    destruct (IH (evenSamples input)) as [_ He];
      [rewrite evenSamples_length; exact Hhalf |].
    destruct (IH (oddSamples input)) as [_ Ho];
      [rewrite oddSamples_length; exact Hhalf |].
    fold M in He, Ho.
    split.
    + rewrite butterfly_length, Hhalf. unfold M. simpl. lia.
    + intros k Hk. replace (2 ^ S m)%nat with (2 * M)%nat in Hk
        by (unfold M; simpl; lia).
      rewrite (dftReal_split input M Hlen2 HM k).
      rewrite (dftImag_split input M Hlen2 HM k).
      destruct (Nat.lt_ge_cases k M) as [Hlt | Hge].
      * destruct (butterfly_nth (List.length input)
                    (fft (evenSamples input)) (fft (oddSamples input)) k)
          as (Hre & Him & _); [lia |].
        rewrite Hre, Him. cbv zeta.
        destruct (He k Hlt) as [-> ->]. destruct (Ho k Hlt) as [-> ->].
        rewrite Hlen2, twiddle_angle by exact HM.
        rewrite cos_neg, sin_neg. split; lra.
      * set (k' := (k - M)%nat).
        assert (Hk' : (k' < M)%nat) by (unfold k'; lia).
        assert (Hkk : k = (k' + M)%nat) by (unfold k'; lia).
        destruct (butterfly_nth (List.length input)
                    (fft (evenSamples input)) (fft (oddSamples input)) k')
          as (_ & _ & Hre & Him); [lia |].
        rewrite Hhalf in Hre, Him. rewrite Hkk, Hre, Him. cbv zeta.
        destruct (He k' Hk') as [-> ->]. destruct (Ho k' Hk') as [-> ->].
        assert (Hel : List.length (evenSamples input) = M)
          by (rewrite evenSamples_length; exact Hhalf).
        assert (Hol : List.length (oddSamples input) = M)
          by (rewrite oddSamples_length; exact Hhalf).
        pose proof (dftReal_periodic (evenSamples input) k') as Pre.
        pose proof (dftImag_periodic (evenSamples input) k') as Pie.
        pose proof (dftReal_periodic (oddSamples input) k') as Pro.
        pose proof (dftImag_periodic (oddSamples input) k') as Pio.
        rewrite Hel in Pre, Pie. rewrite Hol in Pro, Pio.
        rewrite Pre, Pie, Pro, Pio by exact HM.
        rewrite Hlen2, twiddle_angle, twiddle_shift by exact HM.
        rewrite neg_cos, neg_sin, cos_neg, sin_neg. split; lra.
Qed.

Lemma magnitudeSpectrum_nonneg spectrum fftSize :
  Forall (fun v => 0 <= v) (magnitudeSpectrum spectrum fftSize).
Proof.
  unfold magnitudeSpectrum. apply Forall_forall. intros v Hv.
  apply in_map_iff in Hv. destruct Hv as (i & <- & _). apply sqrt_pos.
Qed.

Lemma spectrum_nonneg t currentTime windowDuration fftSize :
  Forall (fun v => 0 <= v)
    (getFrequencySpectrumForTimeWindow t currentTime windowDuration fftSize).
Proof.
  unfold getFrequencySpectrumForTimeWindow.
  destruct (spectrumSampleWindow t currentTime windowDuration)
    as [startSample endSample].
  destruct (endSample - startSample <? Z.of_nat fftSize)%Z.
  - apply Forall_forall. intros v Hv. apply repeat_spec in Hv. subst v. lra.
  - apply magnitudeSpectrum_nonneg.
Qed.

Lemma spectrum_length t currentTime windowDuration fftSize :
  List.length
    (getFrequencySpectrumForTimeWindow t currentTime windowDuration fftSize)
  = (fftSize / 2)%nat.
Proof.
  unfold getFrequencySpectrumForTimeWindow.
  destruct (spectrumSampleWindow t currentTime windowDuration)
    as [startSample endSample].
  destruct (endSample - startSample <? Z.of_nat fftSize)%Z.
  - apply repeat_length.
  - unfold magnitudeSpectrum. now rewrite length_map, length_seq.
Qed.

(** [floor(i * (totalSamples / fftSize))] is an integer division. *)
Lemma pick_offset (i fftSize : nat) (totalSamples : Z) :
  (0 < fftSize)%nat ->
  Qfloor (ofNat i * (inject_Z totalSamples / ofNat fftSize))
  = (Z.of_nat i * totalSamples / Z.of_nat fftSize)%Z.
Proof.
  intros Hn. rewrite Zdiv_Qdiv. apply Qfloor_comp.
  unfold ofNat. rewrite inject_Z_mult. field.
  intros H. apply (Qlt_irrefl 0). rewrite <- H at 2.
  now apply (ofNat_pos fftSize).
Qed.

Lemma pick_offset_range (i fftSize : nat) (totalSamples : Z) :
  (i < fftSize)%nat -> (Z.of_nat fftSize <= totalSamples)%Z ->
  (0 <= Z.of_nat i * totalSamples / Z.of_nat fftSize < totalSamples)%Z.
Proof.
  intros Hi Hn. split.
  - apply Z.div_pos; nia.
  - apply Z.div_lt_upper_bound; nia.
Qed.

Lemma magnitudeSpectrum_dft (m : nat) (signal : list R) :
  List.length signal = (2 ^ m)%nat ->
  magnitudeSpectrum (fft signal) (2 ^ m)
  = map (fun k =>
           sqrt (dftReal signal k * dftReal signal k
                 + dftImag signal k * dftImag signal k))
        (seq 0 (2 ^ m / 2)).
Proof.
  intros Hlen. unfold magnitudeSpectrum. apply map_ext_in. intros k Hk.
  apply in_seq in Hk.
  assert (Hlt : (k < 2 ^ m)%nat).
  { assert (2 ^ m / 2 <= 2 ^ m)%nat by (apply Nat.Div0.div_le_upper_bound; lia).
    lia. }
  destruct (fft_is_dft m signal Hlen) as [_ Hdft].
  destruct (Hdft k Hlt) as [-> ->]. reflexivity.
Qed.

End SpectrumProperties.

(** **** C4.  When the window holds at least [fftSize = 2 ^ m] samples of a
    track with a positive sample rate, the spectrum extractor picks sample
    [startSample + floor(i * totalSamples / fftSize)] for each of the
    [fftSize] points (an index inside the window, no interpolation),
    multiplies it by the Hann coefficient, and returns for each bin
    [k < fftSize / 2] the modulus [sqrt(re^2 + im^2)] of the discrete
    Fourier transform of that windowed signal: the recursive FFT computes
    exactly the textbook transform.  Every magnitude it returns, on any
    input, is non-negative. *)
Theorem spectrum_is_windowed_dft (t : AudioTrack)
    (currentTime windowDuration : Q) (m : nat) :
  let fftSize := (2 ^ m)%nat in
  let channelData := channel0 (buffer t) in
  let startSample := fst (spectrumSampleWindow t currentTime windowDuration) in
  let endSample := snd (spectrumSampleWindow t currentTime windowDuration) in
  let totalSamples := (endSample - startSample)%Z in
  let pick (i : nat) : Z :=
    (startSample + Z.of_nat i * totalSamples / Z.of_nat fftSize)%Z in
  let windowed : list R :=
    map (fun i =>
           (Q2R (sampleAt channelData (pick i))
            * (0.5 * (1 - cos (2 * PI * INR i / (INR fftSize - 1)))))%R)
        (seq 0 fftSize) in
  0 < sampleRate (buffer t) ->
  (Z.of_nat fftSize <= totalSamples)%Z ->
  (forall i, (i < fftSize)%nat ->
     (startSample <= pick i < endSample)%Z
     /\ (0 <= pick i < Z.of_nat (List.length channelData))%Z)
  /\ getFrequencySpectrumForTimeWindow t currentTime windowDuration fftSize
     = map (fun k =>
              sqrt (dftReal windowed k * dftReal windowed k
                    + dftImag windowed k * dftImag windowed k)%R)
           (seq 0 (fftSize / 2))
  /\ (forall t' currentTime' windowDuration' fftSize',
        Forall (fun v => (0 <= v)%R)
          (getFrequencySpectrumForTimeWindow t' currentTime' windowDuration'
             fftSize')).
Proof.
  intros fftSize channelData startSample endSample totalSamples pick windowed
    Hsr Hfit.
  assert (Hpos : (0 < fftSize)%nat)
    by (unfold fftSize; apply Nat.neq_0_lt_0, Nat.pow_nonzero; discriminate).
  assert (Hs0 : (0 <= startSample)%Z).
  { unfold startSample. rewrite spectrum_window_same.
    apply waveformSampleWindow_start_nonneg. lra. }
  assert (Hend : (endSample <= Z.of_nat (List.length channelData))%Z).
  { unfold endSample. rewrite spectrum_window_same.
    apply waveformSampleWindow_end_le. }
  assert (Hpick : forall i, (i < fftSize)%nat ->
            (startSample <= pick i < endSample)%Z
            /\ (0 <= pick i < Z.of_nat (List.length channelData))%Z).
  { intros i Hi. unfold pick.
    pose proof (pick_offset_range i fftSize totalSamples Hi Hfit).
    unfold totalSamples in *. lia. }
  split; [exact Hpick | split; [| intros; apply spectrum_nonneg]].
  unfold getFrequencySpectrumForTimeWindow.
  fold channelData.
  destruct (spectrumSampleWindow t currentTime windowDuration)
    as [s e] eqn:Hw.
  cbn [fst snd] in startSample, endSample.
  assert (Hlt : (e - s <? Z.of_nat fftSize)%Z = false)
    by (apply Z.ltb_ge; exact Hfit).
  rewrite Hlt.
  assert (Hsig : applyHann (resampleWindow channelData s e fftSize) fftSize
                 = windowed).
  { unfold applyHann, windowed. apply map_ext_in. intros i Hi.
    apply in_seq in Hi. unfold resampleWindow.
    rewrite nth_map_seq by lia. fold totalSamples.
    rewrite pick_offset by exact Hpos.
    destruct (Hpick i ltac:(lia)) as [_ [_ Hin]].
    apply Z.ltb_lt in Hin.
    unfold pick, totalSamples, startSample, endSample in Hin.
    unfold totalSamples, startSample, endSample. rewrite Hin.
    unfold hann. reflexivity. }
  rewrite Hsig. apply magnitudeSpectrum_dft.
  unfold windowed. now rewrite length_map, length_seq.
Qed.

Lemma spectrum_is_windowed_dft_witness :
  List.length (getFrequencySpectrumForTimeWindow demoTrack (1 # 2) 1 4) = 2%nat
  /\ Forall (fun v => (0 <= v)%R)
       (getFrequencySpectrumForTimeWindow demoTrack (1 # 2) 1 4).
Proof.
  destruct (spectrum_is_windowed_dft demoTrack (1 # 2) 1 2
              ltac:(reflexivity) ltac:(vm_compute; discriminate))
    as (_ & Heq & Hnonneg).
  split; [| apply Hnonneg].
  change (2 ^ 2)%nat with 4%nat in Heq. rewrite Heq.
  now rewrite length_map, length_seq.
Defined.

(** ** Degenerate windows *)

(** **** C9.  A window without samples makes the waveform extractor return
    [targetWidth] zeros, and a window with fewer than [fftSize] samples
    makes the spectrum extractor return [fftSize / 2] zeros.  Both
    extractors are total: whatever the track and the times, they return a
    buffer of the expected length. *)
Theorem insufficient_data_zero_fill (t : AudioTrack)
    (currentTime windowDuration : Q) :
  (forall targetWidth smoothingLevel,
      (snd (waveformSampleWindow t currentTime windowDuration)
       - fst (waveformSampleWindow t currentTime windowDuration) <= 0)%Z ->
      getWaveformDataForTimeWindow t currentTime windowDuration targetWidth
        smoothingLevel = repeat 0 targetWidth)
  /\ (forall fftSize,
        (snd (spectrumSampleWindow t currentTime windowDuration)
         - fst (spectrumSampleWindow t currentTime windowDuration)
         < Z.of_nat fftSize)%Z ->
        getFrequencySpectrumForTimeWindow t currentTime windowDuration fftSize
        = repeat 0%R (fftSize / 2))
  /\ (forall targetWidth smoothingLevel,
        List.length
          (getWaveformDataForTimeWindow t currentTime windowDuration
             targetWidth smoothingLevel) = targetWidth)
  /\ (forall fftSize,
        List.length
          (getFrequencySpectrumForTimeWindow t currentTime windowDuration
             fftSize) = (fftSize / 2)%nat).
Proof.
  split; [| split; [| split]].
  - intros targetWidth smoothingLevel Hdeg.
    unfold getWaveformDataForTimeWindow.
    destruct (waveformSampleWindow t currentTime windowDuration)
      as [startSample endSample].
    cbn [fst snd] in Hdeg. apply Z.leb_le in Hdeg. now rewrite Hdeg.
  - intros fftSize Hshort. unfold getFrequencySpectrumForTimeWindow.
    destruct (spectrumSampleWindow t currentTime windowDuration)
      as [startSample endSample].
    cbn [fst snd] in Hshort. apply Z.ltb_lt in Hshort. now rewrite Hshort.
  - intros. apply getWaveform_length.
  - intros. apply spectrum_length.
Qed.

Lemma insufficient_data_zero_fill_witness :
  getWaveformDataForTimeWindow demoTrack 3 1 4 2 = [0; 0; 0; 0]
  /\ getFrequencySpectrumForTimeWindow demoTrack (1 # 2) 1 8
     = [0; 0; 0; 0]%R.
Proof.
  destruct (insufficient_data_zero_fill demoTrack 3 1) as (Hw & _).
  destruct (insufficient_data_zero_fill demoTrack (1 # 2) 1) as (_ & Hs & _).
  split.
  - apply (Hw 4%nat 2%nat). vm_compute. discriminate.
  - apply (Hs 8%nat). vm_compute. reflexivity.
Defined.

(** ** The additive layout *)

Lemma getWaveform_nonneg t currentTime windowDuration targetWidth level v :
  In v (getWaveformDataForTimeWindow t currentTime windowDuration
          targetWidth level) -> 0 <= v.
Proof.
  set (raw := getWaveformDataForTimeWindow t currentTime windowDuration
                targetWidth 0).
  set (hi := fold_left (fun g v => if Qlt_le_dec g v then v else g) raw 0).
  intros Hv.
  apply (getWaveform_level_bounds t currentTime windowDuration targetWidth
           level 0 hi); [| exact Hv].
  intros u Hu. split.
  - now apply getWaveform_unsmoothed_nonneg in Hu.
  - unfold hi. now apply runningMax_upper.
Qed.

Lemma normalizeAmplitude_nonneg amplitudeMode globalMaxAmplitude a :
  0 <= a -> 0 <= normalizeAmplitude amplitudeMode globalMaxAmplitude a.
Proof.
  intros Ha. unfold normalizeAmplitude.
  destruct (isNormalized amplitudeMode); [| exact Ha].
  destruct (Qlt_le_dec 0 globalMaxAmplitude) as [Hpos | _]; [| exact Ha].
  apply Qle_shift_div_l; [exact Hpos | lra].
Qed.

Lemma columnAmplitudes_nonneg tracks currentTime windowDuration targetWidth
    level amplitudeMode globalMaxAmplitude x a :
  In a (columnAmplitudes
          (map (fun track =>
                  getWaveformDataForTimeWindow track currentTime
                    windowDuration targetWidth level) tracks)
          amplitudeMode globalMaxAmplitude x) ->
  0 <= a.
Proof.
  unfold columnAmplitudes. rewrite map_map. intros Ha.
  apply in_map_iff in Ha. destruct Ha as (track & <- & _).
  apply normalizeAmplitude_nonneg.
  destruct (nth_In_or_default
              (getWaveformDataForTimeWindow track currentTime windowDuration
                 targetWidth level) x) as [Hin | ->]; [| lra].
  now apply getWaveform_nonneg in Hin.
Qed.

Lemma sumQ_nonneg (l : list Q) : (forall a, In a l -> 0 <= a) -> 0 <= sumQ l.
Proof.
  induction l as [| a l IH]; intros Hall; [unfold sumQ; simpl; lra |].
  rewrite sumQ_cons.
  pose proof (Hall a (or_introl eq_refl)).
  assert (0 <= sumQ l) by (apply IH; intros; apply Hall; now right). lra.
Qed.

(** The scale factor brings the total to at most 1. *)
Lemma columnScaleFactor_spec (amplitudes : list Q) :
  (1 < sumQ amplitudes ->
     columnScaleFactor amplitudes = 1 / sumQ amplitudes
     /\ sumQ (map (fun a => a * columnScaleFactor amplitudes) amplitudes) == 1)
  /\ (sumQ amplitudes <= 1 -> columnScaleFactor amplitudes = 1)
  /\ 0 < columnScaleFactor amplitudes
  /\ ((forall a, In a amplitudes -> 0 <= a) ->
      sumQ amplitudes * columnScaleFactor amplitudes <= 1).
Proof.
  unfold columnScaleFactor. fold (sumQ amplitudes).
  destruct (Qlt_le_dec 1 (sumQ amplitudes)) as [Hgt | Hle].
  - repeat split.
    + rewrite sumQ_map_scale. field. lra.
    + intros Hle. lra.
    + apply Qlt_shift_div_l; lra.
    + intros _. apply Qle_lteq. right. field. lra.
  - repeat split.
    + lra.
    + lra.
    + intros _. lra.
Qed.

Section Stack.
Variables (x : nat) (maxAmplitude scaleFactor : Q).
Hypothesis Hmax : 0 <= maxAmplitude.
Hypothesis Hscale : 0 <= scaleFactor.

Lemma segment_nonneg a : 0 <= a -> 0 <= a * scaleFactor * maxAmplitude.
Proof.
  intros Ha. apply Qmult_le_0_compat; [apply Qmult_le_0_compat |]; lra.
Qed.

Lemma stackUpward_spec (amplitudes : list Q) : forall currentY,
  (forall a, In a amplitudes -> 0 <= a) ->
  stackedHeight (stackUpward x maxAmplitude scaleFactor amplitudes currentY)
    <= sumQ amplitudes * scaleFactor * maxAmplitude
  /\ forall s,
       In s (stackUpward x maxAmplitude scaleFactor amplitudes currentY) ->
       strokeX s = x
       /\ 1 # 2 < segmentLength s
       /\ currentY - sumQ amplitudes * scaleFactor * maxAmplitude <= yTo s
       /\ yTo s <= yFrom s <= currentY.
Proof.
  induction amplitudes as [| a rest IH]; intros currentY Hall.
  - unfold stackedHeight, sumQ. simpl. split; [lra | contradiction].
  - assert (Ha : 0 <= a * scaleFactor * maxAmplitude)
      by (apply segment_nonneg, Hall; now left).
    assert (Hrest : forall b, In b rest -> 0 <= b)
      by (intros; apply Hall; now right).
    assert (Hsum : 0 <= sumQ rest * scaleFactor * maxAmplitude)
      by (apply segment_nonneg, sumQ_nonneg, Hrest).
    cbn [stackUpward].
    destruct (Qlt_le_dec (1 # 2) (a * scaleFactor * maxAmplitude))
      as [Hdraw | Hskip].
    + destruct (IH (currentY - a * scaleFactor * maxAmplitude) Hrest)
        as [Hh Hs].
      assert (Hlen : segmentLength
                       (mkStroke x currentY
                          (currentY - a * scaleFactor * maxAmplitude))
                     == a * scaleFactor * maxAmplitude).
      { unfold segmentLength. cbn [yTo yFrom].
        setoid_replace (currentY - a * scaleFactor * maxAmplitude - currentY)
          with (- (a * scaleFactor * maxAmplitude)) by ring.
        rewrite Qabs_opp. apply Qabs_pos. exact Ha. }
      split.
      * unfold stackedHeight in *. cbn [map]. rewrite !sumQ_cons, Hlen. lra.
      * intros s [<- | Hin].
        -- cbn [strokeX yTo yFrom]. rewrite Hlen, sumQ_cons.
           repeat split; lra.
        -- destruct (Hs s Hin) as (Hx & Hl & Hlo & Hhi).
           rewrite sumQ_cons. repeat split; try assumption; lra.
    + destruct (IH currentY Hrest) as [Hh Hs]. split.
      * rewrite sumQ_cons. lra.
      * intros s Hin. destruct (Hs s Hin) as (Hx & Hl & Hlo & Hhi).
        rewrite sumQ_cons. repeat split; try assumption; lra.
Qed.

Lemma stackDownward_spec (amplitudes : list Q) : forall currentY,
  (forall a, In a amplitudes -> 0 <= a) ->
  stackedHeight (stackDownward x maxAmplitude scaleFactor amplitudes currentY)
    <= sumQ amplitudes * scaleFactor * maxAmplitude
  /\ forall s,
       In s (stackDownward x maxAmplitude scaleFactor amplitudes currentY) ->
       strokeX s = x
       /\ 1 # 2 < segmentLength s
       /\ yTo s <= currentY + sumQ amplitudes * scaleFactor * maxAmplitude
       /\ currentY <= yFrom s <= yTo s.
Proof.
  induction amplitudes as [| a rest IH]; intros currentY Hall.
  - unfold stackedHeight, sumQ. simpl. split; [lra | contradiction].
  - assert (Ha : 0 <= a * scaleFactor * maxAmplitude)
      by (apply segment_nonneg, Hall; now left).
    assert (Hrest : forall b, In b rest -> 0 <= b)
      by (intros; apply Hall; now right).
    assert (Hsum : 0 <= sumQ rest * scaleFactor * maxAmplitude)
      by (apply segment_nonneg, sumQ_nonneg, Hrest).
    cbn [stackDownward].
    destruct (Qlt_le_dec (1 # 2) (a * scaleFactor * maxAmplitude))
      as [Hdraw | Hskip].
    + destruct (IH (currentY + a * scaleFactor * maxAmplitude) Hrest)
        as [Hh Hs].
      assert (Hlen : segmentLength
                       (mkStroke x currentY
                          (currentY + a * scaleFactor * maxAmplitude))
                     == a * scaleFactor * maxAmplitude).
      { unfold segmentLength. cbn [yTo yFrom].
        setoid_replace (currentY + a * scaleFactor * maxAmplitude - currentY)
          with (a * scaleFactor * maxAmplitude) by ring.
        apply Qabs_pos. exact Ha. }
      split.
      * unfold stackedHeight in *. cbn [map]. rewrite !sumQ_cons, Hlen. lra.
      * intros s [<- | Hin].
        -- cbn [strokeX yTo yFrom]. rewrite Hlen, sumQ_cons.
           repeat split; lra.
        -- destruct (Hs s Hin) as (Hx & Hl & Hlo & Hhi).
           rewrite sumQ_cons. repeat split; try assumption; lra.
    + destruct (IH currentY Hrest) as [Hh Hs]. split.
      * rewrite sumQ_cons. lra.
      * intros s Hin. destruct (Hs s Hin) as (Hx & Hl & Hlo & Hhi).
        rewrite sumQ_cons. repeat split; try assumption; lra.
Qed.

End Stack.

(** **** C5.  In the additive layout, at every pixel column: when the sum
    of the tracks' (possibly normalised) amplitudes exceeds 1 the scale
    factor is [1 / sum] and every amplitude is multiplied by it, so the
    scaled amplitudes add up to 1 (a proportional scale-down); otherwise
    the factor is 1.  The segments stacked above the centre add up to at
    most [maxAmplitude], and so do those stacked below; every segment that
    is drawn is longer than half a pixel; the whole picture stays within
    [maxAmplitude] of the centre line. *)
Theorem additive_layout_clipping_safety (rc : RenderContext)
    (tracks : list AudioTrack) (currentTime centerY maxAmplitude : Q)
    (amplitudeMode : AmplitudeMode) (globalMaxAmplitude : Q)
    (smoothingLevel : nat) (windowDuration : Q) :
  0 <= maxAmplitude ->
  (forall x : nat,
     let waveformDataArray :=
       map (fun track =>
              getWaveformDataForTimeWindow track currentTime windowDuration
                (width rc) smoothingLevel) tracks in
     let amplitudes :=
       columnAmplitudes waveformDataArray amplitudeMode globalMaxAmplitude x in
     let scaleFactor := columnScaleFactor amplitudes in
     (1 < sumQ amplitudes ->
        scaleFactor = 1 / sumQ amplitudes
        /\ sumQ (map (fun a => a * scaleFactor) amplitudes) == 1)
     /\ (sumQ amplitudes <= 1 -> scaleFactor = 1)
     /\ stackedHeight
          (stackUpward x maxAmplitude scaleFactor amplitudes centerY)
        <= maxAmplitude
     /\ stackedHeight
          (stackDownward x maxAmplitude scaleFactor amplitudes centerY)
        <= maxAmplitude)
  /\ (forall s,
        In s (renderTracksAdditive rc tracks currentTime centerY maxAmplitude
                amplitudeMode globalMaxAmplitude smoothingLevel
                windowDuration) ->
        1 # 2 < segmentLength s
        /\ centerY - maxAmplitude <= yFrom s <= centerY + maxAmplitude
        /\ centerY - maxAmplitude <= yTo s <= centerY + maxAmplitude).
Proof.
  intros Hmax.
  assert (Hcol : forall x,
            let amplitudes :=
              columnAmplitudes
                (map (fun track =>
                        getWaveformDataForTimeWindow track currentTime
                          windowDuration (width rc) smoothingLevel) tracks)
                amplitudeMode globalMaxAmplitude x in
            (forall a, In a amplitudes -> 0 <= a)
            /\ 0 <= columnScaleFactor amplitudes
            /\ sumQ amplitudes * columnScaleFactor amplitudes * maxAmplitude
               <= maxAmplitude).
  { intros x amplitudes.
    assert (Hnn : forall a, In a amplitudes -> 0 <= a)
      by (intros a Ha; now apply columnAmplitudes_nonneg in Ha).
    destruct (columnScaleFactor_spec amplitudes) as (_ & _ & Hpos & Hle).
    specialize (Hle Hnn).
    assert (0 <= sumQ amplitudes * columnScaleFactor amplitudes)
      by (apply Qmult_le_0_compat; [now apply sumQ_nonneg | lra]).
    repeat split; [exact Hnn | lra |].
    setoid_replace maxAmplitude with (1 * maxAmplitude) at 2 by ring.
    apply Qmult_le_compat_r; assumption. }
  split.
  - intros x waveformDataArray amplitudes scaleFactor.
    destruct (Hcol x) as (Hnn & Hsf & Htot).
    fold waveformDataArray amplitudes scaleFactor in Hnn, Hsf, Htot.
    destruct (columnScaleFactor_spec amplitudes) as (Hgt & Hle & _ & _).
    destruct (stackUpward_spec x maxAmplitude scaleFactor Hmax Hsf
                amplitudes centerY Hnn) as [Hup _].
    destruct (stackDownward_spec x maxAmplitude scaleFactor Hmax Hsf
                amplitudes centerY Hnn) as [Hdown _].
    repeat split.
    + now apply Hgt.
    + now apply Hgt.
    + exact Hle.
    + lra.
    + lra.
  - intros s Hs. unfold renderTracksAdditive in Hs.
    apply in_flat_map in Hs. destruct Hs as (x & _ & Hs).
    destruct (Hcol x) as (Hnn & Hsf & Htot).
    apply in_app_or in Hs. destruct Hs as [Hs | Hs].
    + destruct (stackUpward_spec x maxAmplitude _ Hmax Hsf _ centerY Hnn)
        as [_ Hall].
      destruct (Hall s Hs) as (_ & Hlen & Hlo & Hhi).
      repeat split; try assumption; lra.
    + destruct (stackDownward_spec x maxAmplitude _ Hmax Hsf _ centerY Hnn)
        as [_ Hall].
      destruct (Hall s Hs) as (_ & Hlen & Hlo & Hhi).
      repeat split; try assumption; lra.
Qed.

Lemma additive_layout_clipping_safety_witness :
  stackedHeight
    (stackUpward 0 540
       (columnScaleFactor
          (columnAmplitudes
             (map (fun track =>
                     getWaveformDataForTimeWindow track (1 # 2) 1 2 0)
                  [demoTrack; demoTrack]) Individual 1 0))
       (columnAmplitudes
          (map (fun track =>
                  getWaveformDataForTimeWindow track (1 # 2) 1 2 0)
               [demoTrack; demoTrack]) Individual 1 0)
       540)
  <= 540.
Proof.
  pose proof (additive_layout_clipping_safety (mkRenderContext 2 1080)
                [demoTrack; demoTrack] (1 # 2) 540 540 Individual 1 0 1
                ltac:(discriminate)) as [Hcol _].
  exact (proj1 (proj2 (proj2 (Hcol 0%nat)))).
Defined.

(** ** Progressive reveal *)

Section Reveal.
Variable rc : RenderContext.

(** The columns one track's strokes are issued at, in order. *)
Lemma renderTrack_columns track currentTime centerY maxAmplitude
    amplitudeMode globalMaxAmplitude smoothingLevel windowDuration :
  map strokeX
    (renderTrackRealtimeWithAmplitude rc track currentTime centerY
       maxAmplitude amplitudeMode globalMaxAmplitude smoothingLevel
       windowDuration)
  = seq 0
      (Z.to_nat
         (Z.min
            (if Qlt_le_dec currentTime windowDuration
             then revealLimit currentTime windowDuration (width rc)
             else Z.of_nat (width rc))
            (Z.of_nat (width rc)))).
Proof.
  unfold renderTrackRealtimeWithAmplitude. rewrite map_map. cbn [strokeX].
  rewrite map_id, getWaveform_length. reflexivity.
Qed.

Lemma renderTrack_reveal track currentTime centerY maxAmplitude
    amplitudeMode globalMaxAmplitude smoothingLevel windowDuration s :
  In s (renderTrackRealtimeWithAmplitude rc track currentTime centerY
          maxAmplitude amplitudeMode globalMaxAmplitude smoothingLevel
          windowDuration) ->
  (strokeX s < width rc)%nat
  /\ (currentTime < windowDuration ->
      (Z.of_nat (strokeX s)
       < revealLimit currentTime windowDuration (width rc))%Z).
Proof.
  intros Hs. apply (in_map strokeX) in Hs.
  rewrite renderTrack_columns in Hs. apply in_seq in Hs.
  split; [lia |]. intros Hlt.
  destruct (Qlt_le_dec currentTime windowDuration); [lia | lra].
Qed.

Lemma stack_column x maxAmplitude scaleFactor amplitudes : forall currentY s,
  In s (stackUpward x maxAmplitude scaleFactor amplitudes currentY
        ++ stackDownward x maxAmplitude scaleFactor amplitudes currentY) ->
  strokeX s = x.
Proof.
  intros currentY s Hs. apply in_app_or in Hs. destruct Hs as [Hs | Hs].
  - revert currentY Hs. induction amplitudes as [| a rest IH];
      intros currentY Hs; [contradiction |].
    cbn [stackUpward] in Hs.
    destruct (Qlt_le_dec (1 # 2) (a * scaleFactor * maxAmplitude));
      [destruct Hs as [<- | Hs]; [reflexivity |] |]; eapply IH; eassumption.
  - revert currentY Hs. induction amplitudes as [| a rest IH];
      intros currentY Hs; [contradiction |].
    cbn [stackDownward] in Hs.
    destruct (Qlt_le_dec (1 # 2) (a * scaleFactor * maxAmplitude));
      [destruct Hs as [<- | Hs]; [reflexivity |] |]; eapply IH; eassumption.
Qed.

Lemma renderAdditive_reveal tracks currentTime centerY maxAmplitude
    amplitudeMode globalMaxAmplitude smoothingLevel windowDuration s :
  In s (renderTracksAdditive rc tracks currentTime centerY maxAmplitude
          amplitudeMode globalMaxAmplitude smoothingLevel windowDuration) ->
  (strokeX s < width rc)%nat
  /\ (currentTime < windowDuration ->
      (Z.of_nat (strokeX s)
       < revealLimit currentTime windowDuration (width rc))%Z).
Proof.
  unfold renderTracksAdditive. intros Hs.
  apply in_flat_map in Hs. destruct Hs as (x & Hx & Hs).
  apply stack_column in Hs. subst x. apply in_seq in Hx.
  split; [lia |]. intros Hlt. unfold revealLimit.
  destruct (Qlt_le_dec currentTime windowDuration); [lia | lra].
Qed.

Lemma render_reveal tracks currentTime layout amplitudeMode heightPercent
    smoothingLevel windowDuration s :
  In s (render rc tracks currentTime layout amplitudeMode heightPercent
          smoothingLevel windowDuration) ->
  (strokeX s < width rc)%nat
  /\ (currentTime < windowDuration ->
      (Z.of_nat (strokeX s)
       < revealLimit currentTime windowDuration (width rc))%Z).
Proof.
  unfold render. destruct tracks as [| t0 rest]; [contradiction |].
  destruct layout; intros Hs.
  - apply in_flat_map in Hs. destruct Hs as (track & _ & Hs).
    eapply renderTrack_reveal; eassumption.
  - eapply renderAdditive_reveal; eassumption.
  - unfold renderTracksStacked in Hs. apply in_flat_map in Hs.
    destruct Hs as ([index track] & _ & Hs).
    eapply renderTrack_reveal; eassumption.
  - contradiction.
  - contradiction.
Qed.

End Reveal.









(** ** The offline frame driver *)

Section FrameDriverProperties.
Variables Canvas DataURL : Type.
Variable renderAt : Canvas -> Q -> Canvas.
Variable captureFrameAsDataURL : Canvas -> DataURL.
Variables (fps : Q) (totalFrames : Z) (initial : Canvas).

Let run (n : nat) : ExportState Canvas DataURL :=
  fold_left (captureStep Canvas DataURL renderAt captureFrameAsDataURL
               fps totalFrames)
    (seq 0 n) (mkExportState Canvas DataURL initial [] []).





End FrameDriverProperties.



(** ** The audio mixer *)

Section Mixer.
Import CLIAudioEngine.

Lemma getDuration_fold_ge (rest : list AudioTrack) : forall m,
  m <= fold_left (fun m t' => Qmax m (duration (buffer t'))) rest m
  /\ forall t, In t rest ->
       duration (buffer t)
       <= fold_left (fun m t' => Qmax m (duration (buffer t'))) rest m.
Proof.
  induction rest as [| t' rest IH]; intros m; simpl.
  - split; [lra | contradiction].
  - destruct (IH (Qmax m (duration (buffer t')))) as [Hge Hall].
    pose proof (Q.le_max_l m (duration (buffer t'))).
    pose proof (Q.le_max_r m (duration (buffer t'))).
    split; [lra |].
    intros t [-> | Hin]; [lra | now apply Hall].
Qed.

Lemma getDuration_fold_attained (rest : list AudioTrack) : forall m,
  fold_left (fun m t' => Qmax m (duration (buffer t'))) rest m == m
  \/ exists t, In t rest
       /\ fold_left (fun m t' => Qmax m (duration (buffer t'))) rest m
          == duration (buffer t).
Proof.
  induction rest as [| t' rest IH]; intros m; simpl; [left; reflexivity |].
  destruct (IH (Qmax m (duration (buffer t')))) as [Heq | (t & Hin & Heq)].
  - destruct (Q.max_spec m (duration (buffer t'))) as [[_ Hm] | [_ Hm]].
    + right. exists t'. split; [now left | now rewrite Heq].
    + left. now rewrite Heq.
  - right. exists t. split; [now right | exact Heq].
Qed.

(** [getDuration] is the greatest track duration. *)
Lemma getDuration_is_max (tracks : list AudioTrack) :
  tracks <> [] ->
  (forall t, In t tracks -> duration (buffer t) <= getDuration tracks)
  /\ exists t, In t tracks /\ getDuration tracks == duration (buffer t).
Proof.
  destruct tracks as [| t0 rest]; [congruence |]. intros _. cbn [getDuration].
  destruct (getDuration_fold_ge rest (duration (buffer t0))) as [Hge Hall].
  split.
  - intros t [<- | Hin]; [exact Hge | now apply Hall].
  - destruct (getDuration_fold_attained rest (duration (buffer t0)))
      as [Heq | (t & Hin & Heq)].
    + exists t0. split; [now left | exact Heq].
    + exists t. split; [now right | exact Heq].
Qed.

Lemma addTrack_length numSamples acc track :
  List.length (fst (addTrack numSamples acc track)) = numSamples
  /\ List.length (snd (addTrack numSamples acc track)) = numSamples.
Proof.
  unfold addTrack. cbn [fst snd]. now rewrite !length_map, !length_seq.
Qed.

Lemma addTrack_nth numSamples acc track i :
  (i < numSamples)%nat ->
  nth i (fst (addTrack numSamples acc track)) 0
    == nth i (fst acc) 0 + leftTerm i track
  /\ nth i (snd (addTrack numSamples acc track)) 0
     == nth i (snd acc) 0 + rightTerm i track.
Proof.
  intros Hi. unfold addTrack, leftTerm, rightTerm, rightSource.
  cbn [fst snd]. rewrite !nth_map_seq by exact Hi.
  destruct (i <? bufferLength (buffer track))%nat; split; ring.
Qed.

Lemma accumulate_fold_length numSamples tracks : forall acc,
  List.length (fst acc) = numSamples ->
  List.length (snd acc) = numSamples ->
  List.length (fst (fold_left (addTrack numSamples) tracks acc)) = numSamples
  /\ List.length (snd (fold_left (addTrack numSamples) tracks acc))
     = numSamples.
Proof.
  induction tracks as [| t tracks IH]; intros acc Hl Hr; [now split |].
  cbn [fold_left]. apply IH; apply addTrack_length.
Qed.

Lemma accumulate_fold_nth numSamples tracks i : forall acc,
  (i < numSamples)%nat ->
  nth i (fst (fold_left (addTrack numSamples) tracks acc)) 0
    == nth i (fst acc) 0 + sumQ (map (leftTerm i) tracks)
  /\ nth i (snd (fold_left (addTrack numSamples) tracks acc)) 0
     == nth i (snd acc) 0 + sumQ (map (rightTerm i) tracks).
Proof.
  induction tracks as [| t tracks IH]; intros acc Hi.
  - unfold sumQ. simpl. split; ring.
  - cbn [fold_left map]. destruct (IH (addTrack numSamples acc t) Hi)
      as [Hl Hr].
    destruct (addTrack_nth numSamples acc t i Hi) as [Hl' Hr'].
    rewrite Hl, Hr, Hl', Hr', !sumQ_cons. split; ring.
Qed.

Lemma nth_repeat_zero i n : nth i (repeat 0 n) 0 = 0.
Proof.
  destruct (Nat.lt_ge_cases i n) as [Hlt | Hge].
  - now apply nth_repeat_lt.
  - apply nth_overflow. now rewrite repeat_length.
Qed.

Lemma accumulate_spec tracks numSamples :
  List.length (fst (accumulate tracks numSamples)) = numSamples
  /\ List.length (snd (accumulate tracks numSamples)) = numSamples
  /\ forall i, (i < numSamples)%nat ->
       nth i (fst (accumulate tracks numSamples)) 0
         == sumQ (map (leftTerm i) tracks)
       /\ nth i (snd (accumulate tracks numSamples)) 0
          == sumQ (map (rightTerm i) tracks).
Proof.
  unfold accumulate.
  destruct (accumulate_fold_length numSamples tracks
              (repeat 0 numSamples, repeat 0 numSamples))
    as [Hl Hr]; try apply repeat_length.
  split; [exact Hl | split; [exact Hr |]].
  intros i Hi.
  destruct (accumulate_fold_nth numSamples tracks i
              (repeat 0 numSamples, repeat 0 numSamples) Hi) as [Hln Hrn].
  cbn [fst snd] in Hln, Hrn. rewrite nth_repeat_zero in Hln, Hrn.
  rewrite Hln, Hrn. split; ring.
Qed.







End Mixer.

(** The result of [mixTracks] when the allocation succeeds. *)
Lemma mixTracks_unfold (first : AudioTrack) (rest : list AudioTrack) :
  let tracks := first :: rest in
  let numSamples :=
    Z.to_nat
      (Qceiling (CLIAudioEngine.getDuration tracks
                 * sampleRate (buffer first))) in
  let raw := CLIAudioEngine.accumulate tracks numSamples in
  let peak := CLIAudioEngine.peakAmplitude (fst raw) (snd raw) numSamples in
  (0 <= Qceiling (CLIAudioEngine.getDuration tracks
                  * sampleRate (buffer first)))%Z ->
  CLIAudioEngine.mixTracks tracks
  = Some (if Qlt_le_dec 1 peak
          then CLIAudioEngine.mkMix
                 (map (fun v => v * (1 / peak)) (fst raw))
                 (map (fun v => v * (1 / peak)) (snd raw))
                 (sampleRate (buffer first))
          else CLIAudioEngine.mkMix (fst raw) (snd raw)
                 (sampleRate (buffer first))).
Proof.
  intros tracks numSamples raw peak Hceil.
  subst peak raw numSamples tracks. unfold CLIAudioEngine.mixTracks.
  destruct (Qceiling (CLIAudioEngine.getDuration (first :: rest)
                      * sampleRate (buffer first)) <? 0)%Z eqn:Hneg;
    [apply Z.ltb_lt in Hneg; lia |].
  destruct (CLIAudioEngine.accumulate (first :: rest) _) as [l r].
  cbn [fst snd].
  destruct (Qlt_le_dec 1 (CLIAudioEngine.peakAmplitude l r _)); reflexivity.
Qed.



(* ================================================================== *)
(** * Further properties of the code *)
(* ================================================================== *)

(** ** Range and locality of the waveform *)

Lemma bucketPeak_le (channelData : list Q) (bound : Q) start stop :
  0 <= bound ->
  (forall v, In v channelData -> Qabs v <= bound) ->
  bucketPeak channelData start stop <= bound.
Proof.
  intros Hb Hall. unfold bucketPeak.
  destruct (peakLoop_attained channelData (Z.to_nat (stop - start)) start 0)
    as [-> | (k & _ & Hin & ->)]; [exact Hb |].
  apply Hall. unfold sampleAt. apply nth_In. lia.
Qed.

(** **** X1.  When every sample of channel 0 is at most [bound] in absolute
    value, every value of the waveform buffer, at any smoothing level, lies
    in [[0, bound]], and the buffer has [targetWidth] values.  For samples
    in [[-1, 1]] the waveform is in [[0, 1]]. *)
Theorem waveform_values_in_range (t : AudioTrack)
    (currentTime windowDuration : Q) (targetWidth smoothingLevel : nat)
    (bound : Q) :
  0 <= bound ->
  (forall v, In v (channel0 (buffer t)) -> Qabs v <= bound) ->
  List.length
    (getWaveformDataForTimeWindow t currentTime windowDuration targetWidth
       smoothingLevel) = targetWidth
  /\ forall v,
       In v (getWaveformDataForTimeWindow t currentTime windowDuration
               targetWidth smoothingLevel) ->
       0 <= v <= bound.
Proof.
  intros Hb Hall. split; [apply getWaveform_length |].
  apply getWaveform_level_bounds. intros v Hv. split.
  - now apply getWaveform_unsmoothed_nonneg in Hv.
  - revert Hv. unfold getWaveformDataForTimeWindow.
    destruct (waveformSampleWindow t currentTime windowDuration)
      as [startSample endSample].
    destruct (endSample - startSample <=? 0)%Z.
    + intros Hv. apply repeat_spec in Hv. now subst v.
    + change (0 <? 0)%nat with false. cbv iota. unfold downsample.
      intros Hv. apply In_map_seq in Hv. destruct Hv as (i & _ & ->).
      now apply bucketPeak_le.
Qed.

Lemma waveform_values_in_range_witness :
  Forall (fun v => 0 <= v <= 1)
    (getWaveformDataForTimeWindow monoTrack (1 # 2) 1 3 2).
Proof.
  apply Forall_forall.
  apply (waveform_values_in_range monoTrack (1 # 2) 1 3 2 1).
  - discriminate.
  - intros v Hv. simpl in Hv.
    destruct Hv as [<- | [<- | [<- | [<- | []]]]]; discriminate.
Defined.

Lemma peakLoop_ext (a b : list Q) n : forall j max,
  List.length a = List.length b ->
  (forall k, (j <= k < j + Z.of_nat n)%Z ->
     (0 <= k < Z.of_nat (List.length a))%Z -> sampleAt a k = sampleAt b k) ->
  peakLoop a j n max = peakLoop b j n max.
Proof.
  induction n as [| n IH]; intros j max Hlen Hsame; [reflexivity |].
  cbn [peakLoop]. rewrite <- Hlen.
  destruct ((0 <=? j)%Z && (j <? Z.of_nat (List.length a))%Z) eqn:Hg.
  - apply andb_prop in Hg. destruct Hg as [H0 H1].
    apply Z.leb_le in H0. apply Z.ltb_lt in H1.
    rewrite <- (Hsame j) by lia.
    apply IH; [exact Hlen | intros k Hk Hin; apply Hsame; lia].
  - apply IH; [exact Hlen | intros k Hk Hin; apply Hsame; lia].
Qed.

(** **** X2.  The waveform extractor reads nothing outside its window: two
    tracks of the same duration, sample rate and length whose first
    channels agree on the samples [startSample .. endSample - 1] of the
    window give the same waveform buffer, at any target width and
    smoothing level. *)
Theorem waveform_reads_only_its_window (t t' : AudioTrack)
    (currentTime windowDuration : Q) (targetWidth smoothingLevel : nat) :
  duration (buffer t') = duration (buffer t) ->
  sampleRate (buffer t') = sampleRate (buffer t) ->
  List.length (channel0 (buffer t')) = List.length (channel0 (buffer t)) ->
  (forall k,
     (fst (waveformSampleWindow t currentTime windowDuration) <= k
      < snd (waveformSampleWindow t currentTime windowDuration))%Z ->
     sampleAt (channel0 (buffer t')) k = sampleAt (channel0 (buffer t)) k) ->
  getWaveformDataForTimeWindow t' currentTime windowDuration targetWidth
    smoothingLevel
  = getWaveformDataForTimeWindow t currentTime windowDuration targetWidth
      smoothingLevel.
Proof.
  intros Hd Hr Hlen Hsame.
  assert (Hw : waveformSampleWindow t' currentTime windowDuration
               = waveformSampleWindow t currentTime windowDuration)
    by (unfold waveformSampleWindow; now rewrite Hd, Hr, Hlen).
  unfold getWaveformDataForTimeWindow. rewrite Hw.
  destruct (waveformSampleWindow t currentTime windowDuration)
    as [startSample endSample].
  cbn [fst snd] in Hsame.
  destruct (endSample - startSample <=? 0)%Z eqn:Hdeg; [reflexivity |].
  apply Z.leb_gt in Hdeg.
  assert (Hdown : downsample (channel0 (buffer t')) startSample endSample
                    targetWidth
                  = downsample (channel0 (buffer t)) startSample endSample
                      targetWidth).
  { unfold downsample. apply map_ext_in. intros i Hi. apply in_seq in Hi.
    assert (Hwidth : (0 < targetWidth)%nat) by lia.
    pose proof (bucketStart_ge startSample endSample targetWidth
                  ltac:(lia) Hwidth i) as Hlo.
    pose proof (bucketEnd_le startSample endSample targetWidth Hwidth i)
      as Hhi.
    unfold bucketPeak. apply peakLoop_ext; [exact Hlen |].
    intros k Hk _. apply Hsame. lia. }
  now rewrite Hdown.
Qed.

Lemma waveform_reads_only_its_window_witness :
  getWaveformDataForTimeWindow
    (mkAudioTrack
       (mkAudioBuffer (3 # 2) 4 [1; -3; 2; 5; 7; 7] []) "#ffffff" 1)
    (1 # 2) 1 2 1
  = getWaveformDataForTimeWindow demoTrack (1 # 2) 1 2 1.
Proof.
  apply waveform_reads_only_its_window; try reflexivity.
  intros k Hk. cbn in Hk.
  assert (Hcases : k = 0%Z \/ k = 1%Z \/ k = 2%Z \/ k = 3%Z) by lia.
  destruct Hcases as [-> | [-> | [-> | ->]]]; reflexivity.
Defined.

(** ** The adaptive window, as the extractors use it *)






(** ** The precomputed waveform ([computeWaveformData]) *)

Lemma blockPeakLoop_ge_init channelData n : forall j max,
  max <= blockPeakLoop channelData j n max.
Proof.
  induction n as [| n IH]; intros j max; simpl; [lra |].
  destruct (Qlt_le_dec max (Qabs (nth j channelData 0))) as [Hlt | Hle].
  - eapply Qle_trans; [| apply IH]. lra.
  - apply IH.
Qed.

Lemma blockPeakLoop_upper channelData n : forall j max k,
  (j <= k < j + n)%nat ->
  Qabs (nth k channelData 0) <= blockPeakLoop channelData j n max.
Proof.
  induction n as [| n IH]; intros j max k Hk; [lia |].
  cbn [blockPeakLoop].
  destruct (Nat.eq_dec k j) as [-> | Hne].
  - destruct (Qlt_le_dec max (Qabs (nth j channelData 0))) as [Hlt | Hle].
    + apply blockPeakLoop_ge_init.
    + eapply Qle_trans; [exact Hle | apply blockPeakLoop_ge_init].
  - apply IH. lia.
Qed.

Lemma blockPeakLoop_attained channelData n : forall j max,
  blockPeakLoop channelData j n max = max
  \/ exists k, (j <= k < j + n)%nat
       /\ blockPeakLoop channelData j n max = Qabs (nth k channelData 0).
Proof.
  induction n as [| n IH]; intros j max; [left; reflexivity |].
  cbn [blockPeakLoop].
  destruct (Qlt_le_dec max (Qabs (nth j channelData 0))) as [Hlt | Hle].
  - destruct (IH (S j) (Qabs (nth j channelData 0)))
      as [Heq | (k & Hk & Heq)].
    + right. exists j. split; [lia | exact Heq].
    + right. exists k. split; [lia | exact Heq].
  - destruct (IH (S j) max) as [Heq | (k & Hk & Heq)].
    + left. exact Heq.
    + right. exists k. split; [lia | exact Heq].
Qed.

Lemma blockPeakLoop_ext (a b : list Q) n : forall j max,
  (forall k, (j <= k < j + n)%nat -> nth k a 0 = nth k b 0) ->
  blockPeakLoop a j n max = blockPeakLoop b j n max.
Proof.
  induction n as [| n IH]; intros j max Hsame; [reflexivity |].
  cbn [blockPeakLoop]. rewrite (Hsame j) by lia.
  apply IH. intros k Hk. apply Hsame. lia.
Qed.

Lemma map_const_repeat {A B : Type} (c : B) (l : list A) :
  map (fun _ => c) l = repeat c (List.length l).
Proof. induction l as [| x l IH]; simpl; [reflexivity | now rewrite IH]. Qed.

(** **** X3.  [computeWaveformData] cuts channel 0 into [targetWidth] blocks
    of [floor(length / targetWidth)] samples and stores the peak absolute
    sample of each block.  The samples after the last block, fewer than
    [targetWidth] of them, are never read; in particular a channel with
    fewer samples than [targetWidth] gives a waveform of zeros, whatever
    it holds. *)
Theorem computeWaveformData_blocks (t : AudioTrack) (targetWidth : nat) :
  let channelData := channel0 (buffer t) in
  let samplesPerPixel := (List.length channelData / targetWidth)%nat in
  let out := computeWaveformData t targetWidth in
  List.length out = targetWidth
  /\ ((0 < targetWidth)%nat ->
      (List.length channelData - targetWidth * samplesPerPixel
       < targetWidth)%nat)
  /\ (forall i, (i < targetWidth)%nat ->
        (forall k,
           (i * samplesPerPixel <= k < (i + 1) * samplesPerPixel)%nat ->
           (k < List.length channelData)%nat
           /\ Qabs (nth k channelData 0) <= nth i out 0)
        /\ ((0 < samplesPerPixel)%nat ->
            exists k,
              (i * samplesPerPixel <= k < (i + 1) * samplesPerPixel)%nat
              /\ nth i out 0 == Qabs (nth k channelData 0)))
  /\ ((List.length channelData < targetWidth)%nat ->
      out = repeat 0 targetWidth)
  /\ (forall t',
        List.length (channel0 (buffer t')) = List.length channelData ->
        (forall k, (k < targetWidth * samplesPerPixel)%nat ->
           nth k (channel0 (buffer t')) 0 = nth k channelData 0) ->
        computeWaveformData t' targetWidth = out).
Proof.
  intros channelData samplesPerPixel out.
  assert (Hfit : (targetWidth * samplesPerPixel <= List.length channelData)%nat).
  { unfold samplesPerPixel. destruct targetWidth as [| w]; [simpl; lia |].
    apply Nat.Div0.mul_div_le. }
  assert (Hblock : forall i, (i < targetWidth)%nat ->
            Nat.min (i * samplesPerPixel + samplesPerPixel)
                    (List.length channelData)
            = ((i + 1) * samplesPerPixel)%nat).
  { intros i Hi.
    assert ((i + 1) * samplesPerPixel <= targetWidth * samplesPerPixel)%nat
      by (apply Nat.mul_le_mono_r; lia).
    lia. }
  assert (Hnth : forall i, (i < targetWidth)%nat ->
            nth i out 0
            = blockPeakLoop channelData (i * samplesPerPixel)
                ((i + 1) * samplesPerPixel - i * samplesPerPixel) 0).
  { intros i Hi. unfold out, computeWaveformData.
    rewrite nth_map_seq by exact Hi. fold channelData samplesPerPixel.
    now rewrite Hblock. }
  split; [| split; [| split; [| split]]].
  - unfold out, computeWaveformData. now rewrite length_map, length_seq.
  - intros Hw. unfold samplesPerPixel.
    pose proof (Nat.div_mod_eq (List.length channelData) targetWidth) as Hdm.
    pose proof (Nat.mod_upper_bound (List.length channelData) targetWidth
                  ltac:(lia)).
    lia.
  - intros i Hi. split.
    + intros k Hk.
      assert ((i + 1) * samplesPerPixel <= targetWidth * samplesPerPixel)%nat
        by (apply Nat.mul_le_mono_r; lia).
      split; [lia |]. rewrite Hnth by exact Hi.
      apply blockPeakLoop_upper. lia.
    + intros Hpos. rewrite Hnth by exact Hi.
      destruct (blockPeakLoop_attained channelData
                  ((i + 1) * samplesPerPixel - i * samplesPerPixel)
                  (i * samplesPerPixel) 0) as [Heq | (k & Hk & Heq)].
      * exists (i * samplesPerPixel)%nat. split; [lia |]. rewrite Heq.
        pose proof (blockPeakLoop_upper channelData
                      ((i + 1) * samplesPerPixel - i * samplesPerPixel)
                      (i * samplesPerPixel) 0 (i * samplesPerPixel)
                      ltac:(lia)) as Hup.
        rewrite Heq in Hup.
        pose proof (Qabs_nonneg (nth (i * samplesPerPixel) channelData 0)).
        lra.
      * exists k. split; [lia |]. now rewrite Heq.
  - intros Hshort.
    assert (Hz : samplesPerPixel = 0%nat)
      by (unfold samplesPerPixel; now apply Nat.div_small).
    unfold out, computeWaveformData. fold channelData samplesPerPixel.
    rewrite Hz.
    rewrite (map_ext _ (fun _ => 0)).
    + now rewrite map_const_repeat, length_seq.
    + intros i. now rewrite Nat.mul_0_r, Nat.add_0_r, Nat.sub_diag.
  - intros t' Hlen Hsame. unfold out, computeWaveformData.
    fold channelData samplesPerPixel. rewrite Hlen.
    fold channelData samplesPerPixel.
    apply map_ext_in. intros i Hi. apply in_seq in Hi.
    rewrite Hblock by lia.
    apply blockPeakLoop_ext. intros k Hk. apply Hsame.
    assert ((i + 1) * samplesPerPixel <= targetWidth * samplesPerPixel)%nat
      by (apply Nat.mul_le_mono_r; lia).
    lia.
Qed.

(** ** Track attributes *)

(** **** X4.  [setOpacity] stores the opacity clamped to [[0, 1]]: the
    stored value is always in that range, equals the argument when the
    argument is in range, is 0 for a negative and 1 for a larger argument;
    the audio buffer and the colour are untouched, so the waveform of the
    track is unchanged. *)
Theorem setOpacity_clamps (t : AudioTrack) (o : Q) :
  0 <= opacity (setOpacity t o) <= 1
  /\ (0 <= o <= 1 -> opacity (setOpacity t o) == o)
  /\ (o <= 0 -> opacity (setOpacity t o) == 0)
  /\ (1 <= o -> opacity (setOpacity t o) == 1)
  /\ buffer (setOpacity t o) = buffer t
  /\ color (setOpacity t o) = color t
  /\ (forall currentTime windowDuration targetWidth smoothingLevel,
        getWaveformDataForTimeWindow (setOpacity t o) currentTime
          windowDuration targetWidth smoothingLevel
        = getWaveformDataForTimeWindow t currentTime windowDuration
            targetWidth smoothingLevel).
Proof.
  cbn [setOpacity opacity buffer color].
  assert (Hmin : Qmin 1 o <= 1) by apply Q.le_min_l.
  assert (Hmin' : Qmin 1 o <= o) by apply Q.le_min_r.
  assert (Hmax : 0 <= Qmax 0 (Qmin 1 o)) by apply Q.le_max_l.
  assert (Hub : Qmax 0 (Qmin 1 o) <= 1) by (apply Q.max_lub; lra).
  repeat split; try assumption.
  - intros [H0 H1]. rewrite Q.min_r by exact H1. now apply Q.max_r.
  - intros H0. apply Q.max_l. lra.
  - intros H1. rewrite Q.min_l by exact H1. apply Q.max_r. lra.
Qed.

(** ** Further properties of the spectrum extractor *)

Section SpectrumFurther.
Local Open Scope R_scope.

Lemma hann_range (fftSize i : nat) : 0 <= hann fftSize i <= 1.
Proof.
  unfold hann.
  pose proof (COS_bound (2 * PI * INR i / (INR fftSize - 1))) as [Hlo Hhi].
  lra.
Qed.

Lemma hann_first (fftSize : nat) : hann fftSize 0 = 0.
Proof.
  unfold hann. simpl INR. replace (2 * PI * 0 / (INR fftSize - 1))
    with 0 by (unfold Rdiv; ring).
  rewrite cos_0. lra.
Qed.

Lemma hann_last (fftSize : nat) :
  (2 <= fftSize)%nat -> hann fftSize (fftSize - 1) = 0.
Proof.
  intros HN. unfold hann. rewrite minus_INR by lia. simpl INR.
  assert (Hne : INR fftSize - 1 <> 0).
  { assert (2 <= INR fftSize) by (change 2 with (INR 2); apply le_INR; lia).
    lra. }
  replace (2 * PI * (INR fftSize - 1) / (INR fftSize - 1)) with (2 * PI)
    by (field; exact Hne).
  rewrite cos_2PI. lra.
Qed.

Lemma hann_symmetric (fftSize i : nat) :
  (i < fftSize)%nat -> (2 <= fftSize)%nat ->
  hann fftSize (fftSize - 1 - i) = hann fftSize i.
Proof.
  intros Hi HN. unfold hann. f_equal. f_equal.
  rewrite !minus_INR by lia. simpl INR.
  assert (Hne : INR fftSize - 1 <> 0).
  { assert (2 <= INR fftSize) by (change 2 with (INR 2); apply le_INR; lia).
    lra. }
  replace (2 * PI * (INR fftSize - 1 - INR i) / (INR fftSize - 1))
    with (- (2 * PI * INR i / (INR fftSize - 1)) + 2 * INR 1 * PI)
    by (simpl INR; field; exact Hne).
  rewrite cos_period. apply cos_neg.
Qed.

(** **** X5.  The Hann coefficients lie in [[0, 1]], are symmetric about the
    middle of the window, and vanish at both ends: whatever the first and
    the last of the [fftSize] picked samples are, the windowed signal, and
    so the spectrum, is the same. *)
Theorem hann_window_shape (fftSize : nat) :
  (2 <= fftSize)%nat ->
  (forall i, 0 <= hann fftSize i <= 1)
  /\ (forall i, (i < fftSize)%nat ->
        hann fftSize (fftSize - 1 - i) = hann fftSize i)
  /\ hann fftSize 0 = 0
  /\ hann fftSize (fftSize - 1) = 0
  /\ (forall a b : list R,
        (forall i, (0 < i < fftSize - 1)%nat -> nth i a 0 = nth i b 0) ->
        applyHann a fftSize = applyHann b fftSize).
Proof.
  intros HN. split; [| split; [| split; [| split]]].
  - intros i. apply hann_range.
  - intros i Hi. now apply hann_symmetric.
  - apply hann_first.
  - now apply hann_last.
  - intros a b Hsame. unfold applyHann. apply map_ext_in. intros i Hi.
    apply in_seq in Hi.
    destruct (Nat.eq_dec i 0) as [-> | Hne0];
      [rewrite hann_first; ring |].
    destruct (Nat.eq_dec i (fftSize - 1)) as [-> | Hne1];
      [rewrite hann_last by exact HN; ring |].
    rewrite Hsame by lia. reflexivity.
Qed.

Lemma hann_window_shape_witness :
  hann 4 0 = 0 /\ hann 4 3 = 0
  /\ applyHann [5; 1; 2; 7] 4 = applyHann [0; 1; 2; 0] 4.
Proof.
  destruct (hann_window_shape 4 ltac:(lia)) as (_ & _ & H0 & H3 & Hends).
  split; [exact H0 | split; [exact H3 |]].
  apply Hends. intros i Hi.
  assert (Hcases : i = 1%nat \/ i = 2%nat) by lia.
  destruct Hcases as [-> | ->]; reflexivity.
Defined.

End SpectrumFurther.

Section SpectrumScaling.
Local Open Scope R_scope.

Lemma nth_map_Rmult (c : R) (l : list R) (k : nat) :
  nth k (map (Rmult c) l) 0 = c * nth k l 0.
Proof.
  rewrite <- (Rmult_0_r c) at 1. apply (map_nth (Rmult c)).
Qed.

Lemma map_Rmult_flat_pairs (c : R) (a b : nat -> R) (n : nat) :
  map (Rmult c) (flat_map (fun k => [a k; b k]) (seq 0 n))
  = flat_map (fun k => [c * a k; c * b k]) (seq 0 n).
Proof.
  generalize 0%nat. induction n as [| n IH]; intros s; [reflexivity |].
  cbn [seq flat_map app map]. now rewrite IH.
Qed.

Lemma flat_pairs_ext (a b a' b' : nat -> R) (n : nat) :
  (forall k, (k < n)%nat -> a k = a' k /\ b k = b' k) ->
  flat_map (fun k => [a k; b k]) (seq 0 n)
  = flat_map (fun k => [a' k; b' k]) (seq 0 n).
Proof.
  intros H.
  assert (G : forall l, (forall k, In k l -> (k < n)%nat) ->
            flat_map (fun k => [a k; b k]) l
            = flat_map (fun k => [a' k; b' k]) l).
  { induction l as [| k l IH]; intros Hl; [reflexivity |].
    cbn [flat_map]. destruct (H k (Hl k (or_introl eq_refl))) as [-> ->].
    rewrite IH; [reflexivity |]. intros j Hj. apply Hl. now right. }
  apply G. intros k Hk. apply in_seq in Hk. lia.
Qed.

Lemma butterfly_scale (c : R) (N : nat) (evenFFT oddFFT : list R) :
  butterfly N (map (Rmult c) evenFFT) (map (Rmult c) oddFFT)
  = map (Rmult c) (butterfly N evenFFT oddFFT).
Proof.
  unfold butterfly. rewrite map_app, !map_Rmult_flat_pairs.
  f_equal; apply flat_pairs_ext; intros k _; rewrite !nth_map_Rmult;
    split; ring.
Qed.

Lemma evenSamples_scale (c : R) (input : list R) :
  evenSamples (map (Rmult c) input) = map (Rmult c) (evenSamples input).
Proof.
  unfold evenSamples. rewrite length_map, map_map.
  apply map_ext. intros i. apply nth_map_Rmult.
Qed.

Lemma oddSamples_scale (c : R) (input : list R) :
  oddSamples (map (Rmult c) input) = map (Rmult c) (oddSamples input).
Proof.
  unfold oddSamples. rewrite length_map, map_map.
  apply map_ext. intros i. apply nth_map_Rmult.
Qed.

(** The transform is homogeneous, whatever the length of its input. *)
Lemma fft_scale (c : R) : forall n input,
  (List.length input <= n)%nat ->
  fft (map (Rmult c) input) = map (Rmult c) (fft input).
Proof.
  induction n as [| n IH]; intros input Hn.
  - rewrite !fft_base by (try rewrite length_map; lia).
    cbn [map]. rewrite nth_map_Rmult, Rmult_0_r. reflexivity.
  - destruct (le_lt_dec (List.length input) 1) as [Hsmall | Hbig].
    + rewrite !fft_base by (try rewrite length_map; lia).
      cbn [map]. rewrite nth_map_Rmult, Rmult_0_r. reflexivity.
    + rewrite (fft_step input) by exact Hbig.
      rewrite (fft_step (map (Rmult c) input)) by (rewrite length_map; lia).
      rewrite length_map, evenSamples_scale, oddSamples_scale.
      assert (Hhalf : (List.length input / 2 <= n)%nat).
      { assert (List.length input / 2 < List.length input)%nat
          by (apply Nat.div_lt; lia). lia. }
      rewrite (IH (evenSamples input))
        by (rewrite evenSamples_length; exact Hhalf).
      rewrite (IH (oddSamples input))
        by (rewrite oddSamples_length; exact Hhalf).
      apply butterfly_scale.
Qed.

Lemma magnitudeSpectrum_scale (c : R) (spectrum : list R) (fftSize : nat) :
  magnitudeSpectrum (map (Rmult c) spectrum) fftSize
  = map (Rmult (Rabs c)) (magnitudeSpectrum spectrum fftSize).
Proof.
  unfold magnitudeSpectrum. rewrite map_map. apply map_ext. intros i.
  rewrite !nth_map_Rmult.
  replace (c * nth (i * 2) spectrum 0 * (c * nth (i * 2) spectrum 0)
           + c * nth (i * 2 + 1) spectrum 0
             * (c * nth (i * 2 + 1) spectrum 0))
    with (Rsqr c
          * (nth (i * 2) spectrum 0 * nth (i * 2) spectrum 0
             + nth (i * 2 + 1) spectrum 0 * nth (i * 2 + 1) spectrum 0))
    by (unfold Rsqr; ring).
  rewrite sqrt_mult_alt by apply Rle_0_sqr.
  now rewrite sqrt_Rsqr_abs.
Qed.

Lemma applyHann_scale (c : R) (audioWindow : list R) (fftSize : nat) :
  applyHann (map (Rmult c) audioWindow) fftSize
  = map (Rmult c) (applyHann audioWindow fftSize).
Proof.
  unfold applyHann. rewrite map_map. apply map_ext. intros i.
  rewrite nth_map_Rmult. ring.
Qed.

Lemma Q2R_nth_scale (c : Q) (l : list Q) (k : nat) :
  Q2R (nth k (map (Qmult c) l) 0%Q) = Q2R c * Q2R (nth k l 0%Q).
Proof.
  destruct (Nat.lt_ge_cases k (List.length l)) as [Hlt | Hge].
  - rewrite (nth_indep _ 0%Q (c * 0)%Q) by (now rewrite length_map).
    rewrite (map_nth (Qmult c)). apply Qreals.Q2R_mult.
  - rewrite !nth_overflow by (try rewrite length_map; lia).
    rewrite RMicromega.Q2R_0. ring.
Qed.

Lemma resampleWindow_scale (c : Q) (channelData : list Q)
    (startSample endSample : Z) (fftSize : nat) :
  resampleWindow (map (Qmult c) channelData) startSample endSample fftSize
  = map (Rmult (Q2R c))
      (resampleWindow channelData startSample endSample fftSize).
Proof.
  unfold resampleWindow. rewrite map_map, length_map.
  apply map_ext. intros i. cbv zeta.
  match goal with
  | |- context [(?idx <? Z.of_nat (List.length channelData))%Z] =>
      destruct (idx <? Z.of_nat (List.length channelData))%Z
  end.
  - unfold sampleAt. apply Q2R_nth_scale.
  - ring.
Qed.

End SpectrumScaling.

(** **** X6.  The spectrum is homogeneous: a track whose first channel is
    that of another track with every sample multiplied by [c] (same length,
    rate and duration) has, at every time and for every FFT size that is a
    power of two (the sizes at which [fft] above is the source's [fft]),
    the spectrum of the other track multiplied by [|c|]. *)
Theorem spectrum_scales_with_signal (t t' : AudioTrack) (c : Q)
    (currentTime windowDuration : Q) (m : nat) :
  let fftSize := (2 ^ m)%nat in
  duration (buffer t') = duration (buffer t) ->
  sampleRate (buffer t') = sampleRate (buffer t) ->
  channel0 (buffer t') = map (Qmult c) (channel0 (buffer t)) ->
  getFrequencySpectrumForTimeWindow t' currentTime windowDuration fftSize
  = map (Rmult (Rabs (Q2R c)))
      (getFrequencySpectrumForTimeWindow t currentTime windowDuration
         fftSize).
Proof.
  intros fftSize Hd Hr Hc.
  assert (Hw : spectrumSampleWindow t' currentTime windowDuration
               = spectrumSampleWindow t currentTime windowDuration)
    by (unfold spectrumSampleWindow; now rewrite Hd, Hr, Hc, length_map).
  unfold getFrequencySpectrumForTimeWindow. rewrite Hw, Hc.
  destruct (spectrumSampleWindow t currentTime windowDuration)
    as [startSample endSample].
  destruct (endSample - startSample <? Z.of_nat fftSize)%Z.
  - rewrite map_repeat. now rewrite Rmult_0_r.
  - rewrite resampleWindow_scale, applyHann_scale.
    rewrite (fft_scale _ _ _ (Nat.le_refl _)).
    apply magnitudeSpectrum_scale.
Qed.

Lemma spectrum_scales_with_signal_witness :
  getFrequencySpectrumForTimeWindow
    (mkAudioTrack
       (mkAudioBuffer (3 # 2) 4 (map (Qmult (-2)) [1; -3; 2; 5; -1; 0]) [])
       "#ffffff" 1)
    (1 # 2) 1 4
  = map (Rmult (Rabs (Q2R (-2))))
      (getFrequencySpectrumForTimeWindow demoTrack (1 # 2) 1 4).
Proof.
  apply (spectrum_scales_with_signal _ _ _ _ _ 2); reflexivity.
Defined.


(* ================================================================== *)
(** * Further properties of the exporter *)
(* ================================================================== *)

Section FrameDriverProgress.
Variables Canvas DataURL : Type.
Variable renderAt : Canvas -> Q -> Canvas.
Variable captureFrameAsDataURL : Canvas -> DataURL.
Variables (fps : Q) (totalFrames : Z) (initial : Canvas).



Lemma run_nothing :
  fold_left (captureStep Canvas DataURL renderAt captureFrameAsDataURL
               fps totalFrames)
    (seq 0 0) (mkExportState Canvas DataURL initial [] [])
  = mkExportState Canvas DataURL initial [] [].
Proof. reflexivity. Qed.

End FrameDriverProgress.




(* ================================================================== *)
(** * Properties of the WAV writers *)
(* ================================================================== *)

(** ** Bytes *)

Lemma land_255 (v : Z) : Z.land v 255 = (v mod 256)%Z.
Proof. exact (Z.land_ones v 8 ltac:(lia)). Qed.

Lemma bytesLE_length (width : nat) (v : Z) :
  List.length (bytesLE width v) = width.
Proof. unfold bytesLE. now rewrite length_map, length_seq. Qed.

Lemma bytesLE_isByte (width : nat) (v : Z) : Forall isByte (bytesLE width v).
Proof.
  unfold bytesLE. apply Forall_forall. intros b Hb.
  apply in_map_iff in Hb. destruct Hb as (k & <- & _).
  rewrite land_255. unfold isByte. apply Z.mod_pos_bound. lia.
Qed.

Lemma bytesLE_1 (v : Z) : bytesLE 1 v = [(v mod 256)%Z].
Proof.
  unfold bytesLE. cbn [seq map]. change (8 * Z.of_nat 0)%Z with 0%Z.
  now rewrite land_255, Z.shiftr_0_r.
Qed.

Lemma bytesLE_2 (v : Z) : bytesLE 2 v = [(v mod 256)%Z; (v / 256 mod 256)%Z].
Proof.
  unfold bytesLE. cbn [seq map]. change (8 * Z.of_nat 0)%Z with 0%Z.
  change (8 * Z.of_nat 1)%Z with 8%Z. rewrite !land_255, Z.shiftr_0_r.
  now rewrite (Z.shiftr_div_pow2 v 8) by lia.
Qed.

Lemma bytesLE_4 (v : Z) :
  bytesLE 4 v
  = [(v mod 256)%Z; (v / 256 mod 256)%Z; (v / 65536 mod 256)%Z;
     (v / 16777216 mod 256)%Z].
Proof.
  unfold bytesLE. cbn [seq map]. change (8 * Z.of_nat 0)%Z with 0%Z.
  change (8 * Z.of_nat 1)%Z with 8%Z. change (8 * Z.of_nat 2)%Z with 16%Z.
  change (8 * Z.of_nat 3)%Z with 24%Z. rewrite !land_255, Z.shiftr_0_r.
  rewrite (Z.shiftr_div_pow2 v 8), (Z.shiftr_div_pow2 v 16),
    (Z.shiftr_div_pow2 v 24) by lia.
  reflexivity.
Qed.

(** Reading back what was written: an unsigned field holds the value modulo
    its width, a signed 16-bit field holds every value of its range. *)
Lemma readUIntLE_bytesLE_2 (v : Z) (rest : list Z) :
  readUIntLE (bytesLE 2 v ++ rest) 0 2 = (v mod 65536)%Z.
Proof.
  rewrite bytesLE_2. unfold readUIntLE. cbn [skipn firstn app fold_right].
  Z.div_mod_to_equations. lia.
Qed.

Lemma readUIntLE_bytesLE_4 (v : Z) (rest : list Z) :
  readUIntLE (bytesLE 4 v ++ rest) 0 4 = (v mod 4294967296)%Z.
Proof.
  rewrite bytesLE_4. unfold readUIntLE. cbn [skipn firstn app fold_right].
  Z.div_mod_to_equations. lia.
Qed.

Lemma readInt16LE_bytesLE (v : Z) (rest : list Z) :
  (-32768 <= v <= 32767)%Z ->
  readInt16LE (bytesLE 2 v ++ rest) 0 = v.
Proof.
  intros Hv. unfold readInt16LE. rewrite readUIntLE_bytesLE_2.
  destruct (v mod 65536 <? 32768)%Z eqn:Hlt;
    [apply Z.ltb_lt in Hlt | apply Z.ltb_ge in Hlt];
    Z.div_mod_to_equations; lia.
Qed.

Lemma readUIntLE_skip (pre bytes : list Z) (offset width : nat) :
  readUIntLE (pre ++ bytes) (List.length pre + offset) width
  = readUIntLE bytes offset width.
Proof.
  unfold readUIntLE. rewrite skipn_app.
  rewrite skipn_all2 by lia.
  replace (List.length pre + offset - List.length pre)%nat with offset by lia.
  reflexivity.
Qed.

Lemma readInt16LE_skip (pre bytes : list Z) (offset : nat) :
  readInt16LE (pre ++ bytes) (List.length pre + offset)
  = readInt16LE bytes offset.
Proof. unfold readInt16LE. now rewrite readUIntLE_skip. Qed.


(** ** Writes into a buffer that is zero from the write position on *)

Lemma writeAt_fill (w bytes : list Z) (r : nat) (buffer : list Z)
    (offset : nat) :
  buffer = w ++ repeat 0%Z (List.length bytes + r) ->
  offset = List.length w ->
  writeAt buffer offset bytes = Some ((w ++ bytes) ++ repeat 0%Z r).
Proof.
  intros -> ->. unfold writeAt.
  rewrite length_app, repeat_length.
  replace (List.length w + List.length bytes
           <=? List.length w + (List.length bytes + r))%nat with true
    by (symmetry; apply Nat.leb_le; lia).
  rewrite firstn_app, firstn_all, Nat.sub_diag, firstn_O, app_nil_r.
  rewrite skipn_app, skipn_all2 by lia.
  replace (List.length w + List.length bytes - List.length w)%nat
    with (List.length bytes) by lia.
  rewrite repeat_app, skipn_app, skipn_all2
    by (rewrite repeat_length; lia).
  rewrite repeat_length, Nat.sub_diag. cbn [skipn app].
  now rewrite <- app_assoc.
Qed.

Lemma truncate_Z (z : Z) : truncate (inject_Z z) = z.
Proof.
  unfold truncate.
  destruct (Qlt_le_dec (inject_Z z) 0); [apply Qceiling_Z | apply Qfloor_Z].
Qed.

Lemma truncate_comp (x y : Q) : x == y -> truncate x = truncate y.
Proof.
  intros H. unfold truncate.
  destruct (Qlt_le_dec x 0), (Qlt_le_dec y 0); try lra;
    [now apply Qceiling_comp | now apply Qfloor_comp].
Qed.

Lemma truncate_nonneg (x : Q) : 0 <= x -> truncate x = Qfloor x.
Proof.
  intros H. unfold truncate. destruct (Qlt_le_dec x 0); [lra | reflexivity].
Qed.

Section NodeBufferFill.
Variables (w : list Z) (r : nat) (buffer : list Z) (offset : nat).

Lemma write_fill (s : string) :
  buffer = w ++ repeat 0%Z (String.length s + r) ->
  offset = List.length w ->
  NodeBuffer.write buffer s offset
  = Some ((w ++ charCodes s) ++ repeat 0%Z r).
Proof.
  intros Hb Hoffset. unfold NodeBuffer.write.
  assert (Hlen : List.length (charCodes s) = String.length s).
  { unfold charCodes. rewrite length_map.
    clear. induction s as [| c s IH]; [reflexivity | cbn; now rewrite IH]. }
  assert (Htotal : List.length buffer
                   = (List.length w + (String.length s + r))%nat)
    by (rewrite Hb, length_app, repeat_length; reflexivity).
  replace (offset <=? List.length buffer)%nat with true
    by (symmetry; apply Nat.leb_le; lia).
  rewrite firstn_all2 by lia.
  apply writeAt_fill; [now rewrite Hlen | exact Hoffset].
Qed.

Lemma writeUInt32LE_fill (value : Q) :
  buffer = w ++ repeat 0%Z (4 + r) ->
  offset = List.length w ->
  0 <= value <= 4294967295 ->
  NodeBuffer.writeUInt32LE buffer value offset
  = Some ((w ++ bytesLE 4 (truncate value)) ++ repeat 0%Z r).
Proof.
  intros Hb Hoffset Hv. unfold NodeBuffer.writeUInt32LE.
  destruct (Qlt_le_dec value 0); [lra |].
  destruct (Qlt_le_dec 4294967295 value); [lra |].
  apply writeAt_fill; [exact Hb | exact Hoffset].
Qed.

Lemma writeUInt16LE_fill (value : Q) :
  buffer = w ++ repeat 0%Z (2 + r) ->
  offset = List.length w ->
  0 <= value <= 65535 ->
  NodeBuffer.writeUInt16LE buffer value offset
  = Some ((w ++ bytesLE 2 (truncate value)) ++ repeat 0%Z r).
Proof.
  intros Hb Hoffset Hv. unfold NodeBuffer.writeUInt16LE.
  destruct (Qlt_le_dec value 0); [lra |].
  destruct (Qlt_le_dec 65535 value); [lra |].
  apply writeAt_fill; [exact Hb | exact Hoffset].
Qed.

Lemma writeInt16LE_fill (value : Z) :
  buffer = w ++ repeat 0%Z (2 + r) ->
  offset = List.length w ->
  (-32768 <= value <= 32767)%Z ->
  NodeBuffer.writeInt16LE buffer (inject_Z value) offset
  = Some ((w ++ bytesLE 2 value) ++ repeat 0%Z r).
Proof.
  intros Hb Hoffset [Hlo Hhi]. unfold NodeBuffer.writeInt16LE.
  rewrite Zle_Qle in Hlo, Hhi.
  destruct (Qlt_le_dec (inject_Z value) (-32768));
    [change (-32768) with (inject_Z (-32768)) in *; lra |].
  destruct (Qlt_le_dec 32767 (inject_Z value));
    [change 32767 with (inject_Z 32767) in *; lra |].
  rewrite truncate_Z.
  apply writeAt_fill; [exact Hb | exact Hoffset].
Qed.

End NodeBufferFill.

(** ** The values stored for a sample *)

Lemma clamp_range (x : Q) : -1 <= Qmax (-1) (Qmin 1 x) <= 1.
Proof.
  split; [apply Q.le_max_l |].
  apply Q.max_lub; [lra | apply Q.le_min_l].
Qed.


Lemma cliSample_range (x : Q) : (-32767 <= cliSample x <= 32767)%Z.
Proof.
  unfold cliSample, Math_round. destruct (clamp_range x) as [Hlo Hhi].
  set (c := Qmax (-1) (Qmin 1 x)) in *.
  assert (Hl : (Qfloor (-32767) <= Qfloor (c * 32767 + (1 # 2)))%Z)
    by (apply Qfloor_resp_le; lra).
  assert (Hu : (Qfloor (c * 32767 + (1 # 2)) <= Qfloor (32767 + (1 # 2)))%Z)
    by (apply Qfloor_resp_le; lra).
  split; [exact Hl | exact Hu].
Qed.



(** ** The CLI writer, [encodeWAV] *)

Section EncodeWAV.
Import CLIAudioEngine.

Lemma writeFrame_fill (mixed : Mix) (w : list Z) (r i : nat) :
  writeFrame mixed (Some (w ++ repeat 0%Z (4 + r), List.length w)) i
  = Some ((w ++ bytesLE 2 (cliSample (nth i (left mixed) 0))
             ++ bytesLE 2 (cliSample (nth i (right mixed) 0)))
          ++ repeat 0%Z r,
          (List.length w + 4)%nat).
Proof.
  unfold writeFrame. cbn [bind].
  fold (cliSample (nth i (left mixed) 0)).
  fold (cliSample (nth i (right mixed) 0)).
  rewrite (writeInt16LE_fill w (2 + r)); try reflexivity.
  2: { pose proof (cliSample_range (nth i (left mixed) 0)). lia. }
  cbn [bind].
  rewrite (writeInt16LE_fill
             (w ++ bytesLE 2 (cliSample (nth i (left mixed) 0))) r);
    try reflexivity.
  2: { rewrite length_app, bytesLE_length. reflexivity. }
  2: { pose proof (cliSample_range (nth i (right mixed) 0)). lia. }
  cbn [bind]. rewrite <- !app_assoc.
  do 2 f_equal. lia.
Qed.

Lemma writeFrames_fill (mixed : Mix) (r : nat) : forall k s w,
  fold_left (writeFrame mixed) (seq s k)
    (Some (w ++ repeat 0%Z (k * 4 + r), List.length w))
  = Some ((w ++ flat_map
                  (fun i =>
                     bytesLE 2 (cliSample (nth i (left mixed) 0))
                     ++ bytesLE 2 (cliSample (nth i (right mixed) 0)))
                  (seq s k))
          ++ repeat 0%Z r,
          (List.length w + k * 4)%nat).
Proof.
  induction k as [| k IH]; intros s w.
  - cbn [seq fold_left flat_map Nat.mul Nat.add]. rewrite app_nil_r.
    do 2 f_equal. lia.
  - cbn [seq fold_left flat_map].
    change (S k * 4 + r)%nat with (4 + (k * 4 + r))%nat.
    rewrite writeFrame_fill.
    replace (List.length w + 4)%nat
      with (List.length
              (w ++ bytesLE 2 (cliSample (nth s (left mixed) 0))
                 ++ bytesLE 2 (cliSample (nth s (right mixed) 0))))
      by (rewrite !length_app, !bytesLE_length; lia).
    rewrite IH. rewrite !length_app, !bytesLE_length.
    rewrite <- !app_assoc. do 2 f_equal. lia.
Qed.

End EncodeWAV.


Section EncodeWAVBytes.
Import CLIAudioEngine.

Lemma ofNat_Z (n : nat) : ofNat n = inject_Z (Z.of_nat n).
Proof. reflexivity. Qed.

(** The bytes [encodeWAV] returns when no field of the header is out of
    range. *)
Lemma encodeWAV_bytes (mixed : Mix) :
  let n := List.length (left mixed) in
  0 <= mixSampleRate mixed ->
  mixSampleRate mixed * 4 <= 4294967295 ->
  (36 + 4 * Z.of_nat n <= 4294967295)%Z ->
  encodeWAV mixed
  = Some (wavHeader (36 + 4 * Z.of_nat n) 2
            (Qfloor (mixSampleRate mixed))
            (Qfloor (mixSampleRate mixed * 4)) 4 (4 * Z.of_nat n)
          ++ flat_map
               (fun i =>
                  bytesLE 2 (cliSample (nth i (left mixed) 0))
                  ++ bytesLE 2 (cliSample (nth i (right mixed) 0)))
               (seq 0 n)).
Proof.
  intros n Hrate Hbyte Hsize.
  unfold encodeWAV. fold n. cbv zeta.
  change (16 / 8)%nat with 2%nat. change (2 * 2)%nat with 4%nat.
  unfold alloc.
  assert (Hn4 : ofNat (n * 4) == inject_Z (4 * Z.of_nat n)).
  { unfold ofNat. rewrite Nat2Z.inj_mul. now rewrite Z.mul_comm. }
  assert (Hfile : ofNat (44 + n * 4) - 8 == inject_Z (36 + 4 * Z.of_nat n)).
  { unfold ofNat. rewrite Nat2Z.inj_add, Nat2Z.inj_mul, !inject_Z_plus.
    rewrite (Z.mul_comm 4). change (inject_Z (Z.of_nat 44)) with 44.
    change (inject_Z 36) with 36. change (Z.of_nat 4) with 4%Z. lra. }
  assert (Hn0 : 0 <= inject_Z (4 * Z.of_nat n))
    by (change 0 with (inject_Z 0); rewrite <- Zle_Qle; lia).
  assert (Hsize' : inject_Z (36 + 4 * Z.of_nat n) <= 4294967295)
    by (change 4294967295 with (inject_Z 4294967295);
        now rewrite <- Zle_Qle).
  assert (Hn36 : inject_Z (36 + 4 * Z.of_nat n)
                 == 36 + inject_Z (4 * Z.of_nat n))
    by (now rewrite inject_Z_plus).
  erewrite (write_fill [] (40 + n * 4)); [| reflexivity | reflexivity].
  cbn [bind].
  erewrite (writeUInt32LE_fill _ (36 + n * 4));
    [| reflexivity | reflexivity | lra].
  cbn [bind].
  erewrite (write_fill _ (32 + n * 4)); [| reflexivity | reflexivity].
  cbn [bind].
  erewrite (write_fill _ (28 + n * 4)); [| reflexivity | reflexivity].
  cbn [bind].
  erewrite (writeUInt32LE_fill _ (24 + n * 4));
    [| reflexivity | reflexivity | lra].
  cbn [bind].
  erewrite (writeUInt16LE_fill _ (22 + n * 4));
    [| reflexivity | reflexivity | lra].
  cbn [bind].
  erewrite (writeUInt16LE_fill _ (20 + n * 4));
    [| reflexivity | reflexivity | change (ofNat 2) with 2; lra].
  cbn [bind].
  erewrite (writeUInt32LE_fill _ (16 + n * 4));
    [| reflexivity | reflexivity | lra].
  cbn [bind].
  erewrite (writeUInt32LE_fill _ (12 + n * 4));
    [| reflexivity | reflexivity | change (ofNat 4) with 4; lra].
  cbn [bind].
  erewrite (writeUInt16LE_fill _ (10 + n * 4));
    [| reflexivity | reflexivity | change (ofNat 4) with 4; lra].
  cbn [bind].
  erewrite (writeUInt16LE_fill _ (8 + n * 4));
    [| reflexivity | reflexivity | change (ofNat 16) with 16; lra].
  cbn [bind].
  erewrite (write_fill _ (4 + n * 4)); [| reflexivity | reflexivity].
  cbn [bind].
  erewrite (writeUInt32LE_fill _ (n * 4));
    [| reflexivity | reflexivity | lra].
  cbn [bind].
  match goal with
  | |- context [Some (?w ++ repeat 0%Z (n * 4), ?o)] =>
      replace (Some (w ++ repeat 0%Z (n * 4), o))
        with (Some (w ++ repeat 0%Z (n * 4 + 0), List.length w))
        by (rewrite Nat.add_0_r; reflexivity)
  end.
  rewrite writeFrames_fill. cbn [bind fst].
  rewrite app_nil_r.
  rewrite (truncate_comp _ _ Hfile), (truncate_comp _ _ Hn4), !truncate_Z.
  change (truncate 16) with 16%Z. change (truncate 1) with 1%Z.
  change (truncate (ofNat 2)) with 2%Z.
  change (truncate (ofNat 4)) with 4%Z.
  change (truncate (ofNat 16)) with 16%Z.
  change (ofNat 4) with 4.
  rewrite (truncate_nonneg (mixSampleRate mixed)) by exact Hrate.
  rewrite (truncate_nonneg (mixSampleRate mixed * 4)) by lra.
  unfold wavHeader. cbn [app]. rewrite <- !app_assoc. reflexivity.
Qed.

End EncodeWAVBytes.


(** ** Reading the samples back *)

Lemma readUIntLE_skipn (bytes : list Z) (a b width : nat) :
  readUIntLE bytes (a + b) width = readUIntLE (skipn a bytes) b width.
Proof.
  unfold readUIntLE. rewrite skipn_skipn. now rewrite Nat.add_comm.
Qed.

Lemma readInt16LE_skipn (bytes : list Z) (a b : nat) :
  readInt16LE bytes (a + b) = readInt16LE (skipn a bytes) b.
Proof. unfold readInt16LE. now rewrite readUIntLE_skipn. Qed.

Lemma skipn_cells (rest : list Z) : forall (vals : list Z) (k : nat),
  (k <= List.length vals)%nat ->
  skipn (2 * k) (flat_map (bytesLE 2) vals ++ rest)
  = flat_map (bytesLE 2) (skipn k vals) ++ rest.
Proof.
  induction vals as [| v vals IH]; intros k Hk.
  - cbn [List.length] in Hk. replace k with 0%nat by lia. reflexivity.
  - destruct k as [| k]; [reflexivity |].
    replace (2 * S k)%nat with (S (S (2 * k))) by lia.
    cbn [flat_map]. rewrite bytesLE_2. cbn [app skipn].
    apply IH. cbn [List.length] in Hk. lia.
Qed.

Lemma skipn_nth_cons (vals : list Z) : forall k,
  (k < List.length vals)%nat ->
  skipn k vals = nth k vals 0%Z :: skipn (S k) vals.
Proof.
  induction vals as [| v vals IH]; intros k Hk;
    [cbn [List.length] in Hk; lia |].
  destruct k as [| k]; [reflexivity |].
  cbn [skipn nth]. cbn [List.length] in Hk.
  rewrite (IH k) by lia. reflexivity.
Qed.

(** A sequence of 16-bit values in range, written one after the other, is
    read back value by value. *)
Lemma readInt16LE_cell (pre vals rest : list Z) (k : nat) :
  (k < List.length vals)%nat ->
  (-32768 <= nth k vals 0 <= 32767)%Z ->
  readInt16LE (pre ++ flat_map (bytesLE 2) vals ++ rest)
    (List.length pre + 2 * k)
  = nth k vals 0%Z.
Proof.
  intros Hk Hv. rewrite readInt16LE_skip.
  replace (2 * k)%nat with (2 * k + 0)%nat by lia.
  rewrite readInt16LE_skipn, skipn_cells by lia.
  rewrite (skipn_nth_cons vals k Hk). cbn [flat_map].
  rewrite <- app_assoc. now apply readInt16LE_bytesLE.
Qed.

Lemma flat_map_length_blocks {A B : Type} (g : B -> list A) (c : nat) :
  (forall i, List.length (g i) = c) ->
  forall l, List.length (flat_map g l) = (List.length l * c)%nat.
Proof.
  intros Hg. induction l as [| i l IH]; [reflexivity |].
  cbn [flat_map List.length]. rewrite length_app, Hg, IH. lia.
Qed.

(** Element [j] of block [i] of a list made of blocks of [c] elements. *)
Lemma nth_flat_map_blocks {A : Type} (g : nat -> list A) (c : nat) (d : A) :
  (forall i, List.length (g i) = c) ->
  forall n s i j, (i < n)%nat -> (j < c)%nat ->
    nth (i * c + j) (flat_map g (seq s n)) d = nth j (g (s + i)%nat) d.
Proof.
  intros Hg. induction n as [| n IH]; intros s i j Hi Hj; [lia |].
  cbn [seq flat_map]. destruct i as [| i].
  - cbn [Nat.mul Nat.add]. rewrite app_nth1 by (rewrite Hg; exact Hj).
    now rewrite Nat.add_0_r.
  - rewrite app_nth2 by (rewrite Hg; cbn [Nat.mul]; lia).
    rewrite Hg. replace (S i * c + j - c)%nat with (i * c + j)%nat
      by (cbn [Nat.mul]; lia).
    rewrite IH by lia. f_equal. f_equal. lia.
Qed.

Lemma flat_map_cells {A : Type} (g : A -> list Z) (l : list A) :
  flat_map (bytesLE 2) (flat_map g l)
  = flat_map (fun x => flat_map (bytesLE 2) (g x)) l.
Proof.
  induction l as [| x l IH]; [reflexivity |].
  cbn [flat_map]. now rewrite flat_map_app, IH.
Qed.

Lemma Forall_flat_map_isByte {A : Type} (g : A -> list Z) (l : list A) :
  (forall x, Forall isByte (g x)) -> Forall isByte (flat_map g l).
Proof.
  intros Hg. induction l as [| x l IH]; [constructor |].
  cbn [flat_map]. apply Forall_app. split; [apply Hg | exact IH].
Qed.

(** ** The header *)

Lemma charCodes_isByte (s : string) : Forall isByte (charCodes s).
Proof.
  unfold charCodes. apply Forall_forall. intros b Hb.
  apply in_map_iff in Hb. destruct Hb as (c & <- & _).
  pose proof (Ascii.nat_ascii_bounded c). unfold isByte. lia.
Qed.

Lemma wavHeader_length (riffSize channels rate byteRate blockAlign
    dataSize : Z) :
  List.length
    (wavHeader riffSize channels rate byteRate blockAlign dataSize)
  = 44%nat.
Proof. reflexivity. Qed.

Lemma wavHeader_isByte (riffSize channels rate byteRate blockAlign
    dataSize : Z) :
  Forall isByte
    (wavHeader riffSize channels rate byteRate blockAlign dataSize).
Proof.
  unfold wavHeader.
  repeat (apply Forall_app; split);
    first [apply charCodes_isByte | apply bytesLE_isByte].
Qed.

(** The fields of the header, read back at their offsets. *)
Lemma wavHeader_fields (riffSize channels rate byteRate blockAlign
    dataSize : Z) (rest : list Z) :
  let bytes :=
    wavHeader riffSize channels rate byteRate blockAlign dataSize ++ rest in
  firstn 4 bytes = charCodes "RIFF"
  /\ readUIntLE bytes 4 4 = (riffSize mod 4294967296)%Z
  /\ firstn 8 (skipn 8 bytes) = charCodes "WAVEfmt "
  /\ readUIntLE bytes 16 4 = 16%Z
  /\ readUIntLE bytes 20 2 = 1%Z
  /\ readUIntLE bytes 22 2 = (channels mod 65536)%Z
  /\ readUIntLE bytes 24 4 = (rate mod 4294967296)%Z
  /\ readUIntLE bytes 28 4 = (byteRate mod 4294967296)%Z
  /\ readUIntLE bytes 32 2 = (blockAlign mod 65536)%Z
  /\ readUIntLE bytes 34 2 = 16%Z
  /\ firstn 4 (skipn 36 bytes) = charCodes "data"
  /\ readUIntLE bytes 40 4 = (dataSize mod 4294967296)%Z.
Proof.
  intros bytes. subst bytes. unfold wavHeader.
  rewrite <- !readUIntLE_bytesLE_4 with (rest := []).
  rewrite <- !readUIntLE_bytesLE_2 with (rest := []).
  rewrite !bytesLE_4, !bytesLE_2.
  repeat split; reflexivity.
Qed.


Section EncodeWAVTheorems.
Import CLIAudioEngine.

Lemma cli_frames_cells (mixed : Mix) (n : nat) :
  flat_map
    (fun i =>
       bytesLE 2 (cliSample (nth i (left mixed) 0))
       ++ bytesLE 2 (cliSample (nth i (right mixed) 0)))
    (seq 0 n)
  = flat_map (bytesLE 2)
      (flat_map
         (fun i => [cliSample (nth i (left mixed) 0);
                    cliSample (nth i (right mixed) 0)])
         (seq 0 n)).
Proof.
  rewrite flat_map_cells. apply flat_map_ext. intros i.
  cbn [flat_map]. now rewrite app_nil_r.
Qed.

Lemma Qfloor_range (x : Q) (hi : Z) :
  0 <= x -> x <= inject_Z hi -> (0 <= Qfloor x <= hi)%Z.
Proof.
  intros H0 Hhi. split.
  - change 0%Z with (Qfloor 0). now apply Qfloor_resp_le.
  - rewrite <- (Qfloor_Z hi). now apply Qfloor_resp_le.
Qed.

(** An integer writer of [Buffer] throws on a value out of range, whatever
    the buffer. *)
Lemma writeUInt32LE_out (buffer : list Z) (value : Q) (offset : nat) :
  value < 0 \/ 4294967295 < value ->
  NodeBuffer.writeUInt32LE buffer value offset = None.
Proof.
  intros H. unfold NodeBuffer.writeUInt32LE.
  destruct (Qlt_le_dec value 0); [reflexivity |].
  destruct (Qlt_le_dec 4294967295 value); [reflexivity | lra].
Qed.

End EncodeWAVTheorems.

(** What [encodeWAV] returns when no header field is out of range. *)
Lemma encodeWAV_spec (mixed : CLIAudioEngine.Mix) :
  let n := List.length (CLIAudioEngine.left mixed) in
  let rate := CLIAudioEngine.mixSampleRate mixed in
  0 <= rate ->
  rate * 4 <= 4294967295 ->
  (36 + 4 * Z.of_nat n <= 4294967295)%Z ->
  exists bytes,
    CLIAudioEngine.encodeWAV mixed = Some bytes
    /\ List.length bytes = (44 + 4 * n)%nat
    /\ Forall isByte bytes
    /\ firstn 4 bytes = charCodes "RIFF"
    /\ readUIntLE bytes 4 4 = (Z.of_nat (List.length bytes) - 8)%Z
    /\ firstn 8 (skipn 8 bytes) = charCodes "WAVEfmt "
    /\ readUIntLE bytes 16 4 = 16%Z
    /\ readUIntLE bytes 20 2 = 1%Z
    /\ readUIntLE bytes 22 2 = 2%Z
    /\ readUIntLE bytes 24 4 = Qfloor rate
    /\ readUIntLE bytes 28 4 = Qfloor (rate * 4)
    /\ readUIntLE bytes 32 2 = 4%Z
    /\ readUIntLE bytes 34 2 = 16%Z
    /\ firstn 4 (skipn 36 bytes) = charCodes "data"
    /\ readUIntLE bytes 40 4 = (Z.of_nat (List.length bytes) - 44)%Z
    /\ forall i, (i < n)%nat ->
         readInt16LE bytes (44 + 4 * i)
         = cliSample (nth i (CLIAudioEngine.left mixed) 0)
         /\ readInt16LE bytes (46 + 4 * i)
            = cliSample (nth i (CLIAudioEngine.right mixed) 0)
         /\ (-32767 <= readInt16LE bytes (44 + 4 * i) <= 32767)%Z
         /\ (-32767 <= readInt16LE bytes (46 + 4 * i) <= 32767)%Z.
Proof.
  intros n rate Hrate Hbyte Hsize.
  pose proof (encodeWAV_bytes mixed Hrate Hbyte Hsize) as Hbytes.
  fold n in Hbytes. fold rate in Hbytes.
  rewrite cli_frames_cells in Hbytes.
  set (header := wavHeader (36 + 4 * Z.of_nat n) 2 (Qfloor rate)
                   (Qfloor (rate * 4)) 4 (4 * Z.of_nat n)) in *.
  set (vals := flat_map
                 (fun i =>
                    [cliSample (nth i (CLIAudioEngine.left mixed) 0);
                     cliSample (nth i (CLIAudioEngine.right mixed) 0)])
                 (seq 0 n)) in *.
  assert (Hvals : List.length vals = (n * 2)%nat).
  { unfold vals. rewrite (flat_map_length_blocks _ 2) by reflexivity.
    now rewrite length_seq. }
  assert (Hlen : List.length (header ++ flat_map (bytesLE 2) vals)
                 = (44 + 4 * n)%nat).
  { rewrite length_app. unfold header. rewrite wavHeader_length.
    rewrite (flat_map_length_blocks (bytesLE 2) 2)
      by (intros; apply bytesLE_length).
    rewrite Hvals. lia. }
  assert (Hfloor : (0 <= Qfloor rate <= 4294967295)%Z).
  { apply Qfloor_range; [exact Hrate |].
    change (inject_Z 4294967295) with 4294967295. lra. }
  assert (Hfloor4 : (0 <= Qfloor (rate * 4) <= 4294967295)%Z).
  { apply Qfloor_range; [lra |].
    change (inject_Z 4294967295) with 4294967295. lra. }
  destruct (wavHeader_fields (36 + 4 * Z.of_nat n) 2 (Qfloor rate)
              (Qfloor (rate * 4)) 4 (4 * Z.of_nat n)
              (flat_map (bytesLE 2) vals))
    as (F0 & F4 & F8 & F16 & F20 & F22 & F24 & F28 & F32 & F34 & F36 & F40).
  fold header in F0, F4, F8, F16, F20, F22, F24, F28, F32, F34, F36, F40.
  assert (Hcell : forall k, (k < n * 2)%nat ->
            (-32767 <= nth k vals 0 <= 32767)%Z).
  { intros k Hk.
    assert (Hin : In (nth k vals 0%Z) vals) by (apply nth_In; lia).
    revert Hin. generalize (nth k vals 0%Z). intros v Hin.
    unfold vals in Hin. apply in_flat_map in Hin.
    destruct Hin as (i & _ & [<- | [<- | []]]); apply cliSample_range. }
  assert (Hread : forall k, (k < n * 2)%nat ->
            readInt16LE (header ++ flat_map (bytesLE 2) vals) (44 + 2 * k)
            = nth k vals 0%Z).
  { intros k Hk.
    rewrite <- (app_nil_r (flat_map (bytesLE 2) vals)).
    change 44%nat with (List.length header).
    apply readInt16LE_cell; [lia |].
    pose proof (Hcell k Hk). lia. }
  exists (header ++ flat_map (bytesLE 2) vals).
  split; [exact Hbytes |]. split; [exact Hlen |]. split.
  { apply Forall_app. split; [apply wavHeader_isByte |].
    apply Forall_flat_map_isByte. intros v. apply bytesLE_isByte. }
  rewrite Hlen.
  split; [exact F0 |]. split; [rewrite F4; Z.div_mod_to_equations; lia |].
  split; [exact F8 |]. split; [exact F16 |]. split; [exact F20 |].
  split; [exact F22 |].
  split; [rewrite F24; apply Z.mod_small; lia |].
  split; [rewrite F28; apply Z.mod_small; lia |].
  split; [exact F32 |]. split; [exact F34 |]. split; [exact F36 |].
  split; [rewrite F40; Z.div_mod_to_equations; lia |].
  intros i Hi.
  assert (HL : readInt16LE (header ++ flat_map (bytesLE 2) vals)
                 (44 + 4 * i)
               = cliSample (nth i (CLIAudioEngine.left mixed) 0)).
  { replace (44 + 4 * i)%nat with (44 + 2 * (i * 2 + 0))%nat by lia.
    rewrite Hread by lia. unfold vals.
    rewrite (nth_flat_map_blocks _ 2) by (try reflexivity; lia).
    reflexivity. }
  assert (HR : readInt16LE (header ++ flat_map (bytesLE 2) vals)
                 (46 + 4 * i)
               = cliSample (nth i (CLIAudioEngine.right mixed) 0)).
  { replace (46 + 4 * i)%nat with (44 + 2 * (i * 2 + 1))%nat by lia.
    rewrite Hread by lia. unfold vals.
    rewrite (nth_flat_map_blocks _ 2) by (try reflexivity; lia).
    reflexivity. }
  rewrite HL, HR.
  split; [reflexivity |]. split; [reflexivity |].
  split; apply cliSample_range.
Qed.

(** **** X8.  When the sample rate is not negative, the byte rate
    [4 * sampleRate] fits into 32 bits and so does the file size,
    [encodeWAV] returns a file of [44 + 4 * numSamples] bytes: the tags
    [RIFF], [WAVE], [fmt ] and [data] at their places, the header fields
    (file size minus 8, 16, PCM, 2 channels, rate, byte rate, block size 4,
    16 bits, data size) read back as little-endian integers, and after the
    header frame [i] holds the left and the right sample as signed 16-bit
    integers, each [round(clamp(x) * 32767)], a value in
    [[-32767, 32767]]. *)
Theorem encodeWAV_round_trip (mixed : CLIAudioEngine.Mix) :
  let n := List.length (CLIAudioEngine.left mixed) in
  let rate := CLIAudioEngine.mixSampleRate mixed in
  0 <= rate ->
  rate * 4 <= 4294967295 ->
  (36 + 4 * Z.of_nat n <= 4294967295)%Z ->
  exists bytes,
    CLIAudioEngine.encodeWAV mixed = Some bytes
    /\ List.length bytes = (44 + 4 * n)%nat
    /\ Forall isByte bytes
    /\ firstn 4 bytes = charCodes "RIFF"
    /\ readUIntLE bytes 4 4 = (Z.of_nat (List.length bytes) - 8)%Z
    /\ firstn 8 (skipn 8 bytes) = charCodes "WAVEfmt "
    /\ readUIntLE bytes 16 4 = 16%Z
    /\ readUIntLE bytes 20 2 = 1%Z
    /\ readUIntLE bytes 22 2 = 2%Z
    /\ readUIntLE bytes 24 4 = Qfloor rate
    /\ readUIntLE bytes 28 4 = Qfloor (rate * 4)
    /\ readUIntLE bytes 32 2 = 4%Z
    /\ readUIntLE bytes 34 2 = 16%Z
    /\ firstn 4 (skipn 36 bytes) = charCodes "data"
    /\ readUIntLE bytes 40 4 = (Z.of_nat (List.length bytes) - 44)%Z
    /\ forall i, (i < n)%nat ->
         readInt16LE bytes (44 + 4 * i)
         = cliSample (nth i (CLIAudioEngine.left mixed) 0)
         /\ readInt16LE bytes (46 + 4 * i)
            = cliSample (nth i (CLIAudioEngine.right mixed) 0)
         /\ (-32767 <= readInt16LE bytes (44 + 4 * i) <= 32767)%Z
         /\ (-32767 <= readInt16LE bytes (46 + 4 * i) <= 32767)%Z.
Proof. exact (encodeWAV_spec mixed). Qed.

Lemma encodeWAV_round_trip_witness :
  exists bytes,
    CLIAudioEngine.encodeWAV demoMix = Some bytes
    /\ List.length bytes = 52%nat
    /\ readInt16LE bytes 44 = cliSample 1
    /\ readInt16LE bytes 50 = cliSample 3.
Proof.
  destruct (encodeWAV_round_trip demoMix) as (bytes & Hb & Hl & Hrest).
  - discriminate.
  - discriminate.
  - discriminate.
  - exists bytes. split; [exact Hb |]. split; [exact Hl |].
    do 13 (destruct Hrest as [_ Hrest]).
    destruct (Hrest 0%nat ltac:(repeat constructor)) as (H0 & _).
    destruct (Hrest 1%nat ltac:(repeat constructor)) as (_ & H1 & _).
    split; [exact H0 | exact H1].
Defined.

Ltac skip_write :=
  match goal with
  | |- bind ?m _ = None => destruct m; cbn [bind]; [| reflexivity]
  end.

(** **** X9.  [encodeWAV] throws exactly when a header field is out of
    range: the sample rate is negative, the byte rate [4 * sampleRate] does
    not fit into 32 bits, or the file size minus 8 does not. *)
Theorem encodeWAV_throws_iff (mixed : CLIAudioEngine.Mix) :
  let n := List.length (CLIAudioEngine.left mixed) in
  let rate := CLIAudioEngine.mixSampleRate mixed in
  CLIAudioEngine.encodeWAV mixed = None
  <-> rate < 0
      \/ 4294967295 < rate * 4
      \/ (4294967295 < 36 + 4 * Z.of_nat n)%Z.
Proof.
  intros n rate. split.
  - intros Hnone.
    destruct (Qlt_le_dec rate 0) as [Hneg | Hrate]; [now left |].
    destruct (Qlt_le_dec 4294967295 (rate * 4)) as [Hbig | Hbyte];
      [right; now left |].
    destruct (Z_lt_le_dec 4294967295 (36 + 4 * Z.of_nat n)) as [Hlong | Hsize];
      [right; now right |].
    rewrite (encodeWAV_bytes mixed Hrate Hbyte Hsize) in Hnone.
    discriminate.
  - intros H. unfold CLIAudioEngine.encodeWAV. cbv zeta.
    change (16 / 8)%nat with 2%nat. change (2 * 2)%nat with 4%nat.
    fold n. fold rate.
    destruct (Z_lt_le_dec 4294967295 (36 + 4 * Z.of_nat n)) as [Hlong | Hsize].
    { skip_write. rewrite writeUInt32LE_out; [reflexivity |]. right.
      unfold ofNat. rewrite Nat2Z.inj_add, Nat2Z.inj_mul, inject_Z_plus.
      change (inject_Z (Z.of_nat 44)) with 44.
      change (Z.of_nat 4) with 4%Z.
      assert (inject_Z 4294967295 < inject_Z (36 + 4 * Z.of_nat n))
        by (now rewrite <- Zlt_Qlt).
      rewrite inject_Z_plus, inject_Z_mult in H0.
      rewrite inject_Z_mult.
      change (inject_Z 4294967295) with 4294967295 in H0.
      change (inject_Z 36) with 36 in H0. change (inject_Z 4) with 4 in *.
      lra. }
    destruct (Qlt_le_dec rate 0) as [Hneg | Hrate].
    { do 7 skip_write. rewrite writeUInt32LE_out; [reflexivity |].
      now left. }
    do 8 skip_write. rewrite writeUInt32LE_out; [reflexivity |].
    right. change (ofNat 4) with 4.
    destruct H as [H | [H | H]]; [lra | exact H | lia].
Qed.


(** ** Mixing, then encoding *)






(** ** The exporter's writer, [audioBufferToWav] *)

Lemma charCodes_length (s : string) :
  List.length (charCodes s) = String.length s.
Proof.
  unfold charCodes. rewrite length_map.
  induction s as [| c s IH]; [reflexivity | cbn; now rewrite IH].
Qed.

Lemma firstn_snoc (l : list Z) : forall k,
  (k < List.length l)%nat ->
  firstn (S k) l = firstn k l ++ [nth k l 0%Z].
Proof.
  induction l as [| x l IH]; intros k Hk; [cbn [List.length] in Hk; lia |].
  destruct k as [| k]; [reflexivity |].
  cbn [List.length] in Hk. cbn [firstn nth app].
  now rewrite <- (IH k) by lia.
Qed.

Lemma writeString_fill (w : list Z) (r : nat) (s : string) :
  writeString (w ++ repeat 0%Z (String.length s + r)) (List.length w) s
  = Some ((w ++ charCodes s) ++ repeat 0%Z r).
Proof.
  unfold writeString. rewrite <- charCodes_length.
  assert (Hbyte : Forall isByte (charCodes s)) by apply charCodes_isByte.
  revert Hbyte. generalize (charCodes s) as codes. intros codes Hbyte.
  assert (G : forall k, (k <= List.length codes)%nat ->
            fold_left
              (fun st i =>
                 view <- st ;;
                 DataView.setUint8 view (List.length w + i)
                   (inject_Z (nth i codes 0%Z)))
              (seq 0 k)
              (Some (w ++ repeat 0%Z (List.length codes + r)))
            = Some ((w ++ firstn k codes)
                    ++ repeat 0%Z (List.length codes - k + r))).
  { induction k as [| k IH]; intros Hk.
    - cbn [seq fold_left firstn]. now rewrite app_nil_r, Nat.sub_0_r.
    - rewrite seq_S, fold_left_app, IH by lia. cbn [fold_left bind Nat.add].
      unfold DataView.setUint8. rewrite truncate_Z, bytesLE_1.
      assert (Hin : isByte (nth k codes 0%Z)).
      { rewrite Forall_forall in Hbyte. apply Hbyte, nth_In. lia. }
      rewrite Z.mod_small by exact Hin.
      rewrite (writeAt_fill (w ++ firstn k codes) [nth k codes 0%Z]
                 (List.length codes - S k + r)).
      + f_equal. f_equal. rewrite <- app_assoc. f_equal.
        rewrite (firstn_snoc codes k) by lia. reflexivity.
      + f_equal. f_equal. cbn [List.length]. lia.
      + rewrite length_app, length_firstn. lia. }
  rewrite (G (List.length codes)) by lia.
  now rewrite firstn_all, Nat.sub_diag.
Qed.

Lemma setUint32_fill (w : list Z) (r : nat) (view : list Z) (offset : nat)
    (value : Q) :
  view = w ++ repeat 0%Z (4 + r) ->
  offset = List.length w ->
  DataView.setUint32 view offset value
  = Some ((w ++ bytesLE 4 (truncate value)) ++ repeat 0%Z r).
Proof. intros Hv Ho. now apply writeAt_fill. Qed.

Lemma setUint16_fill (w : list Z) (r : nat) (view : list Z) (offset : nat)
    (value : Q) :
  view = w ++ repeat 0%Z (2 + r) ->
  offset = List.length w ->
  DataView.setUint16 view offset value
  = Some ((w ++ bytesLE 2 (truncate value)) ++ repeat 0%Z r).
Proof. intros Hv Ho. now apply writeAt_fill. Qed.

Lemma writeString_fill' (w : list Z) (r : nat) (view : list Z)
    (offset : nat) (s : string) :
  view = w ++ repeat 0%Z (String.length s + r) ->
  offset = List.length w ->
  writeString view offset s = Some ((w ++ charCodes s) ++ repeat 0%Z r).
Proof. intros -> ->. apply writeString_fill. Qed.

Lemma writeSample_fill (channels : list (list Q)) (i channel : nat)
    (w : list Z) (r : nat) :
  writeSample channels i
    (Some (w ++ repeat 0%Z (2 + r), List.length w)) channel
  = Some ((w ++ bytesLE 2
                  (browserSample (nth i (nth channel channels []) 0)))
          ++ repeat 0%Z r,
          (List.length w + 2)%nat).
Proof.
  unfold writeSample. cbn [bind]. unfold DataView.setInt16.
  rewrite (writeAt_fill w _ r); [reflexivity | | reflexivity].
  now rewrite bytesLE_length.
Qed.

(** The inner loop: one frame, a sample of every channel. *)
Lemma writeSamples_fill (channels : list (list Q)) (i : nat) (r : nat) :
  forall c s w,
    fold_left (writeSample channels i) (seq s c)
      (Some (w ++ repeat 0%Z (c * 2 + r), List.length w))
    = Some ((w ++ flat_map
                    (fun channel =>
                       bytesLE 2
                         (browserSample (nth i (nth channel channels []) 0)))
                    (seq s c))
            ++ repeat 0%Z r,
            (List.length w + c * 2)%nat).
Proof.
  induction c as [| c IH]; intros s w.
  - cbn [seq fold_left flat_map Nat.mul Nat.add]. rewrite app_nil_r.
    do 2 f_equal. lia.
  - cbn [seq fold_left flat_map].
    change (S c * 2 + r)%nat with (2 + (c * 2 + r))%nat.
    rewrite writeSample_fill.
    replace (List.length w + 2)%nat
      with (List.length
              (w ++ bytesLE 2
                      (browserSample (nth i (nth s channels []) 0))))
      by (rewrite length_app, bytesLE_length; lia).
    rewrite IH. rewrite length_app, bytesLE_length.
    rewrite <- !app_assoc. do 2 f_equal. lia.
Qed.

(** The outer loop: all frames. *)
Lemma writeFramesDV_fill (channels : list (list Q)) (c r : nat) :
  forall n s w,
    fold_left
      (fun st i => fold_left (writeSample channels i) (seq 0 c) st)
      (seq s n)
      (Some (w ++ repeat 0%Z (n * (c * 2) + r), List.length w))
    = Some ((w ++ flat_map
                    (fun i =>
                       flat_map
                         (fun channel =>
                            bytesLE 2
                              (browserSample
                                 (nth i (nth channel channels []) 0)))
                         (seq 0 c))
                    (seq s n))
            ++ repeat 0%Z r,
            (List.length w + n * (c * 2))%nat).
Proof.
  induction n as [| n IH]; intros s w.
  - cbn [seq fold_left flat_map Nat.mul Nat.add]. rewrite app_nil_r.
    do 2 f_equal. lia.
  - cbn [seq fold_left flat_map].
    replace (S n * (c * 2) + r)%nat with (c * 2 + (n * (c * 2) + r))%nat
      by (cbn [Nat.mul]; lia).
    rewrite writeSamples_fill.
    set (frame := flat_map
                    (fun channel =>
                       bytesLE 2
                         (browserSample (nth s (nth channel channels []) 0)))
                    (seq 0 c)).
    assert (Hframe : List.length frame = (c * 2)%nat).
    { unfold frame.
      rewrite (flat_map_length_blocks _ 2) by (intros; apply bytesLE_length).
      now rewrite length_seq. }
    replace (List.length w + c * 2)%nat with (List.length (w ++ frame))
      by (rewrite length_app, Hframe; reflexivity).
    rewrite IH. rewrite length_app, Hframe.
    rewrite <- !app_assoc. do 2 f_equal. cbn [Nat.mul]. lia.
Qed.

(** The bytes [audioBufferToWav] returns; it never throws. *)
Lemma audioBufferToWav_bytes (b : AudioBuffer) :
  let c := numberOfChannels b in
  let n := bufferLength b in
  audioBufferToWav b
  = Some (wavHeader (36 + Z.of_nat (n * c * 2)) (Z.of_nat c)
            (truncate (sampleRate b))
            (truncate (sampleRate b * ofNat c * 2)) (Z.of_nat c * 2)
            (Z.of_nat (n * c * 2))
          ++ flat_map
               (fun i =>
                  flat_map
                    (fun channel =>
                       bytesLE 2
                         (browserSample
                            (nth i
                               (nth channel
                                  (channel0 b :: otherChannels b) []) 0)))
                    (seq 0 c))
               (seq 0 n)).
Proof.
  intros c n. unfold audioBufferToWav. fold c. fold n. cbv zeta.
  unfold alloc.
  set (len := (n * c * 2)%nat).
  erewrite (writeString_fill' [] (40 + len)); [| reflexivity | reflexivity].
  cbn [bind].
  erewrite (setUint32_fill _ (36 + len)); [| reflexivity | reflexivity].
  cbn [bind].
  erewrite (writeString_fill' _ (32 + len)); [| reflexivity | reflexivity].
  cbn [bind].
  erewrite (writeString_fill' _ (28 + len)); [| reflexivity | reflexivity].
  cbn [bind].
  erewrite (setUint32_fill _ (24 + len)); [| reflexivity | reflexivity].
  cbn [bind].
  erewrite (setUint16_fill _ (22 + len)); [| reflexivity | reflexivity].
  cbn [bind].
  erewrite (setUint16_fill _ (20 + len)); [| reflexivity | reflexivity].
  cbn [bind].
  erewrite (setUint32_fill _ (16 + len)); [| reflexivity | reflexivity].
  cbn [bind].
  erewrite (setUint32_fill _ (12 + len)); [| reflexivity | reflexivity].
  cbn [bind].
  erewrite (setUint16_fill _ (10 + len)); [| reflexivity | reflexivity].
  cbn [bind].
  erewrite (setUint16_fill _ (8 + len)); [| reflexivity | reflexivity].
  cbn [bind].
  erewrite (writeString_fill' _ (4 + len)); [| reflexivity | reflexivity].
  cbn [bind].
  erewrite (setUint32_fill _ len); [| reflexivity | reflexivity].
  cbn [bind].
  match goal with
  | |- context [Some (?w ++ repeat 0%Z len, ?o)] =>
      replace (Some (w ++ repeat 0%Z len, o))
        with (Some (w ++ repeat 0%Z (n * (c * 2) + 0), List.length w))
        by (replace (n * (c * 2) + 0)%nat with len by (unfold len; lia);
            reflexivity)
  end.
  rewrite writeFramesDV_fill. cbn [bind fst].
  rewrite app_nil_r.
  assert (E1 : 36 + ofNat len == inject_Z (36 + Z.of_nat len))
    by (unfold ofNat; now rewrite inject_Z_plus).
  assert (E2 : ofNat c * 2 == inject_Z (Z.of_nat c * 2))
    by (unfold ofNat; now rewrite inject_Z_mult).
  rewrite (truncate_comp _ _ E1), (truncate_comp _ _ E2).
  unfold ofNat. rewrite !truncate_Z.
  change (truncate 16) with 16%Z. change (truncate 1) with 1%Z.
  unfold wavHeader. cbn [app]. rewrite <- !app_assoc. reflexivity.
Qed.

Lemma browserSample_range (x : Q) : (-32768 <= browserSample x <= 32767)%Z.
Proof.
  unfold browserSample. cbv zeta. destruct (clamp_range x) as [Hlo Hhi].
  set (sample := Qmax (-1) (Qmin 1 x)) in *.
  destruct (Qlt_le_dec sample 0) as [Hneg | Hpos]; unfold truncate.
  - destruct (Qlt_le_dec (sample * 32768) 0) as [_ | Hge]; [| lra].
    assert (Hl : (Qceiling (-32768) <= Qceiling (sample * 32768))%Z)
      by (apply Qceiling_resp_le; lra).
    assert (Hu : (Qceiling (sample * 32768) <= Qceiling 0)%Z)
      by (apply Qceiling_resp_le; lra).
    change (Qceiling (-32768)) with (-32768)%Z in Hl.
    change (Qceiling 0) with 0%Z in Hu. lia.
  - destruct (Qlt_le_dec (sample * 32767) 0) as [Hlt | _]; [lra |].
    assert (Hl : (Qfloor 0 <= Qfloor (sample * 32767))%Z)
      by (apply Qfloor_resp_le; lra).
    assert (Hu : (Qfloor (sample * 32767) <= Qfloor 32767)%Z)
      by (apply Qfloor_resp_le; lra).
    change (Qfloor 0) with 0%Z in Hl.
    change (Qfloor 32767) with 32767%Z in Hu. lia.
Qed.

(** **** X11.  [audioBufferToWav] never throws.  It returns a file of
    [44 + 2 * numberOfChannels * length] bytes: the tags [RIFF], [WAVE],
    [fmt ] and [data]; the header fields, each reduced modulo the width of
    its field instead of being checked; and after the header the frames,
    frame [i] holding for every channel the signed 16-bit integer
    [trunc(clamp(x) * 32768)] for a negative sample and
    [trunc(clamp(x) * 32767)] otherwise, a value in [[-32768, 32767]]. *)
Theorem audioBufferToWav_round_trip (b : AudioBuffer) :
  let c := numberOfChannels b in
  let n := bufferLength b in
  let channels := channel0 b :: otherChannels b in
  exists bytes,
    audioBufferToWav b = Some bytes
    /\ List.length bytes = (44 + n * c * 2)%nat
    /\ Forall isByte bytes
    /\ firstn 4 bytes = charCodes "RIFF"
    /\ readUIntLE bytes 4 4
       = ((Z.of_nat (List.length bytes) - 8) mod 4294967296)%Z
    /\ firstn 8 (skipn 8 bytes) = charCodes "WAVEfmt "
    /\ readUIntLE bytes 16 4 = 16%Z
    /\ readUIntLE bytes 20 2 = 1%Z
    /\ readUIntLE bytes 22 2 = (Z.of_nat c mod 65536)%Z
    /\ readUIntLE bytes 24 4 = (truncate (sampleRate b) mod 4294967296)%Z
    /\ readUIntLE bytes 28 4
       = (truncate (sampleRate b * ofNat c * 2) mod 4294967296)%Z
    /\ readUIntLE bytes 32 2 = ((Z.of_nat c * 2) mod 65536)%Z
    /\ readUIntLE bytes 34 2 = 16%Z
    /\ firstn 4 (skipn 36 bytes) = charCodes "data"
    /\ readUIntLE bytes 40 4
       = ((Z.of_nat (List.length bytes) - 44) mod 4294967296)%Z
    /\ forall i channel, (i < n)%nat -> (channel < c)%nat ->
         readInt16LE bytes (44 + 2 * (i * c + channel))
         = browserSample (nth i (nth channel channels []) 0)
         /\ (-32768 <= readInt16LE bytes (44 + 2 * (i * c + channel))
             <= 32767)%Z.
Proof.
  intros c n channels.
  pose proof (audioBufferToWav_bytes b) as Hbytes. cbv zeta in Hbytes.
  fold c in Hbytes. fold n in Hbytes. fold channels in Hbytes.
  set (vals := flat_map
                 (fun i =>
                    map (fun channel =>
                           browserSample (nth i (nth channel channels []) 0))
                        (seq 0 c))
                 (seq 0 n)).
  assert (Hpcm : flat_map
                   (fun i =>
                      flat_map
                        (fun channel =>
                           bytesLE 2
                             (browserSample
                                (nth i (nth channel channels []) 0)))
                        (seq 0 c))
                   (seq 0 n)
                 = flat_map (bytesLE 2) vals).
  { unfold vals. rewrite flat_map_cells. apply flat_map_ext. intros i.
    generalize (seq 0 c) as l. induction l as [| ch l IH]; [reflexivity |].
    cbn [map flat_map]. now rewrite IH. }
  rewrite Hpcm in Hbytes. clear Hpcm.
  set (header := wavHeader (36 + Z.of_nat (n * c * 2)) (Z.of_nat c)
                   (truncate (sampleRate b))
                   (truncate (sampleRate b * ofNat c * 2)) (Z.of_nat c * 2)
                   (Z.of_nat (n * c * 2))) in *.
  assert (Hvals : List.length vals = (n * c)%nat).
  { unfold vals.
    rewrite (flat_map_length_blocks _ c)
      by (intros; now rewrite length_map, length_seq).
    now rewrite length_seq. }
  assert (Hlen : List.length (header ++ flat_map (bytesLE 2) vals)
                 = (44 + n * c * 2)%nat).
  { rewrite length_app. unfold header. rewrite wavHeader_length.
    rewrite (flat_map_length_blocks (bytesLE 2) 2)
      by (intros; apply bytesLE_length).
    now rewrite Hvals. }
  destruct (wavHeader_fields (36 + Z.of_nat (n * c * 2)) (Z.of_nat c)
              (truncate (sampleRate b))
              (truncate (sampleRate b * ofNat c * 2)) (Z.of_nat c * 2)
              (Z.of_nat (n * c * 2)) (flat_map (bytesLE 2) vals))
    as (F0 & F4 & F8 & F16 & F20 & F22 & F24 & F28 & F32 & F34 & F36 & F40).
  fold header in F0, F4, F8, F16, F20, F22, F24, F28, F32, F34, F36, F40.
  assert (Hcell : forall k, (k < n * c)%nat ->
            (-32768 <= nth k vals 0 <= 32767)%Z).
  { intros k Hk.
    assert (Hin : In (nth k vals 0%Z) vals) by (apply nth_In; lia).
    revert Hin. generalize (nth k vals 0%Z). intros v Hin.
    unfold vals in Hin. apply in_flat_map in Hin.
    destruct Hin as (i & _ & Hin). apply in_map_iff in Hin.
    destruct Hin as (ch & <- & _). apply browserSample_range. }
  exists (header ++ flat_map (bytesLE 2) vals).
  split; [exact Hbytes |]. split; [exact Hlen |]. split.
  { apply Forall_app. split; [apply wavHeader_isByte |].
    apply Forall_flat_map_isByte. intros v. apply bytesLE_isByte. }
  rewrite Hlen.
  split; [exact F0 |].
  split; [rewrite F4; f_equal; lia |].
  split; [exact F8 |]. split; [exact F16 |]. split; [exact F20 |].
  split; [exact F22 |]. split; [exact F24 |]. split; [exact F28 |].
  split; [exact F32 |]. split; [exact F34 |]. split; [exact F36 |].
  split; [rewrite F40; f_equal; lia |].
  intros i channel Hi Hch.
  assert (Hk : (i * c + channel < n * c)%nat) by nia.
  assert (HS : readInt16LE (header ++ flat_map (bytesLE 2) vals)
                 (44 + 2 * (i * c + channel))
               = browserSample (nth i (nth channel channels []) 0)).
  { rewrite <- (app_nil_r (flat_map (bytesLE 2) vals)).
    change 44%nat with (List.length header).
    rewrite readInt16LE_cell;
      [| lia | pose proof (Hcell _ Hk); lia].
    unfold vals.
    rewrite (nth_flat_map_blocks _ c)
      by (try (intros; now rewrite length_map, length_seq); lia).
    cbn [Nat.add].
    rewrite (nth_indep _ 0%Z
               (browserSample (nth i (nth 0 channels []) 0)))
      by (now rewrite length_map, length_seq).
    rewrite (map_nth (fun channel =>
                        browserSample (nth i (nth channel channels []) 0))).
    rewrite seq_nth by exact Hch. reflexivity. }
  rewrite HS. split; [reflexivity | apply browserSample_range].
Qed.


(** ** The two quantisers *)

Lemma clamp_mono (x y : Q) :
  x <= y -> Qmax (-1) (Qmin 1 x) <= Qmax (-1) (Qmin 1 y).
Proof.
  intros H. apply Q.max_le_compat_l. now apply Q.min_le_compat_l.
Qed.

Lemma clamp_high (x : Q) : 1 <= x -> Qmax (-1) (Qmin 1 x) == 1.
Proof.
  intros H. rewrite (Q.min_l 1 x) by exact H. apply Q.max_r. lra.
Qed.

Lemma clamp_low (x : Q) : x <= -1 -> Qmax (-1) (Qmin 1 x) == -1.
Proof.
  intros H. rewrite (Q.min_r 1 x) by lra. now apply Q.max_l.
Qed.

Lemma truncate_mono (x y : Q) : x <= y -> (truncate x <= truncate y)%Z.
Proof.
  intros H. unfold truncate.
  destruct (Qlt_le_dec x 0) as [Hx | Hx], (Qlt_le_dec y 0) as [Hy | Hy].
  - now apply Qceiling_resp_le.
  - assert ((Qceiling x <= Qceiling 0)%Z) by (apply Qceiling_resp_le; lra).
    assert ((Qfloor 0 <= Qfloor y)%Z) by (now apply Qfloor_resp_le).
    change (Qceiling 0) with 0%Z in *. change (Qfloor 0) with 0%Z in *. lia.
  - lra.
  - now apply Qfloor_resp_le.
Qed.

(** **** X12.  The two writers quantise a sample alike.  Both are monotone
    and both saturate: a sample of 1 or more is stored as 32767; a sample of
    -1 or less is stored as -32767 by [encodeWAV] and as -32768 by
    [audioBufferToWav].  For one and the same sample the two stored values
    differ by at most one. *)
Theorem wav_quantisers (x y : Q) :
  (x <= y ->
     (cliSample x <= cliSample y)%Z
     /\ (browserSample x <= browserSample y)%Z)
  /\ (1 <= x -> cliSample x = 32767%Z /\ browserSample x = 32767%Z)
  /\ (x <= -1 -> cliSample x = (-32767)%Z /\ browserSample x = (-32768)%Z)
  /\ (-1 <= cliSample x - browserSample x <= 1)%Z.
Proof.
  split; [| split; [| split]].
  - intros H. pose proof (clamp_mono x y H) as Hc. split.
    + unfold cliSample, Math_round. apply Qfloor_resp_le. lra.
    + unfold browserSample. cbv zeta. apply truncate_mono.
      destruct (clamp_range x) as [Hx1 Hx2], (clamp_range y) as [Hy1 Hy2].
      destruct (Qlt_le_dec (Qmax (-1) (Qmin 1 x)) 0),
               (Qlt_le_dec (Qmax (-1) (Qmin 1 y)) 0); nra.
  - intros H. pose proof (clamp_high x H) as Hc. split.
    + unfold cliSample, Math_round.
      transitivity (Qfloor (1 * 32767 + (1 # 2))); [| reflexivity].
      apply Qfloor_comp. now rewrite Hc.
    + unfold browserSample. cbv zeta.
      destruct (Qlt_le_dec (Qmax (-1) (Qmin 1 x)) 0); [lra |].
      transitivity (truncate (1 * 32767)); [| reflexivity].
      apply truncate_comp. now rewrite Hc.
  - intros H. pose proof (clamp_low x H) as Hc. split.
    + unfold cliSample, Math_round.
      transitivity (Qfloor (-1 * 32767 + (1 # 2))); [| reflexivity].
      apply Qfloor_comp. now rewrite Hc.
    + unfold browserSample. cbv zeta.
      destruct (Qlt_le_dec (Qmax (-1) (Qmin 1 x)) 0); [| lra].
      transitivity (truncate (-1 * 32768)); [| reflexivity].
      apply truncate_comp. now rewrite Hc.
  - unfold cliSample, browserSample, Math_round. cbv zeta.
    destruct (clamp_range x) as [Hlo Hhi].
    set (s := Qmax (-1) (Qmin 1 x)) in *.
    pose proof (Qfloor_le (s * 32767 + (1 # 2))) as A1.
    pose proof (Qlt_floor (s * 32767 + (1 # 2))) as A2.
    rewrite inject_Z_plus in A2. change (inject_Z 1) with 1 in A2.
    set (a := Qfloor (s * 32767 + (1 # 2))) in *.
    destruct (Qlt_le_dec s 0) as [Hneg | Hpos]; unfold truncate.
    + destruct (Qlt_le_dec (s * 32768) 0) as [_ | Hge]; [| lra].
      pose proof (Qle_ceiling (s * 32768)) as B1.
      pose proof (Qceiling_lt (s * 32768)) as B2.
      unfold Z.sub in B2. rewrite inject_Z_plus in B2.
      change (inject_Z (Z.opp 1)) with (-1) in B2.
      set (c := Qceiling (s * 32768)) in *. clearbody a c.
      assert (inject_Z (a - c) < inject_Z 2 /\ inject_Z (-2) < inject_Z (a - c))
        as [U L].
      { unfold Z.sub. rewrite !inject_Z_plus, !inject_Z_opp.
        change (inject_Z 2) with 2. change (inject_Z (-2)) with (-2).
        split; lra. }
      rewrite <- Zlt_Qlt in U, L. lia.
    + destruct (Qlt_le_dec (s * 32767) 0) as [Hlt | _]; [lra |].
      pose proof (Qfloor_le (s * 32767)) as B1.
      pose proof (Qlt_floor (s * 32767)) as B2.
      rewrite inject_Z_plus in B2. change (inject_Z 1) with 1 in B2.
      set (c := Qfloor (s * 32767)) in *. clearbody a c.
      assert (inject_Z (a - c) < inject_Z 2 /\ inject_Z (-2) < inject_Z (a - c))
        as [U L].
      { unfold Z.sub. rewrite !inject_Z_plus, !inject_Z_opp.
        change (inject_Z 2) with 2. change (inject_Z (-2)) with (-2).
        split; lra. }
      rewrite <- Zlt_Qlt in U, L. lia.
Qed.


(* ================================================================== *)
(** * Further properties of the compositor *)
(* ================================================================== *)

Lemma getWaveform_range (t : AudioTrack) (currentTime windowDuration : Q)
    (targetWidth level : nat) (bound : Q) (x : nat) :
  0 <= bound ->
  Forall (fun v => Qabs v <= bound) (channel0 (buffer t)) ->
  0 <= nth x (getWaveformDataForTimeWindow t currentTime windowDuration
                targetWidth level) 0
    <= bound.
Proof.
  intros Hb Hall. rewrite Forall_forall in Hall.
  destruct (nth_In_or_default
              (getWaveformDataForTimeWindow t currentTime windowDuration
                 targetWidth level) x) as [Hin | ->]; [| lra].
  revert Hin. generalize (nth x (getWaveformDataForTimeWindow t currentTime
                                   windowDuration targetWidth level) 0).
  apply getWaveform_level_bounds. intros v Hv. split.
  - now apply getWaveform_unsmoothed_nonneg in Hv.
  - revert Hv. unfold getWaveformDataForTimeWindow.
    destruct (waveformSampleWindow t currentTime windowDuration)
      as [startSample endSample].
    destruct (endSample - startSample <=? 0)%Z.
    + intros Hv. apply repeat_spec in Hv. now subst v.
    + change (0 <? 0)%nat with false. cbv iota. unfold downsample.
      intros Hv. apply In_map_seq in Hv. destruct Hv as (i & _ & ->).
      now apply bucketPeak_le.
Qed.

(** The amplitude the renderers multiply by [maxAmplitude] is in [[0, 1]]
    in the normalised mode, and in the individual mode when the samples
    are. *)
Lemma amplitude_unit (rc : RenderContext) (tracks : list AudioTrack)
    (track : AudioTrack) (currentTime windowDuration : Q)
    (amplitudeMode : AmplitudeMode) (level x : nat) :
  In track tracks ->
  amplitudeMode = Normalized
  \/ Forall (fun t => Forall (fun v => Qabs v <= 1) (channel0 (buffer t)))
       tracks ->
  0 <= normalizeAmplitude amplitudeMode
         (if isNormalized amplitudeMode
          then calculateGlobalMaxAmplitude rc tracks currentTime
                 windowDuration
          else 1)
         (nth x (getWaveformDataForTimeWindow track currentTime
                   windowDuration (width rc) level) 0)
    <= 1.
Proof.
  intros Ht Hmode. destruct amplitudeMode.
  - destruct Hmode as [Hmode | Hall]; [discriminate |].
    unfold normalizeAmplitude. cbn [isNormalized].
    rewrite Forall_forall in Hall.
    apply getWaveform_range; [lra | now apply Hall].
  - cbn [isNormalized].
    pose proof (calculateGlobalMaxAmplitude_pos rc currentTime windowDuration
                  tracks) as Hpos.
    set (g := calculateGlobalMaxAmplitude rc tracks currentTime windowDuration)
      in *.
    set (w := getWaveformDataForTimeWindow track currentTime windowDuration
                (width rc) level).
    assert (Hv : 0 <= nth x w 0 <= g).
    { destruct (nth_In_or_default w x) as [Hin | ->]; [| lra].
      now apply (calculateGlobalMaxAmplitude_upper rc currentTime
                   windowDuration tracks track level). }
    unfold normalizeAmplitude. cbn [isNormalized].
    destruct (Qlt_le_dec 0 g) as [_ | Hle]; [| lra].
    split.
    + apply Qle_shift_div_l; [exact Hpos | lra].
    + apply Qle_shift_div_r; [exact Hpos | lra].
Qed.

(** A stroke of one track: symmetric about its centre line and within
    [maxAmplitude] of it. *)
Lemma renderTrack_span (rc : RenderContext) (tracks : list AudioTrack)
    (track : AudioTrack) (currentTime centerY maxAmplitude : Q)
    (amplitudeMode : AmplitudeMode) (level : nat) (windowDuration : Q)
    (s : Stroke) :
  In track tracks ->
  amplitudeMode = Normalized
  \/ Forall (fun t => Forall (fun v => Qabs v <= 1) (channel0 (buffer t)))
       tracks ->
  0 <= maxAmplitude ->
  In s (renderTrackRealtimeWithAmplitude rc track currentTime centerY
          maxAmplitude amplitudeMode
          (if isNormalized amplitudeMode
           then calculateGlobalMaxAmplitude rc tracks currentTime
                  windowDuration
           else 1)
          level windowDuration) ->
  (strokeX s < width rc)%nat
  /\ centerY - maxAmplitude <= yFrom s <= centerY
  /\ centerY <= yTo s <= centerY + maxAmplitude
  /\ yFrom s + yTo s == 2 * centerY.
Proof.
  intros Ht Hmode Hmax Hs.
  split; [now apply renderTrack_reveal in Hs |].
  unfold renderTrackRealtimeWithAmplitude in Hs.
  apply In_map_seq in Hs. destruct Hs as (x & _ & ->). cbn [yFrom yTo].
  pose proof (amplitude_unit rc tracks track currentTime windowDuration
                amplitudeMode level x Ht Hmode) as [H0 H1].
  set (a := normalizeAmplitude _ _ _) in *.
  assert (0 <= a * maxAmplitude) by (apply Qmult_le_0_compat; lra).
  assert (a * maxAmplitude <= 1 * maxAmplitude)
    by (apply Qmult_le_compat_r; lra).
  repeat split; lra.
Qed.

Lemma heightPercentToPixels_nonneg (rc : RenderContext) (percent : Q) :
  0 <= percent -> 0 <= heightPercentToPixels rc percent.
Proof.
  intros H. unfold heightPercentToPixels.
  apply Qmult_le_0_compat; [| apply ofNat_nonneg].
  apply Qle_shift_div_l; [reflexivity | lra].
Qed.

Lemma heightPercentToPixels_half (rc : RenderContext) (percent : Q) :
  0 <= percent <= 50 ->
  heightPercentToPixels rc percent <= centerY rc.
Proof.
  intros [H0 H50]. unfold heightPercentToPixels, centerY.
  pose proof (ofNat_nonneg (height rc)) as Hh.
  set (h := ofNat (height rc)) in *.
  assert (E : percent / 100 * h == percent * h / 100) by (field; discriminate).
  rewrite E. apply Qle_shift_div_r; [reflexivity |].
  assert (percent * h <= 50 * h) by (apply Qmult_le_compat_r; lra).
  assert (E2 : h / 2 * 100 == 50 * h) by (field; discriminate).
  rewrite E2. exact H.
Qed.

(** The strokes of the stacked layout are those of its tracks, track
    [index] drawn about the middle of band [index]. *)
Lemma renderTracksStacked_In (rc : RenderContext) (tracks : list AudioTrack)
    (currentTime : Q) (amplitudeMode : AmplitudeMode)
    (globalMaxAmplitude heightPercent : Q) (smoothingLevel : nat)
    (windowDuration : Q) (s : Stroke) :
  In s (renderTracksStacked rc tracks currentTime amplitudeMode
          globalMaxAmplitude heightPercent smoothingLevel windowDuration)
  <-> exists index track,
        nth_error tracks index = Some track
        /\ In s (renderTrackRealtimeWithAmplitude rc track currentTime
                   ((ofNat index + (1 # 2))
                    * (ofNat (height rc) / ofNat (List.length tracks)))
                   (heightPercentToPixels rc heightPercent / 2)
                   amplitudeMode globalMaxAmplitude smoothingLevel
                   windowDuration).
Proof.
  unfold renderTracksStacked. rewrite in_flat_map. split.
  - intros ([index track] & Hin & Hs).
    exists index, track. split; [| exact Hs].
    assert (G : forall (l : list AudioTrack) start i t,
              In (i, t) (combine (seq start (List.length l)) l) ->
              (start <= i)%nat /\ nth_error l (i - start) = Some t).
    { induction l as [| a l IH]; intros start i t H; [contradiction |].
      cbn [List.length seq combine] in H. destruct H as [H | H].
      - injection H as <- <-. rewrite Nat.sub_diag. now split.
      - apply IH in H. destruct H as [Hle Hnth]. split; [lia |].
        replace (i - start)%nat with (S (i - S start)) by lia. exact Hnth. }
    apply G in Hin. destruct Hin as [_ Hnth].
    now rewrite Nat.sub_0_r in Hnth.
  - intros (index & track & Hnth & Hs).
    exists (index, track). split; [| exact Hs].
    assert (G : forall (l : list AudioTrack) start i t,
              nth_error l i = Some t ->
              In ((start + i)%nat, t) (combine (seq start (List.length l)) l)).
    { induction l as [| a l IH]; intros start i t H;
        [destruct i; discriminate |].
      cbn [List.length seq combine]. destruct i as [| i].
      - injection H as <-. left. now rewrite Nat.add_0_r.
      - right. replace (start + S i)%nat with (S start + i)%nat by lia.
        now apply IH. }
    exact (G tracks 0%nat index track Hnth).
Qed.

(** Band [index] of [numTracks] bands holds what is drawn within
    [heightPercent / 200] of the height about its middle, as soon as
    [heightPercent * numTracks <= 100]. *)
Lemma band_contains (rc : RenderContext) (numTracks index : nat)
    (heightPercent y : Q) :
  (index < numTracks)%nat ->
  0 <= heightPercent ->
  heightPercent * ofNat numTracks <= 100 ->
  let trackHeight := ofNat (height rc) / ofNat numTracks in
  let centre := (ofNat index + (1 # 2)) * trackHeight in
  centre - heightPercentToPixels rc heightPercent / 2 <= y
    <= centre + heightPercentToPixels rc heightPercent / 2 ->
  ofNat index * trackHeight <= y <= (ofNat index + 1) * trackHeight
  /\ 0 <= y <= ofNat (height rc).
Proof.
  intros Hi H0 Hn trackHeight centre Hy.
  assert (Hnum : 0 < ofNat numTracks) by (apply ofNat_pos; lia).
  pose proof (ofNat_nonneg (height rc)) as Hh.
  pose proof (ofNat_nonneg index) as Hidx.
  assert (Hidx1 : ofNat index + 1 <= ofNat numTracks).
  { rewrite <- ofNat_S. unfold ofNat. rewrite <- Zle_Qle. lia. }
  assert (Hth : 0 <= trackHeight)
    by (apply Qle_shift_div_l; [exact Hnum | lra]).
  assert (Hpix : heightPercentToPixels rc heightPercent / 2
                 <= trackHeight / 2).
  { unfold heightPercentToPixels, trackHeight.
    set (h := ofNat (height rc)) in *. set (n := ofNat numTracks) in *.
    assert (E : heightPercent / 100 * h / 2
                == (heightPercent * n) * (h / n) / 200) by (field; lra).
    assert (E2 : h / n / 2 == 100 * (h / n) / 200) by (field; lra).
    rewrite E, E2. apply Qmult_le_compat_r; [| discriminate].
    apply Qmult_le_compat_r; [exact Hn |].
    apply Qle_shift_div_l; [exact Hnum | lra]. }
  assert (Hband : ofNat index * trackHeight <= y
                  <= (ofNat index + 1) * trackHeight).
  { assert (Ec : centre == ofNat index * trackHeight + trackHeight / 2)
      by (unfold centre; field).
    assert (E1 : (ofNat index + 1) * trackHeight
                 == ofNat index * trackHeight + trackHeight) by ring.
    rewrite Ec in Hy. rewrite E1. clear Ec E1 Hidx1.
    revert Hy Hpix Hth.
    generalize (heightPercentToPixels rc heightPercent).
    generalize (ofNat index * trackHeight). generalize trackHeight.
    intros th it p Hy Hpix Hth. unfold Qdiv in *.
    change (/ 2) with (1 # 2) in *. split; lra. }
  split; [exact Hband |].
  assert (Htop : (ofNat index + 1) * trackHeight
                 <= ofNat numTracks * trackHeight)
    by (apply Qmult_le_compat_r; assumption).
  assert (Hall : ofNat numTracks * trackHeight == ofNat (height rc))
    by (unfold trackHeight; field; lra).
  assert (Hbot : 0 <= ofNat index * trackHeight)
    by (apply Qmult_le_0_compat; assumption).
  revert Hband Htop Hall Hbot.
  generalize (ofNat index * trackHeight).
  generalize ((ofNat index + 1) * trackHeight).
  generalize (ofNat numTracks * trackHeight).
  intros a b c Hband Htop Hall Hbot. clear - Hband Htop Hall Hbot.
  split; lra.
Qed.

(** The additive layout stays within [maxAmplitude] of its centre line. *)
Lemma renderTracksAdditive_span (rc : RenderContext)
    (tracks : list AudioTrack) (currentTime centerY maxAmplitude : Q)
    (amplitudeMode : AmplitudeMode) (globalMaxAmplitude : Q)
    (smoothingLevel : nat) (windowDuration : Q) (s : Stroke) :
  0 <= maxAmplitude ->
  In s (renderTracksAdditive rc tracks currentTime centerY maxAmplitude
          amplitudeMode globalMaxAmplitude smoothingLevel windowDuration) ->
  centerY - maxAmplitude <= yFrom s <= centerY + maxAmplitude
  /\ centerY - maxAmplitude <= yTo s <= centerY + maxAmplitude.
Proof.
  intros Hmax Hs. unfold renderTracksAdditive in Hs.
  apply in_flat_map in Hs. destruct Hs as (x & _ & Hs).
  set (amplitudes :=
         columnAmplitudes
           (map (fun track =>
                   getWaveformDataForTimeWindow track currentTime
                     windowDuration (width rc) smoothingLevel) tracks)
           amplitudeMode globalMaxAmplitude x) in *.
  assert (Hnn : forall a, In a amplitudes -> 0 <= a)
    by (intros a Ha; now apply columnAmplitudes_nonneg in Ha).
  destruct (columnScaleFactor_spec amplitudes) as (_ & _ & Hpos & Hle).
  specialize (Hle Hnn).
  assert (Hsf : 0 <= columnScaleFactor amplitudes) by lra.
  assert (Htot : sumQ amplitudes * columnScaleFactor amplitudes * maxAmplitude
                 <= maxAmplitude).
  { setoid_replace maxAmplitude with (1 * maxAmplitude) at 2 by ring.
    apply Qmult_le_compat_r; assumption. }
  apply in_app_or in Hs. destruct Hs as [Hs | Hs].
  - destruct (stackUpward_spec x maxAmplitude _ Hmax Hsf _ centerY Hnn)
      as [_ Hall].
    destruct (Hall s Hs) as (_ & Hlen & Hlo & Hhi).
    repeat split; lra.
  - destruct (stackDownward_spec x maxAmplitude _ Hmax Hsf _ centerY Hnn)
      as [_ Hall].
    destruct (Hall s Hs) as (_ & Hlen & Hlo & Hhi).
    repeat split; lra.
Qed.

(** **** X13.  Nothing is drawn outside the surface.  When the amplitudes
    are normalised, or all samples lie in [[-1, 1]], and [heightPercent] is
    at most 50 in the overlay and the additive layout, at most
    [100 / numTracks] in the stacked layout, every waveform stroke of
    [render] has its column below [width] and both its ends between 0 and
    [height]. *)
Theorem render_inside_canvas (rc : RenderContext) (tracks : list AudioTrack)
    (currentTime : Q) (layout : LayoutMode) (amplitudeMode : AmplitudeMode)
    (heightPercent : Q) (smoothingLevel : nat) (windowDuration : Q) :
  amplitudeMode = Normalized
  \/ Forall (fun t => Forall (fun v => Qabs v <= 1) (channel0 (buffer t)))
       tracks ->
  0 <= heightPercent ->
  match layout with
  | Stacked => heightPercent * ofNat (List.length tracks) <= 100
  | _ => heightPercent <= 50
  end ->
  forall s,
    In s (render rc tracks currentTime layout amplitudeMode heightPercent
            smoothingLevel windowDuration) ->
    (strokeX s < width rc)%nat
    /\ 0 <= yFrom s <= ofNat (height rc)
    /\ 0 <= yTo s <= ofNat (height rc).
Proof.
  intros Hmode H0 Hhp s Hs.
  split; [now apply render_reveal in Hs |].
  assert (Hpix : 0 <= heightPercentToPixels rc heightPercent)
    by now apply heightPercentToPixels_nonneg.
  assert (Hcentre : 2 * centerY rc == ofNat (height rc))
    by (unfold centerY; field).
  unfold render in Hs. destruct tracks as [| t0 rest]; [contradiction |].
  set (tracks := t0 :: rest) in *.
  destruct layout.
  - apply in_flat_map in Hs. destruct Hs as (track & Ht & Hs).
    pose proof (heightPercentToPixels_half rc heightPercent
                  (conj H0 Hhp)) as Hhalf.
    destruct (renderTrack_span rc tracks track currentTime (centerY rc)
                (heightPercentToPixels rc heightPercent) amplitudeMode
                smoothingLevel windowDuration s Ht Hmode Hpix Hs)
      as (_ & Hf & Ht' & _).
    repeat split; lra.
  - pose proof (heightPercentToPixels_half rc heightPercent
                  (conj H0 Hhp)) as Hhalf.
    destruct (renderTracksAdditive_span rc tracks currentTime (centerY rc)
                (heightPercentToPixels rc heightPercent) amplitudeMode _
                smoothingLevel windowDuration s Hpix Hs) as [Hf Ht'].
    repeat split; lra.
  - apply renderTracksStacked_In in Hs.
    destruct Hs as (index & track & Hnth & Hs).
    assert (Hidx : (index < List.length tracks)%nat)
      by (apply nth_error_Some; congruence).
    assert (Ht : In track tracks) by (eapply nth_error_In; eassumption).
    assert (Hpix2 : 0 <= heightPercentToPixels rc heightPercent / 2)
      by (apply Qle_shift_div_l; [reflexivity | lra]).
    destruct (renderTrack_span rc tracks track currentTime _ _ amplitudeMode
                smoothingLevel windowDuration s Ht Hmode Hpix2 Hs)
      as (_ & Hf & Ht' & _).
    split.
    + apply (band_contains rc (List.length tracks) index heightPercent
               (yFrom s) Hidx H0 Hhp). split; lra.
    + apply (band_contains rc (List.length tracks) index heightPercent
               (yTo s) Hidx H0 Hhp). split; lra.
  - contradiction.
  - contradiction.
Qed.

Lemma render_inside_canvas_witness :
  Forall (fun s =>
            (strokeX s < 4)%nat
            /\ 0 <= yFrom s <= 10 /\ 0 <= yTo s <= 10)
    (render (mkRenderContext 4 10) [demoTrack; monoTrack] 1 Stacked
       Normalized 50 1 1).
Proof.
  apply Forall_forall.
  apply (render_inside_canvas (mkRenderContext 4 10) [demoTrack; monoTrack]
           1 Stacked Normalized 50 1 1).
  - left. reflexivity.
  - discriminate.
  - discriminate.
Defined.

(** A stroke of a track is symmetric about the centre line of the track,
    whatever the amplitudes; it runs downwards for a height that is not
    negative. *)
Lemma renderTrack_symmetric (rc : RenderContext) (track : AudioTrack)
    (currentTime centerY maxAmplitude : Q) (amplitudeMode : AmplitudeMode)
    (globalMaxAmplitude : Q) (level : nat) (windowDuration : Q) (s : Stroke) :
  In s (renderTrackRealtimeWithAmplitude rc track currentTime centerY
          maxAmplitude amplitudeMode globalMaxAmplitude level
          windowDuration) ->
  yFrom s + yTo s == 2 * centerY
  /\ (0 <= maxAmplitude -> yFrom s <= yTo s).
Proof.
  intros Hs. unfold renderTrackRealtimeWithAmplitude in Hs.
  apply In_map_seq in Hs. destruct Hs as (x & Hx & ->). cbn [yFrom yTo].
  split; [ring |]. intros Hmax.
  rewrite getWaveform_length in Hx.
  assert (H0 : 0 <= normalizeAmplitude amplitudeMode globalMaxAmplitude
                      (nth x (getWaveformDataForTimeWindow track currentTime
                                windowDuration (width rc) level) 0)).
  { apply normalizeAmplitude_nonneg.
    apply (getWaveform_nonneg track currentTime windowDuration (width rc)
             level).
    apply nth_In. rewrite getWaveform_length. lia. }
  set (a := normalizeAmplitude _ _ _) in *.
  assert (0 <= a * maxAmplitude) by (apply Qmult_le_0_compat; lra).
  lra.
Qed.

(** **** X14.  In the stacked layout the strokes are exactly those of the
    tracks, track [index] drawn about the middle of band [index] of the
    [numTracks] bands of height [height / numTracks].  Every stroke of a
    track is symmetric about the middle of the band of that track, at every
    height and in every amplitude mode, and runs downwards when
    [heightPercent] is not negative.  When moreover the amplitudes are
    normalised, or all samples lie in [[-1, 1]], and
    [heightPercent <= 100 / numTracks], the stroke stays inside the band of
    its track, so that different tracks meet at most on a band boundary. *)
Theorem stacked_layout_bands (rc : RenderContext) (tracks : list AudioTrack)
    (currentTime : Q) (amplitudeMode : AmplitudeMode)
    (heightPercent : Q) (smoothingLevel : nat) (windowDuration : Q) :
  let numTracks := List.length tracks in
  let trackHeight := ofNat (height rc) / ofNat numTracks in
  let globalMaxAmplitude :=
    if isNormalized amplitudeMode
    then calculateGlobalMaxAmplitude rc tracks currentTime windowDuration
    else 1 in
  let strokesOf (index : nat) (track : AudioTrack) : list Stroke :=
    renderTrackRealtimeWithAmplitude rc track currentTime
      ((ofNat index + (1 # 2)) * trackHeight)
      (heightPercentToPixels rc heightPercent / 2) amplitudeMode
      globalMaxAmplitude smoothingLevel windowDuration in
  (forall s,
     In s (render rc tracks currentTime Stacked amplitudeMode heightPercent
             smoothingLevel windowDuration)
     <-> exists index track,
           nth_error tracks index = Some track /\ In s (strokesOf index track))
  /\ (forall index track s,
        nth_error tracks index = Some track ->
        In s (strokesOf index track) ->
        yFrom s + yTo s == 2 * ((ofNat index + (1 # 2)) * trackHeight)
        /\ (0 <= heightPercent -> yFrom s <= yTo s)
        /\ (amplitudeMode = Normalized
            \/ Forall (fun t =>
                         Forall (fun v => Qabs v <= 1) (channel0 (buffer t)))
                 tracks ->
            0 <= heightPercent ->
            heightPercent * ofNat numTracks <= 100 ->
            ofNat index * trackHeight <= yFrom s
            /\ yTo s <= (ofNat index + 1) * trackHeight)).
Proof.
  intros numTracks trackHeight globalMaxAmplitude strokesOf.
  subst strokesOf globalMaxAmplitude trackHeight numTracks. split.
  - intros s. unfold render. destruct tracks as [| t0 rest].
    + split; [contradiction |].
      intros (index & track & Hnth & _). destruct index; discriminate.
    + apply renderTracksStacked_In.
  - intros index track s Hnth Hs.
    assert (Hpix2 : 0 <= heightPercent ->
                    0 <= heightPercentToPixels rc heightPercent / 2).
    { intros H0. apply Qle_shift_div_l; [reflexivity |].
      pose proof (heightPercentToPixels_nonneg rc heightPercent H0). lra. }
    destruct (renderTrack_symmetric rc track currentTime _ _ amplitudeMode _
                smoothingLevel windowDuration s Hs) as [Hsym Hdown].
    split; [exact Hsym |]. split; [intros H0; apply Hdown, Hpix2, H0 |].
    intros Hmode H0 Hhp.
    assert (Hidx : (index < List.length tracks)%nat)
      by (apply nth_error_Some; congruence).
    assert (Ht : In track tracks) by (eapply nth_error_In; eassumption).
    destruct (renderTrack_span rc tracks track currentTime _ _ amplitudeMode
                smoothingLevel windowDuration s Ht Hmode (Hpix2 H0) Hs)
      as (_ & Hf & Ht' & _).
    destruct (band_contains rc (List.length tracks) index heightPercent
                (yFrom s) Hidx H0 Hhp) as [[Hlo _] _]; [split; lra |].
    destruct (band_contains rc (List.length tracks) index heightPercent
                (yTo s) Hidx H0 Hhp) as [[_ Hhi] _]; [split; lra |].
    split; [exact Hlo | exact Hhi].
Qed.

Lemma stacked_layout_bands_witness :
  Forall (fun s =>
            exists index track,
              nth_error [demoTrack; monoTrack; stereoTrack] index
              = Some track
              /\ yFrom s + yTo s
                 == 2 * ((ofNat index + (1 # 2)) * (ofNat 12 / ofNat 3)))
    (render (mkRenderContext 4 12) [demoTrack; monoTrack; stereoTrack] 1
       Stacked Normalized 50 1 1).
Proof.
  apply Forall_forall. intros s Hs.
  destruct (stacked_layout_bands (mkRenderContext 4 12)
              [demoTrack; monoTrack; stereoTrack] 1 Normalized 50 1 1)
    as [Hiff Hband].
  apply Hiff in Hs. destruct Hs as (index & track & Hnth & Hs).
  exists index, track. split; [exact Hnth |].
  exact (proj1 (Hband index track s Hnth Hs)).
Defined.

(** ** The shape of an additive column *)

Lemma stack_mirrored (x : nat) (maxAmplitude scaleFactor : Q)
    (amplitudes : list Q) (centerY : Q) : forall up down,
  up + down == 2 * centerY ->
  Forall2 (mirrored centerY)
    (stackUpward x maxAmplitude scaleFactor amplitudes up)
    (stackDownward x maxAmplitude scaleFactor amplitudes down).
Proof.
  induction amplitudes as [| a rest IH]; intros up down Hsum; [constructor |].
  cbn [stackUpward stackDownward].
  destruct (Qlt_le_dec (1 # 2) (a * scaleFactor * maxAmplitude)).
  - constructor.
    + unfold mirrored. cbn [strokeX yFrom yTo].
      split; [reflexivity |]. split; [exact Hsum |]. rewrite <- Hsum. ring.
    + apply IH. rewrite <- Hsum. ring.
  - now apply IH.
Qed.

Lemma stackUpward_chained (x : nat) (maxAmplitude scaleFactor : Q)
    (amplitudes : list Q) : forall currentY,
  chained currentY
    (stackUpward x maxAmplitude scaleFactor amplitudes currentY).
Proof.
  induction amplitudes as [| a rest IH]; intros currentY; [exact I |].
  cbn [stackUpward].
  destruct (Qlt_le_dec (1 # 2) (a * scaleFactor * maxAmplitude));
    [| apply IH].
  cbn [chained yFrom yTo]. split; [reflexivity | apply IH].
Qed.

Lemma stackDownward_chained (x : nat) (maxAmplitude scaleFactor : Q)
    (amplitudes : list Q) : forall currentY,
  chained currentY
    (stackDownward x maxAmplitude scaleFactor amplitudes currentY).
Proof.
  induction amplitudes as [| a rest IH]; intros currentY; [exact I |].
  cbn [stackDownward].
  destruct (Qlt_le_dec (1 # 2) (a * scaleFactor * maxAmplitude));
    [| apply IH].
  cbn [chained yFrom yTo]. split; [reflexivity | apply IH].
Qed.

Lemma stackUpward_count (x : nat) (maxAmplitude scaleFactor : Q)
    (amplitudes : list Q) : forall currentY,
  List.length (stackUpward x maxAmplitude scaleFactor amplitudes currentY)
  = List.length
      (filter (fun a =>
                 if Qlt_le_dec (1 # 2) (a * scaleFactor * maxAmplitude)
                 then true else false)
              amplitudes).
Proof.
  induction amplitudes as [| a rest IH]; intros currentY; [reflexivity |].
  cbn [stackUpward filter].
  destruct (Qlt_le_dec (1 # 2) (a * scaleFactor * maxAmplitude));
    cbn [List.length]; now rewrite IH.
Qed.

(** **** X15.  A column of the additive layout is a gap-free bar,
    symmetric about the centre line: the segments above the centre are
    drawn end to end starting at [centerY], so are those below, the lower
    half is the mirror image of the upper half, segment for segment, and
    each half has one segment for every track whose scaled amplitude
    exceeds half a pixel, no others. *)
Theorem additive_column_shape (x : nat) (maxAmplitude scaleFactor : Q)
    (amplitudes : list Q) (centerY : Q) :
  let up := stackUpward x maxAmplitude scaleFactor amplitudes centerY in
  let down := stackDownward x maxAmplitude scaleFactor amplitudes centerY in
  chained centerY up
  /\ chained centerY down
  /\ Forall2 (mirrored centerY) up down
  /\ List.length up
     = List.length
         (filter (fun a =>
                    if Qlt_le_dec (1 # 2) (a * scaleFactor * maxAmplitude)
                    then true else false)
                 amplitudes)
  /\ List.length down = List.length up.
Proof.
  intros up down.
  assert (Hm : Forall2 (mirrored centerY) up down)
    by (apply stack_mirrored; ring).
  split; [apply stackUpward_chained |].
  split; [apply stackDownward_chained |].
  split; [exact Hm |].
  split; [apply stackUpward_count |].
  symmetry. eapply Forall2_length. exact Hm.
Qed.


(** ** The spectrum bars *)

Section SpectrumBarsProperties.
Local Open Scope R_scope.

Lemma ln_10_pos : 0 < ln 10.
Proof. rewrite <- ln_1. apply ln_increasing; lra. Qed.

Lemma ln_mono (x y : R) : 0 < x -> x <= y -> ln x <= ln y.
Proof.
  intros Hx [Hlt | ->]; [| lra]. apply Rlt_le. now apply ln_increasing.
Qed.

Lemma ln_mono_inv (x y : R) : 0 < x -> 0 < y -> ln x <= ln y -> x <= y.
Proof.
  intros Hx Hy H. destruct (Rle_or_lt x y) as [Hle | Hgt]; [exact Hle |].
  pose proof (ln_increasing y x Hy Hgt). lra.
Qed.

Lemma log10_nonneg (x : R) : 1 <= x -> 0 <= log10 x.
Proof.
  intros H. unfold log10. apply Rmult_le_pos.
  - rewrite <- ln_1. apply ln_mono; lra.
  - apply Rlt_le, Rinv_0_lt_compat, ln_10_pos.
Qed.

Lemma log10_1 : log10 1 = 0.
Proof. unfold log10. rewrite ln_1. field. apply Rgt_not_eq, ln_10_pos. Qed.

Lemma log10_le_1 (x : R) : 0 < x -> (log10 x <= 1 <-> x <= 10).
Proof.
  intros Hx. unfold log10. pose proof ln_10_pos as H10. split.
  - intros H. apply ln_mono_inv; [exact Hx | lra |].
    apply (Rmult_le_compat_r (ln 10)) in H; [| lra].
    replace (ln x / ln 10 * ln 10) with (ln x) in H by (field; lra). lra.
  - intros H. apply (Rmult_le_reg_r (ln 10)); [exact H10 |].
    replace (ln x / ln 10 * ln 10) with (ln x) by (field; lra).
    rewrite Rmult_1_l. apply ln_mono; assumption.
Qed.

Lemma bar_position (w i n : nat) :
  (i < n)%nat ->
  0 <= INR i * (INR w / INR n)
  /\ ((0 < w)%nat -> INR i * (INR w / INR n) < INR w).
Proof.
  intros Hi.
  assert (Hn : 0 < INR n) by (apply lt_0_INR; lia).
  pose proof (pos_INR i) as Hi0. pose proof (pos_INR w) as Hw0.
  assert (Hin : INR i < INR n) by now apply lt_INR.
  assert (E : INR i * (INR w / INR n) = INR i / INR n * INR w)
    by (field; lra).
  rewrite E.
  assert (Hfrac : 0 <= INR i / INR n < 1).
  { split.
    - apply Rmult_le_pos; [exact Hi0 |]. apply Rlt_le.
      now apply Rinv_0_lt_compat.
    - apply (Rmult_lt_reg_r (INR n)); [exact Hn |].
      replace (INR i / INR n * INR n) with (INR i) by (field; lra). lra. }
  split.
  - apply Rmult_le_pos; [apply Hfrac | exact Hw0].
  - intros Hw. assert (0 < INR w) by (apply lt_0_INR; lia).
    rewrite <- (Rmult_1_l (INR w)) at 2.
    apply Rmult_lt_compat_r; [assumption | apply Hfrac].
Qed.

Lemma nth_map_seq_any {A : Type} (f : nat -> A) (n i : nat) (d : A) :
  (i < n)%nat -> nth i (map f (seq 0 n)) d = f i.
Proof.
  intros Hi. rewrite (nth_indep _ d (f 0%nat))
    by (now rewrite length_map, length_seq).
  rewrite (map_nth f). now rewrite seq_nth.
Qed.

End SpectrumBarsProperties.

(** **** X16.  [renderTrackSpectrum] draws 1024 bars, bar [i] at
    [x = i * width / 1024], all in [[0, width)], each starting on the
    baseline.  For a height percentage that is not negative no bar points
    below the baseline, and when the window holds fewer than 2048 samples
    all bars have height 0.  The bar heights are not clamped: bar [i] is at
    most [maxBarHeight] long if and only if its magnitude is at most
    0.09. *)
Theorem spectrum_bars (rc : RenderContext) (track : AudioTrack)
    (currentTime : Q) (baseY : R) (heightPercent windowDuration : Q) :
  0 <= heightPercent ->
  let spectrumData :=
    getFrequencySpectrumForTimeWindow track currentTime windowDuration 2048 in
  let maxBarHeight := Q2R (heightPercentToPixels rc heightPercent) in
  let bars :=
    renderTrackSpectrum rc track currentTime baseY heightPercent
      windowDuration in
  List.length bars = 1024%nat
  /\ map barX bars
     = map (fun i => (INR i * (INR (width rc) / INR 1024))%R) (seq 0 1024)
  /\ Forall (fun b =>
               barFrom b = baseY
               /\ (barTo b <= baseY)%R
               /\ (0 <= barX b)%R
               /\ ((0 < width rc)%nat -> (barX b < INR (width rc))%R))
       bars
  /\ ((snd (spectrumSampleWindow track currentTime windowDuration)
       - fst (spectrumSampleWindow track currentTime windowDuration)
       < 2048)%Z ->
      Forall (fun b => barTo b = baseY) bars)
  /\ ((0 < maxBarHeight)%R ->
      forall i d, (i < 1024)%nat ->
        (baseY - barTo (nth i bars d) <= maxBarHeight)%R
        <-> (nth i spectrumData 0%R <= 9 / 100)%R).
Proof.
  intros Hhp spectrumData maxBarHeight bars.
  assert (Hlen : List.length spectrumData = 1024%nat)
    by (unfold spectrumData; now rewrite spectrum_length).
  assert (Hmax : (0 <= maxBarHeight)%R).
  { unfold maxBarHeight. rewrite <- RMicromega.Q2R_0.
    apply Qreals.Qle_Rle. now apply heightPercentToPixels_nonneg. }
  assert (Hmag : forall i, (0 <= nth i spectrumData 0%R)%R).
  { intros i.
    pose proof (spectrum_nonneg track currentTime windowDuration 2048) as Hnn.
    fold spectrumData in Hnn. rewrite Forall_forall in Hnn.
    destruct (Nat.lt_ge_cases i (List.length spectrumData)) as [Hlt | Hge].
    - apply Hnn. now apply nth_In.
    - rewrite nth_overflow by exact Hge. lra. }
  assert (Hbars : bars
                  = map (fun i =>
                           mkBar (INR i * (INR (width rc) / INR 1024))%R
                             baseY
                             (baseY
                              - log10 (1 + nth i spectrumData 0 * 100)
                                * maxBarHeight)%R)
                        (seq 0 1024)).
  { unfold bars, renderTrackSpectrum. fold spectrumData.
    rewrite Hlen. reflexivity. }
  split; [rewrite Hbars; now rewrite length_map, length_seq |].
  split; [rewrite Hbars, map_map; reflexivity |].
  split; [| split].
  - rewrite Hbars. apply Forall_forall. intros b Hb.
    apply in_map_iff in Hb. destruct Hb as (i & <- & Hi).
    apply in_seq in Hi. cbn [barFrom barTo barX].
    destruct (bar_position (width rc) i 1024) as [Hx0 Hxw]; [lia |].
    split; [reflexivity |]. split; [| split; assumption].
    assert (0 <= log10 (1 + nth i spectrumData 0 * 100) * maxBarHeight)%R.
    { apply Rmult_le_pos; [| exact Hmax]. apply log10_nonneg.
      pose proof (Hmag i). lra. }
    lra.
  - intros Hshort. rewrite Hbars. apply Forall_forall. intros b Hb.
    apply in_map_iff in Hb. destruct Hb as (i & <- & Hi).
    cbn [barTo].
    assert (Hzero : nth i spectrumData 0%R = 0%R).
    { unfold spectrumData, getFrequencySpectrumForTimeWindow.
      destruct (spectrumSampleWindow track currentTime windowDuration)
        as [startSample endSample]. cbn [fst snd] in Hshort.
      replace (endSample - startSample <? Z.of_nat 2048)%Z with true
        by (symmetry; apply Z.ltb_lt; lia).
      destruct (Nat.lt_ge_cases i (2048 / 2)) as [Hlt | Hge].
      - now apply nth_repeat_lt.
      - apply nth_overflow. now rewrite repeat_length. }
    rewrite Hzero, Rmult_0_l, Rplus_0_r, log10_1. ring.
  - intros Hpos i d Hi. rewrite Hbars.
    rewrite nth_map_seq_any by exact Hi. cbn [barTo].
    set (m := nth i spectrumData 0%R). pose proof (Hmag i) as Hm. fold m in Hm.
    replace (baseY - (baseY - log10 (1 + m * 100) * maxBarHeight))%R
      with (log10 (1 + m * 100) * maxBarHeight)%R by ring.
    assert (Hone : (log10 (1 + m * 100) <= 1 <-> m <= 9 / 100)%R).
    { rewrite log10_le_1 by lra. split; intros; lra. }
    rewrite <- Hone. split; intros H.
    + apply (Rmult_le_reg_r maxBarHeight); [exact Hpos | lra].
    + rewrite <- (Rmult_1_l maxBarHeight) at 2.
      apply Rmult_le_compat_r; [exact Hmax | exact H].
Qed.

Lemma spectrum_bars_witness :
  List.length (renderTrackSpectrum forExport demoTrack 1 1080 50 1)
  = 1024%nat.
Proof.
  apply (spectrum_bars forExport demoTrack 1 1080%R 50 1).
  discriminate.
Defined.


(* ================================================================== *)
(** * Properties of the time labels and conversions *)
(* ================================================================== *)

Lemma Qfloor_unique (x : Q) (z : Z) :
  inject_Z z <= x < inject_Z z + 1 -> Qfloor x = z.
Proof.
  intros [Hlo Hhi].
  pose proof (Qfloor_le x) as H1. pose proof (Qlt_floor x) as H2.
  rewrite inject_Z_plus in H2. change (inject_Z 1) with 1 in H2.
  assert (A : inject_Z (Qfloor x) < inject_Z (z + 1))
    by (rewrite inject_Z_plus; change (inject_Z 1) with 1; lra).
  assert (B : inject_Z z < inject_Z (Qfloor x + 1))
    by (rewrite inject_Z_plus; change (inject_Z 1) with 1; lra).
  rewrite <- Zlt_Qlt in A, B. lia.
Qed.

(** Minutes and seconds of a time that is not negative. *)
Lemma minutes_seconds (seconds : Q) :
  0 <= seconds ->
  let mins := Qfloor (seconds / 60) in
  let secs := Qfloor (remainder seconds 60) in
  (mins * 60 + secs = Qfloor seconds)%Z
  /\ (0 <= mins)%Z
  /\ (0 <= secs <= 59)%Z.
Proof.
  intros Hs mins secs.
  assert (Hq : 0 <= seconds / 60)
    by (apply Qle_shift_div_l; [reflexivity | lra]).
  assert (Hm0 : (0 <= mins)%Z) by (now apply Qfloor_nonneg).
  pose proof (Qfloor_le (seconds / 60)) as M1.
  pose proof (Qlt_floor (seconds / 60)) as M2.
  fold mins in M1, M2.
  rewrite inject_Z_plus in M2. change (inject_Z 1) with 1 in M2.
  unfold Qdiv in M1, M2. change (/ 60) with (1 # 60) in M1, M2.
  assert (Hrem : remainder seconds 60 == seconds - 60 * inject_Z mins).
  { unfold remainder. rewrite truncate_nonneg by exact Hq. reflexivity. }
  pose proof (Qfloor_le seconds) as S1. pose proof (Qlt_floor seconds) as S2.
  rewrite inject_Z_plus in S2. change (inject_Z 1) with 1 in S2.
  assert (Hsecs : secs = (Qfloor seconds - mins * 60)%Z).
  { unfold secs. rewrite (Qfloor_comp _ _ Hrem). apply Qfloor_unique.
    unfold Z.sub. rewrite inject_Z_plus, inject_Z_opp, inject_Z_mult.
    change (inject_Z 60) with 60. split; lra. }
  split; [lia |]. split; [exact Hm0 |].
  assert (A : inject_Z (mins * 60) < inject_Z (Qfloor seconds + 1)).
  { rewrite inject_Z_mult, inject_Z_plus.
    change (inject_Z 60) with 60. change (inject_Z 1) with 1. lra. }
  assert (B : inject_Z (Qfloor seconds) < inject_Z ((mins + 1) * 60)).
  { rewrite inject_Z_mult, inject_Z_plus.
    change (inject_Z 60) with 60. change (inject_Z 1) with 1. lra. }
  rewrite <- Zlt_Qlt in A, B. lia.
Qed.

Lemma padStart_two_digits (n : nat) :
  (n < 100)%nat ->
  String.length (padStart (toString (Z.of_nat n)) 2 "0"%char) = 2%nat.
Proof.
  intros H.
  do 100 (destruct n as [| n]; [reflexivity |]). lia.
Qed.

Lemma padStart_one_digit (n : nat) :
  (n < 10)%nat ->
  padStart (toString (Z.of_nat n)) 2 "0"%char
  = String "0"%char (toString (Z.of_nat n)).
Proof.
  intros H.
  do 10 (destruct n as [| n]; [reflexivity |]). lia.
Qed.

Lemma length_append (a b : string) :
  String.length (a ++ b) = (String.length a + String.length b)%nat.
Proof.
  induction a as [| c a IH]; [reflexivity |]. cbn. now rewrite IH.
Qed.

(** **** X17.  The time labels show the whole seconds of a time that is
    not negative, split into minutes and seconds: [mins * 60 + secs] is
    [floor(seconds)] and [secs] is between 0 and 59.  For such a time the
    label the compositor draws is the text [TimeSync.formatTime] returns;
    below 100 minutes it has the five characters [MM:SS], and below 10
    minutes it is [formatDuration] of the CLI with a [0] in front.
    [TimeSync.formatTime] of a negative time is [00:00]. *)
Theorem time_labels (rc : RenderContext) (seconds windowDuration : Q) :
  (0 <= seconds ->
     let mins := Qfloor (seconds / 60) in
     let secs := Qfloor (remainder seconds 60) in
     (mins * 60 + secs = Qfloor seconds)%Z
     /\ (0 <= mins)%Z
     /\ (0 <= secs <= 59)%Z
     /\ fst (renderTimeIndicator rc seconds windowDuration)
        = TimeSync.formatTime seconds
     /\ (seconds < 6000 ->
         String.length (TimeSync.formatTime seconds) = 5%nat)
     /\ (seconds < 600 ->
         TimeSync.formatTime seconds
         = String "0"%char (CLIAudioEngine.formatDuration seconds)))
  /\ (seconds < 0 -> TimeSync.formatTime seconds = "00:00"%string)
  /\ snd (renderTimeIndicator rc seconds windowDuration)
     = (ofNat (width rc) - 10, ofNat (height rc) - 10).
Proof.
  split; [| split].
  - intros Hs mins secs.
    destruct (minutes_seconds seconds Hs) as (Hsum & Hm & Hsec).
    fold mins in Hsum, Hm. fold secs in Hsum, Hsec.
    assert (Hfmt : TimeSync.formatTime seconds
                   = (padStart (toString mins) 2 "0"%char ++ ":"
                      ++ padStart (toString secs) 2 "0"%char)%string).
    { unfold TimeSync.formatTime.
      destruct (Qlt_le_dec seconds 0); [lra | reflexivity]. }
    split; [exact Hsum |]. split; [exact Hm |]. split; [exact Hsec |].
    split; [now rewrite Hfmt |].
    assert (Hsecs2 : String.length (padStart (toString secs) 2 "0"%char)
                     = 2%nat).
    { rewrite <- (Z2Nat.id secs) by lia. apply padStart_two_digits. lia. }
    split.
    + intros Hlim. rewrite Hfmt, !length_append, Hsecs2.
      assert (Hm100 : (mins < 100)%Z).
      { pose proof (Qfloor_le seconds) as S1.
        assert (A : inject_Z (mins * 60 + secs) < inject_Z 6000).
        { rewrite Hsum. change (inject_Z 6000) with 6000. lra. }
        rewrite <- Zlt_Qlt in A. lia. }
      rewrite <- (Z2Nat.id mins) by lia.
      rewrite padStart_two_digits by lia. reflexivity.
    + intros Hlim. rewrite Hfmt. unfold CLIAudioEngine.formatDuration.
      fold mins. fold secs.
      assert (Hm10 : (mins < 10)%Z).
      { pose proof (Qfloor_le seconds) as S1.
        assert (A : inject_Z (mins * 60 + secs) < inject_Z 600).
        { rewrite Hsum. change (inject_Z 600) with 600. lra. }
        rewrite <- Zlt_Qlt in A. lia. }
      rewrite <- (Z2Nat.id mins) by lia.
      rewrite padStart_one_digit by lia. reflexivity.
  - intros Hneg. unfold TimeSync.formatTime.
    destruct (Qlt_le_dec seconds 0); [reflexivity | lra].
  - reflexivity.
Qed.

(** **** X18.  [TimeSync]'s conversions are inverse to each other on a
    track of non-zero duration shown on a canvas of non-zero width, and
    both return 0 instead of dividing by zero; a time within the track
    maps into the canvas.  [clampTime] returns a time in [[0, duration]]
    for a duration that is not negative, leaves a time of that range as it
    is and is idempotent; for a negative duration it returns 0. *)
Theorem timeSync_conversions (time duration canvasWidth pixel : Q) :
  (~ duration == 0 -> ~ canvasWidth == 0 ->
     TimeSync.pixelToTime
       (TimeSync.timeToPixel time duration canvasWidth) canvasWidth duration
     == time
     /\ TimeSync.timeToPixel
          (TimeSync.pixelToTime pixel canvasWidth duration) duration
          canvasWidth
        == pixel)
  /\ (duration == 0 -> TimeSync.timeToPixel time duration canvasWidth = 0)
  /\ (canvasWidth == 0 -> TimeSync.pixelToTime pixel canvasWidth duration = 0)
  /\ (0 <= time <= duration -> 0 <= canvasWidth ->
      0 <= TimeSync.timeToPixel time duration canvasWidth <= canvasWidth)
  /\ (0 <= duration ->
      0 <= TimeSync.clampTime time duration <= duration)
  /\ (0 <= time <= duration -> TimeSync.clampTime time duration == time)
  /\ TimeSync.clampTime (TimeSync.clampTime time duration) duration
     == TimeSync.clampTime time duration
  /\ (duration < 0 -> TimeSync.clampTime time duration == 0).
Proof.
  assert (Hbool : forall x, ~ x == 0 -> Qeq_bool x 0 = false).
  { intros x Hx. destruct (Qeq_bool x 0) eqn:E; [| reflexivity].
    apply Qeq_bool_eq in E. contradiction. }
  assert (Hclamp : forall t, 0 <= duration ->
            0 <= TimeSync.clampTime t duration <= duration).
  { intros t Hd. unfold TimeSync.clampTime. split; [apply Q.le_max_l |].
    apply Q.max_lub; [exact Hd | apply Q.le_min_r]. }
  assert (Hid : forall t, 0 <= t <= duration ->
            TimeSync.clampTime t duration == t).
  { intros t [H0 H1]. unfold TimeSync.clampTime.
    rewrite (Q.min_l t duration) by exact H1. now apply Q.max_r. }
  assert (Hneg : forall t, duration < 0 ->
            TimeSync.clampTime t duration == 0).
  { intros t Hd. unfold TimeSync.clampTime. apply Q.max_l.
    eapply Qle_trans; [apply Q.le_min_r | lra]. }
  assert (Hpos : forall d, Qeq_bool d 0 = false -> 0 <= d -> 0 < d).
  { intros d E Hd. apply Qeq_bool_neq in E.
    destruct (Qle_lt_or_eq 0 d Hd) as [Hlt | Heq];
      [exact Hlt | symmetry in Heq; contradiction]. }
  split; [| split; [| split; [| split; [| split; [| split; [| split]]]]]].
  - intros Hd Hw. split.
    + unfold TimeSync.pixelToTime, TimeSync.timeToPixel.
      rewrite !Hbool by assumption. now field.
    + unfold TimeSync.pixelToTime, TimeSync.timeToPixel.
      rewrite !Hbool by assumption. now field.
  - intros Hd. unfold TimeSync.timeToPixel.
    now rewrite (proj2 (Qeq_bool_iff duration 0) Hd).
  - intros Hw. unfold TimeSync.pixelToTime.
    now rewrite (proj2 (Qeq_bool_iff canvasWidth 0) Hw).
  - intros [Ht0 Ht1] Hw. unfold TimeSync.timeToPixel.
    destruct (Qeq_bool duration 0) eqn:E; [split; lra |].
    assert (Hd : 0 < duration) by (apply Hpos; [exact E | lra]).
    split.
    + apply Qmult_le_0_compat; [| assumption].
      apply Qle_shift_div_l; [exact Hd | lra].
    + setoid_replace canvasWidth with (1 * canvasWidth) at 2 by ring.
      apply Qmult_le_compat_r; [| assumption].
      apply Qle_shift_div_r; [exact Hd | lra].
  - exact (Hclamp time).
  - exact (Hid time).
  - destruct (Qlt_le_dec duration 0) as [Hd | Hd].
    + transitivity 0; [now apply Hneg | symmetry; now apply Hneg].
    + apply Hid. now apply Hclamp.
  - exact (Hneg time).
Qed.


(* ================================================================== *)
(** * Properties of the real-time frame driver *)
(* ================================================================== *)

(** The remainder of a time by a positive interval it is not below. *)
Lemma remainder_spec (d i : Q) :
  0 < i -> i <= d ->
  exists q : nat,
    (1 <= q)%nat
    /\ remainder d i == d - i * ofNat q
    /\ 0 <= remainder d i < i.
Proof.
  intros Hi Hd.
  assert (Hq1 : 1 <= d / i) by (apply Qle_shift_div_l; lra).
  assert (Hfl : (1 <= Qfloor (d / i))%Z).
  { change 1%Z with (Qfloor 1). now apply Qfloor_resp_le. }
  pose proof (Qfloor_le (d / i)) as F1. pose proof (Qlt_floor (d / i)) as F2.
  rewrite inject_Z_plus in F2. change (inject_Z 1) with 1 in F2.
  set (z := Qfloor (d / i)) in *.
  assert (Hrem : remainder d i == d - i * inject_Z z).
  { unfold remainder. rewrite truncate_nonneg by lra. reflexivity. }
  assert (Hdi : (d / i) * i == d) by (field; lra).
  assert (L : inject_Z z * i <= d).
  { rewrite <- Hdi. apply Qmult_le_compat_r; lra. }
  assert (U : d < (inject_Z z + 1) * i).
  { rewrite <- Hdi. apply Qmult_lt_compat_r; lra. }
  exists (Z.to_nat z). split; [lia |].
  unfold ofNat. rewrite Z2Nat.id by lia.
  split; [exact Hrem |]. rewrite Hrem.
  revert L U. generalize (inject_Z z). intros c L U.
  assert (E1 : d - i * c == d - c * i) by ring.
  assert (E2 : (c + 1) * i == c * i + i) by ring.
  rewrite E1. rewrite E2 in U. revert L U. generalize (c * i).
  intros ci L U. split; lra.
Qed.

Section RenderLoopProperties.
Import RenderLoop.

(** One frame request of a running loop. *)
Lemma loop_spec (st : State) (now : Q) :
  isRunning st = true ->
  0 < frameInterval st ->
  lastFrameTime st <= now ->
  let st' := fst (loop st now) in
  isRunning st' = true
  /\ frameInterval st' = frameInterval st
  /\ lastFrameTime st' <= now
  /\ match snd (loop st now) with
     | None => st' = st
     | Some delta =>
         frameInterval st / 1000 <= delta
         /\ delta == (now - lastFrameTime st) / 1000
         /\ now - frameInterval st < lastFrameTime st'
         /\ exists q : nat,
              (1 <= q)%nat
              /\ lastFrameTime st'
                 == lastFrameTime st + ofNat q * frameInterval st
     end.
Proof.
  intros Hrun Hpos Hnow. unfold loop. rewrite Hrun. cbn [negb].
  destruct (Qlt_le_dec (now - lastFrameTime st) (frameInterval st))
    as [Hlt | Hge]; cbn [fst snd].
  - repeat split; assumption.
  - destruct (remainder_spec (now - lastFrameTime st) (frameInterval st)
                Hpos Hge) as (q & Hq & Hrem & Hr0 & Hr1).
    assert (Hlast : forall st'',
              lastFrameTime st''
              = now - remainder (now - lastFrameTime st) (frameInterval st) ->
              lastFrameTime st'' <= now
              /\ now - frameInterval st < lastFrameTime st''
              /\ lastFrameTime st''
                 == lastFrameTime st + ofNat q * frameInterval st).
    { intros st'' ->. split; [lra |]. split; [lra |]. rewrite Hrem. ring. }
    destruct (Qlt_le_dec (now - fpsUpdateTime st) 1000);
      cbn [isRunning frameInterval lastFrameTime];
      (destruct (Hlast (mkState true
                          (now - remainder (now - lastFrameTime st)
                                   (frameInterval st))
                          0 0 0 0 0) eq_refl) as (A & B & C);
       cbn [lastFrameTime] in A, B, C;
       split; [reflexivity |]; split; [reflexivity |];
       split; [exact A |]; split;
       [apply Qmult_le_compat_r; [exact Hge | discriminate] |];
       split; [reflexivity |]; split; [exact B |];
       exists q; split; [exact Hq | exact C]).
Qed.

Lemma run_frames_spec : forall (ticks : list Q) (st : State) (t0 : Q),
  isRunning st = true ->
  0 < frameInterval st ->
  lastFrameTime st <= t0 ->
  clockOrder t0 ticks ->
  let st' := fst (run st (map Frame ticks)) in
  let deltas := snd (run st (map Frame ticks)) in
  isRunning st' = true
  /\ frameInterval st' = frameInterval st
  /\ lastFrameTime st' <= last ticks t0
  /\ Forall (fun d => frameInterval st / 1000 <= d) deltas
  /\ exists k : nat,
       (List.length deltas <= k)%nat
       /\ lastFrameTime st'
          == lastFrameTime st + ofNat k * frameInterval st.
Proof.
  induction ticks as [| now rest IH]; intros st t0 Hrun Hpos Ht0 Hord.
  - cbn. repeat split; try assumption; [constructor |].
    exists 0%nat. split; [lia |]. unfold ofNat. cbn. ring.
  - destruct Hord as [Hle Hord].
    assert (Hnow : lastFrameTime st <= now) by lra.
    pose proof (loop_spec st now Hrun Hpos Hnow) as Hloop.
    cbv zeta in Hloop. cbn [map run step].
    destruct (loop st now) as [st1 delta] eqn:Eloop. cbn [fst snd] in Hloop.
    destruct Hloop as (Hrun1 & Hint1 & Hlast1 & Hdelta).
    assert (Hpos1 : 0 < frameInterval st1) by (now rewrite Hint1).
    specialize (IH st1 now Hrun1 Hpos1 Hlast1 Hord). cbv zeta in IH.
    destruct (run st1 (map Frame rest)) as [st2 deltas] eqn:Erun.
    cbn [fst snd] in IH |- *.
    destruct IH as (Hrun2 & Hint2 & Hlast2 & Hall & k & Hk & Hgrid).
    assert (Hlast : last (now :: rest) t0 = last rest now).
    { clear. revert now t0. induction rest as [| a rest IH]; intros now t0;
        [reflexivity |].
      change (last (now :: a :: rest) t0) with (last (a :: rest) t0).
      now rewrite !IH. }
    rewrite Hlast.
    split; [exact Hrun2 |]. split; [congruence |]. split; [exact Hlast2 |].
    rewrite Hint1 in Hall, Hgrid.
    destruct delta as [d |].
    + destruct Hdelta as (Hd & _ & _ & q & Hq & Hstep). split.
      * constructor; assumption.
      * exists (q + k)%nat. split; [cbn [List.length]; lia |].
        rewrite Hgrid, Hstep. unfold ofNat.
        rewrite Nat2Z.inj_add, inject_Z_plus. ring.
    + subst st1. split; [exact Hall |].
      exists k. split; [exact Hk | exact Hgrid].
Qed.

(** [setTargetFPS] keeps the cap between 15 and 60 frames per second. *)
Lemma setTargetFPS_range (st : State) (fps' : Q) :
  15 <= targetFPS (setTargetFPS st fps') <= 60
  /\ frameInterval (setTargetFPS st fps')
     = 1000 / targetFPS (setTargetFPS st fps').
Proof.
  unfold setTargetFPS. cbn [targetFPS frameInterval]. split; [| reflexivity].
  split; [apply Q.le_max_l |].
  apply Q.max_lub; [discriminate | apply Q.le_min_l].
Qed.

End RenderLoopProperties.

(** **** X19.  The frame cap.  A running loop with a positive frame
    interval, asked for frames at clock values that do not run backwards,
    renders at most one frame per interval: [lastFrameTime] only moves
    along the grid [lastFrameTime + k * frameInterval], by at least one
    grid step per rendered frame, and never ahead of the clock, so the
    number of rendered frames times the interval is at most the time that
    has passed.  Every delta handed to the callback is at least one
    interval, in seconds. *)
Theorem renderLoop_frame_cap (st : RenderLoop.State) (ticks : list Q) :
  RenderLoop.isRunning st = true ->
  0 < RenderLoop.frameInterval st ->
  clockOrder (RenderLoop.lastFrameTime st) ticks ->
  let st' := fst (RenderLoop.run st (map RenderLoop.Frame ticks)) in
  let deltas := snd (RenderLoop.run st (map RenderLoop.Frame ticks)) in
  let now := last ticks (RenderLoop.lastFrameTime st) in
  RenderLoop.isRunning st' = true
  /\ RenderLoop.frameInterval st' = RenderLoop.frameInterval st
  /\ Forall (fun d => RenderLoop.frameInterval st / 1000 <= d) deltas
  /\ (exists k : nat,
        (List.length deltas <= k)%nat
        /\ RenderLoop.lastFrameTime st'
           == RenderLoop.lastFrameTime st
              + ofNat k * RenderLoop.frameInterval st)
  /\ RenderLoop.lastFrameTime st' <= now
  /\ ofNat (List.length deltas) * RenderLoop.frameInterval st
     <= now - RenderLoop.lastFrameTime st.
Proof.
  intros Hrun Hpos Hord st' deltas now.
  destruct (run_frames_spec ticks st (RenderLoop.lastFrameTime st) Hrun Hpos
              ltac:(lra) Hord)
    as (Hrun' & Hint & Hlast & Hall & k & Hk & Hgrid).
  fold st' in Hrun', Hint, Hlast, Hgrid. fold deltas in Hall, Hk.
  fold now in Hlast.
  split; [exact Hrun' |]. split; [exact Hint |]. split; [exact Hall |].
  split; [exists k; split; assumption |]. split; [exact Hlast |].
  assert (Hcount : ofNat (List.length deltas) <= ofNat k)
    by (unfold ofNat; rewrite <- Zle_Qle; lia).
  assert (Hmul : ofNat (List.length deltas) * RenderLoop.frameInterval st
                 <= ofNat k * RenderLoop.frameInterval st)
    by (apply Qmult_le_compat_r; lra).
  rewrite Hgrid in Hlast. lra.
Qed.

Lemma renderLoop_frame_cap_witness :
  ofNat
    (List.length
       (snd (RenderLoop.run
               (RenderLoop.mkState true 0 0 0 0 60 (1000 / 60))
               (map RenderLoop.Frame [10; 20; 40]))))
  * (1000 / 60)
  <= 40 - 0.
Proof.
  apply (renderLoop_frame_cap
           (RenderLoop.mkState true 0 0 0 0 60 (1000 / 60)) [10; 20; 40]).
  - reflexivity.
  - reflexivity.
  - cbn [clockOrder RenderLoop.lastFrameTime].
    repeat split; discriminate.
Defined.

Section RenderLoopInvariant.
Import RenderLoop.

Lemma step_keeps_cap (st : State) (e : Event) :
  15 <= targetFPS st <= 60 /\ frameInterval st == 1000 / targetFPS st ->
  15 <= targetFPS (fst (step st e)) <= 60
  /\ frameInterval (fst (step st e)) == 1000 / targetFPS (fst (step st e)).
Proof.
  intros Hinv.
  assert (Hloop : forall s now,
            targetFPS (fst (loop s now)) = targetFPS s
            /\ frameInterval (fst (loop s now)) = frameInterval s).
  { intros s now. unfold loop.
    destruct (negb (isRunning s)); [now split |].
    destruct (Qlt_le_dec (now - lastFrameTime s) (frameInterval s));
      [now split |].
    destruct (Qlt_le_dec (now - fpsUpdateTime s) 1000); now split. }
  destruct e as [now1 now2 now3 | | fps' | now]; cbn [step fst].
  - unfold start. destruct (isRunning st); [exact Hinv |].
    destruct (Hloop (mkState true now1 (fps st) 0 now2 (targetFPS st)
                       (frameInterval st)) now3) as [-> ->].
    exact Hinv.
  - exact Hinv.
  - destruct (setTargetFPS_range st fps') as [Hr ->]. split; [exact Hr |].
    reflexivity.
  - destruct (Hloop st now) as [-> ->]. exact Hinv.
Qed.

Lemma run_keeps_cap : forall (evs : list Event) (st : State),
  15 <= targetFPS st <= 60 /\ frameInterval st == 1000 / targetFPS st ->
  15 <= targetFPS (fst (run st evs)) <= 60
  /\ frameInterval (fst (run st evs))
     == 1000 / targetFPS (fst (run st evs)).
Proof.
  induction evs as [| e rest IH]; intros st Hinv; [exact Hinv |].
  cbn [run]. pose proof (step_keeps_cap st e Hinv) as Hstep.
  destruct (step st e) as [st1 delta]. cbn [fst] in Hstep.
  specialize (IH st1 Hstep).
  destruct (run st1 rest) as [st2 deltas]. exact IH.
Qed.

Lemma stopped_renders_nothing : forall (ticks : list Q) (st : State),
  isRunning st = false -> run st (map Frame ticks) = (st, []).
Proof.
  induction ticks as [| now rest IH]; intros st Hstop; [reflexivity |].
  cbn [map run step]. unfold loop. rewrite Hstop. cbn [negb].
  now rewrite (IH st Hstop).
Qed.

End RenderLoopInvariant.

(** **** X20.  Whatever is done to a render loop (start, stop, change of
    the cap, frame requests), the cap stays between 15 and 60 frames per
    second and the frame interval is [1000 / targetFPS], hence between
    [1000 / 60] and [1000 / 15] milliseconds.  A loop that is not running
    renders nothing and keeps its state, starting a running loop changes
    nothing, and [setTargetFPS] leaves a cap of that range as it is. *)
Theorem renderLoop_invariants (evs : list RenderLoop.Event)
    (st : RenderLoop.State) (ticks : list Q) (now1 now2 now3 fps' : Q) :
  (let final := fst (RenderLoop.run RenderLoop.initial evs) in
   15 <= RenderLoop.targetFPS final <= 60
   /\ RenderLoop.frameInterval final == 1000 / RenderLoop.targetFPS final
   /\ 1000 / 60 <= RenderLoop.frameInterval final <= 1000 / 15)
  /\ (RenderLoop.isRunning st = false ->
      RenderLoop.run st (map RenderLoop.Frame ticks) = (st, []))
  /\ (RenderLoop.isRunning st = true ->
      RenderLoop.start st now1 now2 now3 = (st, None))
  /\ (15 <= fps' <= 60 ->
      RenderLoop.targetFPS (RenderLoop.setTargetFPS st fps') == fps')
  /\ RenderLoop.isRunning (RenderLoop.stop st) = false.
Proof.
  split; [| split; [| split; [| split]]].
  - intros final.
    assert (Hinit : 15 <= RenderLoop.targetFPS RenderLoop.initial <= 60
                    /\ RenderLoop.frameInterval RenderLoop.initial
                       == 1000 / RenderLoop.targetFPS RenderLoop.initial)
      by (cbn; repeat split; discriminate).
    destruct (run_keeps_cap evs RenderLoop.initial Hinit) as [Hr Hi].
    fold final in Hr, Hi. split; [exact Hr |]. split; [exact Hi |].
    rewrite Hi. destruct Hr as [H15 H60].
    split.
    + apply Qle_shift_div_l; [lra |].
      assert (E : 1000 / 60 * RenderLoop.targetFPS final
                  == RenderLoop.targetFPS final * (50 # 3)) by field.
      rewrite E. lra.
    + apply Qle_shift_div_r; [lra |].
      assert (E : 1000 / 15 * RenderLoop.targetFPS final
                  == RenderLoop.targetFPS final * (200 # 3)) by field.
      rewrite E. lra.
  - apply stopped_renders_nothing.
  - intros Hrun. unfold RenderLoop.start. now rewrite Hrun.
  - intros [H15 H60]. unfold RenderLoop.setTargetFPS.
    cbn [RenderLoop.targetFPS].
    rewrite (Q.min_r 60 fps') by exact H60. now apply Q.max_r.
  - reflexivity.
Qed.


(* ================================================================== *)
(** * Properties of the playback transport *)
(* ================================================================== *)

Section Transport.
Import AudioEngine.

Lemma play_ready (st : State) (clock : Q) :
  hasContext st = true -> tracks st <> [] ->
  play st clock
  = mkState true (tracks st) true (clock - pausedAt st) (pausedAt st).
Proof.
  intros Hc Ht. unfold play. rewrite Hc.
  destruct (tracks st) as [| t rest] eqn:E; [congruence |]. reflexivity.
Qed.

End Transport.

(** **** X21.  The transport keeps its position.  For an engine with an
    audio context, at least one track and a duration that is not negative:
    [play] resumes at the paused position, and [d] seconds later the
    current time is that position plus [d], capped at the duration;
    [pause] freezes the current time at [clock - startTime] (a value it
    does not cap), and playing on continues from there; [seek] stores the
    requested time clamped into [[0, duration]], keeps the engine playing
    or paused as it was, and the current time read right after it is the
    clamped time, the requested one when that lies within the track; the
    end of a source that has played to within a tenth of a second of the
    duration stops playback at the duration.  Without an audio context
    [play] and [pause] do nothing and the current time is 0. *)
Theorem transport_positions (st : AudioEngine.State) (clock time d : Q) :
  (AudioEngine.hasContext st = true ->
   AudioEngine.tracks st <> [] ->
   0 <= AudioEngine.getDuration st ->
   let duration := AudioEngine.getDuration st in
   (AudioEngine.isPlaying (AudioEngine.play st clock) = true
    /\ AudioEngine.getCurrentTime (AudioEngine.play st clock) (clock + d)
       == Qmin (AudioEngine.pausedAt st + d) duration)
   /\ (AudioEngine.isPlaying st = true ->
       let paused := AudioEngine.pause st clock in
       AudioEngine.isPlaying paused = false
       /\ (forall later,
             AudioEngine.getCurrentTime paused later
             = clock - AudioEngine.startTime st)
       /\ (forall later,
             AudioEngine.getCurrentTime (AudioEngine.play paused later)
               (later + d)
             == Qmin (clock - AudioEngine.startTime st + d) duration))
   /\ (let sought := AudioEngine.seek st time clock in
       AudioEngine.isPlaying sought = AudioEngine.isPlaying st
       /\ AudioEngine.tracks sought = AudioEngine.tracks st
       /\ AudioEngine.pausedAt sought = Qmax 0 (Qmin time duration)
       /\ 0 <= AudioEngine.pausedAt sought <= duration
       /\ AudioEngine.getCurrentTime sought clock
          == AudioEngine.pausedAt sought
       /\ (0 <= time <= duration ->
           AudioEngine.getCurrentTime sought clock == time))
   /\ (AudioEngine.isPlaying st = true ->
       duration - (1 # 10) <= clock - AudioEngine.startTime st ->
       AudioEngine.isPlaying (AudioEngine.onended st clock) = false
       /\ AudioEngine.getCurrentTime (AudioEngine.onended st clock) clock
          = duration))
  /\ (AudioEngine.hasContext st = false ->
      AudioEngine.play st clock = st
      /\ AudioEngine.pause st clock = st
      /\ AudioEngine.getCurrentTime st clock = 0).
Proof.
  split.
  - intros Hc Ht Hd duration.
    assert (Hclamp : 0 <= Qmax 0 (Qmin time duration) <= duration).
    { split; [apply Q.le_max_l |].
      apply Q.max_lub; [exact Hd | apply Q.le_min_r]. }
    split; [| split; [| split]].
    + rewrite play_ready by assumption.
      cbn [AudioEngine.isPlaying]. split; [reflexivity |].
      unfold AudioEngine.getCurrentTime.
      cbn [AudioEngine.hasContext AudioEngine.isPlaying
           AudioEngine.startTime negb].
      change (AudioEngine.getDuration
                (AudioEngine.mkState true (AudioEngine.tracks st) true
                   (clock - AudioEngine.pausedAt st)
                   (AudioEngine.pausedAt st)))
        with duration.
      assert (E : clock + d - (clock - AudioEngine.pausedAt st)
                  == AudioEngine.pausedAt st + d) by ring.
      now rewrite E.
    + intros Hp paused.
      assert (Hpaused : paused
                        = AudioEngine.mkState true (AudioEngine.tracks st)
                            false (AudioEngine.startTime st)
                            (clock - AudioEngine.startTime st)).
      { unfold paused, AudioEngine.pause. rewrite Hc, Hp. reflexivity. }
      rewrite Hpaused. cbn [AudioEngine.isPlaying].
      split; [reflexivity |]. split; [reflexivity |].
      intros later. rewrite play_ready by (cbn; first [reflexivity | assumption]).
      unfold AudioEngine.getCurrentTime.
      cbn [AudioEngine.hasContext AudioEngine.isPlaying
           AudioEngine.startTime AudioEngine.pausedAt AudioEngine.tracks
           negb].
      change (AudioEngine.getDuration
                (AudioEngine.mkState true (AudioEngine.tracks st) true
                   (later - (clock - AudioEngine.startTime st))
                   (clock - AudioEngine.startTime st)))
        with duration.
      assert (E : later + d - (later - (clock - AudioEngine.startTime st))
                  == clock - AudioEngine.startTime st + d) by ring.
      now rewrite E.
    + intros sought. unfold sought, AudioEngine.seek. cbv zeta.
      destruct (AudioEngine.isPlaying st) eqn:Hp;
        cbn [AudioEngine.hasContext AudioEngine.tracks AudioEngine.isPlaying
             AudioEngine.startTime AudioEngine.pausedAt].
      * rewrite play_ready by (cbn; first [reflexivity | assumption]).
        cbn [AudioEngine.isPlaying AudioEngine.tracks AudioEngine.pausedAt].
        change (AudioEngine.getDuration
                  (AudioEngine.mkState (AudioEngine.hasContext st)
                     (AudioEngine.tracks st) false (AudioEngine.startTime st)
                     (AudioEngine.pausedAt st)))
          with duration.
        split; [reflexivity |]. split; [reflexivity |].
        split; [reflexivity |]. split; [exact Hclamp |].
        unfold AudioEngine.getCurrentTime.
        cbn [AudioEngine.hasContext AudioEngine.isPlaying
             AudioEngine.startTime negb].
        match goal with
        | |- context [AudioEngine.getDuration ?s] =>
            change (AudioEngine.getDuration s) with duration
        end.
        assert (E : clock - (clock - Qmax 0 (Qmin time duration))
                    == Qmax 0 (Qmin time duration)) by ring.
        split.
        -- rewrite E. apply Q.min_l. apply Hclamp.
        -- intros [H0 H1]. rewrite E.
           rewrite (Q.min_l _ duration) by apply Hclamp.
           rewrite (Q.min_l time duration) by exact H1. now apply Q.max_r.
      * change (AudioEngine.getDuration st) with duration.
        split; [exact Hp |]. split; [reflexivity |].
        split; [reflexivity |]. split; [exact Hclamp |].
        unfold AudioEngine.getCurrentTime.
        cbn [AudioEngine.hasContext AudioEngine.isPlaying
             AudioEngine.pausedAt]. rewrite Hc, Hp. cbn [negb].
        split; [reflexivity |].
        intros [H0 H1].
        rewrite (Q.min_l time duration) by exact H1. now apply Q.max_r.
    + intros Hp Hend. unfold AudioEngine.onended. rewrite Hp.
      fold duration.
      assert (Hcur : duration - (1 # 10)
                     <= AudioEngine.getCurrentTime st clock).
      { unfold AudioEngine.getCurrentTime. rewrite Hc, Hp. cbn [negb].
        fold duration. apply Q.min_glb; lra. }
      destruct (Qlt_le_dec (AudioEngine.getCurrentTime st clock)
                  (duration - (1 # 10))) as [Hlt | _]; [lra |].
      cbn [AudioEngine.isPlaying]. split; [reflexivity |].
      unfold AudioEngine.getCurrentTime.
      cbn [AudioEngine.hasContext AudioEngine.isPlaying
           AudioEngine.pausedAt]. now rewrite Hc.
  - intros Hc. unfold AudioEngine.play, AudioEngine.pause,
      AudioEngine.getCurrentTime. rewrite Hc. cbn [negb orb].
    repeat split.
Qed.


(* ================================================================== *)
(** * Further properties of the CLI engine *)
(* ================================================================== *)

Section MixerFurther.
Import CLIAudioEngine.

Lemma Qceiling_ofNat (n : nat) (x : Q) :
  x == ofNat n -> Z.to_nat (Qceiling x) = n.
Proof.
  intros H. rewrite (Qceiling_comp _ _ H). unfold ofNat.
  rewrite Qceiling_Z. apply Nat2Z.id.
Qed.



End MixerFurther.

Section LoadedTracks.
Import CLIAudioEngine.

Lemma loadTracks_decoded (r : Q) : forall files,
  0 < r ->
  Forall (decodedAt r) files ->
  exists tracks,
    loadTracks files = Some tracks
    /\ Forall2
         (fun file track =>
            channel0 (buffer track) = nth 0 (channelData (fileData file)) []
            /\ otherChannels (buffer track)
               = tl (channelData (fileData file))
            /\ sampleRate (buffer track) == r
            /\ duration (buffer track)
               == round64 (ofNat (bufferLength (buffer track)) / r)
            /\ color track = fileColor file
            /\ opacity track = fileOpacity file)
         files tracks.
Proof.
  intros files Hr. induction 1 as [| file rest Hfile Hrest IH].
  - exists []. split; [reflexivity | constructor].
  - destruct IH as (tracks & Hload & Hall).
    destruct Hfile as (Hrate & Hne & Hlen).
    cbn [loadTracks]. unfold loadTrack.
    destruct (channelData (fileData file)) as [| first others] eqn:E;
      [congruence |].
    cbn [bind]. rewrite Hload. cbn [bind].
    eexists. split; [reflexivity |]. constructor; [| exact Hall].
    cbn [buffer channel0 otherChannels sampleRate duration color opacity
         nth tl].
    unfold bufferLength. cbn [channel0]. rewrite ?E. cbn [nth tl].
    split; [reflexivity |]. split; [reflexivity |]. split; [exact Hrate |].
    split; [now rewrite Hrate |]. split; reflexivity.
Qed.

End LoadedTracks.

Section MixLength.
Import CLIAudioEngine.

Lemma Qceiling_ge (x : Q) (n : Z) : inject_Z (n - 1) < x -> (n <= Qceiling x)%Z.
Proof.
  intros H. pose proof (Qle_ceiling x) as Hc.
  assert (Hlt : inject_Z (n - 1) < inject_Z (Qceiling x)) by lra.
  rewrite <- Zlt_Qlt in Hlt. lia.
Qed.

Lemma Qceiling_le (x : Q) (n : Z) : x <= inject_Z n -> (Qceiling x <= n)%Z.
Proof.
  intros H. rewrite <- (Qceiling_Z n). now apply Qceiling_resp_le.
Qed.

(** Tracks whose durations are the doubles [length / r]: the mix is as
    long as the longest track, or one frame longer. *)
Lemma mix_length_common_rate (r : Q) (first : AudioTrack)
    (rest : list AudioTrack) :
  let tracks := first :: rest in
  0 < r ->
  Forall (fun t =>
            sampleRate (buffer t) == r
            /\ duration (buffer t)
               == round64 (ofNat (bufferLength (buffer t)) / r)
            /\ (Z.of_nat (bufferLength (buffer t)) < 2 ^ 53)%Z)
    tracks ->
  let numSamples :=
    Z.to_nat (Qceiling (getDuration tracks * sampleRate (buffer first))) in
  (forall t, In t tracks -> (bufferLength (buffer t) <= numSamples)%nat)
  /\ (exists t, In t tracks /\ (numSamples <= S (bufferLength (buffer t)))%nat)
  /\ (0 <= Qceiling (getDuration tracks * sampleRate (buffer first)))%Z.
Proof.
  intros tracks Hr Hall numSamples. rewrite Forall_forall in Hall.
  assert (Hne : tracks <> []) by discriminate.
  destruct (getDuration_is_max tracks Hne) as [Hmax (t & Ht & Hatt)].
  destruct (Hall first (or_introl eq_refl)) as (Hrate & _ & _).
  assert (Hquot : forall u, 0 <= ofNat (bufferLength (buffer u)) / r).
  { intros u. apply Qle_shift_div_l; [exact Hr |].
    rewrite Qmult_0_l. apply ofNat_nonneg. }
  assert (Hsmall : forall u, In u tracks ->
            ofNat (bufferLength (buffer u)) < 9007199254740992).
  { intros u Hu. destruct (Hall u Hu) as (_ & _ & Hlt).
    change 9007199254740992 with (inject_Z (2 ^ 53)). unfold ofNat.
    now rewrite <- Zlt_Qlt. }
  assert (Hlow : forall u, In u tracks ->
            inject_Z (Z.of_nat (bufferLength (buffer u)) - 1)
            < getDuration tracks * sampleRate (buffer first)).
  { intros u Hu. destruct (Hall u Hu) as (_ & Hdur & _).
    pose proof (Hmax u Hu) as Hle. rewrite Hdur in Hle.
    pose proof (round64_lower _ (Hquot u)) as Hlo.
    pose proof (Hsmall u Hu) as Hs. pose proof (ofNat_nonneg (bufferLength (buffer u))) as H0.
    rewrite Hrate.
    unfold Z.sub. rewrite inject_Z_plus. fold (ofNat (bufferLength (buffer u))).
    change (inject_Z (- (1))) with (- (1)).
    apply Qlt_le_trans
      with (ofNat (bufferLength (buffer u)) / r
            * (9007199254740991 # 9007199254740992) * r).
    - assert (E : ofNat (bufferLength (buffer u)) / r
                  * (9007199254740991 # 9007199254740992) * r
                  == ofNat (bufferLength (buffer u))
                     * (9007199254740991 # 9007199254740992))
        by (field; lra).
      rewrite E. lra.
    - apply Qmult_le_compat_r; [| lra]. lra. }
  assert (Hup : getDuration tracks * sampleRate (buffer first)
                <= inject_Z (Z.of_nat (bufferLength (buffer t)) + 1)).
  { destruct (Hall t Ht) as (_ & Hdur & _).
    pose proof (round64_upper _ (Hquot t)) as Hhi.
    pose proof (Hsmall t Ht) as Hs. pose proof (ofNat_nonneg (bufferLength (buffer t))) as H0.
    rewrite Hatt, Hdur, Hrate.
    rewrite inject_Z_plus. fold (ofNat (bufferLength (buffer t))).
    change (inject_Z 1) with 1.
    apply Qle_trans
      with (ofNat (bufferLength (buffer t)) / r
            * (9007199254740993 # 9007199254740992) * r).
    - apply Qmult_le_compat_r; [exact Hhi | lra].
    - assert (E : ofNat (bufferLength (buffer t)) / r
                  * (9007199254740993 # 9007199254740992) * r
                  == ofNat (bufferLength (buffer t))
                     * (9007199254740993 # 9007199254740992))
        by (field; lra).
      rewrite E. lra. }
  split; [| split].
  - intros u Hu. pose proof (Qceiling_ge _ _ (Hlow u Hu)). unfold numSamples. lia.
  - exists t. split; [exact Ht |].
    pose proof (Qceiling_le _ _ Hup). unfold numSamples. lia.
  - pose proof (Qceiling_ge _ _ (Hlow first (or_introl eq_refl))). lia.
Qed.

End MixLength.

(** **** X22.  Loading and mixing.  Files decoded at one positive sample
    rate, each with at least one channel, are all loaded, in order, each
    track holding the channels, the rate, the colour and the opacity of its
    file and, as its duration, the double [length / rate], which is within
    the fraction [2^-53] of the quotient.  For files of fewer than [2^53]
    samples the mix of the loaded tracks has that rate, at least as many
    frames as every file has samples, and at most one frame more than some
    file: the rounded duration can add one frame. *)
Theorem loaded_tracks_mix_length (r : Q) (file : CLIAudioEngine.AudioFile)
    (files : list CLIAudioEngine.AudioFile) :
  0 < r ->
  Forall (decodedAt r) (file :: files) ->
  Forall (fun f =>
            (Z.of_nat
               (List.length
                  (nth 0 (CLIAudioEngine.channelData
                            (CLIAudioEngine.fileData f)) []))
             < 2 ^ 53)%Z)
    (file :: files) ->
  exists tracks mix,
    CLIAudioEngine.loadTracks (file :: files) = Some tracks
    /\ Forall2
         (fun f track =>
            channel0 (buffer track)
            = nth 0 (CLIAudioEngine.channelData
                       (CLIAudioEngine.fileData f)) []
            /\ otherChannels (buffer track)
               = tl (CLIAudioEngine.channelData (CLIAudioEngine.fileData f))
            /\ sampleRate (buffer track) == r
            /\ duration (buffer track)
               == round64 (ofNat (bufferLength (buffer track)) / r)
            /\ Qabs (duration (buffer track)
                     - ofNat (bufferLength (buffer track)) / r)
               <= ofNat (bufferLength (buffer track)) / r / 2 ^ 53
            /\ color track = CLIAudioEngine.fileColor f
            /\ opacity track = CLIAudioEngine.fileOpacity f)
         (file :: files) tracks
    /\ CLIAudioEngine.mixTracks tracks = Some mix
    /\ CLIAudioEngine.mixSampleRate mix == r
    /\ List.length (CLIAudioEngine.right mix)
       = List.length (CLIAudioEngine.left mix)
    /\ (forall track, In track tracks ->
          (bufferLength (buffer track)
           <= List.length (CLIAudioEngine.left mix))%nat)
    /\ (exists track,
          In track tracks
          /\ (List.length (CLIAudioEngine.left mix)
              <= S (bufferLength (buffer track)))%nat).
Proof.
  intros Hr Hfiles Hsmall.
  destruct (loadTracks_decoded r (file :: files) Hr Hfiles)
    as (tracks & Hload & Hall).
  destruct tracks as [| first rest]; [inversion Hall |].
  assert (Hquot : forall u, 0 <= ofNat (bufferLength (buffer u)) / r).
  { intros u. apply Qle_shift_div_l; [exact Hr |].
    rewrite Qmult_0_l. apply ofNat_nonneg. }
  assert (Hrates : Forall
                     (fun t =>
                        sampleRate (buffer t) == r
                        /\ duration (buffer t)
                           == round64 (ofNat (bufferLength (buffer t)) / r)
                        /\ (Z.of_nat (bufferLength (buffer t)) < 2 ^ 53)%Z)
                     (first :: rest)).
  { clear Hload. revert Hall Hsmall.
    generalize (file :: files) (first :: rest).
    induction 1 as [| f t fs ts (Hc & _ & Hs & Hd & _) _ IH]; intros Hsm;
      constructor.
    - split; [exact Hs |]. split; [exact Hd |].
      unfold bufferLength. rewrite Hc. exact (Forall_inv Hsm).
    - apply IH. exact (Forall_inv_tail Hsm). }
  destruct (mix_length_common_rate r first rest Hr Hrates)
    as (Hmax & Hatt & Hceil).
  pose proof (mixTracks_unfold first rest Hceil) as Hmix. cbv zeta in Hmix.
  destruct (accumulate_spec (first :: rest)
              (Z.to_nat
                 (Qceiling (CLIAudioEngine.getDuration (first :: rest)
                            * sampleRate (buffer first)))))
    as (Hll & Hlr & _).
  eexists (first :: rest), _.
  split; [exact Hload |]. split.
  { clear - Hall Hr Hquot. revert Hall.
    generalize (file :: files) (first :: rest).
    induction 1 as [| f t fs ts (H1 & H2 & H3 & H4 & H5 & H6) _ IH];
      constructor; [| exact IH].
    split; [exact H1 |]. split; [exact H2 |]. split; [exact H3 |].
    split; [exact H4 |]. split; [| split; assumption].
    rewrite H4. apply round64_error, Hquot. }
  split; [exact Hmix |].
  destruct (Qlt_le_dec 1 _);
    cbn [CLIAudioEngine.left CLIAudioEngine.right
         CLIAudioEngine.mixSampleRate]; rewrite ?length_map, Hll, Hlr.
  - split; [now destruct (Forall_inv Hrates) |].
    split; [reflexivity |]. split; [exact Hmax | exact Hatt].
  - split; [now destruct (Forall_inv Hrates) |].
    split; [reflexivity |]. split; [exact Hmax | exact Hatt].
Qed.

Lemma loaded_tracks_mix_length_witness :
  exists tracks mix,
    CLIAudioEngine.loadTracks
      [CLIAudioEngine.mkAudioFile
         (CLIAudioEngine.mkWavData 48000 [[1; -1; 1 # 2]]) "#ff0000" 1;
       CLIAudioEngine.mkAudioFile
         (CLIAudioEngine.mkWavData 48000
            [[0; 1; 0; 1; 0; 1; 0]; [1; 0; 0; 0; 0; 0; 0]])
         "#00ff00" (1 # 2)]
    = Some tracks
    /\ CLIAudioEngine.mixTracks tracks = Some mix
    /\ exists track,
         In track tracks
         /\ (List.length (CLIAudioEngine.left mix)
             <= S (bufferLength (buffer track)))%nat.
Proof.
  destruct (loaded_tracks_mix_length 48000
              (CLIAudioEngine.mkAudioFile
                 (CLIAudioEngine.mkWavData 48000 [[1; -1; 1 # 2]])
                 "#ff0000" 1)
              [CLIAudioEngine.mkAudioFile
                 (CLIAudioEngine.mkWavData 48000
                    [[0; 1; 0; 1; 0; 1; 0]; [1; 0; 0; 0; 0; 0; 0]])
                 "#00ff00" (1 # 2)])
    as (tracks & mix & Hload & _ & Hmix & _ & _ & _ & Hatt).
  - reflexivity.
  - repeat constructor; discriminate.
  - repeat constructor.
  - exists tracks, mix. split; [exact Hload |]. split; [exact Hmix |].
    exact Hatt.
Defined.

(** Seven samples at 48000 Hz: the double [7 / 48000] times 48000 exceeds 7,
    and the mix of the loaded file has 8 frames. *)
Lemma loaded_mix_one_frame_longer :
  exists track mix,
    CLIAudioEngine.loadTracks
      [CLIAudioEngine.mkAudioFile
         (CLIAudioEngine.mkWavData 48000 [[0; 1; 0; 1; 0; 1; 0]])
         "#00ff00" 1]
    = Some [track]
    /\ bufferLength (buffer track) = 7%nat
    /\ CLIAudioEngine.mixTracks [track] = Some mix
    /\ List.length (CLIAudioEngine.left mix) = 8%nat.
Proof.
  eexists _, _. split; [reflexivity |]. split; [reflexivity |].
  split; [vm_compute; reflexivity | reflexivity].
Qed.

Section NoNormalisation.
Import CLIAudioEngine.



End NoNormalisation.




(* ================================================================== *)
(** * Properties of the coordinates and of the colours *)
(* ================================================================== *)

(** **** X24.  On a surface of positive size the pixel and the normalised
    coordinates of [RenderContext] are inverse to each other, a normalised
    coordinate in [[0, 1]] lands on the surface, [heightPercentToPixels] is
    [toPixelsY] of the hundredth, and half the height is the centre line.
    The aspect ratio the context reports is that of the export surface,
    1920 by 1080, whatever the size of the surface. *)
Theorem renderContext_conversions (rc : RenderContext) (x p percent : Q) :
  ((0 < width rc)%nat ->
     fromPixelsX rc (toPixelsX rc x) == x
     /\ toPixelsX rc (fromPixelsX rc p) == p)
  /\ ((0 < height rc)%nat ->
        fromPixelsY rc (toPixelsY rc x) == x
        /\ toPixelsY rc (fromPixelsY rc p) == p)
  /\ (0 <= x <= 1 ->
        0 <= toPixelsX rc x <= ofNat (width rc)
        /\ 0 <= toPixelsY rc x <= ofNat (height rc))
  /\ heightPercentToPixels rc percent == toPixelsY rc (percent / 100)
  /\ heightPercentToPixels rc 50 == centerY rc
  /\ aspectRatio rc == ofNat (width forExport) / ofNat (height forExport).
Proof.
  pose proof (ofNat_nonneg (width rc)) as Hw.
  pose proof (ofNat_nonneg (height rc)) as Hh.
  split; [| split; [| split; [| split; [| split]]]].
  - intros Hpos. assert (0 < ofNat (width rc)) by now apply ofNat_pos.
    unfold fromPixelsX, toPixelsX. split; field; lra.
  - intros Hpos. assert (0 < ofNat (height rc)) by now apply ofNat_pos.
    unfold fromPixelsY, toPixelsY. split; field; lra.
  - intros [H0 H1]. unfold toPixelsX, toPixelsY.
    revert Hw Hh. generalize (ofNat (width rc)) (ofNat (height rc)).
    intros w h Hw Hh.
    assert (0 <= x * w) by (apply Qmult_le_0_compat; assumption).
    assert (0 <= x * h) by (apply Qmult_le_0_compat; assumption).
    assert (x * w <= 1 * w) by (apply Qmult_le_compat_r; assumption).
    assert (x * h <= 1 * h) by (apply Qmult_le_compat_r; assumption).
    repeat split; lra.
  - reflexivity.
  - unfold heightPercentToPixels, centerY. field.
  - reflexivity.
Qed.

Section Colours.
Import ColorManager.

Lemma hexValue_range (c : ascii) (v : nat) :
  hexValue c = Some v -> (v <= 15)%nat.
Proof.
  unfold hexValue.
  destruct ((48 <=? nat_of_ascii c) && (nat_of_ascii c <=? 57))%nat eqn:E1.
  - intros [= <-]. apply andb_prop in E1. destruct E1 as [_ E].
    apply Nat.leb_le in E. lia.
  - destruct ((97 <=? nat_of_ascii c) && (nat_of_ascii c <=? 102))%nat
      eqn:E2.
    + intros [= <-]. apply andb_prop in E2. destruct E2 as [_ E].
      apply Nat.leb_le in E. lia.
    + destruct ((65 <=? nat_of_ascii c) && (nat_of_ascii c <=? 70))%nat
        eqn:E3; [| discriminate].
      intros [= <-]. apply andb_prop in E3. destruct E3 as [_ E].
      apply Nat.leb_le in E. lia.
Qed.

Lemma hexPair_range (a b : ascii) (v : nat) :
  hexPair a b = Some v -> (v <= 255)%nat.
Proof.
  unfold hexPair.
  destruct (hexValue a) as [x |] eqn:Ea; [| discriminate].
  destruct (hexValue b) as [y |] eqn:Eb; [| discriminate].
  intros [= <-]. apply hexValue_range in Ea, Eb. lia.
Qed.

Lemma matchHex_range (hex : string) (r g b : nat) :
  matchHex hex = Some (r, g, b) ->
  (r <= 255)%nat /\ (g <= 255)%nat /\ (b <= 255)%nat.
Proof.
  unfold matchHex.
  destruct (list_ascii_of_string _)
    as [| c1 [| c2 [| c3 [| c4 [| c5 [| c6 [| c7 l]]]]]]];
    try discriminate.
  destruct (hexPair c1 c2) as [x |] eqn:E1; [| discriminate].
  destruct (hexPair c3 c4) as [y |] eqn:E2; [| discriminate].
  destruct (hexPair c5 c6) as [z |] eqn:E3; [| discriminate].
  intros [= <- <- <-].
  apply hexPair_range in E1, E2, E3. now repeat split.
Qed.

Lemma palette_entry (i : nat) :
  (i < 10)%nat ->
  exists colour,
    nth_error defaultPalette i = Some colour
    /\ isValidHex colour = true.
Proof.
  intros Hi.
  do 10 (destruct i as [| i]; [eexists; split; reflexivity |]). lia.
Qed.

End Colours.

(** **** X25.  [hexToRgba] never fails: its three colour components are
    at most 255 and the alpha it is given goes into the result unchanged
    and unclamped; a string [isValidHex] rejects gives white.  A [#] in
    front of six characters changes nothing, and a digit [a] to [f] has
    the value of its capital.  The
    palette has ten colours and repeats with period ten; every index that
    is not negative gets a colour, and each palette colour is a valid
    hexadecimal colour; a negative index that is no multiple of ten gets
    none. *)
Theorem colour_parsing (hex : string) (a : Q) (c1 c2 c3 c4 c5 c6 : ascii)
    (index : Z) :
  ((ColorManager.red (ColorManager.hexToRgba hex a) <= 255)%nat
   /\ (ColorManager.green (ColorManager.hexToRgba hex a) <= 255)%nat
   /\ (ColorManager.blue (ColorManager.hexToRgba hex a) <= 255)%nat
   /\ ColorManager.alpha (ColorManager.hexToRgba hex a) = a)
  /\ (ColorManager.isValidHex hex = false ->
      ColorManager.hexToRgba hex a = ColorManager.mkRGBA 255 255 255 a)
  /\ (let digits :=
        String c1 (String c2 (String c3 (String c4 (String c5
          (String c6 EmptyString))))) in
      ColorManager.hexToRgba (String "#"%char digits) a
      = ColorManager.hexToRgba digits a)
  /\ ((97 <= nat_of_ascii c1 <= 102)%nat ->
      ColorManager.hexValue (ascii_of_nat (nat_of_ascii c1 - 32))
      = ColorManager.hexValue c1)
  /\ ((0 <= index)%Z ->
      exists colour,
        ColorManager.getColorForIndex index = Some colour
        /\ ColorManager.getColorForIndex (index + 10) = Some colour
        /\ ColorManager.isValidHex colour = true)
  /\ ((index < 0)%Z -> (Z.rem index 10 <> 0)%Z ->
      ColorManager.getColorForIndex index = None).
Proof.
  split; [| split; [| split; [| split; [| split]]]].
  - unfold ColorManager.hexToRgba.
    destruct (ColorManager.matchHex hex) as [[[r g] b] |] eqn:E.
    + apply matchHex_range in E. cbn. intuition.
    + cbn. repeat split; lia.
  - unfold ColorManager.isValidHex, ColorManager.hexToRgba.
    destruct (ColorManager.matchHex hex) as [[[r g] b] |];
      [discriminate | reflexivity].
  - intros digits. unfold ColorManager.hexToRgba, ColorManager.matchHex.
    unfold digits.
    destruct c1 as [[] [] [] [] [] [] [] []]; reflexivity.
  - intros Hc.
    destruct c1 as [[] [] [] [] [] [] [] []];
      first [reflexivity | exfalso; cbn in Hc; lia].
  - intros Hidx. unfold ColorManager.getColorForIndex.
    change (Z.of_nat (List.length ColorManager.defaultPalette)) with 10%Z.
    rewrite !Z.rem_mod_nonneg by lia.
    replace ((index + 10) mod 10)%Z with (index mod 10)%Z
      by (change (index + 10)%Z with (index + 1 * 10)%Z;
          now rewrite Z.mod_add by lia).
    pose proof (Z.mod_pos_bound index 10 ltac:(lia)) as Hm.
    replace (index mod 10 <? 0)%Z with false by (symmetry; apply Z.ltb_ge; lia).
    destruct (palette_entry (Z.to_nat (index mod 10)) ltac:(lia))
      as (colour & Hnth & Hvalid).
    exists colour. repeat split; assumption.
  - intros Hneg Hrem. unfold ColorManager.getColorForIndex.
    change (Z.of_nat (List.length ColorManager.defaultPalette)) with 10%Z.
    pose proof (Z.rem_bound_neg_neg index 10) as Hb.
    replace (Z.rem index 10 <? 0)%Z with true; [reflexivity |].
    symmetry. apply Z.ltb_lt.
    pose proof (Z.rem_nonpos index 10 ltac:(lia) ltac:(lia)). lia.
Qed.


(* ------------------------------------------------------------------ *)
(** *** Tightness of the normalisation *)

(** The running maximum is its start value or one of the values it saw. *)
Lemma runningMax_attained (l : list Q) : forall g,
  let r := fold_left (fun g v => if Qlt_le_dec g v then v else g) l g in
  r = g \/ In r l.
Proof.
  induction l as [| x l IH]; intros g; cbn zeta; simpl; [now left |].
  destruct (Qlt_le_dec g x) as [Hlt | Hle].
  - destruct (IH x) as [-> | Hin]; right; [now left | now right].
  - destruct (IH g) as [-> | Hin]; [now left | right; now right].
Qed.

Section GlobalMaxAttained.
Variable rc : RenderContext.
Variables (currentTime windowDuration : Q).

Let wave (track : AudioTrack) : list Q :=
  getWaveformDataForTimeWindow track currentTime windowDuration (width rc) 0.

Let trackMax (globalMax : Q) (track : AudioTrack) : Q :=
  fold_left (fun g v => if Qlt_le_dec g v then v else g) (wave track)
    globalMax.

Lemma tracksMax_attained (tracks : list AudioTrack) : forall g,
  fold_left trackMax tracks g = g
  \/ exists track, In track tracks
       /\ In (fold_left trackMax tracks g) (wave track).
Proof.
  induction tracks as [| t tracks IH]; intros g; simpl; [now left |].
  destruct (IH (trackMax g t)) as [-> | (track & Ht & Hin)].
  - destruct (runningMax_attained (wave t) g) as [E | Hin].
    + left. exact E.
    + right. exists t. split; [now left | exact Hin].
  - right. exists track. split; [now right | exact Hin].
Qed.

(** **** X26.  Normalised mode is tight.  When some column of some track is
    non-zero in the visible window, the divisor that
    [calculateGlobalMaxAmplitude] returns is itself one of the unsmoothed
    column values of one of the tracks, so with smoothing off that column is
    drawn at amplitude exactly 1: the loudest column fills the whole height
    the layout gives it.  When every column of every track is zero (silence, no tracks, or a
    window outside the audio) the divisor is 1, not 0, so the division is
    always defined. *)
Theorem normalisation_is_tight (tracks : list AudioTrack) :
  let g := calculateGlobalMaxAmplitude rc tracks currentTime windowDuration in
  ((exists track v, In track tracks /\ In v (wave track) /\ 0 < v) ->
   exists track x,
     In track tracks /\ (x < width rc)%nat
     /\ nth x (wave track) 0 = g
     /\ normalizeAmplitude Normalized g (nth x (wave track) 0) == 1)
  /\ ((forall track v, In track tracks -> In v (wave track) -> v == 0) ->
      g = 1).
Proof.
  intros g. set (raw := fold_left trackMax tracks 0).
  assert (Hg : g = if Qlt_le_dec 0 raw then raw else 1) by reflexivity.
  clearbody g. subst g.
  split.
  - intros (track & v & Ht & Hv & Hpos).
    assert (Hraw : 0 < raw).
    { eapply Qlt_le_trans; [exact Hpos |].
      unfold raw. exact (tracksMax_upper rc currentTime windowDuration
                           tracks 0 track v Ht Hv). }
    destruct (tracksMax_attained tracks 0) as [E | (track' & Ht' & Hin)].
    + exfalso. fold raw in E. rewrite E in Hraw. lra.
    + fold raw in Hin.
      destruct (In_nth _ _ 0 Hin) as (x & Hx & Hnth).
      exists track', x. split; [exact Ht' |]. split.
      { unfold wave in Hx. now rewrite getWaveform_length in Hx. }
      destruct (Qlt_le_dec 0 raw) as [_ | Hle]; [| exfalso; lra].
      split; [exact Hnth |].
      rewrite Hnth. unfold normalizeAmplitude. cbn [isNormalized].
      destruct (Qlt_le_dec 0 raw) as [_ | Hle]; [| exfalso; lra].
      field. lra.
  - intros Hzero.
    destruct (tracksMax_attained tracks 0) as [E | (track' & Ht' & Hin)].
    + fold raw in E. rewrite E.
      destruct (Qlt_le_dec 0 0) as [Hlt | _]; [exfalso; lra | reflexivity].
    + fold raw in Hin. pose proof (Hzero _ _ Ht' Hin) as Hz.
      destruct (Qlt_le_dec 0 raw) as [Hlt | _]; [exfalso; lra | reflexivity].
Qed.

End GlobalMaxAttained.

(* ------------------------------------------------------------------ *)
(** *** Polarity *)

Lemma Qabs_opp_eq (x : Q) : Qabs (- x) = Qabs x.
Proof. destruct x as [n d]. unfold Qabs, Qopp. cbn. now rewrite Z.abs_opp. Qed.

Lemma sampleAt_opp (a : list Q) (j : Z) :
  sampleAt (map Qopp a) j = - sampleAt a j.
Proof. unfold sampleAt. exact (map_nth Qopp a 0 (Z.to_nat j)). Qed.

Lemma peakLoop_opp (a : list Q) (n : nat) : forall j max,
  peakLoop (map Qopp a) j n max = peakLoop a j n max.
Proof.
  induction n as [| n IH]; intros j max; [reflexivity |].
  cbn [peakLoop]. rewrite length_map, sampleAt_opp, Qabs_opp_eq. apply IH.
Qed.

Lemma resampleWindow_opp (channelData : list Q) (startSample endSample : Z)
    (fftSize : nat) :
  resampleWindow (map Qopp channelData) startSample endSample fftSize
  = map (Rmult (-1))
      (resampleWindow channelData startSample endSample fftSize).
Proof.
  unfold resampleWindow. rewrite map_map, length_map.
  apply map_ext. intros i. cbv zeta.
  match goal with
  | |- context [(?idx <? Z.of_nat (List.length channelData))%Z] =>
      destruct (idx <? Z.of_nat (List.length channelData))%Z
  end.
  - rewrite sampleAt_opp, Qreals.Q2R_opp. ring.
  - ring.
Qed.

(** **** X27.  Polarity does not show.  A track whose first channel is that
    of another track with every sample negated (same rate and duration)
    gives, at every time, window, width and smoothing level, the same
    waveform buffer, and for every FFT size that is a power of two (the
    sizes at which [fft] above is the source's [fft]) the same spectrum: the
    extractor keeps absolute values and magnitudes only. *)
Theorem polarity_does_not_show (t t' : AudioTrack)
    (currentTime windowDuration : Q) (targetWidth smoothingLevel m : nat) :
  let fftSize := (2 ^ m)%nat in
  duration (buffer t') = duration (buffer t) ->
  sampleRate (buffer t') = sampleRate (buffer t) ->
  channel0 (buffer t') = map Qopp (channel0 (buffer t)) ->
  getWaveformDataForTimeWindow t' currentTime windowDuration targetWidth
    smoothingLevel
  = getWaveformDataForTimeWindow t currentTime windowDuration targetWidth
      smoothingLevel
  /\ getFrequencySpectrumForTimeWindow t' currentTime windowDuration fftSize
     = getFrequencySpectrumForTimeWindow t currentTime windowDuration fftSize.
Proof.
  intros fftSize Hd Hr Hc.
  assert (Hw : waveformSampleWindow t' currentTime windowDuration
               = waveformSampleWindow t currentTime windowDuration)
    by (unfold waveformSampleWindow; now rewrite Hd, Hr, Hc, length_map).
  split.
  - unfold getWaveformDataForTimeWindow. rewrite Hw, Hc.
    destruct (waveformSampleWindow t currentTime windowDuration)
      as [startSample endSample].
    destruct (endSample - startSample <=? 0)%Z; [reflexivity |].
    assert (Hdown : downsample (map Qopp (channel0 (buffer t))) startSample
                      endSample targetWidth
                    = downsample (channel0 (buffer t)) startSample endSample
                        targetWidth).
    { unfold downsample. apply map_ext. intros i. apply peakLoop_opp. }
    now rewrite Hdown.
  - unfold getFrequencySpectrumForTimeWindow.
    rewrite spectrum_window_same, Hw, Hc.
    rewrite <- (spectrum_window_same t).
    destruct (spectrumSampleWindow t currentTime windowDuration)
      as [startSample endSample].
    destruct (endSample - startSample <? Z.of_nat fftSize)%Z; [reflexivity |].
    rewrite resampleWindow_opp, applyHann_scale.
    rewrite (fft_scale _ _ _ (Nat.le_refl _)).
    rewrite magnitudeSpectrum_scale.
    rewrite <- (map_id (magnitudeSpectrum _ _)) at 2.
    apply map_ext. intros x.
    assert (E : Rabs (-1) = 1%R)
      by (unfold Rabs; destruct (Rcase_abs (-1)); lra).
    rewrite E. apply Rmult_1_l.
Qed.

Lemma polarity_does_not_show_witness :
  getWaveformDataForTimeWindow
    (mkAudioTrack
       (mkAudioBuffer (3 # 2) 4 (map Qopp [1; -3; 2; 5; -1; 0]) [])
       "#ffffff" 1)
    (1 # 2) 1 2 1
  = getWaveformDataForTimeWindow demoTrack (1 # 2) 1 2 1
  /\ getFrequencySpectrumForTimeWindow
       (mkAudioTrack
          (mkAudioBuffer (3 # 2) 4 (map Qopp [1; -3; 2; 5; -1; 0]) [])
          "#ffffff" 1)
       (1 # 2) 1 4
     = getFrequencySpectrumForTimeWindow demoTrack (1 # 2) 1 4.
Proof.
  apply (polarity_does_not_show _ _ _ _ _ _ 2); reflexivity.
Defined.

(* ------------------------------------------------------------------ *)
(** *** The deprecated whole-track waveform *)

(** Inside the buffer the guarded loop of the windowed extractor and the
    unguarded loop of [computeWaveformData] read the same samples. *)
Lemma peakLoop_block (channelData : list Q) (n : nat) : forall j max,
  (j + n <= List.length channelData)%nat ->
  peakLoop channelData (Z.of_nat j) n max = blockPeakLoop channelData j n max.
Proof.
  induction n as [| n IH]; intros j max Hj; [reflexivity |].
  cbn [peakLoop blockPeakLoop].
  assert (Hin : ((0 <=? Z.of_nat j)%Z
                 && (Z.of_nat j <? Z.of_nat (List.length channelData))%Z)
                = true).
  { apply andb_true_iff. split; [apply Z.leb_le | apply Z.ltb_lt]; lia. }
  rewrite Hin. unfold sampleAt. rewrite Nat2Z.id. cbv zeta.
  replace (Z.of_nat j + 1)%Z with (Z.of_nat (S j)) by lia.
  apply IH. lia.
Qed.

Lemma whole_track_bucket (k targetWidth i : nat) :
  (0 < targetWidth)%nat -> (i <= targetWidth)%nat ->
  (Z.of_nat (k * targetWidth) < 2 ^ 53)%Z ->
  Qfloor
    (round64
       (ofNat i
        * round64 (inject_Z (Z.of_nat (k * targetWidth) - 0)
                   / ofNat targetWidth)))
  = Z.of_nat (i * k).
Proof.
  intros Hw Hi Hsmall. pose proof (ofNat_pos targetWidth Hw) as Hpos.
  assert (E1 : inject_Z (Z.of_nat (k * targetWidth) - 0) / ofNat targetWidth
               == inject_Z (Z.of_nat k)).
  { rewrite Z.sub_0_r, Nat2Z.inj_mul, inject_Z_mult.
    fold (ofNat targetWidth). field. lra. }
  rewrite E1, round64_Z by nia.
  assert (E2 : ofNat i * inject_Z (Z.of_nat k) == inject_Z (Z.of_nat (i * k)))
    by (unfold ofNat; now rewrite Nat2Z.inj_mul, inject_Z_mult).
  rewrite E2, round64_Z by nia. apply Qfloor_Z.
Qed.

(** **** X28.  The deprecated [computeWaveformData] and the windowed
    extractor agree on the whole channel.  When the window of the windowed
    extractor is the whole of channel 0, and the length of the channel is a
    multiple of [targetWidth] (below [2^53]), the quotient
    [totalSamples / targetWidth] and its multiples are whole numbers, no
    rounding occurs, and the array [computeWaveformData] stores is the
    buffer [getWaveformDataForTimeWindow] returns without smoothing. *)
Theorem computeWaveformData_is_whole_window (t : AudioTrack)
    (currentTime windowDuration : Q) (targetWidth k : nat) :
  waveformSampleWindow t currentTime windowDuration
  = (0%Z, Z.of_nat (List.length (channel0 (buffer t)))) ->
  (0 < targetWidth)%nat ->
  List.length (channel0 (buffer t)) = (k * targetWidth)%nat ->
  (Z.of_nat (List.length (channel0 (buffer t))) < 2 ^ 53)%Z ->
  computeWaveformData t targetWidth
  = getWaveformDataForTimeWindow t currentTime windowDuration targetWidth 0.
Proof.
  intros Hwin Hw Hlen Hsmall.
  unfold getWaveformDataForTimeWindow. rewrite Hwin.
  unfold computeWaveformData. cbv zeta. rewrite Hlen in *.
  rewrite Nat.div_mul by lia.
  destruct (Z.of_nat (k * targetWidth) - 0 <=? 0)%Z eqn:Hdeg.
  - apply Z.leb_le in Hdeg.
    assert (k = 0%nat) by nia. subst k.
    transitivity (map (fun _ : nat => 0) (seq 0 targetWidth));
      [| now rewrite map_const_repeat, length_seq].
    apply map_ext. intros i. now rewrite Nat.mul_0_r.
  - apply Z.leb_gt in Hdeg. cbn [Nat.ltb Nat.leb].
    unfold downsample. cbv zeta. apply map_ext_in. intros i Hi.
    apply in_seq in Hi.
    unfold bucketPeak, bucketStart, bucketEnd.
    rewrite (whole_track_bucket k targetWidth i Hw ltac:(lia) Hsmall).
    change (ofNat i + 1) with (ofNat i + inject_Z 1).
    replace (ofNat i + inject_Z 1) with (ofNat (S i)).
    2:{ unfold ofNat. rewrite Nat2Z.inj_succ. unfold Z.succ.
        unfold inject_Z, Qplus. cbn. f_equal. lia. }
    rewrite (whole_track_bucket k targetWidth (S i) Hw ltac:(lia) Hsmall).
    assert (Hfit : (i * k + k <= k * targetWidth)%nat) by nia.
    rewrite Nat.min_l by exact Hfit.
    rewrite Z.min_l by (cbn [Nat.mul]; lia).
    replace (i * k + k - i * k)%nat with k by lia.
    replace (Z.to_nat (0 + Z.of_nat (S i * k) - (0 + Z.of_nat (i * k))))
      with k by (cbn [Nat.mul]; lia).
    rewrite Z.add_0_l. symmetry. apply peakLoop_block. lia.
Qed.

Lemma computeWaveformData_is_whole_window_witness :
  computeWaveformData demoTrack 3
  = getWaveformDataForTimeWindow demoTrack (3 # 2) (3 # 2) 3 0.
Proof.
  apply (computeWaveformData_is_whole_window demoTrack (3 # 2) (3 # 2) 3 2).
  - reflexivity.
  - lia.
  - reflexivity.
  - reflexivity.
Defined.

(* ------------------------------------------------------------------ *)
(** *** The last sample of a window *)

Lemma lateClickSamples_length :
  Z.of_nat (List.length lateClickSamples) = 44100%Z.
Proof.
  unfold lateClickSamples. rewrite length_app, repeat_length.
  cbn [List.length]. lia.
Qed.

Lemma lateClickSamples_silent (k : Z) :
  (0 <= k < 44099)%Z -> sampleAt lateClickSamples k = 0.
Proof.
  intros Hk. unfold sampleAt, lateClickSamples.
  rewrite app_nth1 by (rewrite repeat_length; lia). apply nth_repeat.
Qed.

Lemma lateClickSamples_last : sampleAt lateClickSamples 44099 = 1.
Proof.
  unfold sampleAt, lateClickSamples.
  rewrite app_nth2 by (rewrite repeat_length; lia).
  now rewrite repeat_length, Nat.sub_diag.
Qed.

Lemma lateClick_window :
  waveformSampleWindow lateClickTrack 1 1 = (0, 44100)%Z.
Proof.
  unfold waveformSampleWindow.
  cbn [lateClickTrack buffer channel0 sampleRate duration].
  rewrite lateClickSamples_length. reflexivity.
Qed.

(** **** C2, at a window the code can meet.  One second of audio at
    44.1 kHz, drawn 1300 pixels wide: the window is the 44100 samples of the
    track, [samplesPerPixel] is the double [44100 / 1300], and 1300 times
    it is the double just below 44100, so the last bucket ends at sample
    44099.  The click on sample 44099 lies in no bucket and every column of
    the waveform is 0, although the window holds a sample of absolute
    value 1. *)
Theorem peak_hold_last_sample_dropped :
  wfBuffer (buffer lateClickTrack)
  /\ waveformSampleWindow lateClickTrack 1 1 = (0, 44100)%Z
  /\ sampleAt (channel0 (buffer lateClickTrack)) 44099 = 1
  /\ bucketStart 0 (round64 (inject_Z (44100 - 0) / ofNat 1300)) 1300
     = 44099%Z
  /\ getWaveformDataForTimeWindow lateClickTrack 1 1 1300 0 = repeat 0 1300.
Proof.
  assert (Hlast : bucketStart 0 (round64 (inject_Z (44100 - 0) / ofNat 1300))
                    1300 = 44099%Z) by (vm_compute; reflexivity).
  split.
  { unfold wfBuffer, bufferLength.
    cbn [lateClickTrack buffer channel0 sampleRate duration otherChannels].
    rewrite lateClickSamples_length.
    split; [reflexivity | split; [reflexivity | constructor]]. }
  split; [exact lateClick_window |].
  split; [exact lateClickSamples_last |].
  split; [exact Hlast |].
  unfold getWaveformDataForTimeWindow. rewrite lateClick_window.
  cbn [lateClickTrack buffer channel0].
  change ((44100 - 0 <=? 0)%Z) with false. cbv iota.
  change ((0 <? 0)%nat) with false. cbv iota.
  unfold downsample. cbv zeta.
  transitivity (map (fun _ : nat => 0) (seq 0 1300));
    [| now rewrite map_const_repeat, length_seq].
  apply map_ext_in. intros i Hi. apply in_seq in Hi.
  assert (Htotal : (0 < 44100 - 0)%Z) by reflexivity.
  assert (Hwidth : (0 < 1300)%nat) by lia.
  pose proof (bucketStart_ge 0 44100 1300 Htotal Hwidth i) as Hlo.
  pose proof (bucketEnd_next 0 44100 1300 i) as Hnext.
  pose proof (bucketStart_mono 0 44100 1300 Htotal Hwidth (S i) 1300
                ltac:(lia)) as Hmono.
  rewrite Hlast in Hmono.
  unfold bucketPeak.
  destruct (peakLoop_attained lateClickSamples
              (Z.to_nat
                 (bucketEnd 0 44100
                    (round64 (inject_Z (44100 - 0) / ofNat 1300)) i
                  - bucketStart 0
                      (round64 (inject_Z (44100 - 0) / ofNat 1300)) i))
              (bucketStart 0 (round64 (inject_Z (44100 - 0) / ofNat 1300)) i)
              0) as [Heq | (k & Hk & _ & Heq)]; [exact Heq |].
  rewrite Heq, lateClickSamples_silent by lia. reflexivity.
Qed.

